(** * Sudoku solver: exact cover with dancing links

    A shallow embedding of [main_dancing_links.cpp] (and of the constraint
    indexer and column chooser of [main_algorithm_x.cpp]), followed by the
    verification of the properties stated in the specification.

    Pointers are addresses in an arena ([heap]); [new Node] takes the next
    free address.  Loops that chase pointers take a fuel argument; the
    recursion of [search] takes a separate depth budget. *)

From stdpp Require Import gmap list.
From Stdlib Require Import ZArith Lia.

Open Scope Z_scope.

(** ** The node structure and the arena *)

Record Node := mkNode {
  leftNode : Z;
  rightNode : Z;
  upperNode : Z;
  lowerNode : Z;
  columnNode : Z;
  columnSize : Z;
  identifier : Z * Z * Z
}.

(** Address 0 is never allocated: it stands for a pointer that was never
    assigned. *)
Definition nullNode : Node := mkNode 0 0 0 0 0 0 (0, 0, 0).

Inductive Printed :=
| PrintGrid (g : list Z)
| PrintNoSolution.

Record Memory := mkMemory {
  heap : gmap Z Node;
  next : Z;
  headNode : Z;
  SUDOKU_SOLUTION : list Z;
  CURRENT_SOLUTION : list Z;
  stdout : list Printed
}.

Definition node (m : Memory) (a : Z) : Node := default nullNode (heap m !! a).

Definition with_heap (h : gmap Z Node) (m : Memory) : Memory :=
  mkMemory h (next m) (headNode m) (SUDOKU_SOLUTION m) (CURRENT_SOLUTION m) (stdout m).

Definition upd (a : Z) (f : Node -> Node) (m : Memory) : Memory :=
  with_heap (<[a := f (node m a)]> (heap m)) m.

Definition set_left (v : Z) (n : Node) : Node :=
  mkNode v (rightNode n) (upperNode n) (lowerNode n) (columnNode n) (columnSize n) (identifier n).
Definition set_right (v : Z) (n : Node) : Node :=
  mkNode (leftNode n) v (upperNode n) (lowerNode n) (columnNode n) (columnSize n) (identifier n).
Definition set_upper (v : Z) (n : Node) : Node :=
  mkNode (leftNode n) (rightNode n) v (lowerNode n) (columnNode n) (columnSize n) (identifier n).
Definition set_lower (v : Z) (n : Node) : Node :=
  mkNode (leftNode n) (rightNode n) (upperNode n) v (columnNode n) (columnSize n) (identifier n).
Definition set_column (v : Z) (n : Node) : Node :=
  mkNode (leftNode n) (rightNode n) (upperNode n) (lowerNode n) v (columnSize n) (identifier n).
Definition set_size (v : Z) (n : Node) : Node :=
  mkNode (leftNode n) (rightNode n) (upperNode n) (lowerNode n) (columnNode n) v (identifier n).
Definition set_identifier (v : Z * Z * Z) (n : Node) : Node :=
  mkNode (leftNode n) (rightNode n) (upperNode n) (lowerNode n) (columnNode n) (columnSize n) v.

(** Reading [p->field] and writing [p->field = v]. *)
Definition leftOf (m : Memory) (p : Z) : Z := leftNode (node m p).
Definition rightOf (m : Memory) (p : Z) : Z := rightNode (node m p).
Definition upperOf (m : Memory) (p : Z) : Z := upperNode (node m p).
Definition lowerOf (m : Memory) (p : Z) : Z := lowerNode (node m p).
Definition columnOf (m : Memory) (p : Z) : Z := columnNode (node m p).
Definition sizeOf (m : Memory) (p : Z) : Z := columnSize (node m p).
Definition identOf (m : Memory) (p : Z) : Z * Z * Z := identifier (node m p).

Definition wr_left (p v : Z) : Memory -> Memory := upd p (set_left v).
Definition wr_right (p v : Z) : Memory -> Memory := upd p (set_right v).
Definition wr_upper (p v : Z) : Memory -> Memory := upd p (set_upper v).
Definition wr_lower (p v : Z) : Memory -> Memory := upd p (set_lower v).
Definition wr_column (p v : Z) : Memory -> Memory := upd p (set_column v).
Definition wr_size (p v : Z) : Memory -> Memory := upd p (set_size v).
Definition wr_identifier (p : Z) (v : Z * Z * Z) : Memory -> Memory := upd p (set_identifier v).

(** [new Node]: the fields of the fresh node are unassigned. *)
Definition new_Node (m : Memory) : Z * Memory :=
  (next m,
   mkMemory (<[next m := nullNode]> (heap m)) (next m + 1) (headNode m)
            (SUDOKU_SOLUTION m) (CURRENT_SOLUTION m) (stdout m)).

Definition set_headNode (p : Z) (m : Memory) : Memory :=
  mkMemory (heap m) (next m) p (SUDOKU_SOLUTION m) (CURRENT_SOLUTION m) (stdout m).
Definition set_SUDOKU_SOLUTION (g : list Z) (m : Memory) : Memory :=
  mkMemory (heap m) (next m) (headNode m) g (CURRENT_SOLUTION m) (stdout m).
Definition set_CURRENT_SOLUTION (l : list Z) (m : Memory) : Memory :=
  mkMemory (heap m) (next m) (headNode m) (SUDOKU_SOLUTION m) l (stdout m).
Definition print (p : Printed) (m : Memory) : Memory :=
  mkMemory (heap m) (next m) (headNode m) (SUDOKU_SOLUTION m) (CURRENT_SOLUTION m)
           (stdout m ++ [p]).

(** The address holds a node. *)
Definition alloc (m : Memory) (a : Z) : Prop := is_Some (heap m !! a).

(** [for (p = start; p != stop; p = p->fld) body(p)] *)
Fixpoint for_ring (fld : Memory -> Z -> Z) (stop : Z)
    (body : Z -> Memory -> option Memory) (fuel : nat) (p : Z) (m : Memory)
    : option Memory :=
  if p =? stop then Some m
  else match fuel with
       | O => None
       | S fuel' =>
           match body p m with
           | None => None
           | Some m' => for_ring fld stop body fuel' (fld m' p) m'
           end
       end.

(** [for (int i = lo; i < hi; i++) body(i)] *)
Definition for_range {S : Type} (lo hi : Z) (body : Z -> S -> S) (s : S) : S :=
  foldl (fun s i => body i s) s (seqZ lo (hi - lo)).

(** ** The program *)

Section Program.

Variable SUDOKU_SIZE : Z.

Definition SUDOKU_SIZE_SQUARED : Z := SUDOKU_SIZE * SUDOKU_SIZE.
Definition SUDOKU_SIZE_SQUARE_ROOT : Z := Z.sqrt SUDOKU_SIZE.
Definition ROWS : Z := SUDOKU_SIZE * SUDOKU_SIZE * SUDOKU_SIZE.
Definition COLUMNS : Z := 4 * SUDOKU_SIZE * SUDOKU_SIZE.

(** [bool EXACT_COVER_PROBLEM[ROWS][COLUMNS]], zero-initialised. *)
Definition ECP_get (ECP : gmap (Z * Z) bool) (i j : Z) : bool :=
  default false (ECP !! (i, j)).

Definition ecp_candidate (i : Z) : Z := i `rem` SUDOKU_SIZE.
Definition ecp_row (i : Z) : Z := i `quot` SUDOKU_SIZE_SQUARED.
Definition ecp_column (i : Z) : Z := (i `quot` SUDOKU_SIZE) `rem` SUDOKU_SIZE.
Definition ecp_box (i : Z) : Z :=
  (ecp_row i `quot` SUDOKU_SIZE_SQUARE_ROOT) * SUDOKU_SIZE_SQUARE_ROOT
  + ecp_column i `quot` SUDOKU_SIZE_SQUARE_ROOT.

Definition initializeExactCoverProblem (ECP : gmap (Z * Z) bool) : gmap (Z * Z) bool :=
  for_range 0 ROWS (fun i ECP =>
    let candidate := ecp_candidate i in
    let row := ecp_row i in
    let column := ecp_column i in
    let box := ecp_box i in
    let ECP := <[(i, 0 * SUDOKU_SIZE_SQUARED + row * SUDOKU_SIZE + column) := true]> ECP in
    let ECP := <[(i, 1 * SUDOKU_SIZE_SQUARED + row * SUDOKU_SIZE + candidate) := true]> ECP in
    let ECP := <[(i, 2 * SUDOKU_SIZE_SQUARED + column * SUDOKU_SIZE + candidate) := true]> ECP in
    <[(i, 3 * SUDOKU_SIZE_SQUARED + box * SUDOKU_SIZE + candidate) := true]> ECP) ECP.

(** Body of the column-creating loop; the loop variable is [columnNode]. *)
Definition new_column (cm : Z * Memory) : Z * Memory :=
  let '(columnNode, m) := cm in
  let '(newNode, m) := new_Node m in
  let m := wr_left newNode columnNode m in
  let m := wr_right newNode (headNode m) m in
  let m := wr_upper newNode newNode m in
  let m := wr_lower newNode newNode m in
  let m := wr_size newNode 0 m in
  let m := wr_right columnNode newNode m in
  let columnNode := newNode in
  let m := wr_left (headNode m) columnNode m in
  (columnNode, m).

(** Body of the inner loop of the row-creating loop; the loop variables are
    [columnNode] and [previousNode]. *)
Definition new_row_node (ECP : gmap (Z * Z) bool) (i j : Z)
    (st : Z * option Z * Memory) : Z * option Z * Memory :=
  let '(columnNode, previousNode, m) := st in
  let '(previousNode, m) :=
    if ECP_get ECP i j then
      let '(newNode, m) := new_Node m in
      let m := wr_identifier newNode (ecp_candidate i, ecp_row i, ecp_column i) m in
      let m := wr_column newNode columnNode m in
      let m := wr_size columnNode (sizeOf m columnNode + 1) m in
      let m :=
        match previousNode with
        | None =>
            let m := wr_right newNode newNode m in
            wr_left newNode newNode m
        | Some previousNode =>
            let m := wr_left newNode previousNode m in
            let m := wr_right newNode (rightOf m previousNode) m in
            let m := wr_left (rightOf m newNode) newNode m in
            wr_right previousNode newNode m
        end in
      let m := wr_upper newNode (upperOf m columnNode) m in
      let m := wr_lower newNode columnNode m in
      let m := wr_lower (upperOf m columnNode) newNode m in
      let m := wr_upper columnNode newNode m in
      (Some newNode, m)
    else (previousNode, m) in
  (rightOf m columnNode, previousNode, m).

Definition initializeDoublyLinkedList (ECP : gmap (Z * Z) bool) (m : Memory) : Memory :=
  let '(head, m) := new_Node m in
  let m := set_headNode head m in
  let '(_, m) := for_range 0 COLUMNS (fun _ => new_column) (head, m) in
  for_range 0 ROWS (fun i m =>
    let '(_, _, m) :=
      for_range 0 COLUMNS (new_row_node ECP i) (rightOf m (headNode m), None, m) in
    m) m.

Definition coverColumn (fuel : nat) (column : Z) (m : Memory) : option Memory :=
  let m := wr_left (rightOf m column) (leftOf m column) m in
  let m := wr_right (leftOf m column) (rightOf m column) m in
  for_ring lowerOf column (fun rowNode m =>
    for_ring rightOf rowNode (fun rightLink m =>
      let m := wr_upper (lowerOf m rightLink) (upperOf m rightLink) m in
      let m := wr_lower (upperOf m rightLink) (lowerOf m rightLink) m in
      Some (wr_size (columnOf m rightLink)
                    (sizeOf m (columnOf m rightLink) - 1) m))
      fuel (rightOf m rowNode) m)
    fuel (lowerOf m column) m.

Definition uncoverColumn (fuel : nat) (column : Z) (m : Memory) : option Memory :=
  match
    for_ring upperOf column (fun rowNode m =>
      for_ring leftOf rowNode (fun leftLink m =>
        let m := wr_size (columnOf m leftLink)
                         (sizeOf m (columnOf m leftLink) + 1) m in
        let m := wr_lower (upperOf m leftLink) leftLink m in
        Some (wr_upper (lowerOf m leftLink) leftLink m))
        fuel (leftOf m rowNode) m)
      fuel (upperOf m column) m
  with
  | None => None
  | Some m =>
      let m := wr_right (leftOf m column) column m in
      Some (wr_left (rightOf m column) column m)
  end.

Definition solution_index (id : Z * Z * Z) : nat :=
  Z.to_nat (id.1.2 * SUDOKU_SIZE + id.2).

Definition updateDoublyLinkedList (fuel : nat) (input : Z -> Z -> Z) (m : Memory)
    : option Memory :=
  for_ring rightOf (headNode m) (fun columnNode m =>
    for_ring lowerOf columnNode (fun rowNode m =>
      let id := identOf m rowNode in
      if id.1.1 =? input id.1.2 id.2 then
        let m := set_SUDOKU_SOLUTION
                   (<[solution_index id := input id.1.2 id.2]> (SUDOKU_SOLUTION m)) m in
        match coverColumn fuel columnNode m with
        | None => None
        | Some m =>
            for_ring rightOf rowNode (fun rightLink m =>
              coverColumn fuel (columnOf m rightLink) m)
              fuel (rightOf m rowNode) m
        end
      else Some m)
      fuel (lowerOf m columnNode) m)
    fuel (rightOf m (headNode m)) m.

Definition printSolution (solution : list Z) (m : Memory) : Memory :=
  print (PrintGrid solution) m.

(** The loop that looks for the column with the fewest row nodes; the loop
    variables are [currentColumn] and [chosenColumn]. *)
Fixpoint smallestColumn (fuel : nat) (m : Memory) (chosenColumn currentColumn : Z)
    : option Z :=
  if currentColumn =? headNode m then Some chosenColumn
  else match fuel with
       | O => None
       | S fuel' =>
           let chosenColumn :=
             if sizeOf m currentColumn <? sizeOf m chosenColumn then currentColumn
             else chosenColumn in
           smallestColumn fuel' m chosenColumn (rightOf m currentColumn)
       end.

Definition back (l : list Z) : Z := List.last l 0.

(** The loop over the rows of the chosen column; [rec] is the recursive
    call of [search].  The result is the returned boolean and the memory. *)
Fixpoint search_rows (rec : Memory -> option (bool * Memory)) (fuel : nat)
    (k : nat) (chosenColumn rowNode : Z) (m : Memory) : option (bool * Memory) :=
  if rowNode =? chosenColumn then
    match uncoverColumn fuel chosenColumn m with
    | None => None
    | Some m => Some (true, m)
    end
  else match k with
       | O => None
       | S k' =>
           let m := set_CURRENT_SOLUTION (CURRENT_SOLUTION m ++ [rowNode]) m in
           match for_ring rightOf rowNode (fun rightLink m =>
                   coverColumn fuel (columnOf m rightLink) m)
                   fuel (rightOf m rowNode) m with
           | None => None
           | Some m =>
               match rec m with
               | None => None
               | Some (false, m) => Some (false, m)
               | Some (true, m) =>
                   let chosenColumn := columnOf m (back (CURRENT_SOLUTION m)) in
                   match for_ring leftOf (back (CURRENT_SOLUTION m)) (fun leftLink m =>
                           uncoverColumn fuel (columnOf m leftLink) m)
                           fuel (leftOf m (back (CURRENT_SOLUTION m))) m with
                   | None => None
                   | Some m =>
                       let m := set_CURRENT_SOLUTION (removelast (CURRENT_SOLUTION m)) m in
                       search_rows rec fuel k' chosenColumn (lowerOf m rowNode) m
                   end
               end
           end
       end.

Definition record_solution (m : Memory) : Memory :=
  set_SUDOKU_SOLUTION
    (foldl (fun sol p => <[solution_index (identOf m p) := (identOf m p).1.1]> sol)
           (SUDOKU_SOLUTION m) (CURRENT_SOLUTION m)) m.

Fixpoint search (depth : nat) (fuel : nat) (m : Memory) : option (bool * Memory) :=
  match depth with
  | O => None
  | S depth' =>
      if rightOf m (headNode m) =? headNode m then
        let m := record_solution m in
        Some (false, printSolution (SUDOKU_SOLUTION m) m)
      else
        match smallestColumn fuel m (rightOf m (headNode m))
                (rightOf m (rightOf m (headNode m))) with
        | None => None
        | Some chosenColumn =>
            match coverColumn fuel chosenColumn m with
            | None => None
            | Some m =>
                search_rows (search depth' fuel) fuel fuel chosenColumn
                  (lowerOf m chosenColumn) m
            end
        end
  end.

(** The globals before [main] runs. *)
Definition initial_memory : Memory :=
  mkMemory ∅ 1 0 (-1 :: replicate (Z.to_nat SUDOKU_SIZE_SQUARED - 1) 0) [] [].

(** [sudokuSolver] once the grid has been read into [SUDOKU_INPUT]. *)
Definition sudokuSolver (depth fuel : nat) (SUDOKU_INPUT : Z -> Z -> Z)
    : option Memory :=
  let EXACT_COVER_PROBLEM := initializeExactCoverProblem ∅ in
  let m := initializeDoublyLinkedList EXACT_COVER_PROBLEM initial_memory in
  match updateDoublyLinkedList fuel SUDOKU_INPUT m with
  | None => None
  | Some m =>
      match search depth fuel m with
      | None => None
      | Some (true, m) => Some (print PrintNoSolution m)
      | Some (false, m) => Some m
      end
  end.

End Program.

(** A grid given by its rows. *)
Definition grid_of (rows : list (list Z)) : Z -> Z -> Z :=
  fun r c => nth (Z.to_nat c) (nth (Z.to_nat r) rows []) (-1).

(** ** The shape of the arena

    [initializeDoublyLinkedList] allocates the head node at address 1, the
    column nodes at the next [COLUMNS] addresses and four nodes per row of
    the exact cover problem after them. *)

(** The grid side is a positive perfect square. *)
Class GoodSize (N : Z) : Prop := {
  size_pos : 0 < N;
  size_square : Z.sqrt N * Z.sqrt N = N
}.

Section Shape.

Variable N : Z.

Definition hdr (j : Z) : Z := j + 2.
Definition nd (i k : Z) : Z := COLUMNS N + 2 + 4 * i + k.
Definition rowOf (a : Z) : Z := (a - (COLUMNS N + 2)) `div` 4.
Definition kOf (a : Z) : Z := (a - (COLUMNS N + 2)) `mod` 4.

(** The column of the [k]-th one of row [i] of the exact cover problem, as
    [initializeExactCoverProblem] computes it. *)
Definition cols (i k : Z) : Z :=
  if k =? 0 then 0 * SUDOKU_SIZE_SQUARED N + ecp_row N i * N + ecp_column N i
  else if k =? 1 then 1 * SUDOKU_SIZE_SQUARED N + ecp_row N i * N + ecp_candidate N i
  else if k =? 2 then 2 * SUDOKU_SIZE_SQUARED N + ecp_column N i * N + ecp_candidate N i
  else 3 * SUDOKU_SIZE_SQUARED N + ecp_box N i * N + ecp_candidate N i.

Definition colOf (a : Z) : Z := cols (rowOf a) (kOf a).
Definition idOf (i : Z) : Z * Z * Z := (ecp_candidate N i, ecp_row N i, ecp_column N i).

Definition allnodes : list Z := seqZ (COLUMNS N + 2) (4 * ROWS N).
Definition colnodes (j : Z) : list Z := filter (fun a => colOf a = j) allnodes.

(** Columns are covered one at a time; [K] lists the covered columns, the
    most recent first. *)
Definition act (K : list Z) : list Z := filter (fun j => j ∉ K) (seqZ 0 (COLUMNS N)).

Fixpoint suffix_after (j : Z) (K : list Z) : list Z :=
  match K with
  | [] => []
  | c :: K' => if decide (c = j) then K' else suffix_after j K'
  end.

(** The columns that were covered before column [j] was (all of [K] when
    [j] is still active). *)
Definition before (K : list Z) (j : Z) : list Z :=
  if decide (j ∈ K) then suffix_after j K else K.

(** A node is unlinked from its column when another column of its row was
    covered before its own. *)
Definition hidden (K : list Z) (a : Z) : bool :=
  existsb (fun k => negb (k =? kOf a) && bool_decide (cols (rowOf a) k ∈ before K (colOf a)))
          [0; 1; 2; 3].

Definition vlist (hid : Z -> bool) (j : Z) : list Z :=
  filter (fun a => hid a = false) (colnodes j).

(** A doubly linked segment from [a] through [l] to [b]. *)
Fixpoint dlinked (fwd bwd : Z -> Z) (a : Z) (l : list Z) (b : Z) : Prop :=
  match l with
  | [] => fwd a = b /\ bwd b = a
  | x :: l' => fwd a = x /\ bwd x = a /\ dlinked fwd bwd x l' b
  end.

(** The memory represents the structure in which the columns of [K] are
    covered and the nodes of [hid] are unlinked. *)
Record Rep (K : list Z) (hid : Z -> bool) (m : Memory) : Prop := mkRep {
  rep_head : headNode m = 1;
  rep_alloc : forall a, 1 <= a < COLUMNS N + 2 + 4 * ROWS N -> is_Some (heap m !! a);
  rep_hring : dlinked (rightOf m) (leftOf m) 1 (hdr <$> act K) 1;
  rep_stale : forall j, 0 <= j < COLUMNS N ->
      rightOf m (hdr j) = 1 \/
      exists j', j < j' < COLUMNS N /\ rightOf m (hdr j) = hdr j' /\ j' ∉ before K j;
  rep_vring : forall j, 0 <= j < COLUMNS N ->
      dlinked (lowerOf m) (upperOf m) (hdr j) (vlist hid j) (hdr j);
  rep_size : forall j, 0 <= j < COLUMNS N ->
      sizeOf m (hdr j) = Z.of_nat (length (vlist hid j));
  rep_right : forall i k, 0 <= i < ROWS N -> 0 <= k < 4 ->
      rightOf m (nd i k) = nd i ((k + 1) `mod` 4);
  rep_left : forall i k, 0 <= i < ROWS N -> 0 <= k < 4 ->
      leftOf m (nd i k) = nd i ((k + 3) `mod` 4);
  rep_column : forall i k, 0 <= i < ROWS N -> 0 <= k < 4 ->
      columnOf m (nd i k) = hdr (cols i k);
  rep_ident : forall i k, 0 <= i < ROWS N -> 0 <= k < 4 ->
      identOf m (nd i k) = idOf i
}.

Definition Inv (K : list Z) (m : Memory) : Prop := Rep K (hidden K) m.

(** One step of [coverColumn]'s inner loop and of [uncoverColumn]'s. *)
Definition hide (a : Z) (m : Memory) : Memory :=
  let m := wr_upper (lowerOf m a) (upperOf m a) m in
  let m := wr_lower (upperOf m a) (lowerOf m a) m in
  wr_size (columnOf m a) (sizeOf m (columnOf m a) - 1) m.

Definition unhide (a : Z) (m : Memory) : Memory :=
  let m := wr_size (columnOf m a) (sizeOf m (columnOf m a) + 1) m in
  let m := wr_lower (upperOf m a) a m in
  wr_upper (lowerOf m a) a m.

Definition unlink_column (c : Z) (m : Memory) : Memory :=
  let m := wr_left (rightOf m c) (leftOf m c) m in
  wr_right (leftOf m c) (rightOf m c) m.

Definition relink_column (c : Z) (m : Memory) : Memory :=
  let m := wr_right (leftOf m c) c m in
  wr_left (rightOf m c) c m.

(** The other three nodes of the row of [a], in the order of the right
    links. *)
Definition others (a : Z) : list Z :=
  [nd (rowOf a) ((kOf a + 1) `mod` 4); nd (rowOf a) ((kOf a + 2) `mod` 4);
   nd (rowOf a) ((kOf a + 3) `mod` 4)].

(** The nodes of [T] are unlinked as well. *)
Definition hide_set (T : list Z) (hid : Z -> bool) : Z -> bool :=
  fun b => bool_decide (b ∈ T) || hid b.

(** The nodes that covering column [j] unlinks, in order. *)
Definition targets (hid : Z -> bool) (j : Z) : list Z :=
  concat (others <$> vlist hid j).

Definition cover_fun (j : Z) (hid : Z -> bool) (m : Memory) : Memory :=
  foldl (fun m a => hide a m) (unlink_column (hdr j) m) (targets hid j).

End Shape.

(** Fuel that suffices for every pointer loop of the program. *)
Definition FUEL (N : Z) : nat := (Z.to_nat (COLUMNS N + 4 * ROWS N) + 3)%nat.

(** ** The structure while it is being built *)

Definition alloc_Node (m : Memory) : Memory := (new_Node m).2.

Section Build.

Variable N : Z.

(** The nodes of column [j] among the first [n] row nodes. *)
Definition colnodes_upto (n : Z) (j : Z) : list Z :=
  filter (fun a => colOf N a = j) (seqZ (COLUMNS N + 2) n).

(** The number of nodes of row [i] among the first [n] row nodes. *)
Definition rowlen (n i : Z) : Z := Z.min 4 (n - 4 * i).

(** The memory after the column nodes and the first [n] row nodes have
    been created. *)
Record BRep (n : Z) (m : Memory) : Prop := mkBRep {
  brep_head : headNode m = 1;
  brep_next : next m = COLUMNS N + 2 + n;
  brep_alloc : forall a, 1 <= a < COLUMNS N + 2 + n -> is_Some (heap m !! a);
  brep_hring : dlinked (rightOf m) (leftOf m) 1 (hdr <$> seqZ 0 (COLUMNS N)) 1;
  brep_vring : forall j, 0 <= j < COLUMNS N ->
      dlinked (lowerOf m) (upperOf m) (hdr j) (colnodes_upto n j) (hdr j);
  brep_size : forall j, 0 <= j < COLUMNS N ->
      sizeOf m (hdr j) = Z.of_nat (length (colnodes_upto n j));
  brep_right : forall i k, 0 <= i -> 0 <= k < rowlen n i ->
      rightOf m (nd N i k) = nd N i ((k + 1) `mod` rowlen n i);
  brep_left : forall i k, 0 <= i -> 0 <= k < rowlen n i ->
      leftOf m (nd N i k) = nd N i ((k + rowlen n i - 1) `mod` rowlen n i);
  brep_column : forall i k, 0 <= i -> 0 <= k < rowlen n i ->
      columnOf m (nd N i k) = hdr (cols N i k);
  brep_ident : forall i k, 0 <= i -> 0 <= k < rowlen n i ->
      identOf m (nd N i k) = idOf N i
}.

(** The memory after the head node and the first [n] column nodes have
    been created. *)
Record HRep (n : Z) (m : Memory) : Prop := mkHRep {
  hrep_head : headNode m = 1;
  hrep_next : next m = n + 2;
  hrep_alloc : forall a, 1 <= a < n + 2 -> is_Some (heap m !! a);
  hrep_ring : 0 < n -> dlinked (rightOf m) (leftOf m) 1 (hdr <$> seqZ 0 n) 1;
  hrep_self : forall j, 0 <= j < n ->
      upperOf m (hdr j) = hdr j /\ lowerOf m (hdr j) = hdr j /\ sizeOf m (hdr j) = 0;
  hrep_frame : SUDOKU_SOLUTION m = SUDOKU_SOLUTION (initial_memory N) /\
      CURRENT_SOLUTION m = [] /\ stdout m = []
}.

(** The memory after [new_row_node] has created and linked a node of row
    [i] in the column [columnNode]. *)
Definition link_node (i : Z) (columnNode : Z) (previousNode : option Z) (m : Memory)
    : Memory :=
  let newNode := next m in
  let m := alloc_Node m in
  let m := wr_identifier newNode (ecp_candidate N i, ecp_row N i, ecp_column N i) m in
  let m := wr_column newNode columnNode m in
  let m := wr_size columnNode (sizeOf m columnNode + 1) m in
  let m :=
    match previousNode with
    | None =>
        let m := wr_right newNode newNode m in
        wr_left newNode newNode m
    | Some previousNode =>
        let m := wr_left newNode previousNode m in
        let m := wr_right newNode (rightOf m previousNode) m in
        let m := wr_left (rightOf m newNode) newNode m in
        wr_right previousNode newNode m
    end in
  let m := wr_upper newNode (upperOf m columnNode) m in
  let m := wr_lower newNode columnNode m in
  let m := wr_lower (upperOf m columnNode) newNode m in
  wr_upper columnNode newNode m.

(** The number of ones of row [i] in the columns before [j]. *)
Definition ones_before (i j : Z) : Z :=
  Z.b2z (cols N i 0 <? j) + Z.b2z (cols N i 1 <? j) +
  Z.b2z (cols N i 2 <? j) + Z.b2z (cols N i 3 <? j).

(** One iteration of [initializeExactCoverProblem]. *)
Definition ecp_step (i : Z) (ECP : gmap (Z * Z) bool) : gmap (Z * Z) bool :=
  <[(i, cols N i 3) := true]>
    (<[(i, cols N i 2) := true]>
       (<[(i, cols N i 1) := true]> (<[(i, cols N i 0) := true]> ECP))).

Definition row_has (i j : Z) : bool :=
  bool_decide (j ∈ [cols N i 0; cols N i 1; cols N i 2; cols N i 3]).

End Build.

(** ** What the preload and the search do to the set of covered columns *)

Section Abstract.

Variable N : Z.

Definition frame0 (m : Memory) : Prop :=
  SUDOKU_SOLUTION m = SUDOKU_SOLUTION (initial_memory N) /\
  CURRENT_SOLUTION m = [] /\ stdout m = [].

(** The structure that [initializeDoublyLinkedList] builds. *)
Definition built : Memory :=
  initializeDoublyLinkedList N (initializeExactCoverProblem N ∅) (initial_memory N).

(** The columns of the row of node [a], in the order in which they are
    covered when [a] is chosen in its column. *)
Definition row_columns (a : Z) : list Z := colOf N a :: (colOf N <$> others N a).

(** The covered columns when the rows of [rws] were chosen, the most
    recent first. *)
Definition Kof (rws : list Z) : list Z := concat ((fun a => rev (row_columns a)) <$> rws).

(** Covering the columns [js] one after the other. *)
Fixpoint cover_cols (K : list Z) (js : list Z) (m : Memory) : Memory :=
  match js with
  | [] => m
  | j :: js' => cover_cols (j :: K) js' (cover_fun N j (hidden N K) m)
  end.

(** The test of [updateDoublyLinkedList] on the row with index [i]. *)
Definition is_clue (input : Z -> Z -> Z) (i : Z) : bool :=
  ecp_candidate N i =? input (ecp_row N i) (ecp_column N i).

(** The node of column [q] that the preload matches, if any. *)
Definition clue_node (input : Z -> Z -> Z) (K : list Z) (q : Z) : option Z :=
  head (filter (fun a => is_clue input (rowOf N a) = true) (vlist N (hidden N K) q)).

(** The rows that the preload has committed after the first [n] columns,
    the most recent first. *)
Definition preload_step (input : Z -> Z -> Z) (rws : list Z) (q : Z) : list Z :=
  match clue_node input (Kof rws) q with
  | Some a => a :: rws
  | None => rws
  end.

Definition preload_rows (input : Z -> Z -> Z) (n : Z) : list Z :=
  foldl (preload_step input) [] (seqZ 0 n).

(** Writing the values of rows into the solution array. *)
Definition write_row (sol : list Z) (a : Z) : list Z :=
  <[solution_index N (idOf N (rowOf N a)) := ecp_candidate N (rowOf N a)]> sol.

(** The memory after the preload has matched node [a]. *)
Definition commit_row (K : list Z) (a : Z) (m : Memory) : Memory :=
  cover_cols K (row_columns a)
    (set_SUDOKU_SOLUTION (write_row (SUDOKU_SOLUTION m) a) m).

End Abstract.

Section Preload.

Variable N : Z.

(** The body of the loop of [updateDoublyLinkedList] over the rows of a
    column, and the body of its loop over the columns. *)
Definition update_inner (fuel : nat) (input : Z -> Z -> Z) (columnNode : Z)
    (rowNode : Z) (m : Memory) : option Memory :=
  let id := identOf m rowNode in
  if id.1.1 =? input id.1.2 id.2 then
    let m := set_SUDOKU_SOLUTION
               (<[solution_index N id := input id.1.2 id.2]> (SUDOKU_SOLUTION m)) m in
    match coverColumn fuel columnNode m with
    | None => None
    | Some m =>
        for_ring rightOf rowNode (fun rightLink m =>
          coverColumn fuel (columnOf m rightLink) m)
          fuel (rightOf m rowNode) m
    end
  else Some m.

Definition update_outer (fuel : nat) (input : Z -> Z -> Z) (columnNode : Z)
    (m : Memory) : option Memory :=
  for_ring lowerOf columnNode (update_inner fuel input columnNode)
    fuel (lowerOf m columnNode) m.

(** The committed rows and the memory after the preload has visited the
    first [n] columns. *)
Definition preload_mem_step (input : Z -> Z -> Z) (s : list Z * Memory) (q : Z)
    : list Z * Memory :=
  match clue_node N input (Kof N s.1) q with
  | Some a => (a :: s.1, commit_row N (Kof N s.1) a s.2)
  | None => s
  end.

Definition preload_state (input : Z -> Z -> Z) (m : Memory) (n : Z) : list Z * Memory :=
  foldl (preload_mem_step input) ([], m) (seqZ 0 n).

(** What is known of the rows committed after the first [q] cells. *)
Record Committed (input : Z -> Z -> Z) (q : Z) (rws : list Z) : Prop := mkCommitted {
  com_NoDup : NoDup (Kof N rws);
  com_range : forall j, j ∈ Kof N rws -> 0 <= j < COLUMNS N;
  com_cells : forall q', q <= q' < N * N -> q' ∉ Kof N rws;
  com_rows : forall a, a ∈ rws ->
      a ∈ allnodes N /\ is_clue N input (rowOf N a) = true /\ kOf N a = 0 /\ colOf N a < q
}.

End Preload.

(** ** The states of the search *)

(** The nodes that the loop [for (p = start; p != stop; p = p->fld)]
    visits. *)
Fixpoint ring_nodes (fld : Memory -> Z -> Z) (stop : Z) (fuel : nat) (p : Z) (m : Memory)
    : list Z :=
  if p =? stop then []
  else match fuel with
       | O => []
       | S fuel' => p :: ring_nodes fld stop fuel' (fld m p) m
       end.

(** [cover(row)]: the column of the row node is covered, then the columns
    of the other nodes of the row, along the right links. *)
Definition cover_row (fuel : nat) (rowNode : Z) (m : Memory) : option Memory :=
  match coverColumn fuel (columnOf m rowNode) m with
  | None => None
  | Some m =>
      for_ring rightOf rowNode (fun rightLink m =>
        coverColumn fuel (columnOf m rightLink) m)
        fuel (rightOf m rowNode) m
  end.

(** [uncover(row)]: the columns of the other nodes of the row are
    uncovered along the left links, then the column of the row node. *)
Definition uncover_row (fuel : nat) (rowNode : Z) (m : Memory) : option Memory :=
  match for_ring leftOf rowNode (fun leftLink m =>
          uncoverColumn fuel (columnOf m leftLink) m)
          fuel (leftOf m rowNode) m with
  | None => None
  | Some m => uncoverColumn fuel (columnOf m rowNode) m
  end.

(** What [search] does with a row of the chosen column before it calls
    itself. *)
Definition choose_row (fuel : nat) (rowNode : Z) (m : Memory) : option Memory :=
  match coverColumn fuel (columnOf m rowNode) m with
  | None => None
  | Some m =>
      let m := set_CURRENT_SOLUTION (CURRENT_SOLUTION m ++ [rowNode]) m in
      for_ring rightOf rowNode (fun rightLink m =>
        coverColumn fuel (columnOf m rightLink) m)
        fuel (rightOf m rowNode) m
  end.

Section Reach.

Variable N : Z.

(** The columns on the ring of the head node, and the rows on the ring of
    a column. *)
Definition active_columns (m : Memory) : list Z :=
  ring_nodes rightOf (headNode m) (FUEL N) (rightOf m (headNode m)) m.

Definition column_rows (m : Memory) (c : Z) : list Z :=
  ring_nodes lowerOf c (FUEL N) (lowerOf m c) m.

(** A candidate row: a row node that is linked in an active column. *)
Definition candidate (m : Memory) (r : Z) : bool :=
  existsb (fun c => bool_decide (r ∈ column_rows m c)) (active_columns m).

(** The memory [leaf] is reached from [m] when [search] chooses the rows
    of [rws] one after the other. *)
Inductive descends : Memory -> list Z -> Memory -> Prop :=
  | descends_nil m : descends m [] m
  | descends_cons fuel m r m1 rws leaf :
      (FUEL N <= fuel)%nat -> candidate m r = true -> choose_row fuel r m = Some m1 ->
      descends m1 rws leaf -> descends m (r :: rws) leaf.

(** The memories at which [search] can be entered for the grid [input]. *)
Definition reachable (input : Z -> Z -> Z) (m : Memory) : Prop :=
  exists fuel m0 rws,
    (FUEL N <= fuel)%nat /\
    updateDoublyLinkedList N fuel input (built N) = Some m0 /\ descends m0 rws m.

End Reach.

(** ** What the search does *)

(** The globals that the operations on the structure leave alone. *)
Definition same_globals (m m' : Memory) : Prop :=
  SUDOKU_SOLUTION m' = SUDOKU_SOLUTION m /\
  CURRENT_SOLUTION m' = CURRENT_SOLUTION m /\ stdout m' = stdout m.

(** The first element of [j0 :: l] on which [sz] is least. *)
Definition first_min (sz : Z -> Z) (j0 : Z) (l : list Z) : Z :=
  foldl (fun best j => if sz j <? sz best then j else best) j0 l.

Section Search.

Variable N : Z.

(** The rows chosen so far cover distinct columns. *)
Record Chosen (rws : list Z) : Prop := mkChosen {
  chosen_NoDup : NoDup (Kof N rws);
  chosen_range : forall j, j ∈ Kof N rws -> 0 <= j < COLUMNS N;
  chosen_nodes : forall a, a ∈ rws -> a ∈ allnodes N
}.

(** [search] was entered with memory [m] when the rows of [rws] were
    chosen, and found a solution at the memory [leaf], where no column is
    left and the rows of [new] were added. *)
Record Solved_from (rws : list Z) (m : Memory) (new : list Z) (leaf : Memory) : Prop :=
mkSolved_from {
  solved_Inv : Inv N (Kof N (new ++ rws)) leaf;
  solved_Chosen : Chosen (new ++ rws);
  solved_cover : act N (Kof N (new ++ rws)) = [];
  solved_descends : descends N m (rev new) leaf;
  solved_current : CURRENT_SOLUTION leaf = CURRENT_SOLUTION m ++ rev new;
  solved_solution : SUDOKU_SOLUTION leaf = SUDOKU_SOLUTION m;
  solved_stdout : stdout leaf = stdout m
}.

(** What [search] returns at the leaf. *)
Definition answer (leaf : Memory) : Memory :=
  printSolution (SUDOKU_SOLUTION (record_solution N leaf)) (record_solution N leaf).

Definition search_post (rws : list Z) (m : Memory) (depth : nat)
    (res : option (bool * Memory)) : Prop :=
  match res with
  | None => (4 * depth <= length (act N (Kof N rws)))%nat
  | Some (true, m') => m' = m
  | Some (false, m') => exists new leaf, m' = answer leaf /\ Solved_from rws m new leaf
  end.

End Search.

(** ** Grids *)

Section Grid.

Variable N : Z.

(** The grid in which the rows of [rws] are written over [init], the first
    row of the list last. *)
Definition grid_rows (init : list Z) (rws : list Z) : list Z :=
  foldr (fun a sol => write_row N sol a) init rws.

(** The index of the cell of a row node in the solution array. *)
Definition cellidx (a : Z) : nat := solution_index N (idOf N (rowOf N a)).

(** The value of cell [(r, c)] of a grid that is stored row by row. *)
Definition cell (g : list Z) (r c : Z) : option Z := g !! Z.to_nat (r * N + c).

Definition box_of (r c : Z) : Z := (r `div` Z.sqrt N) * Z.sqrt N + c `div` Z.sqrt N.

(** Every cell holds a value, and every value occurs exactly once in every
    row, column and box. *)
Record valid_grid (g : list Z) : Prop := mkvalid_grid {
  valid_length : length g = Z.to_nat (N * N);
  valid_filled : forall r c, 0 <= r < N -> 0 <= c < N ->
      exists v, cell g r c = Some v /\ 0 <= v < N;
  valid_rows : forall r v, 0 <= r < N -> 0 <= v < N ->
      exists c, 0 <= c < N /\ cell g r c = Some v /\
        forall c', 0 <= c' < N -> cell g r c' = Some v -> c' = c;
  valid_columns : forall c v, 0 <= c < N -> 0 <= v < N ->
      exists r, 0 <= r < N /\ cell g r c = Some v /\
        forall r', 0 <= r' < N -> cell g r' c = Some v -> r' = r;
  valid_boxes : forall b v, 0 <= b < N -> 0 <= v < N ->
      exists r c, 0 <= r < N /\ 0 <= c < N /\ box_of r c = b /\ cell g r c = Some v /\
        forall r' c', 0 <= r' < N -> 0 <= c' < N -> box_of r' c' = b ->
          cell g r' c' = Some v -> r' = r /\ c' = c
}.

(** A clue is a cell of the input that does not hold [-1]. *)
Definition is_given (input : Z -> Z -> Z) (r c : Z) : bool := negb (input r c =? -1).

Definition clues (input : Z -> Z -> Z) : Z :=
  Z.of_nat (length (filter (fun q => is_given input (q `div` N) (q `mod` N) = true)
                           (seqZ 0 (N * N)))).

(** The grid keeps every clue of the input. *)
Definition preserves (input : Z -> Z -> Z) (g : list Z) : Prop :=
  forall r c, 0 <= r < N -> 0 <= c < N -> is_given input r c = true ->
    cell g r c = Some (input r c).

(** Two clues conflict when they give the same value in one row, one
    column or one box. *)
Definition conflict (input : Z -> Z -> Z) (r c r' c' : Z) : Prop :=
  (r, c) <> (r', c') /\ input r c = input r' c' /\ input r c <> -1 /\
  (r = r' \/ c = c' \/ box_of r c = box_of r' c').

(** The input holds values of the grid or [-1], and no two clues
    conflict. *)
Definition consistent (input : Z -> Z -> Z) : Prop :=
  (forall r c, 0 <= r < N -> 0 <= c < N -> -1 <= input r c < N) /\
  (forall r c r' c', 0 <= r < N -> 0 <= c < N -> 0 <= r' < N -> 0 <= c' < N ->
     ~ conflict input r c r' c').

End Grid.

(** ** The solver *)

Section Solver.

Variable N : Z.

(** The rows that the preload commits for the grid [input], and the memory
    that it leaves. *)
Definition committed (input : Z -> Z -> Z) : list Z := preload_rows N input (N * N).

Definition preloaded (input : Z -> Z -> Z) : Memory :=
  (preload_state N input (built N) (N * N)).2.

(** The cells that are empty after the preload. *)
Definition open_cells (input : Z -> Z -> Z) : Z := N * N - Z.of_nat (length (committed input)).

End Solver.

(** ** The rows of a column *)

Section Counting.

Variable N : Z.

(** Column [k * N² + x * N + y] of family [k] holds the rows whose two
    coordinates in that family are [x] and [y]; the third coordinate [t]
    tells them apart. *)
Definition row_of (k x y t : Z) : Z :=
  if k =? 0 then t + N * y + N * N * x
  else if k =? 1 then y + N * t + N * N * x
  else if k =? 2 then y + N * x + N * N * t
  else y + N * ((x `mod` Z.sqrt N) * Z.sqrt N + t `mod` Z.sqrt N)
         + N * N * ((x `div` Z.sqrt N) * Z.sqrt N + t `div` Z.sqrt N).

Definition free_of (k i : Z) : Z :=
  if k =? 0 then ecp_candidate N i
  else if k =? 1 then ecp_column N i
  else if k =? 2 then ecp_row N i
  else (ecp_row N i `mod` Z.sqrt N) * Z.sqrt N + ecp_column N i `mod` Z.sqrt N.

(** The nodes of column [j], by their third coordinate. *)
Definition column_family (j : Z) : list Z :=
  (fun t => nd N (row_of (j `div` (N * N)) ((j `mod` (N * N)) `div` N)
                          ((j `mod` (N * N)) `mod` N) t)
               (j `div` (N * N))) <$> seqZ 0 N.

End Counting.

(** ** Runs and example grids *)

(** The nodes of the row of [a], from [a] along the right links. *)
Definition row_nodes (N : Z) (m : Memory) (a : Z) : list Z :=
  a :: ring_nodes rightOf a (FUEL N) (rightOf m a) m.

(** The memory at which [sudokuSolver] calls [search]. *)
Definition after_preload (N : Z) (input : Z -> Z -> Z) : Memory :=
  default (initial_memory N) (updateDoublyLinkedList N (FUEL N) input (built N)).

(** The memory that a run of [sudokuSolver] leaves. *)
Definition run (N : Z) (depth : nat) (input : Z -> Z -> Z) : Memory :=
  default (initial_memory N) (sudokuSolver N depth (FUEL N) input).

(** Two clues of the grid conflict. *)
Definition contradictory (N : Z) (input : Z -> Z -> Z) : Prop :=
  exists r c r' c', 0 <= r < N /\ 0 <= c < N /\ 0 <= r' < N /\ 0 <= c' < N /\
    conflict N input r c r' c'.

(** A grid of side 4 with the value 0 twice in its first row. *)
Definition grid_two_zeros : Z -> Z -> Z :=
  grid_of [[0; 0; -1; -1]; [-1; -1; -1; -1]; [-1; -1; -1; -1]; [-1; -1; -1; -1]].

(** A grid of side 4 without conflicting clues in which no value fits the
    last cell of the first row. *)
Definition grid_stuck : Z -> Z -> Z :=
  grid_of [[0; 1; 2; -1]; [2; -1; 0; 3]; [1; 0; 3; 2]; [3; 2; 1; 0]].

(** A grid of side 4 with two clues that has solutions. *)
Definition grid_two_clues : Z -> Z -> Z :=
  grid_of [[0; 1; -1; -1]; [-1; -1; -1; -1]; [-1; -1; -1; -1]; [-1; -1; -1; -1]].

(** * Further properties of the two programs *)

(** ** Exact covers *)

Section Exhaustive.

Variable N : Z.

(** The rows of [more] complete the chosen rows [rws] to an exact cover:
    together they cover every column exactly once. *)
Definition completes (rws more : list Z) : Prop :=
  Chosen N (more ++ rws) /\ act N (Kof N (more ++ rws)) = [].

(** The row nodes (in the cell columns) of the candidates that a grid
    holds. *)
Definition grid_node (g : list Z) (q : Z) : Z :=
  nd N (default 0 (g !! Z.to_nat q) + N * (q `mod` N) + N * N * (q `div` N)) 0.

Definition rows_of_grid (g : list Z) : list Z := grid_node g <$> seqZ 0 (N * N).

(** The grid holds the clues that the preload committed. *)
Definition keeps_committed (input : Z -> Z -> Z) (g : list Z) : Prop :=
  forall a, a ∈ committed N input ->
    cell N g (ecp_row N (rowOf N a)) (ecp_column N (rowOf N a)) =
      Some (input (ecp_row N (rowOf N a)) (ecp_column N (rowOf N a))).

(** The identifier of node [p] holds a value, a row and a column of the
    grid, the entry of [SUDOKU_SOLUTION] that is written for [p] exists, and
    the identifier is the decoding of the index of the row of [p] in the
    exact cover problem. *)
Definition writes_inside (m : Memory) (p : Z) : Prop :=
  0 <= (identOf m p).1.1 < N /\ 0 <= (identOf m p).1.2 < N /\ 0 <= (identOf m p).2 < N /\
  (solution_index N (identOf m p) < length (SUDOKU_SOLUTION m))%nat /\
  (identOf m p).1.1 + N * (identOf m p).2 + N * N * (identOf m p).1.2 = rowOf N p.

End Exhaustive.

(** ** The matrix program, [main_algorithm_x.cpp]

    The exact cover problem is a vector of rows; a row is a vector of
    booleans together with the number that the row has in the matrix of
    [initializeMatrix].  A vector is a list: [at_ d v i] reads [v[i]] and
    [<[Z.to_nat i := x]> v] writes it.  The program never checks an index.
    The loop of [convertSudokuGridToAlgorithmX] can read a row that the
    matrix does not have; that read is the outcome [OutOfBounds] of the
    model.  For the other reads the theorems carry the conditions under
    which every index is within its vector. *)

Module AlgorithmX.

Record sequenceAlgorithmX := mkSequence {
  sequence : list bool;
  numberInOriginalSequence : Z
}.

(** The constructor: an empty vector and the number 0. *)
Definition new_sequence : sequenceAlgorithmX := mkSequence [] 0.

(** [struct removeOrRestoreHelperDSAlgorithmX]; its fields are [sequence]
    and [numberInOriginalSequence] in the source. *)
Record removeOrRestoreHelperDSAlgorithmX := mkHelper {
  rowSequence : sequenceAlgorithmX;
  rowNumberInOriginalSequence : Z
}.

Definition new_helper : removeOrRestoreHelperDSAlgorithmX := mkHelper new_sequence 0.

(** The globals [exactCoverProblem], [currSolution] and [sudokuSolution],
    and what has been printed. *)
Record State := mkState {
  exactCoverProblem : list sequenceAlgorithmX;
  currSolution : list Z;
  sudokuSolution : list Z;
  printed : list Printed
}.

Definition at_ {A} (d : A) (v : list A) (i : Z) : A := default d (v !! Z.to_nat i).

Definition size {A} (v : list A) : Z := Z.of_nat (length v).

(** [v.erase(v.begin() + p)] and [v.insert(v.begin() + p, x)] *)
Definition erase {A} (p : Z) (v : list A) : list A := delete (Z.to_nat p) v.

Definition insert_at {A} (p : Z) (x : A) (v : list A) : list A :=
  take (Z.to_nat p) v ++ x :: drop (Z.to_nat p) v.

Definition set_sequence (s : list bool) (r : sequenceAlgorithmX) : sequenceAlgorithmX :=
  mkSequence s (numberInOriginalSequence r).

Definition set_number (n : Z) (r : sequenceAlgorithmX) : sequenceAlgorithmX :=
  mkSequence (sequence r) n.

(** [exactCoverProblem[i].sequence[j]] *)
Definition bit (matrix : list sequenceAlgorithmX) (i j : Z) : bool :=
  at_ false (sequence (at_ new_sequence matrix i)) j.

(** [std::set<int>::insert]: the elements are kept in increasing order. *)
Fixpoint set_insert (x : Z) (s : list Z) : list Z :=
  match s with
  | [] => [x]
  | y :: s' => if x <? y then x :: s else if x =? y then s else y :: set_insert x s'
  end.

Definition INT_MAX : Z := 2147483647.

Section Program.

Variable SUDOKU_SIZE : Z.

Definition initializeMatrix (matrix : list sequenceAlgorithmX) : list sequenceAlgorithmX :=
  let matrix := resize (Z.to_nat (ROWS SUDOKU_SIZE)) new_sequence matrix in
  for_range 0 (ROWS SUDOKU_SIZE) (fun i matrix =>
    let matrix_i := set_number i (at_ new_sequence matrix i) in
    let s := resize (Z.to_nat (COLUMNS SUDOKU_SIZE)) false (sequence matrix_i) in
    let Candidate := i `rem` SUDOKU_SIZE in
    let Row := i `quot` SUDOKU_SIZE_SQUARED SUDOKU_SIZE in
    let Aux := i `quot` SUDOKU_SIZE in
    let Column := Aux `rem` SUDOKU_SIZE in
    let Aux := Row `quot` SUDOKU_SIZE_SQUARE_ROOT SUDOKU_SIZE in
    let Aux1 := Column `quot` SUDOKU_SIZE_SQUARE_ROOT SUDOKU_SIZE in
    let Box := Aux * SUDOKU_SIZE_SQUARE_ROOT SUDOKU_SIZE + Aux1 in
    let s := <[Z.to_nat (Row * SUDOKU_SIZE + Column) := true]> s in
    let s := <[Z.to_nat (SUDOKU_SIZE_SQUARED SUDOKU_SIZE + Row * SUDOKU_SIZE + Candidate)
               := true]> s in
    let s := <[Z.to_nat (2 * SUDOKU_SIZE_SQUARED SUDOKU_SIZE + Column * SUDOKU_SIZE + Candidate)
               := true]> s in
    let s := <[Z.to_nat (3 * SUDOKU_SIZE_SQUARED SUDOKU_SIZE + Box * SUDOKU_SIZE + Candidate)
               := true]> s in
    <[Z.to_nat i := set_sequence s matrix_i]> matrix) matrix.

End Program.

(** The loop of [removeRowsAndColumnsForGivenRow] that selects the columns
    to be deleted. *)
Definition select_columns (row : Z) (exactCoverProblem : list sequenceAlgorithmX) : list Z :=
  for_range 0 (size (sequence (at_ new_sequence exactCoverProblem row)))
    (fun i columnsToDelete =>
       if bit exactCoverProblem row i then columnsToDelete ++ [i] else columnsToDelete) [].

(** The body of the loop over the rows for one column to delete, at
    position [c]: the row is noted if it has a one there, the bit is kept
    in [deletedColumn] and erased from the row. *)
Definition delete_bit (c j : Z)
    (s : list Z * sequenceAlgorithmX * list sequenceAlgorithmX)
    : list Z * sequenceAlgorithmX * list sequenceAlgorithmX :=
  let '(rowsToDelete, deletedColumn, exactCoverProblem) := s in
  let rowsToDelete :=
    if bit exactCoverProblem j c then set_insert j rowsToDelete else rowsToDelete in
  let deletedColumn :=
    set_sequence (<[Z.to_nat j := bit exactCoverProblem j c]> (sequence deletedColumn))
                 deletedColumn in
  let row_j := at_ new_sequence exactCoverProblem j in
  let exactCoverProblem :=
    <[Z.to_nat j := set_sequence (erase c (sequence row_j)) row_j]> exactCoverProblem in
  (rowsToDelete, deletedColumn, exactCoverProblem).

(** The body of the loop over the columns to delete. *)
Definition delete_column (i : Z)
    (s : list Z * list Z * list sequenceAlgorithmX * list sequenceAlgorithmX)
    : list Z * list Z * list sequenceAlgorithmX * list sequenceAlgorithmX :=
  let '(columnsToDelete, rowsToDelete, deletedColumns, exactCoverProblem) := s in
  let deletedColumn := set_number (at_ 0 columnsToDelete i) new_sequence in
  let columnsToDelete := <[Z.to_nat i := at_ 0 columnsToDelete i - i]> columnsToDelete in
  let deletedColumn :=
    set_sequence (resize (length exactCoverProblem) false (sequence deletedColumn))
                 deletedColumn in
  let '(rowsToDelete, deletedColumn, exactCoverProblem) :=
    for_range 0 (size exactCoverProblem) (delete_bit (at_ 0 columnsToDelete i))
      (rowsToDelete, deletedColumn, exactCoverProblem) in
  (columnsToDelete, rowsToDelete, <[Z.to_nat i := deletedColumn]> deletedColumns,
   exactCoverProblem).

(** The body of the loop over [rowsToDelete]; [it] is the element of the
    set. *)
Definition delete_row
    (s : Z * list removeOrRestoreHelperDSAlgorithmX * list sequenceAlgorithmX) (it : Z)
    : Z * list removeOrRestoreHelperDSAlgorithmX * list sequenceAlgorithmX :=
  let '(deletedSoFar, deletedRows, exactCoverProblem) := s in
  let rowToDelete := it - deletedSoFar in
  let deletedRow := mkHelper (at_ new_sequence exactCoverProblem rowToDelete) it in
  (deletedSoFar + 1, <[Z.to_nat deletedSoFar := deletedRow]> deletedRows,
   erase rowToDelete exactCoverProblem).

(** The result is the matrix, [deletedColumns] and [deletedRows]. *)
Definition removeRowsAndColumnsForGivenRow (row : Z)
    (deletedColumns : list sequenceAlgorithmX)
    (deletedRows : list removeOrRestoreHelperDSAlgorithmX)
    (exactCoverProblem : list sequenceAlgorithmX)
    : list sequenceAlgorithmX * list sequenceAlgorithmX
      * list removeOrRestoreHelperDSAlgorithmX :=
  let columnsToDelete := select_columns row exactCoverProblem in
  let deletedColumns := resize (length columnsToDelete) new_sequence deletedColumns in
  let '(_, rowsToDelete, deletedColumns, exactCoverProblem) :=
    for_range 0 (size columnsToDelete) delete_column
      (columnsToDelete, [], deletedColumns, exactCoverProblem) in
  let deletedRows := resize (length rowsToDelete) new_helper deletedRows in
  let '(_, deletedRows, exactCoverProblem) :=
    foldl delete_row (0, deletedRows, exactCoverProblem) rowsToDelete in
  (exactCoverProblem, deletedColumns, deletedRows).

Definition restoreRowsAndColumnsForGivenRowAlgorithmX
    (columnsToRestore : list sequenceAlgorithmX)
    (rowsToRestore : list removeOrRestoreHelperDSAlgorithmX)
    (exactCoverProblem : list sequenceAlgorithmX) : list sequenceAlgorithmX :=
  let exactCoverProblem :=
    for_range 0 (size rowsToRestore) (fun i exactCoverProblem =>
      insert_at (rowNumberInOriginalSequence (at_ new_helper rowsToRestore i))
                (rowSequence (at_ new_helper rowsToRestore i)) exactCoverProblem)
      exactCoverProblem in
  for_range 0 (size columnsToRestore) (fun i exactCoverProblem =>
    let currColBeingRestored :=
      numberInOriginalSequence (at_ new_sequence columnsToRestore i) in
    for_range 0 (size exactCoverProblem) (fun j exactCoverProblem =>
      let row_j := at_ new_sequence exactCoverProblem j in
      <[Z.to_nat j :=
          set_sequence (insert_at currColBeingRestored
                          (at_ false (sequence (at_ new_sequence columnsToRestore i)) j)
                          (sequence row_j)) row_j]> exactCoverProblem)
      exactCoverProblem)
    exactCoverProblem.

(** The number of ones of column [col]: the inner loop of
    [chooseProperColumnAlgorithmX]. *)
Definition count_ones (exactCoverProblem : list sequenceAlgorithmX) (col : Z) : Z :=
  for_range 0 (size exactCoverProblem) (fun row currNumberOfOnes =>
    if bit exactCoverProblem row col then currNumberOfOnes + 1 else currNumberOfOnes) 0.

(** [columnNumber] is declared without a value: [garbage] is what it holds
    until the loop assigns it. *)
Definition chooseProperColumnAlgorithmX (garbage : Z)
    (exactCoverProblem : list sequenceAlgorithmX) : Z :=
  fst (for_range 0 (size (sequence (at_ new_sequence exactCoverProblem 0)))
    (fun col '(columnNumber, minNumberOfOnes) =>
       let currNumberOfOnes := count_ones exactCoverProblem col in
       if currNumberOfOnes <? minNumberOfOnes then (col, currNumberOfOnes)
       else (columnNumber, minNumberOfOnes))
    (garbage, INT_MAX)).

(** How a part of the program ends: it returns, or it reads a vector at a
    position that the vector does not have, or the budget of the model for
    the turns of a loop is used up. *)
Inductive Result (A : Type) : Type :=
  | Returns (a : A)
  | OutOfBounds
  | OutOfFuel.

Arguments Returns {A} a.
Arguments OutOfBounds {A}.
Arguments OutOfFuel {A}.

Definition bind {A B} (r : Result A) (f : A -> Result B) : Result B :=
  match r with
  | Returns a => f a
  | OutOfBounds => OutOfBounds
  | OutOfFuel => OutOfFuel
  end.

(** The property [Q] holds of what is returned, when the end is not a read
    out of bounds; the budget is not used up. *)
Definition ends_with {A} (Q : A -> Prop) (r : Result A) : Prop :=
  match r with
  | Returns a => Q a
  | OutOfBounds => True
  | OutOfFuel => False
  end.

Section Solver.

Variable SUDOKU_SIZE : Z.

(** The loop over [j] of [convertSudokuGridToAlgorithmX] for row [i] of the
    matrix and the clue [v] of the cell ([inputR], [inputC]).  The state is
    [ifContinue], the matrix and [sudokuSolution].  The condition
    [j < exactCoverProblem[i].sequence.size() && ifContinue] reads row [i]
    of the matrix before it looks at [ifContinue]; it is evaluated again
    after the body has removed rows from the matrix, with the same [i]. *)
Fixpoint convert_entries (fuel : nat) (inputR inputC v Candidate Row Column i j : Z)
    (s : bool * list sequenceAlgorithmX * list Z)
    : Result (bool * list sequenceAlgorithmX * list Z) :=
  let '(ifContinue, exactCoverProblem, sudokuSolution) := s in
  if size exactCoverProblem <=? i then OutOfBounds
  else if (j <? size (sequence (at_ new_sequence exactCoverProblem i))) && ifContinue then
    match fuel with
    | O => OutOfFuel
    | S fuel' =>
        convert_entries fuel' inputR inputC v Candidate Row Column i (j + 1)
          (if bit exactCoverProblem i j && (Candidate =? v) && (Row =? inputR)
              && (Column =? inputC)
           then
             let '(exactCoverProblem, _, _) :=
               removeRowsAndColumnsForGivenRow i [] [] exactCoverProblem in
             (false, exactCoverProblem,
              <[Z.to_nat (Row * SUDOKU_SIZE + Column) := v]> sudokuSolution)
           else s)
    end
  else Returns s.

(** The loop over [i]; its condition is
    [i < exactCoverProblem.size() && ifContinue].  [fuel] is the budget of
    the loop over [j] and [k] the budget of this loop. *)
Fixpoint convert_rows (fuel k : nat) (inputR inputC v i : Z)
    (s : bool * list sequenceAlgorithmX * list Z)
    : Result (bool * list sequenceAlgorithmX * list Z) :=
  let '(ifContinue, exactCoverProblem, sudokuSolution) := s in
  if (i <? size exactCoverProblem) && ifContinue then
    match k with
    | O => OutOfFuel
    | S k' =>
        let realRowNumber := numberInOriginalSequence (at_ new_sequence exactCoverProblem i) in
        let Candidate := realRowNumber `rem` SUDOKU_SIZE in
        let Row := realRowNumber `quot` SUDOKU_SIZE_SQUARED SUDOKU_SIZE in
        let Aux := realRowNumber `quot` SUDOKU_SIZE in
        let Column := Aux `rem` SUDOKU_SIZE in
        bind (convert_entries fuel inputR inputC v Candidate Row Column i 0 s)
             (convert_rows fuel k' inputR inputC v (i + 1))
    end
  else Returns s.

(** What [convertSudokuGridToAlgorithmX] does for the cell ([inputR],
    [inputC]) that holds the clue [v]. *)
Definition convert_cell (fuel : nat) (inputR inputC v : Z)
    (s : list sequenceAlgorithmX * list Z) : Result (list sequenceAlgorithmX * list Z) :=
  let '(exactCoverProblem, sudokuSolution) := s in
  bind (convert_rows fuel fuel inputR inputC v 0 (true, exactCoverProblem, sudokuSolution))
       (fun '(_, exactCoverProblem, sudokuSolution) =>
          Returns (exactCoverProblem, sudokuSolution)).

Definition convertSudokuGridToAlgorithmX (fuel : nat) (input : Z -> Z -> Z) (st : State)
    : Result State :=
  bind
    (for_range 0 SUDOKU_SIZE (fun inputR r =>
       for_range 0 SUDOKU_SIZE (fun inputC r =>
         bind r (fun s =>
           if input inputR inputC =? -1 then Returns s
           else convert_cell fuel inputR inputC (input inputR inputC) s)) r)
       (Returns (exactCoverProblem st, sudokuSolution st)))
    (fun '(exactCoverProblem, sudokuSolution) =>
       Returns (mkState exactCoverProblem (currSolution st) sudokuSolution (printed st))).

(** The branch of [search] for an empty matrix. *)
Definition record_solution (st : State) : State :=
  let sudokuSolution :=
    for_range 0 (size (currSolution st)) (fun i sudokuSolution =>
      let actualRow := at_ 0 (currSolution st) i in
      let Candidate := actualRow `rem` SUDOKU_SIZE in
      let Row := actualRow `quot` SUDOKU_SIZE_SQUARED SUDOKU_SIZE in
      let Aux := actualRow `quot` SUDOKU_SIZE in
      let Column := Aux `rem` SUDOKU_SIZE in
      <[Z.to_nat (Row * SUDOKU_SIZE + Column) := Candidate]> sudokuSolution)
      (sudokuSolution st) in
  mkState (exactCoverProblem st) (currSolution st) sudokuSolution
          (printed st ++ [PrintGrid sudokuSolution]).

(** The loop of [search] over the rows; [rec] is the recursive call.  The
    bound [exactCoverProblem.size()] is read again at every turn. *)
Fixpoint search_rows (rec : State -> option (bool * State)) (fuel : nat)
    (row columnToProcess : Z) (st : State) : option (bool * State) :=
  match fuel with
  | O => None
  | S fuel' =>
      if row <? size (exactCoverProblem st) then
        if bit (exactCoverProblem st) row columnToProcess then
          let pushed :=
            currSolution st
            ++ [numberInOriginalSequence (at_ new_sequence (exactCoverProblem st) row)] in
          let '(removed, deletedColumns, deletedRows) :=
            removeRowsAndColumnsForGivenRow row [] [] (exactCoverProblem st) in
          match rec (mkState removed pushed (sudokuSolution st) (printed st)) with
          | None => None
          | Some (false, st) => Some (false, st)
          | Some (true, st) =>
              let restored :=
                restoreRowsAndColumnsForGivenRowAlgorithmX deletedColumns deletedRows
                  (exactCoverProblem st) in
              search_rows rec fuel' (row + 1) columnToProcess
                (mkState restored (removelast (currSolution st))
                         (sudokuSolution st) (printed st))
          end
        else search_rows rec fuel' (row + 1) columnToProcess st
      else Some (true, st)
  end.

Fixpoint search (depth : nat) (fuel : nat) (garbage : Z) (st : State)
    : option (bool * State) :=
  match depth with
  | O => None
  | S depth' =>
      if decide (exactCoverProblem st = []) then Some (false, record_solution st)
      else search_rows (search depth' fuel garbage) fuel 0
             (chooseProperColumnAlgorithmX garbage (exactCoverProblem st)) st
  end.

(** The globals before [main] runs. *)
Definition initial_state : State :=
  mkState [] [] (replicate (Z.to_nat (SUDOKU_SIZE_SQUARED SUDOKU_SIZE)) 0) [].

(** [sudokuSolver] once the grid has been read into [sudokuInput]. *)
Definition sudokuSolver (depth fuel : nat) (garbage : Z) (sudokuInput : Z -> Z -> Z)
    : Result State :=
  let st := initial_state in
  let st := mkState (initializeMatrix SUDOKU_SIZE (exactCoverProblem st)) (currSolution st)
                    (sudokuSolution st) (printed st) in
  bind (convertSudokuGridToAlgorithmX fuel sudokuInput st) (fun st =>
    match search depth fuel garbage st with
    | None => OutOfFuel
    | Some (true, st) =>
        Returns (mkState (exactCoverProblem st) (currSolution st) (sudokuSolution st)
                         (printed st ++ [PrintNoSolution]))
    | Some (false, st) => Returns st
    end).

(** The state in which [search] finds the matrix empty when it was called
    in the state [st] and then pushed the rows [chosen]. *)
Definition leaf_state (st : State) (chosen : list Z) : State :=
  mkState [] (currSolution st ++ chosen) (sudokuSolution st) (printed st).

(** The state that a part of the program returns. *)
Definition returned (r : Result State) : State :=
  match r with
  | Returns st => st
  | _ => initial_state
  end.

(** The state in which [sudokuSolver] calls [search]. *)
Definition loaded (sudokuInput : Z -> Z -> Z) : State :=
  returned (convertSudokuGridToAlgorithmX (FUEL SUDOKU_SIZE) sudokuInput
    (mkState (initializeMatrix SUDOKU_SIZE (exactCoverProblem initial_state))
             (currSolution initial_state) (sudokuSolution initial_state)
             (printed initial_state))).

(** The state that a run leaves. *)
Definition run_matrix (depth fuel : nat) (garbage : Z) (sudokuInput : Z -> Z -> Z) : State :=
  returned (sudokuSolver depth fuel garbage sudokuInput).

End Solver.

(** *** The matrix as a table *)

(** All rows have [W] columns. *)
Definition rectangular (W : Z) (matrix : list sequenceAlgorithmX) : Prop :=
  forall r, r ∈ matrix -> size (sequence r) = W.

(** The elements of [v] at the given positions, in that order. *)
Definition pick {A} (d : A) (v : list A) (positions : list Z) : list A :=
  at_ d v <$> positions.

(** The vector [v] without the positions [ys]. *)
Definition without {A} (d : A) (ys : list Z) (v : list A) : list A :=
  pick d v (filter (fun i => i ∉ ys) (seqZ 0 (size v))).

Definition without_columns (ys : list Z) (r : sequenceAlgorithmX) : sequenceAlgorithmX :=
  set_sequence (without false ys (sequence r)) r.

(** The columns in which row [row] has a one. *)
Definition ones (matrix : list sequenceAlgorithmX) (row : Z) : list Z :=
  filter (fun c => bit matrix row c = true)
         (seqZ 0 (size (sequence (at_ new_sequence matrix row)))).

(** The rows that have a one in a column where row [row] has a one. *)
Definition clashing (matrix : list sequenceAlgorithmX) (row : Z) : list Z :=
  filter (fun j => existsb (bit matrix j) (ones matrix row) = true) (seqZ 0 (size matrix)).

(** The matrix without the columns of row [row] and without the rows
    that clash with it. *)
Definition reduced (matrix : list sequenceAlgorithmX) (row : Z) : list sequenceAlgorithmX :=
  without new_sequence (clashing matrix row) (without_columns (ones matrix row) <$> matrix).

(** Column [c] and row [j] as they are kept for
    [restoreRowsAndColumnsForGivenRowAlgorithmX]. *)
Definition saved_column (matrix : list sequenceAlgorithmX) (c : Z) : sequenceAlgorithmX :=
  mkSequence ((fun j => bit matrix j c) <$> seqZ 0 (size matrix)) c.

Definition saved_row (matrix : list sequenceAlgorithmX) (row j : Z)
    : removeOrRestoreHelperDSAlgorithmX :=
  mkHelper (without_columns (ones matrix row) (at_ new_sequence matrix j)) j.

(** A matrix on which [search] reads no vector out of its bounds: the rows
    have one width, every row has a one, and the counters fit an [int]. *)
Record proper (matrix : list sequenceAlgorithmX) : Prop := mkProper {
  proper_width : exists W, rectangular W matrix;
  proper_ones : forall r, r ∈ matrix -> true ∈ sequence r;
  proper_size : size matrix < INT_MAX
}.

(** The matrix of [initializeExactCoverProblem] as a vector of rows. *)
Definition table_row (N i : Z) : sequenceAlgorithmX :=
  mkSequence ((fun j => ECP_get (initializeExactCoverProblem N ∅) i j) <$> seqZ 0 (COLUMNS N)) i.

Definition table (N : Z) : list sequenceAlgorithmX := table_row N <$> seqZ 0 (ROWS N).

(** The test of [convertSudokuGridToAlgorithmX] on a row for the clue [v]
    of the cell ([inputR], [inputC]): the row has a one and its number
    stands for that cell and value. *)
Definition clue_row (N inputR inputC v : Z) (r : sequenceAlgorithmX) : bool :=
  bool_decide (true ∈ sequence r)
  && (numberInOriginalSequence r `rem` N =? v)
  && (numberInOriginalSequence r `quot` SUDOKU_SIZE_SQUARED N =? inputR)
  && ((numberInOriginalSequence r `quot` N) `rem` N =? inputC).

(** The first row of the matrix that passes the test. *)
Definition find_row (N inputR inputC v : Z) (matrix : list sequenceAlgorithmX) : option Z :=
  head (filter (fun i => clue_row N inputR inputC v (at_ new_sequence matrix i) = true)
               (seqZ 0 (size matrix))).

(** *** The matrix when rows have been chosen

    [K] lists the columns of the rows that were chosen.  The rows that are
    left are the rows of the table with no one in a column of [K], and the
    columns that are left are the columns outside [K]. *)
Section Chosen.

Variable N : Z.

Definition live_rows (K : list Z) : list Z :=
  filter (fun i => Forall (fun k => cols N i k ∉ K) [0; 1; 2; 3]) (seqZ 0 (ROWS N)).

Definition matrix_row (K : list Z) (i : Z) : sequenceAlgorithmX :=
  mkSequence ((fun j => ECP_get (initializeExactCoverProblem N ∅) i j) <$> act N K) i.

Definition matrix_of (K : list Z) : list sequenceAlgorithmX := matrix_row K <$> live_rows K.

(** The rows of the table as the row nodes of the linked structure: row
    [i] is the first node of the row. *)
Definition row_node (i : Z) : Z := nd N i 0.

(** What [search] has done when it returns, for the rows [rws] that were
    chosen before the call: it has failed, the state is as it was and no
    rows complete [rws] to an exact cover; or it has chosen the rows [new],
    after which no row is left, and has recorded and printed them. *)
Definition search_outcome (rws : list Z) (st : State) (res : option (bool * State)) : Prop :=
  match res with
  | None => True
  | Some (true, st') => st' = st /\ forall more, ~ completes N rws more
  | Some (false, st') =>
      exists new, Chosen N (new ++ rws) /\ live_rows (Kof N (new ++ rws)) = [] /\
        st' = record_solution N (leaf_state st (rowOf N <$> rev new))
  end.

(** The rows that the clues of [input] have chosen, and what they have
    written over [sol0]; [s] is the matrix and [sudokuSolution]. *)
Definition loaded_by (input : Z -> Z -> Z) (sol0 : list Z) (rws : list Z)
    (s : list sequenceAlgorithmX * list Z) : Prop :=
  Chosen N rws /\ s.1 = matrix_of (Kof N rws) /\ s.2 = grid_rows N sol0 rws /\
  forall a, a ∈ rws ->
    a = row_node (rowOf N a) /\
    input (ecp_row N (rowOf N a)) (ecp_column N (rowOf N a)) = ecp_candidate N (rowOf N a).

End Chosen.

End AlgorithmX.

(** A grid of side 4 in which no value fits the last cell of the first
    row, and most cells are open. *)
Definition grid_blocked : Z -> Z -> Z :=
  grid_of [[0; 1; 2; -1]; [-1; -1; -1; 3]; [-1; -1; -1; -1]; [-1; -1; -1; -1]].

(** ** The text that [printSolution] writes

    Both programs have the same [printSolution].  The stream [cout] is the
    string of the characters written so far. *)

Module Printing.

Import Stdlib.Strings.String Stdlib.Strings.Ascii.

(** [endl] and the string with a line feed *)
Definition newline : string := String (ascii_of_nat 10) EmptyString.

(** [cout << v] for an [int]: its decimal digits, after a minus sign when
    it is negative. *)
Definition show (v : Z) : string := pretty.pretty v.

(** [string(n, '-')] *)
Definition dashes (n : Z) : string :=
  string_of_list_ascii (replicate (Z.to_nat n) (ascii_of_nat 45)).

Section Print.

Variable SUDOKU_SIZE : Z.

(** The body of the loop over the columns. *)
Definition print_cell (solution : list Z) (i j : Z) (out : string) : string :=
  let out :=
    if j `rem` SUDOKU_SIZE_SQUARE_ROOT SUDOKU_SIZE =? 0 then (out ++ "|  ")%string else out in
  let v := AlgorithmX.at_ 0 solution (i * SUDOKU_SIZE + j) in
  if (0 <=? v) && (v <=? 9) then (((out ++ " ") ++ show v) ++ "  ")%string
  else ((out ++ show v) ++ "  ")%string.

Definition printSolution (solution : list Z) (out : string) : string :=
  for_range 0 SUDOKU_SIZE (fun i out =>
    let out := for_range 0 SUDOKU_SIZE (print_cell solution i) out in
    let out := ((out ++ "|") ++ newline)%string in
    if ((i + 1) `rem` SUDOKU_SIZE_SQUARE_ROOT SUDOKU_SIZE =? 0) && negb (i + 1 =? SUDOKU_SIZE)
    then ((out ++ dashes (SUDOKU_SIZE * 4 + 3 * SUDOKU_SIZE_SQUARE_ROOT SUDOKU_SIZE + 1))
          ++ newline)%string
    else out) out.

(** The text of row [i] of the grid: what the loop over the columns writes,
    and the bar that closes the row. *)
Definition row_line (solution : list Z) (i : Z) : string :=
  (for_range 0 SUDOKU_SIZE (print_cell solution i) EmptyString ++ "|")%string.

End Print.

(** The text of lines that end with a line feed each. *)
Definition unlines (ls : list string) : string :=
  foldr (fun l text => (l ++ newline ++ text)%string) EmptyString ls.

End Printing.

(** ** Reading and writing the arena *)

Lemma node_upd a f m b :
  node (upd a f m) b = if decide (b = a) then f (node m a) else node m b.
Proof.
  unfold node at 1, upd, with_heap; simpl.
  case_decide; subst; [by rewrite lookup_insert_eq | by rewrite lookup_insert_ne].
Qed.

Lemma alloc_upd a f m b : alloc (upd a f m) b <-> b = a \/ alloc m b.
Proof.
  unfold alloc, upd, with_heap; simpl. destruct (decide (a = b)) as [->|Hne].
  - rewrite lookup_insert_eq. split; eauto.
  - rewrite lookup_insert_ne by done. split; [eauto | intros [?|?]; congruence].
Qed.

Lemma alloc_node m a : alloc m a -> heap m !! a = Some (node m a).
Proof. unfold alloc, node. intros [x ->]. done. Qed.

Lemma node_eta (n n' : Node) :
  leftNode n = leftNode n' -> rightNode n = rightNode n' ->
  upperNode n = upperNode n' -> lowerNode n = lowerNode n' ->
  columnNode n = columnNode n' -> columnSize n = columnSize n' ->
  identifier n = identifier n' -> n = n'.
Proof. destruct n, n'; simpl; intros; subst; reflexivity. Qed.

Lemma memory_eq (m m' : Memory) :
  (forall a, alloc m a <-> alloc m' a) ->
  (forall a, node m a = node m' a) ->
  next m = next m' -> headNode m = headNode m' ->
  SUDOKU_SOLUTION m = SUDOKU_SOLUTION m' ->
  CURRENT_SOLUTION m = CURRENT_SOLUTION m' -> stdout m = stdout m' ->
  m = m'.
Proof.
  destruct m as [h n hd ss cs so], m' as [h' n' hd' ss' cs' so']; simpl.
  intros Hal Hnode -> -> -> -> ->. f_equal.
  apply map_eq. intros a. specialize (Hal a). specialize (Hnode a).
  unfold alloc, node in *; simpl in *.
  destruct (h !! a) as [x|] eqn:E, (h' !! a) as [y|] eqn:E'; simpl in *; try done.
  - by subst.
  - destruct Hal as [Hal _]. by destruct Hal.
  - destruct Hal as [_ Hal]. by destruct Hal.
Qed.

Lemma leftOf_wr_left p (v : Z) m b :
  leftOf (wr_left p v m) b = if decide (b = p) then v else leftOf m b.
Proof. unfold leftOf, wr_left. rewrite node_upd. by case_decide. Qed.

Lemma rightOf_wr_left p (v : Z) m b : rightOf (wr_left p v m) b = rightOf m b.
Proof. unfold rightOf, wr_left. rewrite node_upd. case_decide; by subst. Qed.

Lemma upperOf_wr_left p (v : Z) m b : upperOf (wr_left p v m) b = upperOf m b.
Proof. unfold upperOf, wr_left. rewrite node_upd. case_decide; by subst. Qed.

Lemma lowerOf_wr_left p (v : Z) m b : lowerOf (wr_left p v m) b = lowerOf m b.
Proof. unfold lowerOf, wr_left. rewrite node_upd. case_decide; by subst. Qed.

Lemma columnOf_wr_left p (v : Z) m b : columnOf (wr_left p v m) b = columnOf m b.
Proof. unfold columnOf, wr_left. rewrite node_upd. case_decide; by subst. Qed.

Lemma sizeOf_wr_left p (v : Z) m b : sizeOf (wr_left p v m) b = sizeOf m b.
Proof. unfold sizeOf, wr_left. rewrite node_upd. case_decide; by subst. Qed.

Lemma identOf_wr_left p (v : Z) m b : identOf (wr_left p v m) b = identOf m b.
Proof. unfold identOf, wr_left. rewrite node_upd. case_decide; by subst. Qed.

Lemma alloc_wr_left p (v : Z) m b : alloc (wr_left p v m) b <-> b = p \/ alloc m b.
Proof. apply alloc_upd. Qed.

Lemma alloc_wr_left_mono p (v : Z) m b : alloc m b -> alloc (wr_left p v m) b.
Proof. rewrite alloc_wr_left. auto. Qed.

Lemma leftOf_wr_right p (v : Z) m b : leftOf (wr_right p v m) b = leftOf m b.
Proof. unfold leftOf, wr_right. rewrite node_upd. case_decide; by subst. Qed.

Lemma rightOf_wr_right p (v : Z) m b :
  rightOf (wr_right p v m) b = if decide (b = p) then v else rightOf m b.
Proof. unfold rightOf, wr_right. rewrite node_upd. by case_decide. Qed.

Lemma upperOf_wr_right p (v : Z) m b : upperOf (wr_right p v m) b = upperOf m b.
Proof. unfold upperOf, wr_right. rewrite node_upd. case_decide; by subst. Qed.

Lemma lowerOf_wr_right p (v : Z) m b : lowerOf (wr_right p v m) b = lowerOf m b.
Proof. unfold lowerOf, wr_right. rewrite node_upd. case_decide; by subst. Qed.

Lemma columnOf_wr_right p (v : Z) m b : columnOf (wr_right p v m) b = columnOf m b.
Proof. unfold columnOf, wr_right. rewrite node_upd. case_decide; by subst. Qed.

Lemma sizeOf_wr_right p (v : Z) m b : sizeOf (wr_right p v m) b = sizeOf m b.
Proof. unfold sizeOf, wr_right. rewrite node_upd. case_decide; by subst. Qed.

Lemma identOf_wr_right p (v : Z) m b : identOf (wr_right p v m) b = identOf m b.
Proof. unfold identOf, wr_right. rewrite node_upd. case_decide; by subst. Qed.

Lemma alloc_wr_right p (v : Z) m b : alloc (wr_right p v m) b <-> b = p \/ alloc m b.
Proof. apply alloc_upd. Qed.

Lemma alloc_wr_right_mono p (v : Z) m b : alloc m b -> alloc (wr_right p v m) b.
Proof. rewrite alloc_wr_right. auto. Qed.

Lemma leftOf_wr_upper p (v : Z) m b : leftOf (wr_upper p v m) b = leftOf m b.
Proof. unfold leftOf, wr_upper. rewrite node_upd. case_decide; by subst. Qed.

Lemma rightOf_wr_upper p (v : Z) m b : rightOf (wr_upper p v m) b = rightOf m b.
Proof. unfold rightOf, wr_upper. rewrite node_upd. case_decide; by subst. Qed.

Lemma upperOf_wr_upper p (v : Z) m b :
  upperOf (wr_upper p v m) b = if decide (b = p) then v else upperOf m b.
Proof. unfold upperOf, wr_upper. rewrite node_upd. by case_decide. Qed.

Lemma lowerOf_wr_upper p (v : Z) m b : lowerOf (wr_upper p v m) b = lowerOf m b.
Proof. unfold lowerOf, wr_upper. rewrite node_upd. case_decide; by subst. Qed.

Lemma columnOf_wr_upper p (v : Z) m b : columnOf (wr_upper p v m) b = columnOf m b.
Proof. unfold columnOf, wr_upper. rewrite node_upd. case_decide; by subst. Qed.

Lemma sizeOf_wr_upper p (v : Z) m b : sizeOf (wr_upper p v m) b = sizeOf m b.
Proof. unfold sizeOf, wr_upper. rewrite node_upd. case_decide; by subst. Qed.

Lemma identOf_wr_upper p (v : Z) m b : identOf (wr_upper p v m) b = identOf m b.
Proof. unfold identOf, wr_upper. rewrite node_upd. case_decide; by subst. Qed.

Lemma alloc_wr_upper p (v : Z) m b : alloc (wr_upper p v m) b <-> b = p \/ alloc m b.
Proof. apply alloc_upd. Qed.

Lemma alloc_wr_upper_mono p (v : Z) m b : alloc m b -> alloc (wr_upper p v m) b.
Proof. rewrite alloc_wr_upper. auto. Qed.

Lemma leftOf_wr_lower p (v : Z) m b : leftOf (wr_lower p v m) b = leftOf m b.
Proof. unfold leftOf, wr_lower. rewrite node_upd. case_decide; by subst. Qed.

Lemma rightOf_wr_lower p (v : Z) m b : rightOf (wr_lower p v m) b = rightOf m b.
Proof. unfold rightOf, wr_lower. rewrite node_upd. case_decide; by subst. Qed.

Lemma upperOf_wr_lower p (v : Z) m b : upperOf (wr_lower p v m) b = upperOf m b.
Proof. unfold upperOf, wr_lower. rewrite node_upd. case_decide; by subst. Qed.

Lemma lowerOf_wr_lower p (v : Z) m b :
  lowerOf (wr_lower p v m) b = if decide (b = p) then v else lowerOf m b.
Proof. unfold lowerOf, wr_lower. rewrite node_upd. by case_decide. Qed.

Lemma columnOf_wr_lower p (v : Z) m b : columnOf (wr_lower p v m) b = columnOf m b.
Proof. unfold columnOf, wr_lower. rewrite node_upd. case_decide; by subst. Qed.

Lemma sizeOf_wr_lower p (v : Z) m b : sizeOf (wr_lower p v m) b = sizeOf m b.
Proof. unfold sizeOf, wr_lower. rewrite node_upd. case_decide; by subst. Qed.

Lemma identOf_wr_lower p (v : Z) m b : identOf (wr_lower p v m) b = identOf m b.
Proof. unfold identOf, wr_lower. rewrite node_upd. case_decide; by subst. Qed.

Lemma alloc_wr_lower p (v : Z) m b : alloc (wr_lower p v m) b <-> b = p \/ alloc m b.
Proof. apply alloc_upd. Qed.

Lemma alloc_wr_lower_mono p (v : Z) m b : alloc m b -> alloc (wr_lower p v m) b.
Proof. rewrite alloc_wr_lower. auto. Qed.

Lemma leftOf_wr_column p (v : Z) m b : leftOf (wr_column p v m) b = leftOf m b.
Proof. unfold leftOf, wr_column. rewrite node_upd. case_decide; by subst. Qed.

Lemma rightOf_wr_column p (v : Z) m b : rightOf (wr_column p v m) b = rightOf m b.
Proof. unfold rightOf, wr_column. rewrite node_upd. case_decide; by subst. Qed.

Lemma upperOf_wr_column p (v : Z) m b : upperOf (wr_column p v m) b = upperOf m b.
Proof. unfold upperOf, wr_column. rewrite node_upd. case_decide; by subst. Qed.

Lemma lowerOf_wr_column p (v : Z) m b : lowerOf (wr_column p v m) b = lowerOf m b.
Proof. unfold lowerOf, wr_column. rewrite node_upd. case_decide; by subst. Qed.

Lemma columnOf_wr_column p (v : Z) m b :
  columnOf (wr_column p v m) b = if decide (b = p) then v else columnOf m b.
Proof. unfold columnOf, wr_column. rewrite node_upd. by case_decide. Qed.

Lemma sizeOf_wr_column p (v : Z) m b : sizeOf (wr_column p v m) b = sizeOf m b.
Proof. unfold sizeOf, wr_column. rewrite node_upd. case_decide; by subst. Qed.

Lemma identOf_wr_column p (v : Z) m b : identOf (wr_column p v m) b = identOf m b.
Proof. unfold identOf, wr_column. rewrite node_upd. case_decide; by subst. Qed.

Lemma alloc_wr_column p (v : Z) m b : alloc (wr_column p v m) b <-> b = p \/ alloc m b.
Proof. apply alloc_upd. Qed.

Lemma alloc_wr_column_mono p (v : Z) m b : alloc m b -> alloc (wr_column p v m) b.
Proof. rewrite alloc_wr_column. auto. Qed.

Lemma leftOf_wr_size p (v : Z) m b : leftOf (wr_size p v m) b = leftOf m b.
Proof. unfold leftOf, wr_size. rewrite node_upd. case_decide; by subst. Qed.

Lemma rightOf_wr_size p (v : Z) m b : rightOf (wr_size p v m) b = rightOf m b.
Proof. unfold rightOf, wr_size. rewrite node_upd. case_decide; by subst. Qed.

Lemma upperOf_wr_size p (v : Z) m b : upperOf (wr_size p v m) b = upperOf m b.
Proof. unfold upperOf, wr_size. rewrite node_upd. case_decide; by subst. Qed.

Lemma lowerOf_wr_size p (v : Z) m b : lowerOf (wr_size p v m) b = lowerOf m b.
Proof. unfold lowerOf, wr_size. rewrite node_upd. case_decide; by subst. Qed.

Lemma columnOf_wr_size p (v : Z) m b : columnOf (wr_size p v m) b = columnOf m b.
Proof. unfold columnOf, wr_size. rewrite node_upd. case_decide; by subst. Qed.

Lemma sizeOf_wr_size p (v : Z) m b :
  sizeOf (wr_size p v m) b = if decide (b = p) then v else sizeOf m b.
Proof. unfold sizeOf, wr_size. rewrite node_upd. by case_decide. Qed.

Lemma identOf_wr_size p (v : Z) m b : identOf (wr_size p v m) b = identOf m b.
Proof. unfold identOf, wr_size. rewrite node_upd. case_decide; by subst. Qed.

Lemma alloc_wr_size p (v : Z) m b : alloc (wr_size p v m) b <-> b = p \/ alloc m b.
Proof. apply alloc_upd. Qed.

Lemma alloc_wr_size_mono p (v : Z) m b : alloc m b -> alloc (wr_size p v m) b.
Proof. rewrite alloc_wr_size. auto. Qed.

Lemma leftOf_wr_identifier p (v : Z * Z * Z) m b : leftOf (wr_identifier p v m) b = leftOf m b.
Proof. unfold leftOf, wr_identifier. rewrite node_upd. case_decide; by subst. Qed.

Lemma rightOf_wr_identifier p (v : Z * Z * Z) m b : rightOf (wr_identifier p v m) b = rightOf m b.
Proof. unfold rightOf, wr_identifier. rewrite node_upd. case_decide; by subst. Qed.

Lemma upperOf_wr_identifier p (v : Z * Z * Z) m b : upperOf (wr_identifier p v m) b = upperOf m b.
Proof. unfold upperOf, wr_identifier. rewrite node_upd. case_decide; by subst. Qed.

Lemma lowerOf_wr_identifier p (v : Z * Z * Z) m b : lowerOf (wr_identifier p v m) b = lowerOf m b.
Proof. unfold lowerOf, wr_identifier. rewrite node_upd. case_decide; by subst. Qed.

Lemma columnOf_wr_identifier p (v : Z * Z * Z) m b : columnOf (wr_identifier p v m) b = columnOf m b.
Proof. unfold columnOf, wr_identifier. rewrite node_upd. case_decide; by subst. Qed.

Lemma sizeOf_wr_identifier p (v : Z * Z * Z) m b : sizeOf (wr_identifier p v m) b = sizeOf m b.
Proof. unfold sizeOf, wr_identifier. rewrite node_upd. case_decide; by subst. Qed.

Lemma identOf_wr_identifier p (v : Z * Z * Z) m b :
  identOf (wr_identifier p v m) b = if decide (b = p) then v else identOf m b.
Proof. unfold identOf, wr_identifier. rewrite node_upd. by case_decide. Qed.

Lemma alloc_wr_identifier p (v : Z * Z * Z) m b : alloc (wr_identifier p v m) b <-> b = p \/ alloc m b.
Proof. apply alloc_upd. Qed.

Lemma alloc_wr_identifier_mono p (v : Z * Z * Z) m b : alloc m b -> alloc (wr_identifier p v m) b.
Proof. rewrite alloc_wr_identifier. auto. Qed.

Create Rewrite HintDb heap.

#[export] Hint Rewrite leftOf_wr_left rightOf_wr_left upperOf_wr_left lowerOf_wr_left columnOf_wr_left sizeOf_wr_left identOf_wr_left leftOf_wr_right rightOf_wr_right upperOf_wr_right lowerOf_wr_right columnOf_wr_right sizeOf_wr_right identOf_wr_right leftOf_wr_upper rightOf_wr_upper upperOf_wr_upper lowerOf_wr_upper columnOf_wr_upper sizeOf_wr_upper identOf_wr_upper leftOf_wr_lower rightOf_wr_lower upperOf_wr_lower lowerOf_wr_lower columnOf_wr_lower sizeOf_wr_lower identOf_wr_lower leftOf_wr_column rightOf_wr_column upperOf_wr_column lowerOf_wr_column columnOf_wr_column sizeOf_wr_column identOf_wr_column leftOf_wr_size rightOf_wr_size upperOf_wr_size lowerOf_wr_size columnOf_wr_size sizeOf_wr_size identOf_wr_size leftOf_wr_identifier rightOf_wr_identifier upperOf_wr_identifier lowerOf_wr_identifier columnOf_wr_identifier sizeOf_wr_identifier identOf_wr_identifier : heap.

(** ** Loops over rings *)

Lemma for_ring_stop fld stop body fuel m :
  for_ring fld stop body fuel stop m = Some m.
Proof. destruct fuel; simpl; by rewrite Z.eqb_refl. Qed.

Lemma for_ring_step fld stop body fuel p m :
  p <> stop ->
  for_ring fld stop body (S fuel) p m =
  match body p m with
  | None => None
  | Some m' => for_ring fld stop body fuel (fld m' p) m'
  end.
Proof. intros Hne. simpl. by apply Z.eqb_neq in Hne as ->. Qed.

(** A loop whose body is the function [g] and whose pointer walks through
    the list [l] computes the fold of [g] over [l]. *)
Lemma for_ring_foldl (I : list Z -> Memory -> Prop) fld stop body
    (g : Z -> Memory -> Memory) :
  (forall x rest m, I (x :: rest) m ->
     x <> stop /\ body x m = Some (g x m) /\ I rest (g x m) /\
     fld (g x m) x = hd stop rest) ->
  forall l fuel m, I l m -> (length l <= fuel)%nat ->
    for_ring fld stop body fuel (hd stop l) m = Some (foldl (fun m x => g x m) m l) /\
    I [] (foldl (fun m x => g x m) m l).
Proof.
  intros Hstep l. induction l as [|x rest IH]; intros fuel m HI Hlen.
  - simpl. split; [apply for_ring_stop | done].
  - destruct (Hstep _ _ _ HI) as (Hne & Hbody & HI' & Hnext).
    destruct fuel as [|fuel]; [simpl in Hlen; lia|].
    simpl hd. rewrite for_ring_step by done. rewrite Hbody, Hnext.
    simpl in Hlen. apply IH; [done | lia].
Qed.

(** ** Doubly linked segments *)

Lemma dlinked_ext f g f' g' a l b :
  (forall x, x ∈ a :: l -> f' x = f x) ->
  (forall x, x ∈ l ++ [b] -> g' x = g x) ->
  dlinked f g a l b -> dlinked f' g' a l b.
Proof.
  revert a. induction l as [|y l IH]; intros a Hf Hg; simpl.
  - intros [H1 H2]. rewrite Hf, Hg by set_solver. done.
  - intros (H1 & H2 & H3). rewrite Hf, Hg by set_solver.
    repeat split; try done. apply IH; [set_solver | set_solver | done].
Qed.

Lemma dlinked_app f g a l1 x l2 b :
  dlinked f g a (l1 ++ x :: l2) b <-> dlinked f g a l1 x /\ dlinked f g x l2 b.
Proof.
  revert a. induction l1 as [|y l1 IH]; intros a; simpl.
  - tauto.
  - rewrite IH. tauto.
Qed.

Lemma dlinked_first f g a l b : dlinked f g a l b -> f a = hd b l.
Proof. destruct l; simpl; tauto. Qed.

Lemma dlinked_last f g a l b : dlinked f g a l b -> g b = hd a (rev l).
Proof.
  revert a. induction l as [|y l IH]; intros a; simpl.
  - tauto.
  - intros (_ & _ & H). rewrite (IH _ H). destruct (rev l); done.
Qed.

Lemma dlinked_next f g a l1 x l2 b :
  dlinked f g a (l1 ++ x :: l2) b -> f x = hd b l2.
Proof. rewrite dlinked_app. intros [_ H]. by apply dlinked_first in H. Qed.

Lemma dlinked_prev f g a l1 x l2 b :
  dlinked f g a (l1 ++ x :: l2) b -> g x = hd a (rev l1).
Proof. rewrite dlinked_app. intros [H _]. by apply dlinked_last in H. Qed.

Lemma hd_rev_elem (a : Z) (l : list Z) : hd a (rev l) ∈ a :: l.
Proof.
  destruct (rev l) as [|y r] eqn:E; simpl; [set_solver|].
  assert (y ∈ rev l) by (rewrite E; set_solver).
  rewrite elem_of_cons. right. apply list_elem_of_In, in_rev, list_elem_of_In. done.
Qed.

Lemma hd_elem (b : Z) (l : list Z) : hd b l ∈ l ++ [b].
Proof. destruct l; simpl; set_solver. Qed.

(** Unlinking [x] from a segment. *)
Lemma dlinked_remove_seg f g f' g' a l1 x l2 b :
  NoDup (a :: l1 ++ x :: l2) -> b ∉ l1 ++ x :: l2 ->
  dlinked f g a (l1 ++ x :: l2) b ->
  (forall y, f' y = if decide (y = g x) then f x else f y) ->
  (forall y, g' y = if decide (y = f x) then g x else g y) ->
  dlinked f' g' a (l1 ++ l2) b.
Proof.
  intros Hnd Hb Hd Hf' Hg'. revert a Hnd Hd.
  induction l1 as [|y l1 IH]; intros a Hnd Hd.
  - simpl in *. destruct Hd as (Hax & Hxa & Hd).
    apply NoDup_cons in Hnd as [Ha Hnd]. apply NoDup_cons in Hnd as [Hx Hnd].
    destruct l2 as [|z l2]; simpl in *.
    + destruct Hd as [Hxb Hbx]. rewrite Hf', Hg'.
      rewrite !decide_True by congruence. done.
    + destruct Hd as (Hxz & Hzx & Hd). rewrite Hf', Hg'.
      rewrite !decide_True by congruence. repeat split; try done.
      apply NoDup_cons in Hnd as [Hz Hnd].
      eapply dlinked_ext; [| |exact Hd].
      * intros w Hw. rewrite Hf'. rewrite decide_False; [done|].
        rewrite Hxa. intros ->. set_solver.
      * intros w Hw. rewrite Hg'. rewrite decide_False; [done|].
        rewrite Hxz. intros ->. apply elem_of_app in Hw as [Hw|Hw]; [done|].
        apply list_elem_of_singleton in Hw. subst. set_solver.
  - simpl in *. destruct Hd as (Hay & Hya & Hd).
    pose proof (dlinked_prev _ _ _ _ _ _ _ Hd) as Hp.
    pose proof (dlinked_next _ _ _ _ _ _ _ Hd) as Hq.
    apply NoDup_cons in Hnd as [Ha Hnd].
    rewrite Hf', Hg'. rewrite !decide_False.
    + repeat split; try done. apply IH; [set_solver | done | done].
    + rewrite Hq. intros Heq. pose proof (hd_elem b l2) as He.
      rewrite <- Heq in He.
      apply elem_of_app in He as [He|He].
      * apply NoDup_cons in Hnd as [Hy _]. set_solver.
      * apply list_elem_of_singleton in He. subst b. set_solver.
    + rewrite Hp. intros Heq. pose proof (hd_rev_elem y l1) as He.
      rewrite <- Heq in He. set_solver.
Qed.

Lemma dlinked_remove f g f' g' h l1 x l2 :
  NoDup (h :: l1 ++ x :: l2) ->
  dlinked f g h (l1 ++ x :: l2) h ->
  (forall y, f' y = if decide (y = g x) then f x else f y) ->
  (forall y, g' y = if decide (y = f x) then g x else g y) ->
  dlinked f' g' h (l1 ++ l2) h.
Proof.
  intros Hnd. eapply dlinked_remove_seg; [done|].
  by apply NoDup_cons in Hnd as [? _].
Qed.

(** The neighbours of a linked node are in the ring and differ from it. *)
Lemma dlinked_neighbours f g h l1 x l2 :
  NoDup (h :: l1 ++ x :: l2) ->
  dlinked f g h (l1 ++ x :: l2) h ->
  f x ∈ h :: l2 /\ g x ∈ h :: l1 /\ f x <> x /\ g x <> x /\ f (g x) = x /\ g (f x) = x.
Proof.
  intros Hnd Hd.
  pose proof (dlinked_prev _ _ _ _ _ _ _ Hd) as Hp.
  pose proof (dlinked_next _ _ _ _ _ _ _ Hd) as Hq.
  assert (Hfx : f x ∈ h :: l2).
  { rewrite Hq. pose proof (hd_elem h l2). set_solver. }
  assert (Hgx : g x ∈ h :: l1).
  { rewrite Hp. apply hd_rev_elem. }
  apply NoDup_cons in Hnd as [Hh Hnd].
  apply NoDup_app in Hnd as (Hn1 & Hn12 & Hn2).
  apply NoDup_cons in Hn2 as [Hx2 Hn2].
  assert (Hx1 : x ∉ l1) by (intros Hx; apply (Hn12 _ Hx); set_solver).
  assert (Hxh : x <> h) by (intros ->; set_solver).
  repeat split; try done.
  - intros Heq. rewrite Heq in Hfx. set_solver.
  - intros Heq. rewrite Heq in Hgx. set_solver.
  - apply dlinked_app in Hd as [Hd1 _]. clear -Hd1.
    revert h Hd1. induction l1 as [|y l1 IH]; intros h; simpl.
    + intros [? ->]. done.
    + intros (_ & _ & Hd). by apply IH in Hd.
  - apply dlinked_app in Hd as [_ Hd2]. destruct l2; simpl in *.
    + destruct Hd2 as [-> ?]. done.
    + destruct Hd2 as (-> & ? & _). done.
Qed.

(** Linking a new node [x] at the end of a ring. *)
Lemma dlinked_snoc f g f' g' h l x :
  x ∉ h :: l ->
  dlinked f g h l h ->
  (forall y, f' y = if decide (y = x) then h else if decide (y = g h) then x else f y) ->
  (forall y, g' y = if decide (y = x) then g h else if decide (y = h) then x else g y) ->
  NoDup (h :: l) ->
  dlinked f' g' h (l ++ [x]) h.
Proof.
  intros Hx Hd Hf' Hg' Hnd.
  pose proof (dlinked_last _ _ _ _ _ Hd) as Hlast.
  assert (Hxh : x <> h) by set_solver.
  assert (Hgen : forall a l0, dlinked f g a l0 h -> x ∉ a :: l0 -> NoDup (a :: l0) ->
     h ∉ l0 -> g h = hd a (rev l0) -> dlinked f' g' a (l0 ++ [x]) h).
  { clear Hd Hlast Hnd. intros a l0. revert a.
    induction l0 as [|y l0 IH]; intros a Hd Hxa Hnd Hh Hl; simpl in *.
    - destruct Hd as [Hah Hha]. rewrite !Hf', !Hg'.
      assert (a <> x) by set_solver.
      repeat split; repeat case_decide; congruence.
    - destruct Hd as (Hay & Hya & Hd).
      apply NoDup_cons in Hnd as [Ha Hnd].
      assert (Hgh : g h = hd y (rev l0)).
      { rewrite Hl. by destruct (rev l0). }
      rewrite Hf', Hg'.
      rewrite (decide_False (P := a = x)) by set_solver.
      rewrite (decide_False (P := y = x)) by set_solver.
      rewrite (decide_False (P := y = h)) by set_solver.
      rewrite decide_False.
      + repeat split; try done. apply IH; try done; set_solver.
      + rewrite Hgh. intros ->. pose proof (hd_rev_elem y l0). set_solver.
  }
  destruct l as [|y l].
  - simpl in *. destruct Hd as [Hhh Hgh]. rewrite !Hf', !Hg'.
    repeat split; repeat case_decide; congruence.
  - simpl in Hd. destruct Hd as (Hhy & Hyh & Hd).
    apply NoDup_cons in Hnd as [Hh Hnd].
    assert (Hgh : g h = hd y (rev l)).
    { rewrite Hlast. simpl. by destruct (rev l). }
    simpl. rewrite Hf', Hg'.
    rewrite (decide_False (P := h = x)) by set_solver.
    rewrite (decide_False (P := y = x)) by set_solver.
    rewrite (decide_False (P := y = h)) by set_solver.
    rewrite decide_False.
    + repeat split; try done. apply Hgen; try done; set_solver.
    + rewrite Hgh. intros ->. pose proof (hd_rev_elem y l). set_solver.
Qed.

(** The same with an invariant over the part of [l] already visited. *)
Lemma for_ring_prefix (P : list Z -> Memory -> Prop) fld stop body
    (g : Z -> Memory -> Memory) (l : list Z) :
  (forall done y rest m, l = done ++ y :: rest -> P done m ->
     y <> stop /\ body y m = Some (g y m) /\ P (done ++ [y]) (g y m) /\
     fld (g y m) y = hd stop rest) ->
  forall fuel m, P [] m -> (length l <= fuel)%nat ->
    for_ring fld stop body fuel (hd stop l) m = Some (foldl (fun m x => g x m) m l) /\
    P l (foldl (fun m x => g x m) m l).
Proof.
  intros Hstep fuel m HP Hlen.
  destruct (for_ring_foldl (fun rest m' => exists done, l = done ++ rest /\ P done m')
              fld stop body g) with (l := l) (fuel := fuel) (m := m)
    as [Hrun (done & Hl & Hdone)].
  - intros x rest m' (done & Hl & Hdone).
    destruct (Hstep done x rest m' Hl Hdone) as (H1 & H2 & H3 & H4).
    repeat split; try done. exists (done ++ [x]). split; [|done].
    by rewrite <- app_assoc.
  - exists []. done.
  - done.
  - split; [done|]. rewrite app_nil_r in Hl. by subst.
Qed.

(** A loop over [l] with an invariant, whatever its body computes. *)
Lemma for_ring_inv (P : list Z -> Memory -> Prop) fld stop body (l : list Z) :
  (forall done y rest m, l = done ++ y :: rest -> P done m ->
     y <> stop /\ exists m', body y m = Some m' /\ P (done ++ [y]) m' /\
     fld m' y = hd stop rest) ->
  forall fuel m, P [] m -> (length l <= fuel)%nat ->
    exists m', for_ring fld stop body fuel (hd stop l) m = Some m' /\ P l m'.
Proof.
  intros Hstep fuel m HP Hlen.
  destruct (for_ring_prefix P fld stop body (fun y m => default m (body y m)) l)
    with (fuel := fuel) (m := m) as [Hrun Hfin]; [|done|done|eauto].
  intros done y rest m0 Hl HP0.
  destruct (Hstep done y rest m0 Hl HP0) as (Hne & m' & Hbody & HP' & Hnext).
  rewrite Hbody. simpl. done.
Qed.

Lemma elem_of_rev {A} (x : A) (l : list A) : x ∈ rev l <-> x ∈ l.
Proof. rewrite !list_elem_of_In. symmetry. apply in_rev. Qed.

Lemma NoDup_rev_2 {A} (l : list A) : NoDup l -> NoDup (rev l).
Proof. rewrite !NoDup_ListNoDup. apply List.NoDup_rev. Qed.

(** ** Arithmetic of the constraint indexer and of the arena layout *)

Section Layout.

Context (N : Z) {HN : GoodSize N}.
Let N_pos : 0 < N := size_pos.
Let N_square : Z.sqrt N * Z.sqrt N = N := size_square.

Local Abbreviation C := (COLUMNS N).
Local Abbreviation R := (ROWS N).

Lemma root_pos : 0 < Z.sqrt N.
Proof. pose proof (Z.sqrt_nonneg N). nia. Qed.

Lemma C_eq : C = 4 * (N * N).
Proof. unfold COLUMNS. lia. Qed.

Lemma R_eq : R = N * (N * N).
Proof. unfold ROWS. lia. Qed.

Lemma C_pos : 0 < C.
Proof. rewrite C_eq. nia. Qed.

Lemma R_pos : 0 < R.
Proof. rewrite R_eq. nia. Qed.

Lemma candidate_mod i : 0 <= i -> ecp_candidate N i = i `mod` N.
Proof. intros. unfold ecp_candidate. apply Z.rem_mod_nonneg; lia. Qed.

Lemma row_div i : 0 <= i -> ecp_row N i = i `div` (N * N).
Proof. intros. unfold ecp_row, SUDOKU_SIZE_SQUARED. apply Z.quot_div_nonneg; nia. Qed.

Lemma column_divmod i : 0 <= i -> ecp_column N i = (i `div` N) `mod` N.
Proof.
  intros. unfold ecp_column. rewrite Z.quot_div_nonneg by lia.
  apply Z.rem_mod_nonneg; [|lia]. apply Z.div_pos; lia.
Qed.

Lemma candidate_range i : 0 <= i -> 0 <= ecp_candidate N i < N.
Proof. intros. rewrite candidate_mod by done. apply Z.mod_pos_bound. lia. Qed.

Lemma row_range i : 0 <= i < R -> 0 <= ecp_row N i < N.
Proof.
  intros [H0 H1]. rewrite row_div by done. rewrite R_eq in H1. split.
  - apply Z.div_pos; nia.
  - apply Z.div_lt_upper_bound; nia.
Qed.

Lemma column_range i : 0 <= i -> 0 <= ecp_column N i < N.
Proof. intros. rewrite column_divmod by done. apply Z.mod_pos_bound. lia. Qed.

Lemma box_eq i :
  0 <= i < R ->
  ecp_box N i =
  (ecp_row N i `div` Z.sqrt N) * Z.sqrt N + ecp_column N i `div` Z.sqrt N.
Proof.
  intros Hi. unfold ecp_box, SUDOKU_SIZE_SQUARE_ROOT.
  pose proof root_pos. pose proof (row_range i Hi).
  pose proof (column_range i (proj1 Hi)).
  rewrite !Z.quot_div_nonneg by lia. done.
Qed.

Lemma box_of_range r c :
  0 <= r < N -> 0 <= c < N ->
  0 <= (r `div` Z.sqrt N) * Z.sqrt N + c `div` Z.sqrt N < N.
Proof.
  intros Hr Hc. pose proof root_pos as Hs.
  assert (0 <= r `div` Z.sqrt N < Z.sqrt N).
  { split; [apply Z.div_pos; lia | apply Z.div_lt_upper_bound; nia]. }
  assert (0 <= c `div` Z.sqrt N < Z.sqrt N).
  { split; [apply Z.div_pos; lia | apply Z.div_lt_upper_bound; nia]. }
  nia.
Qed.

Lemma box_range i : 0 <= i < R -> 0 <= ecp_box N i < N.
Proof.
  intros Hi. rewrite box_eq by done.
  apply box_of_range; [by apply row_range | apply column_range; lia].
Qed.

(** The candidate "cell (r, c) holds v" has index [v + N * c + N * N * r]. *)
Lemma decode_index r c v :
  0 <= r < N -> 0 <= c < N -> 0 <= v < N ->
  let i := v + N * c + N * N * r in
  0 <= i < R /\ ecp_candidate N i = v /\ ecp_row N i = r /\ ecp_column N i = c.
Proof.
  intros Hr Hc Hv i.
  assert (Hi0 : 0 <= i) by (unfold i; nia).
  assert (Hi : 0 <= i < R) by (rewrite R_eq; unfold i; nia).
  split; [done|].
  rewrite candidate_mod, row_div, column_divmod by done.
  assert (Hd : i `div` N = c + N * r).
  { symmetry. apply (Z.div_unique_pos i N (c + N * r) v); [lia | unfold i; lia]. }
  repeat split.
  - symmetry. apply (Z.mod_unique_pos i N (c + N * r) v); [lia | unfold i; lia].
  - symmetry. apply (Z.div_unique_pos i (N * N) r (v + N * c)); [nia | unfold i; lia].
  - rewrite Hd. symmetry. apply (Z.mod_unique_pos _ N r c); [lia | lia].
Qed.

Lemma encode_index i :
  0 <= i < R ->
  i = ecp_candidate N i + N * ecp_column N i + N * N * ecp_row N i.
Proof.
  intros [H0 H1]. rewrite candidate_mod, row_div, column_divmod by done.
  pose proof (Z.div_mod i N ltac:(lia)).
  pose proof (Z.div_mod (i `div` N) N ltac:(lia)).
  rewrite Z.div_div in * by lia. nia.
Qed.

(** Each of the four families of columns has its own range. *)
Lemma cols_family i k :
  0 <= i < R -> 0 <= k < 4 ->
  k * (N * N) <= cols N i k < (k + 1) * (N * N).
Proof.
  intros Hi Hk. unfold cols, SUDOKU_SIZE_SQUARED.
  pose proof (row_range i Hi). pose proof (column_range i (proj1 Hi)).
  pose proof (candidate_range i (proj1 Hi)). pose proof (box_range i Hi).
  destruct (Z.eqb_spec k 0); [subst; nia|].
  destruct (Z.eqb_spec k 1); [subst; nia|].
  destruct (Z.eqb_spec k 2); [subst; nia|].
  assert (k = 3) by lia. subst. nia.
Qed.

Lemma cols_range i k : 0 <= i < R -> 0 <= k < 4 -> 0 <= cols N i k < C.
Proof. intros Hi Hk. pose proof (cols_family i k Hi Hk). rewrite C_eq. nia. Qed.

Lemma cols_inj i k k' :
  0 <= i < R -> 0 <= k < 4 -> 0 <= k' < 4 -> cols N i k = cols N i k' -> k = k'.
Proof.
  intros Hi Hk Hk' Heq.
  pose proof (cols_family i k Hi Hk). pose proof (cols_family i k' Hi Hk'). nia.
Qed.

Lemma cols_mono i k k' :
  0 <= i < R -> 0 <= k < 4 -> 0 <= k' < 4 -> k < k' -> cols N i k < cols N i k'.
Proof.
  intros Hi Hk Hk' Hlt.
  pose proof (cols_family i k Hi Hk). pose proof (cols_family i k' Hi Hk'). nia.
Qed.

(** Addresses. *)
Lemma rowOf_nd i k : 0 <= k < 4 -> rowOf N (nd N i k) = i.
Proof.
  intros. unfold rowOf, nd. symmetry.
  apply (Z.div_unique_pos _ 4 i k); lia.
Qed.

Lemma kOf_nd i k : 0 <= k < 4 -> kOf N (nd N i k) = k.
Proof.
  intros. unfold kOf, nd. symmetry.
  apply (Z.mod_unique_pos _ 4 i k); lia.
Qed.

Lemma colOf_nd i k : 0 <= k < 4 -> colOf N (nd N i k) = cols N i k.
Proof. intros. unfold colOf. by rewrite rowOf_nd, kOf_nd. Qed.

Lemma nd_eta a : nd N (rowOf N a) (kOf N a) = a.
Proof.
  unfold nd, rowOf, kOf. pose proof (Z.div_mod (a - (C + 2)) 4 ltac:(lia)). lia.
Qed.

Lemma kOf_range a : 0 <= kOf N a < 4.
Proof. unfold kOf. apply Z.mod_pos_bound. lia. Qed.

Lemma elem_of_allnodes a :
  a ∈ allnodes N <-> C + 2 <= a < C + 2 + 4 * R.
Proof. unfold allnodes. rewrite elem_of_seqZ. lia. Qed.

Lemma rowOf_range a : a ∈ allnodes N -> 0 <= rowOf N a < R.
Proof.
  rewrite elem_of_allnodes. intros Ha. unfold rowOf. split.
  - apply Z.div_pos; lia.
  - apply Z.div_lt_upper_bound; lia.
Qed.

Lemma nd_allnodes i k : 0 <= i < R -> 0 <= k < 4 -> nd N i k ∈ allnodes N.
Proof. intros. rewrite elem_of_allnodes. unfold nd. lia. Qed.

Lemma nd_inj i k i' k' :
  0 <= k < 4 -> 0 <= k' < 4 -> nd N i k = nd N i' k' -> i = i' /\ k = k'.
Proof. unfold nd. lia. Qed.

Lemma colOf_range a : a ∈ allnodes N -> 0 <= colOf N a < C.
Proof.
  intros Ha. unfold colOf. apply cols_range; [by apply rowOf_range | apply kOf_range].
Qed.

Lemma hdr_not_node j a : 0 <= j < C -> a ∈ allnodes N -> hdr j <> a.
Proof. rewrite elem_of_allnodes. unfold hdr. lia. Qed.

Lemma hdr_inj j j' : hdr j = hdr j' -> j = j'.
Proof. unfold hdr. lia. Qed.

Lemma hdr_not_head j : 0 <= j -> hdr j <> 1.
Proof. unfold hdr. lia. Qed.

Lemma node_not_head a : a ∈ allnodes N -> a <> 1.
Proof. pose proof C_pos. rewrite elem_of_allnodes. lia. Qed.

(** Column lists. *)
Lemma elem_of_colnodes a j : a ∈ colnodes N j <-> colOf N a = j /\ a ∈ allnodes N.
Proof. unfold colnodes. by rewrite list_elem_of_filter. Qed.

Lemma NoDup_allnodes : NoDup (allnodes N).
Proof. apply NoDup_seqZ. Qed.

Lemma NoDup_colnodes j : NoDup (colnodes N j).
Proof. apply NoDup_filter, NoDup_allnodes. Qed.

Lemma elem_of_vlist hid a j :
  a ∈ vlist N hid j <-> hid a = false /\ colOf N a = j /\ a ∈ allnodes N.
Proof. unfold vlist. rewrite list_elem_of_filter, elem_of_colnodes. done. Qed.

Lemma NoDup_vlist hid j : NoDup (vlist N hid j).
Proof. apply NoDup_filter, NoDup_colnodes. Qed.

Lemma NoDup_ring hid j : 0 <= j < C -> NoDup (hdr j :: vlist N hid j).
Proof.
  intros Hj. apply NoDup_cons. split; [|apply NoDup_vlist].
  intros Hin. apply elem_of_vlist in Hin as (_ & _ & Hin).
  by apply (hdr_not_node j _ Hj Hin).
Qed.

Lemma others_spec a b :
  b ∈ others N a <-> exists k, 0 <= k < 4 /\ k <> kOf N a /\ b = nd N (rowOf N a) k.
Proof.
  unfold others. pose proof (kOf_range a) as Hk. rewrite !elem_of_cons, elem_of_nil.
  split.
  - intros [->|[->|[->|[]]]]; eexists; (split; [|split; [|reflexivity]]);
      try (apply Z.mod_pos_bound; lia);
      intros Heq;
      [ pose proof (Z.mod_unique_pos (kOf N a + 1) 4 0 (kOf N a + 1))
      | pose proof (Z.mod_unique_pos (kOf N a + 2) 4 0 (kOf N a + 2))
      | pose proof (Z.mod_unique_pos (kOf N a + 3) 4 0 (kOf N a + 3)) ];
      [ pose proof (Z.mod_unique_pos (kOf N a + 1) 4 1 (kOf N a - 3))
      | pose proof (Z.mod_unique_pos (kOf N a + 2) 4 1 (kOf N a - 2))
      | pose proof (Z.mod_unique_pos (kOf N a + 3) 4 1 (kOf N a - 1)) ]; lia.
  - intros (k & Hk4 & Hne & ->).
    assert (Hcases : k = (kOf N a + 1) `mod` 4 \/ k = (kOf N a + 2) `mod` 4 \/
                     k = (kOf N a + 3) `mod` 4).
    { assert (kOf N a = 0 \/ kOf N a = 1 \/ kOf N a = 2 \/ kOf N a = 3) as Hc by lia.
      assert (k = 0 \/ k = 1 \/ k = 2 \/ k = 3) as Hc' by lia.
      destruct Hc as [E|[E|[E|E]]]; rewrite E in *;
        destruct Hc' as [E'|[E'|[E'|E']]]; subst k; try lia;
        vm_compute; tauto. }
    destruct Hcases as [E|[E|E]]; rewrite <- E; tauto.
Qed.

End Layout.

(** ** Unlinking a node and a column *)

Lemma hide_eq a m :
  hide a m =
  wr_size (columnOf m a) (sizeOf m (columnOf m a) - 1)
    (wr_lower (upperOf m a) (lowerOf m a) (wr_upper (lowerOf m a) (upperOf m a) m)).
Proof.
  unfold hide. cbv zeta. autorewrite with heap.
  by destruct (decide (a = lowerOf m a)).
Qed.

Lemma unhide_eq a m :
  upperOf m a <> a ->
  unhide a m =
  wr_upper (lowerOf m a) a
    (wr_lower (upperOf m a) a
       (wr_size (columnOf m a) (sizeOf m (columnOf m a) + 1) m)).
Proof.
  intros Hne. unfold unhide. cbv zeta. autorewrite with heap.
  by rewrite decide_False by done.
Qed.

Lemma unlink_column_eq c m :
  unlink_column c m =
  wr_right (leftOf m c) (rightOf m c) (wr_left (rightOf m c) (leftOf m c) m).
Proof.
  unfold unlink_column. cbv zeta. autorewrite with heap.
  by destruct (decide (c = rightOf m c)).
Qed.

Lemma relink_column_eq c m :
  leftOf m c <> c ->
  relink_column c m =
  wr_left (rightOf m c) c (wr_right (leftOf m c) c m).
Proof.
  intros Hne. unfold relink_column. cbv zeta. autorewrite with heap.
  by rewrite decide_False by done.
Qed.

Lemma lowerOf_hide a m b :
  lowerOf (hide a m) b = if decide (b = upperOf m a) then lowerOf m a else lowerOf m b.
Proof. rewrite hide_eq. by autorewrite with heap. Qed.

Lemma upperOf_hide a m b :
  upperOf (hide a m) b = if decide (b = lowerOf m a) then upperOf m a else upperOf m b.
Proof. rewrite hide_eq. by autorewrite with heap. Qed.

Lemma sizeOf_hide a m b :
  sizeOf (hide a m) b =
  if decide (b = columnOf m a) then sizeOf m (columnOf m a) - 1 else sizeOf m b.
Proof. rewrite hide_eq. by autorewrite with heap. Qed.

Lemma rightOf_hide a m b : rightOf (hide a m) b = rightOf m b.
Proof. rewrite hide_eq. by autorewrite with heap. Qed.

Lemma leftOf_hide a m b : leftOf (hide a m) b = leftOf m b.
Proof. rewrite hide_eq. by autorewrite with heap. Qed.

Lemma columnOf_hide a m b : columnOf (hide a m) b = columnOf m b.
Proof. rewrite hide_eq. by autorewrite with heap. Qed.

Lemma identOf_hide a m b : identOf (hide a m) b = identOf m b.
Proof. rewrite hide_eq. by autorewrite with heap. Qed.

Lemma alloc_hide a m b : alloc m b -> alloc (hide a m) b.
Proof.
  intros. rewrite hide_eq.
  by apply alloc_wr_size_mono, alloc_wr_lower_mono, alloc_wr_upper_mono.
Qed.

Lemma rightOf_unlink c m b :
  rightOf (unlink_column c m) b =
  if decide (b = leftOf m c) then rightOf m c else rightOf m b.
Proof. rewrite unlink_column_eq. by autorewrite with heap. Qed.

Lemma leftOf_unlink c m b :
  leftOf (unlink_column c m) b =
  if decide (b = rightOf m c) then leftOf m c else leftOf m b.
Proof. rewrite unlink_column_eq. by autorewrite with heap. Qed.

Lemma upperOf_unlink c m b : upperOf (unlink_column c m) b = upperOf m b.
Proof. rewrite unlink_column_eq. by autorewrite with heap. Qed.

Lemma lowerOf_unlink c m b : lowerOf (unlink_column c m) b = lowerOf m b.
Proof. rewrite unlink_column_eq. by autorewrite with heap. Qed.

Lemma sizeOf_unlink c m b : sizeOf (unlink_column c m) b = sizeOf m b.
Proof. rewrite unlink_column_eq. by autorewrite with heap. Qed.

Lemma columnOf_unlink c m b : columnOf (unlink_column c m) b = columnOf m b.
Proof. rewrite unlink_column_eq. by autorewrite with heap. Qed.

Lemma identOf_unlink c m b : identOf (unlink_column c m) b = identOf m b.
Proof. rewrite unlink_column_eq. by autorewrite with heap. Qed.

Lemma alloc_unlink c m b : alloc m b -> alloc (unlink_column c m) b.
Proof.
  intros. rewrite unlink_column_eq.
  by apply alloc_wr_right_mono, alloc_wr_left_mono.
Qed.

Lemma filter_id_Forall (P : Z -> Prop) `{!forall x, Decision (P x)} (l : list Z) :
  (forall x, x ∈ l -> P x) -> filter P l = l.
Proof.
  induction l as [|y l IH]; intros HP; [done|].
  rewrite filter_cons_True by (apply HP; set_solver).
  f_equal. apply IH. intros. apply HP. set_solver.
Qed.

Lemma filter_remove_NoDup (l1 l2 : list Z) (x : Z) :
  NoDup (l1 ++ x :: l2) -> filter (fun b => b <> x) (l1 ++ x :: l2) = l1 ++ l2.
Proof.
  intros Hnd. apply NoDup_app in Hnd as (_ & H12 & Hnd2).
  apply NoDup_cons in Hnd2 as [Hx2 _].
  rewrite filter_app, filter_cons_False by (intros ?; done).
  f_equal; apply filter_id_Forall.
  - intros y Hy ->. apply (H12 _ Hy). set_solver.
  - intros y Hy ->. done.
Qed.

Lemma filter_ext_elem (P1 P2 : Z -> Prop)
    `{!forall x, Decision (P1 x), !forall x, Decision (P2 x)} (l : list Z) :
  (forall x, x ∈ l -> P1 x <-> P2 x) -> filter P1 l = filter P2 l.
Proof.
  induction l as [|a l IH]; intros HP; [done|].
  rewrite !filter_cons. rewrite IH by (intros; apply HP; set_solver).
  apply decide_ext. apply HP. set_solver.
Qed.

Section Cover.

Context (N : Z) {HN : GoodSize N}.
Let N_pos : 0 < N := size_pos.
Let N_square : Z.sqrt N * Z.sqrt N = N := size_square.

Local Abbreviation C := (COLUMNS N).
Local Abbreviation R := (ROWS N).

Lemma vlist_ext hid hid' j :
  (forall a, a ∈ allnodes N -> hid a = hid' a) -> vlist N hid j = vlist N hid' j.
Proof.
  intros H. unfold vlist. apply filter_ext_elem.
  intros a Ha. apply elem_of_colnodes in Ha as [_ Ha]. by rewrite (H a Ha).
Qed.

Lemma Rep_ext K hid hid' m :
  (forall a, a ∈ allnodes N -> hid a = hid' a) -> Rep N K hid m -> Rep N K hid' m.
Proof.
  intros H [? ? ? ? ? ? ? ? ? ?]. split; try done.
  - intros j Hj. rewrite <- (vlist_ext hid hid' j H). auto.
  - intros j Hj. rewrite <- (vlist_ext hid hid' j H). auto.
Qed.

Lemma vlist_hide_set_one hid a j :
  vlist N (hide_set [a] hid) j = filter (fun b => b <> a) (vlist N hid j).
Proof.
  unfold vlist. rewrite list_filter_filter. apply list_filter_iff.
  intros b. unfold hide_set. rewrite orb_false_iff, bool_decide_eq_false.
  rewrite list_elem_of_singleton. tauto.
Qed.

Lemma ring_disjoint hid hid' j j' x :
  0 <= j < C -> 0 <= j' < C -> j <> j' ->
  x ∈ hdr j :: vlist N hid j -> x ∈ hdr j' :: vlist N hid' j' -> False.
Proof.
  intros Hj Hj' Hne. rewrite !elem_of_cons, !elem_of_vlist.
  intros [E1|(_ & H1 & H2)] [E2|(_ & H3 & H4)].
  - subst x. by apply hdr_inj in E2.
  - subst x. by apply (hdr_not_node N j (hdr j)).
  - subst x. by apply (hdr_not_node N j' (hdr j')).
  - congruence.
Qed.

Lemma rep_column_node K hid m a :
  Rep N K hid m -> a ∈ allnodes N -> columnOf m a = hdr (colOf N a).
Proof.
  intros HR Ha. rewrite <- (nd_eta N a) at 1.
  apply (rep_column _ _ _ _ HR); [by apply rowOf_range | apply kOf_range].
Qed.

(** Unlinking one node that is linked in its column. *)
Lemma hide_Rep K hid m a :
  Rep N K hid m -> a ∈ allnodes N -> hid a = false ->
  Rep N K (hide_set [a] hid) (hide a m).
Proof.
  intros HR Ha Hhid.
  pose proof (colOf_range N a Ha) as Hjn.
  set (jn := colOf N a) in *.
  assert (Hin : a ∈ vlist N hid jn) by (apply elem_of_vlist; done).
  destruct (list_elem_of_split _ _ Hin) as (l1 & l2 & Hsplit).
  pose proof (NoDup_ring N hid jn Hjn) as Hnd. rewrite Hsplit in Hnd.
  pose proof (rep_vring _ _ _ _ HR jn Hjn) as Hd. rewrite Hsplit in Hd.
  destruct (dlinked_neighbours _ _ _ _ _ _ Hnd Hd) as (Hq & Hp & _).
  assert (Hcol : columnOf m a = hdr jn) by (eapply rep_column_node; eauto).
  split.
  - apply (rep_head _ _ _ _ HR).
  - intros b Hb. apply alloc_hide. by apply (rep_alloc _ _ _ _ HR).
  - eapply dlinked_ext; [| |apply (rep_hring _ _ _ _ HR)]; intros;
      [apply rightOf_hide | apply leftOf_hide].
  - intros j Hj. rewrite rightOf_hide. by apply (rep_stale _ _ _ _ HR).
  - intros j Hj. rewrite vlist_hide_set_one.
    destruct (decide (j = jn)) as [->|Hne].
    + rewrite Hsplit, filter_remove_NoDup by (by apply NoDup_cons in Hnd as [_ ?]).
      eapply dlinked_remove; [exact Hnd | exact Hd | |]; intros y.
      * apply lowerOf_hide.
      * apply upperOf_hide.
    + rewrite filter_id_Forall.
      2:{ intros x Hx ->. apply elem_of_vlist in Hx as (_ & Hx & _). done. }
      eapply dlinked_ext; [| |apply (rep_vring _ _ _ _ HR j Hj)].
      * intros x Hx. rewrite lowerOf_hide. rewrite decide_False; [done|].
        intros ->. apply (ring_disjoint hid hid j jn (upperOf m a)); try done.
        rewrite Hsplit. set_solver.
      * intros x Hx. rewrite upperOf_hide. rewrite decide_False; [done|].
        intros ->. apply (ring_disjoint hid hid j jn (lowerOf m a)); try done.
        -- set_solver.
        -- rewrite Hsplit. set_solver.
  - intros j Hj. rewrite vlist_hide_set_one, sizeOf_hide, Hcol.
    destruct (decide (j = jn)) as [->|Hne].
    + rewrite decide_True by done. rewrite (rep_size _ _ _ _ HR jn Hj).
      rewrite Hsplit, filter_remove_NoDup by (by apply NoDup_cons in Hnd as [_ ?]).
      rewrite !length_app. simpl. lia.
    + rewrite decide_False by (intros E; by apply hdr_inj in E).
      rewrite filter_id_Forall.
      2:{ intros x Hx ->. apply elem_of_vlist in Hx as (_ & Hx & _). done. }
      by apply (rep_size _ _ _ _ HR).
  - intros i k Hi Hk. rewrite rightOf_hide. by apply (rep_right _ _ _ _ HR).
  - intros i k Hi Hk. rewrite leftOf_hide. by apply (rep_left _ _ _ _ HR).
  - intros i k Hi Hk. rewrite columnOf_hide. by apply (rep_column _ _ _ _ HR).
  - intros i k Hi Hk. rewrite identOf_hide. by apply (rep_ident _ _ _ _ HR).
Qed.

Lemma hide_list_Rep K T : forall hid m,
  Rep N K hid m -> NoDup T ->
  (forall t, t ∈ T -> t ∈ allnodes N /\ hid t = false) ->
  Rep N K (hide_set T hid) (foldl (fun m a => hide a m) m T).
Proof.
  induction T as [|t T IH]; intros hid m HR Hnd HT.
  - simpl. eapply Rep_ext; [|exact HR]. intros a _. unfold hide_set.
    rewrite bool_decide_eq_false_2; [done | set_solver].
  - simpl. apply NoDup_cons in Hnd as [Ht Hnd].
    destruct (HT t ltac:(set_solver)) as [Ht1 Ht2].
    eapply Rep_ext; [|apply (IH (hide_set [t] hid) (hide t m))].
    + intros a _. unfold hide_set. rewrite orb_assoc. f_equal.
      apply eq_true_iff_eq. rewrite orb_true_iff, !bool_decide_eq_true. set_solver.
    + by apply hide_Rep.
    + done.
    + intros t' Ht'. destruct (HT t' ltac:(set_solver)) as [? ?]. split; [done|].
      unfold hide_set. rewrite orb_false_iff, bool_decide_eq_false. split; [|done].
      set_solver.
Qed.

End Cover.

(** ** Covering a column *)

Lemma suffix_after_notin j K : j ∉ K -> suffix_after j K = [].
Proof.
  induction K as [|c K IH]; intros H; simpl; [done|].
  rewrite decide_False by set_solver. apply IH. set_solver.
Qed.

Lemma before_active K j : j ∉ K -> before K j = K.
Proof. intros. unfold before. by rewrite decide_False. Qed.

Lemma before_cons_same K j : before (j :: K) j = K.
Proof.
  unfold before. rewrite decide_True by set_solver. simpl.
  by rewrite decide_True.
Qed.

Lemma before_cons_in K j j0 : j0 ∈ K -> j0 <> j -> before (j :: K) j0 = before K j0.
Proof.
  intros Hin Hne. unfold before. rewrite !decide_True by set_solver.
  simpl. by rewrite decide_False.
Qed.

Lemma before_cons_active K j j0 : j0 ∉ K -> j0 <> j -> before (j :: K) j0 = j :: K.
Proof. intros Hin Hne. unfold before. rewrite decide_False by set_solver. done. Qed.

Lemma before_subseteq K j : before K j ⊆ K.
Proof.
  unfold before. case_decide; [|done]. clear. induction K as [|c K IH]; simpl; [done|].
  case_decide; set_solver.
Qed.

#[global] Instance hdr_inj' : Inj (=) (=) hdr.
Proof. intros x y. apply hdr_inj. Qed.

Section CoverColumn.

Context (N : Z) {HN : GoodSize N}.
Let N_pos : 0 < N := size_pos.
Let N_square : Z.sqrt N * Z.sqrt N = N := size_square.

Local Abbreviation C := (COLUMNS N).
Local Abbreviation R := (ROWS N).

Lemma elem_of_act K j : j ∈ act N K <-> 0 <= j < C /\ j ∉ K.
Proof. unfold act. rewrite list_elem_of_filter, elem_of_seqZ. intuition lia. Qed.

Lemma NoDup_act K : NoDup (act N K).
Proof. apply NoDup_filter, NoDup_seqZ. Qed.

Lemma act_cons K j : act N (j :: K) = filter (fun b => b <> j) (act N K).
Proof.
  unfold act. rewrite list_filter_filter. apply list_filter_iff.
  intros x. set_solver.
Qed.

Lemma NoDup_hring K : NoDup (1 :: (hdr <$> act N K)).
Proof.
  apply NoDup_cons. split.
  - intros Hin. apply list_elem_of_fmap in Hin as (j & Hj & Hin).
    apply elem_of_act in Hin as [? _]. unfold hdr in Hj. lia.
  - apply NoDup_fmap_2; [apply _ | apply NoDup_act].
Qed.

Lemma hring_elem K x :
  x ∈ 1 :: (hdr <$> act N K) -> x = 1 \/ exists j, x = hdr j /\ 0 <= j < C /\ j ∉ K.
Proof.
  rewrite elem_of_cons, list_elem_of_fmap. intros [->|(j & -> & Hj)]; [by left|].
  right. exists j. by apply elem_of_act in Hj.
Qed.

Lemma hring_not_node K x : x ∈ 1 :: (hdr <$> act N K) -> x ∉ allnodes N.
Proof.
  intros Hx Hn. apply hring_elem in Hx as [->|(j & -> & Hj & _)].
  - by apply (node_not_head N 1).
  - by apply (hdr_not_node N j (hdr j)).
Qed.

(** Taking an active column out of the ring of columns. *)
Lemma unlink_Rep K hid m j :
  Rep N K hid m -> 0 <= j < C -> j ∉ K ->
  Rep N (j :: K) hid (unlink_column (hdr j) m).
Proof.
  intros HR Hj HjK.
  assert (Hin : j ∈ act N K) by (by apply elem_of_act).
  destruct (list_elem_of_split _ _ Hin) as (l1 & l2 & Hsplit).
  pose proof (NoDup_hring K) as Hnd. rewrite Hsplit, fmap_app, fmap_cons in Hnd.
  pose proof (rep_hring _ _ _ _ HR) as Hd. rewrite Hsplit, fmap_app, fmap_cons in Hd.
  destruct (dlinked_neighbours _ _ _ _ _ _ Hnd Hd) as (Hq & Hp & Hqne & Hpne & Hpq & Hqp).
  assert (Hq' : rightOf m (hdr j) ∈ 1 :: (hdr <$> act N K)).
  { rewrite Hsplit, fmap_app, fmap_cons. set_solver. }
  assert (Hp' : leftOf m (hdr j) ∈ 1 :: (hdr <$> act N K)).
  { rewrite Hsplit, fmap_app, fmap_cons. set_solver. }
  split.
  - apply (rep_head _ _ _ _ HR).
  - intros b Hb. apply alloc_unlink. by apply (rep_alloc _ _ _ _ HR).
  - rewrite act_cons, Hsplit.
    rewrite filter_remove_NoDup by (rewrite <- Hsplit; apply NoDup_act).
    rewrite fmap_app.
    eapply dlinked_remove; [exact Hnd | exact Hd | |]; intros y.
    + apply rightOf_unlink.
    + apply leftOf_unlink.
  - intros j0 Hj0. rewrite rightOf_unlink.
    destruct (rep_stale _ _ _ _ HR j Hj) as [Hj1|(j' & Hj' & Hrj & Hbj)].
    + (* the column was the last active one *)
      case_decide as Hcase; [by left|].
      destruct (rep_stale _ _ _ _ HR j0 Hj0) as [?|(j0' & Hj0' & Hrj0 & Hbj0)]; [by left|].
      right. exists j0'. repeat split; try done; try lia.
      destruct (decide (j0 = j)) as [->|Hne].
      { rewrite before_cons_same. by rewrite before_active in Hbj0. }
      destruct (decide (j0 ∈ K)) as [HK|HK].
      { by rewrite before_cons_in. }
      rewrite before_cons_active by done. rewrite before_active in Hbj0 by done.
      apply not_elem_of_cons. split; [|done]. intros ->.
      apply Hcase. rewrite <- Hrj0 in Hpq.
      assert (Hj0a : hdr j0 ∈ hdr <$> act N K).
      { apply list_elem_of_fmap_2. by apply elem_of_act. }
      destruct (list_elem_of_split _ _ Hj0a) as (h1 & h2 & Hs0).
      pose proof (NoDup_hring K) as Hnd0. rewrite Hs0 in Hnd0.
      pose proof (rep_hring _ _ _ _ HR) as Hd0. rewrite Hs0 in Hd0.
      destruct (dlinked_neighbours _ _ _ _ _ _ Hnd0 Hd0) as (_ & _ & _ & _ & _ & Hx).
      rewrite Hrj0 in Hx. done.
    + case_decide as Hcase.
      * right. exists j'. rewrite Hrj.
        assert (j0 < j /\ j0 ∉ K) as [Hlt HK0].
        { apply hring_elem in Hp' as [Hp1|(jp & Hjp & Hjpr & HjpK)].
          - rewrite Hp1 in Hcase. unfold hdr in Hcase. lia.
          - rewrite Hjp in Hcase. apply hdr_inj in Hcase. subst jp.
            split; [|done].
            destruct (rep_stale _ _ _ _ HR j0 Hj0) as [H1|(j0' & Hj0' & Hrj0 & _)].
            + rewrite <- Hjp, Hpq in H1. unfold hdr in H1. lia.
            + rewrite <- Hjp, Hpq in Hrj0. apply hdr_inj in Hrj0. lia. }
        repeat split; try lia. rewrite before_cons_active by (done || lia).
        rewrite before_active in Hbj by done.
        apply not_elem_of_cons. split; [lia | done].
      * destruct (rep_stale _ _ _ _ HR j0 Hj0) as [?|(j0' & Hj0' & Hrj0 & Hbj0)]; [by left|].
        right. exists j0'. repeat split; try done; try lia.
        destruct (decide (j0 = j)) as [->|Hne].
        { rewrite before_cons_same. by rewrite before_active in Hbj0. }
        destruct (decide (j0 ∈ K)) as [HK|HK].
        { by rewrite before_cons_in. }
        rewrite before_cons_active by done. rewrite before_active in Hbj0 by done.
        apply not_elem_of_cons. split; [|done]. intros ->.
        apply Hcase.
        assert (Hj0a : hdr j0 ∈ hdr <$> act N K).
        { apply list_elem_of_fmap_2. by apply elem_of_act. }
        destruct (list_elem_of_split _ _ Hj0a) as (h1 & h2 & Hs0).
        pose proof (NoDup_hring K) as Hnd0. rewrite Hs0 in Hnd0.
        pose proof (rep_hring _ _ _ _ HR) as Hd0. rewrite Hs0 in Hd0.
        destruct (dlinked_neighbours _ _ _ _ _ _ Hnd0 Hd0) as (_ & _ & _ & _ & _ & Hx).
        rewrite Hrj0 in Hx. done.
  - intros j0 Hj0. eapply dlinked_ext; [| |apply (rep_vring _ _ _ _ HR j0 Hj0)]; intros;
      [apply lowerOf_unlink | apply upperOf_unlink].
  - intros j0 Hj0. rewrite sizeOf_unlink. by apply (rep_size _ _ _ _ HR).
  - intros i k Hi Hk. rewrite rightOf_unlink. rewrite decide_False.
    + by apply (rep_right _ _ _ _ HR).
    + intros E. apply (hring_not_node K _ Hp'). rewrite <- E. by apply nd_allnodes.
  - intros i k Hi Hk. rewrite leftOf_unlink. rewrite decide_False.
    + by apply (rep_left _ _ _ _ HR).
    + intros E. apply (hring_not_node K _ Hq'). rewrite <- E. by apply nd_allnodes.
  - intros i k Hi Hk. rewrite columnOf_unlink. by apply (rep_column _ _ _ _ HR).
  - intros i k Hi Hk. rewrite identOf_unlink. by apply (rep_ident _ _ _ _ HR).
Qed.

End CoverColumn.

(** ** Walking along a row *)

Lemma elem_of_concat {A} (x : A) (ls : list (list A)) :
  x ∈ concat ls <-> exists l, x ∈ l /\ l ∈ ls.
Proof.
  rewrite list_elem_of_In, in_concat. split; intros (l & H1 & H2); exists l;
    rewrite ?list_elem_of_In in *; tauto.
Qed.

Lemma concat_fmap_snoc {A B} (f : A -> list B) (l : list A) (x : A) :
  concat (f <$> (l ++ [x])) = concat (f <$> l) ++ f x.
Proof. rewrite fmap_app, concat_app. simpl. by rewrite app_nil_r. Qed.

Lemma concat_fmap_cons {A B} (f : A -> list B) (l : list A) (x : A) :
  concat (f <$> (x :: l)) = f x ++ concat (f <$> l).
Proof. done. Qed.

Lemma mod4_cases k : 0 <= k < 4 -> k = 0 \/ k = 1 \/ k = 2 \/ k = 3.
Proof. lia. Qed.

Section Rows.

Context (N : Z) {HN : GoodSize N}.
Let N_pos : 0 < N := size_pos.
Let N_square : Z.sqrt N * Z.sqrt N = N := size_square.

Local Abbreviation C := (COLUMNS N).
Local Abbreviation R := (ROWS N).

Lemma others_allnodes x y : x ∈ allnodes N -> y ∈ others N x -> y ∈ allnodes N.
Proof.
  intros Hx Hy. apply others_spec in Hy as (k & Hk & _ & ->).
  apply nd_allnodes; [by apply rowOf_range | done].
Qed.

Lemma others_row x y : y ∈ others N x -> rowOf N y = rowOf N x /\ kOf N y <> kOf N x.
Proof.
  intros Hy. apply others_spec in Hy as (k & Hk & Hne & ->).
  by rewrite rowOf_nd, kOf_nd.
Qed.

Lemma others_not_self x : x ∉ others N x.
Proof. intros Hx. apply others_row in Hx as [_ ?]. done. Qed.

Lemma NoDup_others x : NoDup (others N x).
Proof.
  unfold others. pose proof (kOf_range N x) as Hk.
  destruct (mod4_cases _ Hk) as [E|[E|[E|E]]]; rewrite E;
    change ((0 + 1) `mod` 4) with 1; change ((0 + 2) `mod` 4) with 2;
    change ((0 + 3) `mod` 4) with 3; change ((1 + 1) `mod` 4) with 2;
    change ((1 + 2) `mod` 4) with 3; change ((1 + 3) `mod` 4) with 0;
    change ((2 + 1) `mod` 4) with 3; change ((2 + 2) `mod` 4) with 0;
    change ((2 + 3) `mod` 4) with 1; change ((3 + 1) `mod` 4) with 0;
    change ((3 + 2) `mod` 4) with 1; change ((3 + 3) `mod` 4) with 2;
    repeat (apply NoDup_cons; split; [rewrite ?elem_of_cons, elem_of_nil; unfold nd; lia|]);
    apply NoDup_nil_2.
Qed.

(** The right link of a node of the row of [x], in terms of [others]. *)
Lemma others_succ x done y rest :
  others N x = done ++ y :: rest ->
  nd N (rowOf N y) ((kOf N y + 1) `mod` 4) = hd x rest.
Proof.
  intros Ho. pose proof (kOf_range N x) as Hk. pose proof (nd_eta N x) as Hx.
  unfold others in Ho.
  remember (rowOf N x) as i. remember (kOf N x) as k. clear Heqi Heqk.
  destruct done as [|d1 [|d2 [|d3 done]]]; simplify_eq/=;
    [ | | | by destruct done ];
    rewrite rowOf_nd, kOf_nd by (apply Z.mod_pos_bound; lia); f_equal;
    destruct (mod4_cases _ Hk) as [E|[E|[E|E]]]; rewrite E; reflexivity.
Qed.

Lemma others_first x : nd N (rowOf N x) ((kOf N x + 1) `mod` 4) = hd x (others N x).
Proof. done. Qed.

(** The same for the left links and the reversed list. *)
Lemma others_pred x done y rest :
  rev (others N x) = done ++ y :: rest ->
  nd N (rowOf N y) ((kOf N y + 3) `mod` 4) = hd x rest.
Proof.
  intros Ho. pose proof (kOf_range N x) as Hk. pose proof (nd_eta N x) as Hx.
  unfold others in Ho. simpl in Ho.
  remember (rowOf N x) as i. remember (kOf N x) as k. clear Heqi Heqk.
  destruct done as [|d1 [|d2 [|d3 done]]]; simplify_eq/=;
    [ | | | by destruct done ];
    rewrite rowOf_nd, kOf_nd by (apply Z.mod_pos_bound; lia); f_equal;
    destruct (mod4_cases _ Hk) as [E|[E|[E|E]]]; rewrite E; reflexivity.
Qed.

Lemma others_last x : nd N (rowOf N x) ((kOf N x + 3) `mod` 4) = hd x (rev (others N x)).
Proof. done. Qed.

Lemma rep_right_node K hid m a :
  Rep N K hid m -> a ∈ allnodes N ->
  rightOf m a = nd N (rowOf N a) ((kOf N a + 1) `mod` 4).
Proof.
  intros HR Ha. rewrite <- (nd_eta N a) at 1.
  apply (rep_right _ _ _ _ HR); [by apply rowOf_range | apply kOf_range].
Qed.

Lemma rep_left_node K hid m a :
  Rep N K hid m -> a ∈ allnodes N ->
  leftOf m a = nd N (rowOf N a) ((kOf N a + 3) `mod` 4).
Proof.
  intros HR Ha. rewrite <- (nd_eta N a) at 1.
  apply (rep_left _ _ _ _ HR); [by apply rowOf_range | apply kOf_range].
Qed.

Lemma length_others x : length (others N x) = 3%nat.
Proof. done. Qed.

(** ** [coverColumn] *)

Lemma coverColumn_unfold fuel c m :
  coverColumn fuel c m =
  for_ring lowerOf c
    (fun r m => for_ring rightOf r (fun y m => Some (hide y m)) fuel (rightOf m r) m)
    fuel (lowerOf (unlink_column c m) c) (unlink_column c m).
Proof. reflexivity. Qed.

Lemma NoDup_concat_prefix {A} (l1 l2 : list (list A)) :
  NoDup (concat (l1 ++ l2)) -> NoDup (concat l1).
Proof. rewrite concat_app. intros H. by apply NoDup_app in H as (? & _). Qed.

(** The inner loop of [coverColumn] unlinks the other nodes of the row. *)
Lemma cover_row_loop K hid m x fuel :
  Rep N K hid m -> x ∈ allnodes N -> NoDup (others N x) ->
  (forall t, t ∈ others N x -> hid t = false) ->
  (3 <= fuel)%nat ->
  for_ring rightOf x (fun y m => Some (hide y m)) fuel (rightOf m x) m =
    Some (foldl (fun m a => hide a m) m (others N x)).
Proof.
  intros HR Hx Hnd Hhid Hfuel.
  rewrite (rep_right_node K hid m x HR Hx), others_first.
  apply (for_ring_prefix
    (fun done m' => m' = foldl (fun m a => hide a m) m done /\
                    forall b, rightOf m' b = rightOf m b)
    rightOf x _ (fun y m => hide y m) (others N x)); [|done|by rewrite length_others].
  intros done y rest m' Ho [-> Hr].
  assert (Hy : y ∈ others N x) by (rewrite Ho; set_solver).
  repeat split.
  - intros ->. by apply (others_not_self x).
  - by rewrite foldl_snoc.
  - intros b. rewrite rightOf_hide. apply Hr.
  - rewrite rightOf_hide, Hr.
    rewrite (rep_right_node K hid m y HR (others_allnodes x y Hx Hy)).
    by apply (others_succ x done y rest).
Qed.

Lemma targets_prefix hid j done rest :
  vlist N hid j = done ++ rest ->
  targets N hid j = concat (others N <$> done) ++ concat (others N <$> rest).
Proof. intros H. unfold targets. by rewrite H, fmap_app, concat_app. Qed.

Lemma targets_column hid j t :
  0 <= j < C -> t ∈ targets N hid j -> t ∈ allnodes N /\ colOf N t <> j.
Proof.
  intros Hj Ht. unfold targets in Ht. apply elem_of_concat in Ht as (l & Ht & Hl).
  apply list_elem_of_fmap in Hl as (x & -> & Hx).
  apply elem_of_vlist in Hx as (_ & Hc & Hx). split.
  - by apply (others_allnodes x).
  - apply others_spec in Ht as (k & Hk & Hne & ->).
    rewrite colOf_nd by done. unfold colOf in Hc. rewrite <- Hc. intros E.
    apply cols_inj in E; try done; [by apply rowOf_range | apply kOf_range].
Qed.

Lemma vlist_hide_set_other hid T j :
  (forall t, t ∈ T -> colOf N t <> j) -> vlist N (hide_set T hid) j = vlist N hid j.
Proof.
  intros HT. unfold vlist. apply filter_ext_elem. intros a Ha.
  apply elem_of_colnodes in Ha as [Hc _]. unfold hide_set.
  rewrite bool_decide_eq_false_2; [done|]. intros Hin. by apply (HT a Hin).
Qed.

Theorem coverColumn_Rep K hid m j fuel :
  Rep N K hid m -> 0 <= j < C -> j ∉ K ->
  NoDup (targets N hid j) ->
  (forall t, t ∈ targets N hid j -> hid t = false) ->
  (length (vlist N hid j) <= fuel)%nat -> (3 <= fuel)%nat ->
  coverColumn fuel (hdr j) m = Some (cover_fun N j hid m) /\
  Rep N (j :: K) (hide_set (targets N hid j) hid) (cover_fun N j hid m).
Proof.
  intros HR Hj HjK Hnd Hhid Hfuel Hfuel3.
  pose proof (unlink_Rep N K hid m j HR Hj HjK) as HR0.
  set (m0 := unlink_column (hdr j) m) in *.
  assert (Hprefix : forall done rest, vlist N hid j = done ++ rest ->
    Rep N (j :: K) (hide_set (concat (others N <$> done)) hid)
        (foldl (fun m a => hide a m) m0 (concat (others N <$> done)))).
  { intros done rest Hv. apply hide_list_Rep; try done.
    - rewrite (targets_prefix hid j done rest Hv) in Hnd.
      by apply NoDup_app in Hnd as (? & _).
    - intros t Ht.
      assert (Ht' : t ∈ targets N hid j).
      { rewrite (targets_prefix hid j done rest Hv). set_solver. }
      split; [by apply (targets_column hid j t Hj Ht') | by apply Hhid]. }
  rewrite coverColumn_unfold. fold m0.
  pose proof (rep_vring _ _ _ _ HR0 j Hj) as Hd0.
  rewrite (dlinked_first _ _ _ _ _ Hd0).
  destruct (for_ring_prefix
    (fun done m' => m' = foldl (fun m a => hide a m) m0 (concat (others N <$> done)))
    lowerOf (hdr j)
    (fun r m => for_ring rightOf r (fun y m => Some (hide y m)) fuel (rightOf m r) m)
    (fun x m => foldl (fun m a => hide a m) m (others N x))
    (vlist N hid j)) with (fuel := fuel) (m := m0) as [Hrun Hfin]; [|done|done|].
  - intros done x rest m' Hv ->.
    pose proof (Hprefix done (x :: rest) Hv) as HRd.
    assert (Hx : x ∈ vlist N hid j) by (rewrite Hv; set_solver).
    pose proof Hx as Hx'. apply elem_of_vlist in Hx' as (Hxh & Hxc & Hxa).
    assert (Hsub : forall t, t ∈ others N x -> t ∈ targets N hid j).
    { intros t Ht. rewrite (targets_prefix hid j done (x :: rest) Hv).
      rewrite concat_fmap_cons. set_solver. }
    repeat split.
    + intros ->. pose proof (NoDup_ring N hid j Hj) as Hr.
      apply NoDup_cons in Hr as [Hr _]. done.
    + eapply cover_row_loop; try done.
      * apply NoDup_others.
      * intros t Ht. unfold hide_set. rewrite orb_false_iff. split; [|by apply Hhid, Hsub].
        apply bool_decide_eq_false. intros Hin.
        rewrite (targets_prefix hid j done (x :: rest) Hv) in Hnd.
        apply NoDup_app in Hnd as (_ & Hdisj & _). apply (Hdisj t Hin).
        rewrite concat_fmap_cons. set_solver.
    + by rewrite concat_fmap_snoc, foldl_app.
    + pose proof (Hprefix (done ++ [x]) rest) as HRx.
      rewrite <- app_assoc in HRx. specialize (HRx Hv).
      rewrite concat_fmap_snoc, foldl_app in HRx.
      pose proof (rep_vring _ _ _ _ HRx j Hj) as Hdx.
      rewrite vlist_hide_set_other in Hdx.
      2:{ intros t Ht. apply (targets_column hid j t Hj).
          rewrite (targets_prefix hid j (done ++ [x]) rest); [|by rewrite <- app_assoc].
          rewrite concat_fmap_snoc. set_solver. }
      rewrite Hv in Hdx. by apply dlinked_next in Hdx.
  - unfold cover_fun. fold m0. unfold targets. rewrite <- Hfin. split; [done|].
    rewrite Hfin. specialize (Hprefix (vlist N hid j) []).
    rewrite app_nil_r in Hprefix. by apply Hprefix.
Qed.

End Rows.

(** ** Which nodes are unlinked when the columns of [K] are covered *)

Section Hidden.

Context (N : Z) {HN : GoodSize N}.
Let N_pos : 0 < N := size_pos.
Let N_square : Z.sqrt N * Z.sqrt N = N := size_square.

Local Abbreviation C := (COLUMNS N).
Local Abbreviation R := (ROWS N).

Lemma hidden_true K a :
  hidden N K a = true <->
  exists k, 0 <= k < 4 /\ k <> kOf N a /\ cols N (rowOf N a) k ∈ before K (colOf N a).
Proof.
  unfold hidden. rewrite existsb_exists. split.
  - intros (k & Hk & Hb). apply andb_true_iff in Hb as [Hne Hin].
    apply negb_true_iff, Z.eqb_neq in Hne. apply bool_decide_eq_true in Hin.
    exists k. repeat split; try done; simpl in Hk; lia.
  - intros (k & Hk & Hne & Hin). exists k. split.
    + simpl. lia.
    + apply andb_true_iff. split.
      * by apply negb_true_iff, Z.eqb_neq.
      * by apply bool_decide_eq_true.
Qed.

Lemma hidden_false K a :
  hidden N K a = false <->
  forall k, 0 <= k < 4 -> k <> kOf N a -> cols N (rowOf N a) k ∉ before K (colOf N a).
Proof.
  rewrite <- not_true_iff_false, hidden_true. split.
  - intros H k Hk Hne Hin. apply H. eauto.
  - intros H (k & Hk & Hne & Hin). by apply (H k).
Qed.

Lemma hidden_nil a : hidden N [] a = false.
Proof.
  apply hidden_false. intros k _ _. unfold before.
  rewrite decide_False by set_solver. set_solver.
Qed.

(** A node that is linked in an active column belongs to a row none of
    whose columns is covered. *)
Lemma live_row K a k :
  a ∈ allnodes N -> hidden N K a = false -> colOf N a ∉ K -> 0 <= k < 4 ->
  cols N (rowOf N a) k ∉ K /\ hidden N K (nd N (rowOf N a) k) = false.
Proof.
  intros Ha Hh Hc Hk. rewrite hidden_false in Hh.
  rewrite before_active in Hh by done.
  assert (Hall : forall k', 0 <= k' < 4 -> cols N (rowOf N a) k' ∉ K).
  { intros k' Hk'. destruct (decide (k' = kOf N a)) as [->|Hne]; [done|]. by apply Hh. }
  split; [by apply Hall|].
  apply hidden_false. intros k' Hk' Hne.
  rewrite rowOf_nd, colOf_nd by done.
  rewrite before_active by (by apply Hall). by apply Hall.
Qed.

Lemma elem_of_targets hid j t :
  t ∈ targets N hid j <->
  exists x, x ∈ vlist N hid j /\ t ∈ others N x.
Proof.
  unfold targets. rewrite elem_of_concat. split.
  - intros (l & Ht & Hl). apply list_elem_of_fmap in Hl as (x & -> & Hx). eauto.
  - intros (x & Hx & Ht). exists (others N x). split; [done|].
    by apply list_elem_of_fmap_2.
Qed.

Lemma same_row_column x y :
  x ∈ allnodes N -> y ∈ allnodes N ->
  rowOf N x = rowOf N y -> colOf N x = colOf N y -> x = y.
Proof.
  intros Hx Hy Hr Hc. unfold colOf in Hc. rewrite Hr in Hc.
  apply (cols_inj N (rowOf N y)) in Hc; [|by apply rowOf_range|apply kOf_range..].
  by rewrite <- (nd_eta N x), <- (nd_eta N y), Hr, Hc.
Qed.

Lemma NoDup_targets hid j : NoDup (targets N hid j).
Proof.
  unfold targets. pose proof (NoDup_vlist N hid j) as Hnd.
  assert (Hall : forall x, x ∈ vlist N hid j -> colOf N x = j /\ x ∈ allnodes N).
  { intros x Hx. apply elem_of_vlist in Hx. tauto. }
  induction (vlist N hid j) as [|x l IH]; [apply NoDup_nil_2|].
  rewrite concat_fmap_cons. apply NoDup_cons in Hnd as [Hx Hnd].
  apply NoDup_app. split; [apply NoDup_others|]. split.
  - intros t Ht Ht'. apply elem_of_concat in Ht' as (l' & Ht' & Hl').
    apply list_elem_of_fmap in Hl' as (y & -> & Hy).
    apply others_row in Ht as [Hr1 _]. apply others_row in Ht' as [Hr2 _].
    destruct (Hall x ltac:(set_solver)) as [? ?].
    destruct (Hall y ltac:(set_solver)) as [? ?].
    assert (x = y) by (apply same_row_column; congruence).
    subst. done.
  - apply IH; [done|]. intros. apply Hall. set_solver.
Qed.

(** The nodes that [coverColumn] unlinks are those that become hidden. *)
Lemma hidden_cover K j a :
  0 <= j < C -> j ∉ K -> a ∈ allnodes N ->
  hide_set (targets N (hidden N K) j) (hidden N K) a = hidden N (j :: K) a.
Proof.
  intros Hj HjK Ha. apply eq_true_iff_eq. unfold hide_set.
  rewrite orb_true_iff, bool_decide_eq_true, elem_of_targets, !hidden_true.
  pose proof (rowOf_range N a Ha) as Hi. pose proof (kOf_range N a) as Hka.
  destruct (decide (colOf N a = j)) as [Hcj|Hcj].
  - (* the node is in the covered column: nothing changes *)
    rewrite Hcj, before_cons_same, (before_active K j) by done. split.
    + intros [(x & Hx & Ht)|H]; [|done].
      apply elem_of_vlist in Hx as (_ & Hxc & Hxa).
      apply others_row in Ht as [Hr Hk]. exfalso. apply Hk. f_equal.
      apply same_row_column; try done. congruence.
    + tauto.
  - destruct (decide (colOf N a ∈ K)) as [HaK|HaK].
    + (* the column of the node was covered earlier *)
      rewrite before_cons_in by done. split; [|tauto].
      intros [(x & Hx & Ht)|H]; [|done]. exfalso.
      apply elem_of_vlist in Hx as (Hxh & Hxc & Hxa).
      apply others_spec in Ht as (k & Hk & Hne & ->).
      destruct (live_row K x k Hxa Hxh ltac:(congruence) Hk) as [Hnot _].
      rewrite colOf_nd in HaK by done. done.
    + rewrite before_cons_active, (before_active K (colOf N a)) by done. split.
      * intros [(x & Hx & Ht)|(k & Hk & Hne & Hin)].
        -- apply elem_of_vlist in Hx as (Hxh & Hxc & Hxa).
           pose proof (others_row N x a Ht) as [Hr Hkne].
           exists (kOf N x). split; [apply kOf_range|]. split; [congruence|].
           rewrite Hr. unfold colOf in Hxc. rewrite Hxc. set_solver.
        -- exists k. split; [lia|]. split; [done|]. set_solver.
      * intros (k & Hk & Hne & Hin). apply elem_of_cons in Hin as [Hin|Hin].
        -- destruct (hidden N K (nd N (rowOf N a) k)) eqn:Hhk.
           ++ right. apply hidden_true in Hhk as (k' & Hk' & Hne' & Hin').
              rewrite rowOf_nd, kOf_nd, colOf_nd in * by done.
              rewrite Hin, before_active in Hin' by done.
              exists k'. split; [lia|]. split; [|done].
              intros ->. apply HaK. done.
           ++ left. exists (nd N (rowOf N a) k). split.
              ** apply elem_of_vlist. rewrite colOf_nd by done.
                 repeat split; try done. by apply nd_allnodes.
              ** apply others_spec. exists (kOf N a).
                 rewrite rowOf_nd, kOf_nd by done.
                 split; [done|]. split; [congruence|]. by rewrite nd_eta.
        -- right. exists k. done.
Qed.

Lemma length_vlist_le hid j : (length (vlist N hid j) <= Z.to_nat (4 * R))%nat.
Proof.
  unfold vlist, colnodes. etrans; [apply length_filter|].
  etrans; [apply length_filter|]. unfold allnodes. by rewrite length_seqZ.
Qed.

Lemma length_act_le K : (length (act N K) <= Z.to_nat C)%nat.
Proof. unfold act. etrans; [apply length_filter|]. by rewrite length_seqZ. Qed.

Lemma FUEL_vlist hid j fuel : (FUEL N <= fuel)%nat -> (length (vlist N hid j) <= fuel)%nat.
Proof.
  intros H. pose proof (length_vlist_le hid j). pose proof (C_pos N). pose proof (R_pos N).
  unfold FUEL in H. lia.
Qed.

Lemma FUEL_act K fuel : (FUEL N <= fuel)%nat -> (length (act N K) <= fuel)%nat.
Proof.
  intros H. pose proof (length_act_le K). pose proof (C_pos N). pose proof (R_pos N).
  unfold FUEL in H. lia.
Qed.

(** [coverColumn] on an active column. *)
Theorem coverColumn_Inv K m j fuel :
  Inv N K m -> 0 <= j < C -> j ∉ K -> (FUEL N <= fuel)%nat ->
  coverColumn fuel (hdr j) m = Some (cover_fun N j (hidden N K) m) /\
  Inv N (j :: K) (cover_fun N j (hidden N K) m).
Proof.
  intros HI Hj HjK Hfuel.
  destruct (coverColumn_Rep N K (hidden N K) m j fuel) as [Hrun HR]; try done.
  - apply NoDup_targets.
  - intros t Ht. apply elem_of_targets in Ht as (x & Hx & Ht).
    apply elem_of_vlist in Hx as (Hxh & Hxc & Hxa).
    apply others_spec in Ht as (k & Hk & _ & ->).
    apply (live_row K x k); try done. congruence.
  - by apply FUEL_vlist.
  - unfold FUEL in Hfuel. lia.
  - split; [done|]. unfold Inv. eapply Rep_ext; [|exact HR].
    intros a Ha. by apply hidden_cover.
Qed.

End Hidden.

(** ** Relinking undoes unlinking *)

Lemma memory_eq_fields (m m' : Memory) :
  (forall a, alloc m a <-> alloc m' a) ->
  (forall a, leftOf m a = leftOf m' a) -> (forall a, rightOf m a = rightOf m' a) ->
  (forall a, upperOf m a = upperOf m' a) -> (forall a, lowerOf m a = lowerOf m' a) ->
  (forall a, columnOf m a = columnOf m' a) -> (forall a, sizeOf m a = sizeOf m' a) ->
  (forall a, identOf m a = identOf m' a) ->
  next m = next m' -> headNode m = headNode m' ->
  SUDOKU_SOLUTION m = SUDOKU_SOLUTION m' ->
  CURRENT_SOLUTION m = CURRENT_SOLUTION m' -> stdout m = stdout m' ->
  m = m'.
Proof.
  intros Ha Hl Hr Hu Hd Hc Hs Hi. apply memory_eq; [done|].
  intros a. apply node_eta; [apply Hl|apply Hr|apply Hu|apply Hd|apply Hc|apply Hs|apply Hi].
Qed.

Lemma unhide_hide m a :
  upperOf m a <> a -> lowerOf m a <> a ->
  lowerOf m (upperOf m a) = a -> upperOf m (lowerOf m a) = a ->
  alloc m (upperOf m a) -> alloc m (lowerOf m a) -> alloc m (columnOf m a) ->
  unhide a (hide a m) = m.
Proof.
  intros Hp Hq Hpa Hqa Hap Haq Hac.
  rewrite unhide_eq.
  2:{ rewrite upperOf_hide. rewrite decide_False by done. done. }
  rewrite upperOf_hide, lowerOf_hide, columnOf_hide, sizeOf_hide.
  rewrite (decide_False (P := a = lowerOf m a)) by done.
  rewrite (decide_False (P := a = upperOf m a)) by done.
  rewrite (decide_True (P := columnOf m a = columnOf m a)) by done.
  rewrite hide_eq.
  apply memory_eq_fields; try reflexivity; intros b.
  - rewrite alloc_wr_upper, alloc_wr_lower, !alloc_wr_size, alloc_wr_lower, alloc_wr_upper.
    intuition (subst; done).
  - by autorewrite with heap.
  - by autorewrite with heap.
  - autorewrite with heap. repeat case_decide; congruence.
  - autorewrite with heap. repeat case_decide; congruence.
  - by autorewrite with heap.
  - autorewrite with heap. repeat case_decide; subst; try done; lia.
  - by autorewrite with heap.
Qed.

Lemma relink_unlink m c :
  leftOf m c <> c -> rightOf m c <> c ->
  rightOf m (leftOf m c) = c -> leftOf m (rightOf m c) = c ->
  alloc m (leftOf m c) -> alloc m (rightOf m c) ->
  relink_column c (unlink_column c m) = m.
Proof.
  intros Hp Hq Hpa Hqa Hap Haq.
  rewrite relink_column_eq.
  2:{ rewrite leftOf_unlink. rewrite decide_False by done. done. }
  rewrite leftOf_unlink, rightOf_unlink.
  rewrite (decide_False (P := c = rightOf m c)) by done.
  rewrite (decide_False (P := c = leftOf m c)) by done.
  rewrite unlink_column_eq.
  apply memory_eq_fields; try reflexivity; intros b.
  - rewrite alloc_wr_left, alloc_wr_right, alloc_wr_right, alloc_wr_left.
    intuition (subst; done).
  - autorewrite with heap. repeat case_decide; congruence.
  - autorewrite with heap. repeat case_decide; congruence.
  - by autorewrite with heap.
  - by autorewrite with heap.
  - by autorewrite with heap.
  - by autorewrite with heap.
  - by autorewrite with heap.
Qed.

Lemma leftOf_unhide a m b : leftOf (unhide a m) b = leftOf m b.
Proof. unfold unhide. cbv zeta. by autorewrite with heap. Qed.

Lemma rev_concat {A} (ls : list (list A)) :
  rev (concat ls) = concat (@rev A <$> rev ls).
Proof.
  induction ls as [|l ls IH]; [done|].
  simpl. rewrite rev_app_distr, IH, fmap_app, concat_app. simpl.
  by rewrite app_nil_r.
Qed.

Section Uncover.

Context (N : Z) {HN : GoodSize N}.
Let N_pos : 0 < N := size_pos.
Let N_square : Z.sqrt N * Z.sqrt N = N := size_square.

Local Abbreviation C := (COLUMNS N).
Local Abbreviation R := (ROWS N).

Lemma rep_alloc_node K hid m a : Rep N K hid m -> a ∈ allnodes N -> alloc m a.
Proof.
  intros HR Ha. apply (rep_alloc _ _ _ _ HR). apply elem_of_allnodes in Ha.
  pose proof (C_pos N). lia.
Qed.

Lemma rep_alloc_hdr K hid m j : Rep N K hid m -> 0 <= j < C -> alloc m (hdr j).
Proof.
  intros HR Hj. apply (rep_alloc _ _ _ _ HR). pose proof (R_pos N). unfold hdr. lia.
Qed.

Lemma rep_alloc_head K hid m : Rep N K hid m -> alloc m 1.
Proof.
  intros HR. apply (rep_alloc _ _ _ _ HR). pose proof (R_pos N). pose proof (C_pos N). lia.
Qed.

Lemma rep_alloc_ring K hid m j x :
  Rep N K hid m -> 0 <= j < C -> x ∈ hdr j :: vlist N hid j -> alloc m x.
Proof.
  intros HR Hj Hx. apply elem_of_cons in Hx as [->|Hx].
  - by eapply rep_alloc_hdr.
  - apply elem_of_vlist in Hx as (_ & _ & Hx). by eapply rep_alloc_node.
Qed.

Lemma unhide_hide_Rep K hid m a :
  Rep N K hid m -> a ∈ allnodes N -> hid a = false -> unhide a (hide a m) = m.
Proof.
  intros HR Ha Hhid.
  pose proof (colOf_range N a Ha) as Hjn.
  set (jn := colOf N a) in *.
  assert (Hin : a ∈ vlist N hid jn) by (apply elem_of_vlist; done).
  destruct (list_elem_of_split _ _ Hin) as (l1 & l2 & Hsplit).
  pose proof (NoDup_ring N hid jn Hjn) as Hnd. rewrite Hsplit in Hnd.
  pose proof (rep_vring _ _ _ _ HR jn Hjn) as Hd. rewrite Hsplit in Hd.
  destruct (dlinked_neighbours _ _ _ _ _ _ Hnd Hd) as (Hq & Hp & Hqne & Hpne & Hpa & Hqa).
  apply unhide_hide; try done.
  - apply (rep_alloc_ring K hid m jn); try done. rewrite Hsplit. set_solver.
  - apply (rep_alloc_ring K hid m jn); try done. rewrite Hsplit. set_solver.
  - rewrite (rep_column_node N K hid m a HR Ha). by eapply rep_alloc_hdr.
Qed.

Lemma unhide_hide_list K T : forall hid m,
  Rep N K hid m -> NoDup T ->
  (forall t, t ∈ T -> t ∈ allnodes N /\ hid t = false) ->
  foldl (fun m a => unhide a m) (foldl (fun m a => hide a m) m T) (rev T) = m.
Proof.
  induction T as [|t T IH]; intros hid m HR Hnd HT; [done|].
  apply NoDup_cons in Hnd as [Ht Hnd].
  destruct (HT t ltac:(set_solver)) as [Ht1 Ht2].
  simpl. rewrite foldl_app. simpl.
  rewrite (IH (hide_set [t] hid) (hide t m)).
  - by apply (unhide_hide_Rep K hid).
  - by apply hide_Rep.
  - done.
  - intros t' Ht'. destruct (HT t' ltac:(set_solver)) as [? ?]. split; [done|].
    unfold hide_set. rewrite orb_false_iff, bool_decide_eq_false. split; [|done].
    set_solver.
Qed.

Lemma relink_unlink_Rep K hid m j :
  Rep N K hid m -> 0 <= j < C -> j ∉ K ->
  relink_column (hdr j) (unlink_column (hdr j) m) = m.
Proof.
  intros HR Hj HjK.
  assert (Hin : j ∈ act N K) by (by apply elem_of_act).
  destruct (list_elem_of_split _ _ Hin) as (l1 & l2 & Hsplit).
  pose proof (NoDup_hring N K) as Hnd. rewrite Hsplit, fmap_app, fmap_cons in Hnd.
  pose proof (rep_hring _ _ _ _ HR) as Hd. rewrite Hsplit, fmap_app, fmap_cons in Hd.
  destruct (dlinked_neighbours _ _ _ _ _ _ Hnd Hd) as (Hq & Hp & Hqne & Hpne & Hpq & Hqp).
  assert (Hal : forall x, x ∈ 1 :: (hdr <$> act N K) -> alloc m x).
  { intros x Hx. apply hring_elem in Hx as [->|(j0 & -> & Hj0 & _)].
    - by eapply rep_alloc_head.
    - by eapply rep_alloc_hdr. }
  apply relink_unlink; try done; apply Hal; rewrite Hsplit, fmap_app, fmap_cons; set_solver.
Qed.

(** ** [uncoverColumn] *)

Lemma uncoverColumn_unfold fuel c m :
  uncoverColumn fuel c m =
  match for_ring upperOf c
          (fun r m => for_ring leftOf r (fun y m => Some (unhide y m)) fuel (leftOf m r) m)
          fuel (upperOf m c) m with
  | None => None
  | Some m => Some (relink_column c m)
  end.
Proof. reflexivity. Qed.

Lemma uncover_row_loop K hid m x fuel :
  Rep N K hid m -> x ∈ allnodes N -> (3 <= fuel)%nat ->
  for_ring leftOf x (fun y m => Some (unhide y m)) fuel (leftOf m x) m =
    Some (foldl (fun m a => unhide a m) m (rev (others N x))).
Proof.
  intros HR Hx Hfuel.
  rewrite (rep_left_node N K hid m x HR Hx), others_last.
  apply (for_ring_prefix
    (fun done m' => m' = foldl (fun m a => unhide a m) m done /\
                    forall b, leftOf m' b = leftOf m b)
    leftOf x _ (fun y m => unhide y m) (rev (others N x))); [|done|by rewrite length_rev].
  intros done y rest m' Ho [-> Hr].
  assert (Hy : y ∈ others N x).
  { apply list_elem_of_In, in_rev, list_elem_of_In. rewrite Ho. set_solver. }
  repeat split.
  - intros ->. by apply (others_not_self N x).
  - by rewrite foldl_snoc.
  - intros b. rewrite leftOf_unhide. apply Hr.
  - rewrite leftOf_unhide, Hr.
    rewrite (rep_left_node N K hid m y HR (others_allnodes N x y Hx Hy)).
    by apply (others_pred N x done y rest).
Qed.

(** Uncovering the column that was covered last restores the memory. *)
Theorem uncover_cover_Rep K hid m j fuel :
  Rep N K hid m -> 0 <= j < C -> j ∉ K ->
  NoDup (targets N hid j) ->
  (forall t, t ∈ targets N hid j -> hid t = false) ->
  (length (vlist N hid j) <= fuel)%nat -> (3 <= fuel)%nat ->
  uncoverColumn fuel (hdr j) (cover_fun N j hid m) = Some m.
Proof.
  intros HR Hj HjK Hnd Hhid Hfuel Hfuel3.
  pose proof (unlink_Rep N K hid m j HR Hj HjK) as HR0.
  unfold cover_fun. set (m0 := unlink_column (hdr j) m) in *.
  assert (Hprefix : forall pre post, vlist N hid j = pre ++ post ->
    NoDup (concat (others N <$> pre)) /\
    (forall t, t ∈ concat (others N <$> pre) -> t ∈ allnodes N /\ hid t = false) /\
    (forall t, t ∈ concat (others N <$> pre) -> colOf N t <> j) /\
    Rep N (j :: K) (hide_set (concat (others N <$> pre)) hid)
        (foldl (fun m a => hide a m) m0 (concat (others N <$> pre)))).
  { intros pre post Hv.
    assert (Hsub : forall t, t ∈ concat (others N <$> pre) -> t ∈ targets N hid j).
    { intros t Ht. rewrite (targets_prefix N hid j pre post Hv). set_solver. }
    assert (H1 : NoDup (concat (others N <$> pre))).
    { rewrite (targets_prefix N hid j pre post Hv) in Hnd.
      by apply NoDup_app in Hnd as (? & _). }
    assert (H2 : forall t, t ∈ concat (others N <$> pre) -> t ∈ allnodes N /\ hid t = false).
    { intros t Ht. split; [by apply (targets_column N hid j t Hj), Hsub | by apply Hhid, Hsub]. }
    split; [done|]. split; [done|]. split.
    - intros t Ht. by apply (targets_column N hid j t Hj), Hsub.
    - by apply hide_list_Rep. }
  rewrite uncoverColumn_unfold.
  destruct (Hprefix (vlist N hid j) [] ltac:(by rewrite app_nil_r)) as (_ & _ & Hcol & HRfin).
  fold (targets N hid j) in HRfin, Hcol.
  pose proof (rep_vring _ _ _ _ HRfin j Hj) as Hdfin.
  rewrite vlist_hide_set_other in Hdfin by done.
  rewrite (dlinked_last _ _ _ _ _ Hdfin).
  destruct (for_ring_prefix
    (fun done m' => exists pre, vlist N hid j = pre ++ rev done /\
        m' = foldl (fun m a => hide a m) m0 (concat (others N <$> pre)))
    upperOf (hdr j)
    (fun r m => for_ring leftOf r (fun y m => Some (unhide y m)) fuel (leftOf m r) m)
    (fun x m => foldl (fun m a => unhide a m) m (rev (others N x)))
    (rev (vlist N hid j))) with (fuel := fuel)
      (m := foldl (fun m a => hide a m) m0 (targets N hid j))
    as [Hrun (pre & Hpre & Hfin)].
  - intros done x rest m' Hv (pre & Hpre & ->).
    assert (Hvx : vlist N hid j = rev rest ++ x :: rev done).
    { rewrite <- (rev_involutive (vlist N hid j)), Hv, rev_app_distr. simpl.
      by rewrite <- app_assoc. }
    assert (pre = rev rest ++ [x]) as ->.
    { rewrite Hvx in Hpre. rewrite (cons_middle x) in Hpre. rewrite app_assoc in Hpre.
      by apply app_inv_tail in Hpre. }
    destruct (Hprefix (rev rest) (x :: rev done) Hvx) as (Hnd1 & Hall1 & Hcol1 & HR1).
    destruct (Hprefix (rev rest ++ [x]) (rev done)) as (Hnd2 & Hall2 & Hcol2 & HR2).
    { by rewrite <- app_assoc. }
    assert (Hx : x ∈ vlist N hid j) by (rewrite Hvx; set_solver).
    pose proof Hx as Hx'. apply elem_of_vlist in Hx' as (Hxh & Hxc & Hxa).
    assert (Hback : foldl (fun m a => unhide a m)
              (foldl (fun m a => hide a m) m0 (concat (others N <$> (rev rest ++ [x]))))
              (rev (others N x)) =
            foldl (fun m a => hide a m) m0 (concat (others N <$> rev rest))).
    { rewrite concat_fmap_snoc, foldl_app.
      eapply unhide_hide_list; [exact HR1 | apply NoDup_others |].
      intros t Ht. rewrite concat_fmap_snoc in Hnd2, Hall2.
      split; [apply Hall2; set_solver|].
      unfold hide_set. rewrite orb_false_iff. split; [|apply Hall2; set_solver].
      apply bool_decide_eq_false. intros Hin.
      apply NoDup_app in Hnd2 as (_ & Hdisj & _). by apply (Hdisj t Hin). }
    repeat split.
    + intros ->. pose proof (NoDup_ring N hid j Hj) as Hr.
      apply NoDup_cons in Hr as [Hr _]. done.
    + by eapply uncover_row_loop.
    + exists (rev rest). split; [|done].
      rewrite rev_app_distr. simpl. done.
    + rewrite Hback.
      pose proof (rep_vring _ _ _ _ HR1 j Hj) as Hd1.
      rewrite vlist_hide_set_other in Hd1 by done.
      rewrite Hvx in Hd1. apply dlinked_prev in Hd1.
      by rewrite rev_involutive in Hd1.
  - exists (vlist N hid j). by rewrite app_nil_r.
  - by rewrite length_rev.
  - rewrite Hrun. f_equal. rewrite Hfin.
    rewrite rev_involutive in Hpre.
    assert (pre = []) as ->.
    { apply (app_inv_tail (vlist N hid j)). by rewrite <- Hpre. }
    simpl. by apply (relink_unlink_Rep K hid).
Qed.

Theorem uncover_cover_Inv K m j fuel :
  Inv N K m -> 0 <= j < C -> j ∉ K -> (FUEL N <= fuel)%nat ->
  uncoverColumn fuel (hdr j) (cover_fun N j (hidden N K) m) = Some m.
Proof.
  intros HI Hj HjK Hfuel.
  apply (uncover_cover_Rep K (hidden N K)); try done.
  - apply (NoDup_targets N).
  - intros t Ht. apply elem_of_targets in Ht as (x & Hx & Ht).
    apply elem_of_vlist in Hx as (Hxh & Hxc & Hxa).
    apply others_spec in Ht as (k & Hk & _ & ->).
    apply (live_row N K x k); try done. congruence.
  - by apply FUEL_vlist.
  - unfold FUEL in Hfuel. lia.
Qed.

End Uncover.

(** ** Counted loops and allocation *)

Lemma seqZ_snoc m n : 0 <= n -> seqZ m (n + 1) = seqZ m n ++ [m + n].
Proof.
  intros Hn. rewrite <- (Z2Nat.id n) at 1 by done.
  replace (Z.of_nat (Z.to_nat n) + 1) with (Z.of_nat (S (Z.to_nat n))) by lia.
  rewrite seqZ_S. by rewrite Z2Nat.id.
Qed.

Lemma for_range_ind {St : Type} (P : Z -> St -> Prop) lo hi (body : Z -> St -> St) s :
  lo <= hi -> P lo s ->
  (forall j s, lo <= j < hi -> P j s -> P (j + 1) (body j s)) ->
  P hi (for_range lo hi body s).
Proof.
  intros Hle H0 Hstep. unfold for_range.
  assert (Hgen : forall n : nat, lo + Z.of_nat n <= hi ->
     P (lo + Z.of_nat n) (foldl (fun s i => body i s) s (seqZ lo (Z.of_nat n)))).
  { induction n as [|n IH]; intros Hn.
    - simpl. by rewrite Z.add_0_r.
    - rewrite seqZ_S, foldl_app. simpl.
      replace (lo + Z.of_nat (S n)) with (lo + Z.of_nat n + 1) by lia.
      apply Hstep; [lia|]. apply IH. lia. }
  specialize (Hgen (Z.to_nat (hi - lo))).
  rewrite Z2Nat.id in Hgen by lia.
  replace (lo + (hi - lo)) with hi in Hgen by lia. apply Hgen. lia.
Qed.

Lemma new_Node_eq m : new_Node m = (next m, alloc_Node m).
Proof. done. Qed.

Lemma node_alloc_Node m b :
  node (alloc_Node m) b = if decide (b = next m) then nullNode else node m b.
Proof.
  unfold node, alloc_Node, new_Node; simpl.
  case_decide; subst; [by rewrite lookup_insert_eq | by rewrite lookup_insert_ne].
Qed.

Lemma leftOf_alloc_Node m b :
  leftOf (alloc_Node m) b = if decide (b = next m) then 0 else leftOf m b.
Proof. unfold leftOf. rewrite node_alloc_Node. by case_decide. Qed.
Lemma rightOf_alloc_Node m b :
  rightOf (alloc_Node m) b = if decide (b = next m) then 0 else rightOf m b.
Proof. unfold rightOf. rewrite node_alloc_Node. by case_decide. Qed.
Lemma upperOf_alloc_Node m b :
  upperOf (alloc_Node m) b = if decide (b = next m) then 0 else upperOf m b.
Proof. unfold upperOf. rewrite node_alloc_Node. by case_decide. Qed.
Lemma lowerOf_alloc_Node m b :
  lowerOf (alloc_Node m) b = if decide (b = next m) then 0 else lowerOf m b.
Proof. unfold lowerOf. rewrite node_alloc_Node. by case_decide. Qed.
Lemma columnOf_alloc_Node m b :
  columnOf (alloc_Node m) b = if decide (b = next m) then 0 else columnOf m b.
Proof. unfold columnOf. rewrite node_alloc_Node. by case_decide. Qed.
Lemma sizeOf_alloc_Node m b :
  sizeOf (alloc_Node m) b = if decide (b = next m) then 0 else sizeOf m b.
Proof. unfold sizeOf. rewrite node_alloc_Node. by case_decide. Qed.
Lemma identOf_alloc_Node m b :
  identOf (alloc_Node m) b = if decide (b = next m) then (0, 0, 0) else identOf m b.
Proof. unfold identOf. rewrite node_alloc_Node. by case_decide. Qed.

Lemma alloc_alloc_Node m b : alloc (alloc_Node m) b <-> b = next m \/ alloc m b.
Proof.
  unfold alloc, alloc_Node, new_Node; simpl. destruct (decide (next m = b)) as [->|Hne].
  - rewrite lookup_insert_eq. split; eauto.
  - rewrite lookup_insert_ne by done. split; [eauto | intros [?|?]; congruence].
Qed.

#[export] Hint Rewrite leftOf_alloc_Node rightOf_alloc_Node upperOf_alloc_Node
  lowerOf_alloc_Node columnOf_alloc_Node sizeOf_alloc_Node identOf_alloc_Node : heap.

(** ** The exact cover problem *)

Section ECP.

Context (N : Z) {HN : GoodSize N}.
Let N_pos : 0 < N := size_pos.
Let N_square : Z.sqrt N * Z.sqrt N = N := size_square.

Local Abbreviation C := (COLUMNS N).
Local Abbreviation R := (ROWS N).

Lemma initializeExactCoverProblem_eq ECP :
  initializeExactCoverProblem N ECP = for_range 0 R (ecp_step N) ECP.
Proof. reflexivity. Qed.

Lemma row_has_true i j :
  row_has N i j = true <-> exists k, 0 <= k < 4 /\ cols N i k = j.
Proof.
  unfold row_has. rewrite bool_decide_eq_true, !elem_of_cons, elem_of_nil. split.
  - intros [E|[E|[E|[E|E]]]]; [exists 0|exists 1|exists 2|exists 3|done]; (split; [lia|done]).
  - intros (k & Hk & <-).
    assert (k = 0 \/ k = 1 \/ k = 2 \/ k = 3) as [-> | [-> | [-> | -> ]]] by lia; tauto.
Qed.

Lemma ECP_get_step i ECP i' j :
  ECP_get (ecp_step N i ECP) i' j =
  if (i' =? i) && row_has N i j then true else ECP_get ECP i' j.
Proof.
  unfold ECP_get, ecp_step.
  destruct (Z.eqb_spec i' i) as [->|Hne]; simpl.
  - destruct (row_has N i j) eqn:Hrow.
    + apply row_has_true in Hrow as (k & Hk & <-).
      assert (k = 0 \/ k = 1 \/ k = 2 \/ k = 3) as [-> | [-> | [-> | -> ]]] by lia.
      * destruct (decide (cols N i 3 = cols N i 0)) as [E|E];
          [rewrite E; by rewrite lookup_insert_eq|rewrite lookup_insert_ne by congruence].
        destruct (decide (cols N i 2 = cols N i 0)) as [E2|E2];
          [rewrite E2; by rewrite lookup_insert_eq|rewrite lookup_insert_ne by congruence].
        destruct (decide (cols N i 1 = cols N i 0)) as [E1|E1];
          [rewrite E1; by rewrite lookup_insert_eq|rewrite lookup_insert_ne by congruence].
        by rewrite lookup_insert_eq.
      * destruct (decide (cols N i 3 = cols N i 1)) as [E|E];
          [rewrite E; by rewrite lookup_insert_eq|rewrite lookup_insert_ne by congruence].
        destruct (decide (cols N i 2 = cols N i 1)) as [E2|E2];
          [rewrite E2; by rewrite lookup_insert_eq|rewrite lookup_insert_ne by congruence].
        by rewrite lookup_insert_eq.
      * destruct (decide (cols N i 3 = cols N i 2)) as [E|E];
          [rewrite E; by rewrite lookup_insert_eq|rewrite lookup_insert_ne by congruence].
        by rewrite lookup_insert_eq.
      * by rewrite lookup_insert_eq.
    + rewrite !lookup_insert_ne; [done|..]; intros E; inversion E as [E'];
        apply not_true_iff_false in Hrow; apply Hrow, row_has_true;
        [exists 0|exists 1|exists 2|exists 3]; (split; [lia|done]).
  - rewrite !lookup_insert_ne; [done|..]; congruence.
Qed.

Lemma ECP_get_init i j :
  0 <= i < R ->
  ECP_get (initializeExactCoverProblem N ∅) i j = true <->
  exists k, 0 <= k < 4 /\ cols N i k = j.
Proof.
  intros Hi. rewrite initializeExactCoverProblem_eq.
  pose proof (for_range_ind
    (fun n ECP => forall i' j', ECP_get ECP i' j' = true <->
        0 <= i' < n /\ exists k, 0 <= k < 4 /\ cols N i' k = j')
    0 R (ecp_step N) ∅) as Hind.
  cut (forall i' j', ECP_get (for_range 0 R (ecp_step N) ∅) i' j' = true <->
        0 <= i' < R /\ exists k, 0 <= k < 4 /\ cols N i' k = j').
  { intros H. rewrite H. tauto. }
  apply Hind; [pose proof (R_pos N); lia | |].
  - intros i' j'. unfold ECP_get. rewrite lookup_empty. simpl. split; [done|lia].
  - intros n ECP Hn IH i' j'. rewrite ECP_get_step.
    destruct (Z.eqb_spec i' n) as [->|Hne]; simpl.
    + destruct (row_has N n j') eqn:Hrow.
      * apply row_has_true in Hrow. split; [|done]. intros _. split; [lia|done].
      * rewrite IH. split; [lia|]. intros [_ Hk]. apply row_has_true in Hk. congruence.
    + rewrite IH. split; intros [? ?]; (split; [lia|done]).
Qed.

End ECP.

(** ** The ring of column nodes *)

Lemma new_column_eq c m :
  new_column (c, m) =
  (next m,
   wr_left (headNode m) (next m)
     (wr_right c (next m)
        (wr_size (next m) 0
           (wr_lower (next m) (next m)
              (wr_upper (next m) (next m)
                 (wr_right (next m) (headNode m)
                    (wr_left (next m) c (alloc_Node m)))))))).
Proof. reflexivity. Qed.

Lemma hd_rev_hdr_seqZ n : 0 < n -> hd 1 (rev (hdr <$> seqZ 0 n)) = hdr (n - 1).
Proof.
  intros Hn. replace n with ((n - 1) + 1) at 1 by lia.
  rewrite seqZ_snoc by lia. rewrite fmap_app, rev_app_distr. reflexivity.
Qed.

Section Columns.

Context (N : Z) {HN : GoodSize N}.
Let N_pos : 0 < N := size_pos.
Let N_square : Z.sqrt N * Z.sqrt N = N := size_square.

Local Abbreviation C := (COLUMNS N).
Local Abbreviation R := (ROWS N).

Lemma HRep_init :
  HRep N 0 (set_headNode 1 (alloc_Node (initial_memory N))).
Proof.
  split; try done.
  - intros a Ha. assert (a = 1) as -> by lia. simpl. by rewrite lookup_insert_eq.
  - intros j Hj. lia.
Qed.

Lemma new_column_HRep n c m :
  0 <= n -> c = n + 1 -> HRep N n m ->
  (new_column (c, m)).1 = n + 2 /\ HRep N (n + 1) (new_column (c, m)).2.
Proof.
  intros Hn -> HR. rewrite new_column_eq. cbn [fst snd].
  pose proof (hrep_next _ _ _ HR) as Hnext. pose proof (hrep_head _ _ _ HR) as Hhead.
  rewrite Hnext, Hhead. split; [done|].
  assert (Hleft : 0 < n -> leftOf m 1 = n + 1).
  { intros Hpos. pose proof (hrep_ring _ _ _ HR Hpos) as Hd.
    apply dlinked_last in Hd. rewrite Hd, hd_rev_hdr_seqZ by done. unfold hdr. lia. }
  split.
  - done.
  - simpl. lia.
  - intros a Ha. fold (alloc
      (wr_left 1 (n + 2) (wr_right (n + 1) (n + 2) (wr_size (n + 2) 0
        (wr_lower (n + 2) (n + 2) (wr_upper (n + 2) (n + 2) (wr_right (n + 2) 1
          (wr_left (n + 2) (n + 1) (alloc_Node m)))))))) a).
    rewrite alloc_wr_left, alloc_wr_right, alloc_wr_size, alloc_wr_lower, alloc_wr_upper,
      alloc_wr_right, alloc_wr_left, alloc_alloc_Node, Hnext.
    destruct (decide (a = n + 2)); [tauto|].
    do 8 right. apply (hrep_alloc _ _ _ HR). lia.
  - intros _. rewrite seqZ_snoc by lia. rewrite fmap_app. simpl. rewrite Z.add_0_l.
    destruct (decide (n = 0)) as [->|Hne].
    + simpl. autorewrite with heap. rewrite Hnext. unfold hdr. simpl.
      repeat split; repeat case_decide; try lia; done.
    + eapply dlinked_snoc; [| apply (hrep_ring _ _ _ HR); lia | | |].
      * rewrite elem_of_cons, list_elem_of_fmap. intros [E|(j & E & Hj)].
        -- unfold hdr in E. lia.
        -- apply elem_of_seqZ in Hj. unfold hdr in E. lia.
      * intros y. autorewrite with heap. rewrite Hnext, Hleft by lia. unfold hdr.
        repeat case_decide; try lia; done.
      * intros y. autorewrite with heap. rewrite Hnext, Hleft by lia. unfold hdr.
        repeat case_decide; try lia; done.
      * apply NoDup_cons. split.
        -- rewrite list_elem_of_fmap. intros (j & E & Hj).
           apply elem_of_seqZ in Hj. unfold hdr in E. lia.
        -- apply NoDup_fmap_2; [apply _|apply NoDup_seqZ].
  - intros j Hj. autorewrite with heap. rewrite Hnext. unfold hdr.
    destruct (decide (j = n)) as [->|Hne].
    + repeat split; repeat case_decide; try lia; done.
    + destruct (hrep_self _ _ _ HR j ltac:(lia)) as (H1 & H2 & H3). unfold hdr in *.
      repeat split; repeat case_decide; try lia; done.
  - apply (hrep_frame _ _ _ HR).
Qed.

Lemma columns_loop_HRep :
  HRep N C (for_range 0 C (fun _ => new_column)
              (1, set_headNode 1 (alloc_Node (initial_memory N)))).2.
Proof.
  pose proof (C_pos N) as HC.
  cut ((fun n (s : Z * Memory) => s.1 = n + 1 /\ HRep N n s.2) C
         (for_range 0 C (fun _ => new_column)
            (1, set_headNode 1 (alloc_Node (initial_memory N))))).
  { intros [_ H]. done. }
  apply for_range_ind; [lia| |].
  - split; [done|apply HRep_init].
  - intros j [c m] Hj [Hc HR]. simpl in Hc, HR.
    destruct (new_column_HRep j c m ltac:(lia) Hc HR) as [H1 H2].
    split; [|done]. rewrite H1. lia.
Qed.

End Columns.

(** ** Linking a row node *)

Section LinkNode.

Variable N : Z.

Lemma lowerOf_link i c p m b :
  c <> next m -> upperOf m c <> next m ->
  lowerOf (link_node N i c p m) b =
  if decide (b = upperOf m c) then next m
  else if decide (b = next m) then c else lowerOf m b.
Proof.
  intros Hc Hu. unfold link_node. cbv zeta. destruct p as [pv|]; autorewrite with heap;
    repeat case_decide; congruence.
Qed.

Lemma upperOf_link i c p m b :
  c <> next m ->
  upperOf (link_node N i c p m) b =
  if decide (b = c) then next m
  else if decide (b = next m) then upperOf m c else upperOf m b.
Proof.
  intros Hc. unfold link_node. cbv zeta. destruct p as [pv|]; autorewrite with heap;
    repeat case_decide; congruence.
Qed.

Lemma sizeOf_link i c p m b :
  c <> next m ->
  sizeOf (link_node N i c p m) b =
  if decide (b = c) then sizeOf m c + 1
  else if decide (b = next m) then 0 else sizeOf m b.
Proof.
  intros Hc. unfold link_node. cbv zeta. destruct p as [pv|]; autorewrite with heap;
    repeat case_decide; congruence.
Qed.

Lemma columnOf_link i c p m b :
  columnOf (link_node N i c p m) b = if decide (b = next m) then c else columnOf m b.
Proof.
  unfold link_node. cbv zeta. destruct p as [pv|]; autorewrite with heap;
    repeat case_decide; congruence.
Qed.

Lemma identOf_link i c p m b :
  identOf (link_node N i c p m) b = if decide (b = next m) then idOf N i else identOf m b.
Proof.
  unfold link_node. cbv zeta. destruct p as [pv|]; autorewrite with heap;
    repeat case_decide; done || congruence.
Qed.

Lemma leftOf_link_None i c m b :
  leftOf (link_node N i c None m) b = if decide (b = next m) then next m else leftOf m b.
Proof.
  unfold link_node. cbv zeta. autorewrite with heap. repeat case_decide; congruence.
Qed.

Lemma rightOf_link_None i c m b :
  rightOf (link_node N i c None m) b = if decide (b = next m) then next m else rightOf m b.
Proof.
  unfold link_node. cbv zeta. autorewrite with heap. repeat case_decide; congruence.
Qed.

Lemma leftOf_link_Some i c pv m b :
  pv <> next m -> rightOf m pv <> next m ->
  leftOf (link_node N i c (Some pv) m) b =
  if decide (b = rightOf m pv) then next m
  else if decide (b = next m) then pv else leftOf m b.
Proof.
  intros Hp Hr. unfold link_node. cbv zeta. autorewrite with heap.
  repeat case_decide; congruence.
Qed.

Lemma rightOf_link_Some i c pv m b :
  pv <> next m -> rightOf m pv <> next m ->
  rightOf (link_node N i c (Some pv) m) b =
  if decide (b = pv) then next m
  else if decide (b = next m) then rightOf m pv else rightOf m b.
Proof.
  intros Hp Hr. unfold link_node. cbv zeta. autorewrite with heap.
  repeat case_decide; congruence.
Qed.

Lemma alloc_link i c p m b :
  alloc m b -> alloc (link_node N i c p m) b.
Proof.
  intros Hb. unfold link_node. cbv zeta.
  apply alloc_wr_upper_mono, alloc_wr_lower_mono, alloc_wr_lower_mono, alloc_wr_upper_mono.
  destruct p as [pv|].
  - apply alloc_wr_right_mono, alloc_wr_left_mono, alloc_wr_right_mono, alloc_wr_left_mono.
    apply alloc_wr_size_mono, alloc_wr_column_mono, alloc_wr_identifier_mono.
    apply alloc_alloc_Node. by right.
  - apply alloc_wr_left_mono, alloc_wr_right_mono.
    apply alloc_wr_size_mono, alloc_wr_column_mono, alloc_wr_identifier_mono.
    apply alloc_alloc_Node. by right.
Qed.

Lemma alloc_link_new i c p m : alloc (link_node N i c p m) (next m).
Proof.
  unfold link_node. cbv zeta.
  apply alloc_wr_upper_mono, alloc_wr_lower_mono, alloc_wr_lower_mono, alloc_wr_upper_mono.
  destruct p as [pv|].
  - apply alloc_wr_right_mono, alloc_wr_left_mono, alloc_wr_right_mono, alloc_wr_left_mono.
    apply alloc_wr_size_mono, alloc_wr_column_mono, alloc_wr_identifier_mono.
    apply alloc_alloc_Node. by left.
  - apply alloc_wr_left_mono, alloc_wr_right_mono.
    apply alloc_wr_size_mono, alloc_wr_column_mono, alloc_wr_identifier_mono.
    apply alloc_alloc_Node. by left.
Qed.

Lemma link_frame i c p m :
  next (link_node N i c p m) = next m + 1 /\
  headNode (link_node N i c p m) = headNode m /\
  SUDOKU_SOLUTION (link_node N i c p m) = SUDOKU_SOLUTION m /\
  CURRENT_SOLUTION (link_node N i c p m) = CURRENT_SOLUTION m /\
  stdout (link_node N i c p m) = stdout m.
Proof. destruct p; done. Qed.

Lemma new_row_node_true ECP i j c p m :
  ECP_get ECP i j = true ->
  new_row_node N ECP i j (c, p, m) =
  (rightOf (link_node N i c p m) c, Some (next m), link_node N i c p m).
Proof. intros H. unfold new_row_node. rewrite H. by destruct p. Qed.

Lemma new_row_node_false ECP i j c p m :
  ECP_get ECP i j = false ->
  new_row_node N ECP i j (c, p, m) = (rightOf m c, p, m).
Proof. intros H. unfold new_row_node. by rewrite H. Qed.

End LinkNode.

(** ** The rows *)

Ltac lia_mod := Z.to_euclidean_division_equations; lia.

Section RowsLoop.

Context (N : Z) {HN : GoodSize N}.
Let N_pos : 0 < N := size_pos.
Let N_square : Z.sqrt N * Z.sqrt N = N := size_square.

Local Abbreviation C := (COLUMNS N).
Local Abbreviation R := (ROWS N).

Lemma elem_of_colnodes_upto n a j :
  a ∈ colnodes_upto N n j <-> colOf N a = j /\ C + 2 <= a < C + 2 + n.
Proof.
  unfold colnodes_upto. rewrite list_elem_of_filter, elem_of_seqZ. tauto.
Qed.

Lemma colnodes_upto_snoc n j :
  0 <= n ->
  colnodes_upto N (n + 1) j =
  colnodes_upto N n j ++ (if decide (colOf N (C + 2 + n) = j) then [C + 2 + n] else []).
Proof.
  intros Hn. unfold colnodes_upto. rewrite seqZ_snoc by done.
  rewrite filter_app. f_equal; try (rewrite filter_cons; by case_decide).
Qed.

Lemma NoDup_bring n j : 0 <= j < C -> NoDup (hdr j :: colnodes_upto N n j).
Proof.
  intros Hj. apply NoDup_cons. split.
  - rewrite elem_of_colnodes_upto. unfold hdr. lia.
  - apply NoDup_filter, NoDup_seqZ.
Qed.

Lemma bring_disjoint n j j' x :
  0 <= j < C -> 0 <= j' < C -> j <> j' ->
  x ∈ hdr j :: colnodes_upto N n j -> x ∈ hdr j' :: colnodes_upto N n j' -> False.
Proof.
  intros Hj Hj' Hne. rewrite !elem_of_cons, !elem_of_colnodes_upto. unfold hdr.
  intros [E1|[H1 H2]] [E2|[H3 H4]]; lia || congruence.
Qed.

Lemma bring_upper n m j :
  BRep N n m -> 0 <= j < C -> upperOf m (hdr j) ∈ hdr j :: colnodes_upto N n j.
Proof.
  intros HB Hj. pose proof (brep_vring _ _ _ HB j Hj) as Hd.
  apply dlinked_last in Hd. rewrite Hd. apply hd_rev_elem.
Qed.

Lemma bring_bound n a j :
  0 <= j < C -> 0 <= n -> a ∈ hdr j :: colnodes_upto N n j -> 2 <= a < C + 2 + n.
Proof.
  intros Hj Hn. rewrite elem_of_cons, elem_of_colnodes_upto. unfold hdr. lia.
Qed.

Lemma rowlen_cases n i k :
  0 <= i -> 0 <= k < 4 -> n = 4 * i + k ->
  rowlen n i = k /\ rowlen (n + 1) i = k + 1 /\
  (forall i', 0 <= i' < i -> rowlen n i' = 4 /\ rowlen (n + 1) i' = 4) /\
  (forall i', i < i' -> rowlen (n + 1) i' <= 0).
Proof.
  intros. unfold rowlen. split; [lia|]. split; [lia|]. split; intros; lia.
Qed.

Lemma HRep_BRep m : HRep N C m -> BRep N 0 m.
Proof.
  intros HR. pose proof (C_pos N) as HC. split.
  - apply (hrep_head _ _ _ HR).
  - rewrite (hrep_next _ _ _ HR). lia.
  - intros a Ha. apply (hrep_alloc _ _ _ HR). lia.
  - apply (hrep_ring _ _ _ HR). lia.
  - intros j Hj. destruct (hrep_self _ _ _ HR j Hj) as (H1 & H2 & H3).
    unfold colnodes_upto. simpl. done.
  - intros j Hj. destruct (hrep_self _ _ _ HR j Hj) as (H1 & H2 & H3).
    unfold colnodes_upto. simpl. done.
  - intros i k Hi Hk. unfold rowlen in Hk. lia.
  - intros i k Hi Hk. unfold rowlen in Hk. lia.
  - intros i k Hi Hk. unfold rowlen in Hk. lia.
  - intros i k Hi Hk. unfold rowlen in Hk. lia.
Qed.

Lemma link_node_BRep n i k m :
  BRep N n m -> 0 <= i < R -> 0 <= k < 4 -> n = 4 * i + k ->
  BRep N (n + 1)
    (link_node N i (hdr (cols N i k)) (if k =? 0 then None else Some (nd N i (k - 1))) m).
Proof.
  intros HB Hi Hk Hn.
  pose proof (cols_range N i k Hi Hk) as Hj. set (j := cols N i k) in *.
  pose proof (brep_next _ _ _ HB) as Hnext.
  assert (Hnew : next m = nd N i k) by (rewrite Hnext; unfold nd; lia).
  pose proof (bring_upper n m j HB Hj) as Hu.
  pose proof (bring_bound n _ j Hj ltac:(lia) Hu) as Hub.
  assert (Hc : hdr j <> next m) by (rewrite Hnext; unfold hdr; lia).
  assert (Hunew : upperOf m (hdr j) <> next m) by (rewrite Hnext; lia).
  destruct (rowlen_cases n i k ltac:(lia) Hk Hn) as (Hlen & Hlen' & Hlt & Hgt).
  assert (Hcolnew : colOf N (C + 2 + n) = j).
  { replace (C + 2 + n) with (nd N i k) by (unfold nd; lia). by rewrite colOf_nd. }
  set (p := if k =? 0 then None else Some (nd N i (k - 1))).
  assert (Hfirst : 0 < k -> rightOf m (nd N i (k - 1)) = nd N i 0).
  { intros Hpos. rewrite (brep_right _ _ _ HB) by lia. rewrite Hlen. f_equal.
    replace (k - 1 + 1) with k by lia. apply Z_mod_same_full. }
  assert (Hright : forall b, rightOf (link_node N i (hdr j) p m) b =
     if decide (b = nd N i k) then nd N i 0
     else if decide (0 < k /\ b = nd N i (k - 1)) then nd N i k else rightOf m b).
  { intros b. subst p. destruct (Z.eqb_spec k 0) as [->|Hk0].
    - rewrite rightOf_link_None, Hnew. repeat case_decide; try done; lia.
    - rewrite rightOf_link_Some;
        [| rewrite Hnew; unfold nd; lia | rewrite Hfirst by lia; rewrite Hnew; unfold nd; lia].
      rewrite Hfirst by lia. rewrite Hnew.
      unfold nd. repeat case_decide; try done; lia. }
  assert (Hleft : forall b, leftOf (link_node N i (hdr j) p m) b =
     if decide (b = nd N i 0) then nd N i k
     else if decide (b = nd N i k) then nd N i (k - 1) else leftOf m b).
  { intros b. subst p. destruct (Z.eqb_spec k 0) as [->|Hk0].
    - rewrite leftOf_link_None, Hnew. repeat case_decide; try done; lia.
    - rewrite leftOf_link_Some;
        [| rewrite Hnew; unfold nd; lia | rewrite Hfirst by lia; rewrite Hnew; unfold nd; lia].
      rewrite Hfirst by lia. rewrite Hnew.
      unfold nd. repeat case_decide; try done; lia. }
  destruct (link_frame N i (hdr j) p m) as (Hf1 & Hf2 & _).
  split.
  - rewrite Hf2. apply (brep_head _ _ _ HB).
  - rewrite Hf1, Hnext. lia.
  - intros a Ha. destruct (decide (a = next m)) as [->|Hne].
    + apply alloc_link_new.
    + apply alloc_link. apply (brep_alloc _ _ _ HB). lia.
  - eapply dlinked_ext; [| |apply (brep_hring _ _ _ HB)].
    + intros x Hx. rewrite Hright.
      assert (x <= C + 1).
      { apply elem_of_cons in Hx as [->|Hx]; [pose proof (C_pos N); lia|].
        apply list_elem_of_fmap in Hx as (j0 & -> & Hj0).
        apply elem_of_seqZ in Hj0. unfold hdr. lia. }
      unfold nd. repeat case_decide; try done; lia.
    + intros x Hx. rewrite Hleft.
      assert (x <= C + 1).
      { apply elem_of_app in Hx as [Hx|Hx].
        - apply list_elem_of_fmap in Hx as (j0 & -> & Hj0).
          apply elem_of_seqZ in Hj0. unfold hdr. lia.
        - apply list_elem_of_singleton in Hx as ->. pose proof (C_pos N); lia. }
      unfold nd. repeat case_decide; try done; lia.
  - intros j' Hj'. rewrite colnodes_upto_snoc by lia. rewrite Hcolnew.
    destruct (decide (j = j')) as [<-|Hne].
    + eapply dlinked_snoc; [| apply (brep_vring _ _ _ HB j Hj) | | | apply NoDup_bring; done].
      * intros Hin. apply (bring_bound n _ j Hj) in Hin; lia.
      * intros y. rewrite lowerOf_link by done. rewrite Hnext.
        repeat case_decide; try done; lia.
      * intros y. rewrite upperOf_link by done. rewrite Hnext.
        repeat case_decide; try done; lia.
    + rewrite app_nil_r.
      eapply dlinked_ext; [| |apply (brep_vring _ _ _ HB j' Hj')].
      * intros x Hx. rewrite lowerOf_link by done.
        pose proof (bring_bound n _ j' Hj' ltac:(lia) Hx).
        rewrite decide_False.
        2:{ intros ->. by apply (bring_disjoint n j j' (upperOf m (hdr j))). }
        rewrite decide_False by lia. done.
      * intros x Hx. rewrite upperOf_link by done.
        assert (Hx' : x ∈ hdr j' :: colnodes_upto N n j') by set_solver.
        pose proof (bring_bound n _ j' Hj' ltac:(lia) Hx').
        rewrite decide_False.
        2:{ intros ->. apply (bring_disjoint n j j' (hdr j)); try done. set_solver. }
        rewrite decide_False by lia. done.
  - intros j' Hj'. rewrite colnodes_upto_snoc by lia. rewrite Hcolnew.
    rewrite sizeOf_link by done. destruct (decide (j = j')) as [<-|Hne].
    + rewrite decide_True by done. rewrite (brep_size _ _ _ HB j Hj).
      rewrite length_app. simpl. lia.
    + rewrite decide_False by (intros E; by apply hdr_inj in E).
      rewrite decide_False by (rewrite Hnext; unfold hdr; lia).
      rewrite app_nil_r. by apply (brep_size _ _ _ HB).
  - intros i' t Hi' Ht. rewrite Hright.
    destruct (decide (i' < i)) as [Hlt'|Hge].
    + destruct (Hlt i' ltac:(lia)) as [E1 E2]. rewrite E2 in *.
      rewrite (brep_right _ _ _ HB) by lia. rewrite E1.
      unfold nd. repeat case_decide; try done; lia.
    + destruct (decide (i' = i)) as [->|Hne]; [|specialize (Hgt i' ltac:(lia)); lia].
      rewrite Hlen' in *.
      destruct (decide (t = k)) as [->|Htk].
      * rewrite decide_True by done. f_equal. symmetry. apply Z_mod_same_full.
      * rewrite decide_False by (unfold nd; lia).
        destruct (decide (t = k - 1)) as [->|Htk'].
        -- rewrite decide_True by (split; [lia|done]). f_equal.
           replace (k - 1 + 1) with k by lia. symmetry. apply Z.mod_small. lia.
        -- rewrite decide_False by (unfold nd; lia).
           rewrite (brep_right _ _ _ HB) by lia. rewrite Hlen. f_equal.
           rewrite !Z.mod_small by lia. done.
  - intros i' t Hi' Ht. rewrite Hleft.
    destruct (decide (i' < i)) as [Hlt'|Hge].
    + destruct (Hlt i' ltac:(lia)) as [E1 E2]. rewrite E2 in *.
      rewrite (brep_left _ _ _ HB) by lia. rewrite E1.
      unfold nd. repeat case_decide; try done; lia.
    + destruct (decide (i' = i)) as [->|Hne]; [|specialize (Hgt i' ltac:(lia)); lia].
      rewrite Hlen' in *.
      destruct (decide (t = 0)) as [->|Ht0].
      * rewrite decide_True by done. f_equal.
        replace (0 + (k + 1) - 1) with k by lia. symmetry. apply Z.mod_small. lia.
      * rewrite decide_False by (unfold nd; lia).
        destruct (decide (t = k)) as [->|Htk].
        -- rewrite decide_True by done. f_equal.
           replace (k + (k + 1) - 1) with (k - 1 + 1 * (k + 1)) by lia.
           rewrite Z.mod_add by lia. symmetry. apply Z.mod_small. lia.
        -- rewrite decide_False by (unfold nd; lia).
           rewrite (brep_left _ _ _ HB) by lia. rewrite Hlen. f_equal.
           replace (t + k - 1) with (t - 1 + 1 * k) by lia.
           replace (t + (k + 1) - 1) with (t - 1 + 1 * (k + 1)) by lia.
           rewrite !Z.mod_add by lia. rewrite !Z.mod_small by lia. done.
  - intros i' t Hi' Ht. rewrite columnOf_link, Hnew.
    destruct (decide (i' < i)) as [Hlt'|Hge].
    + destruct (Hlt i' ltac:(lia)) as [E1 E2]. rewrite E2 in *.
      rewrite decide_False by (unfold nd; lia). apply (brep_column _ _ _ HB); lia.
    + destruct (decide (i' = i)) as [->|Hne]; [|specialize (Hgt i' ltac:(lia)); lia].
      rewrite Hlen' in *.
      destruct (decide (t = k)) as [->|Htk].
      * by rewrite decide_True.
      * rewrite decide_False by (unfold nd; lia). apply (brep_column _ _ _ HB); lia.
  - intros i' t Hi' Ht. rewrite identOf_link, Hnew.
    destruct (decide (i' < i)) as [Hlt'|Hge].
    + destruct (Hlt i' ltac:(lia)) as [E1 E2]. rewrite E2 in *.
      rewrite decide_False by (unfold nd; lia). apply (brep_ident _ _ _ HB); lia.
    + destruct (decide (i' = i)) as [->|Hne]; [|specialize (Hgt i' ltac:(lia)); lia].
      rewrite Hlen' in *.
      destruct (decide (t = k)) as [->|Htk].
      * by rewrite decide_True.
      * rewrite decide_False by (unfold nd; lia). apply (brep_ident _ _ _ HB); lia.
Qed.

End RowsLoop.

Section BuildLoops.

Context (N : Z) {HN : GoodSize N}.
Let N_pos : 0 < N := size_pos.
Let N_square : Z.sqrt N * Z.sqrt N = N := size_square.

Local Abbreviation C := (COLUMNS N).
Local Abbreviation R := (ROWS N).

Lemma hring_right_gen (f g : Z -> Z) j :
  0 <= j < C -> dlinked f g 1 (hdr <$> seqZ 0 C) 1 ->
  f (hdr j) = if j + 1 <? C then hdr (j + 1) else 1.
Proof.
  intros Hj Hd.
  assert (Hsplit : seqZ 0 C = seqZ 0 j ++ j :: seqZ (j + 1) (C - j - 1)).
  { replace C with (j + (C - j)) at 1 by lia. rewrite seqZ_app by lia.
    f_equal. rewrite seqZ_cons by lia. f_equal; f_equal; lia. }
  rewrite Hsplit, fmap_app, fmap_cons in Hd. apply dlinked_next in Hd. rewrite Hd.
  destruct (Z.ltb_spec (j + 1) C).
  - rewrite seqZ_cons by lia. done.
  - rewrite seqZ_nil by lia. done.
Qed.

Lemma hring_first_gen (f g : Z -> Z) :
  dlinked f g 1 (hdr <$> seqZ 0 C) 1 -> f 1 = hdr 0.
Proof.
  intros Hd. pose proof (C_pos N). apply dlinked_first in Hd. rewrite Hd.
  rewrite seqZ_cons by lia. done.
Qed.

Lemma ones_before_0 i : 0 <= i < R -> ones_before N i 0 = 0.
Proof.
  intros Hi. unfold ones_before.
  pose proof (cols_range N i 0 Hi ltac:(lia)). pose proof (cols_range N i 1 Hi ltac:(lia)).
  pose proof (cols_range N i 2 Hi ltac:(lia)). pose proof (cols_range N i 3 Hi ltac:(lia)).
  repeat (match goal with |- context [ ?a <? ?b ] => destruct (Z.ltb_spec a b); try lia end); reflexivity.
Qed.

Lemma ones_before_C i : 0 <= i < R -> ones_before N i C = 4.
Proof.
  intros Hi. unfold ones_before.
  pose proof (cols_range N i 0 Hi ltac:(lia)). pose proof (cols_range N i 1 Hi ltac:(lia)).
  pose proof (cols_range N i 2 Hi ltac:(lia)). pose proof (cols_range N i 3 Hi ltac:(lia)).
  repeat (match goal with |- context [ ?a <? ?b ] => destruct (Z.ltb_spec a b); try lia end); reflexivity.
Qed.

Lemma ones_before_hit i k j :
  0 <= i < R -> 0 <= k < 4 -> cols N i k = j ->
  ones_before N i j = k /\ ones_before N i (j + 1) = k + 1.
Proof.
  intros Hi Hk Hc. unfold ones_before.
  pose proof (cols_mono N i 0 1 Hi ltac:(lia) ltac:(lia) ltac:(lia)).
  pose proof (cols_mono N i 1 2 Hi ltac:(lia) ltac:(lia) ltac:(lia)).
  pose proof (cols_mono N i 2 3 Hi ltac:(lia) ltac:(lia) ltac:(lia)).
  assert (k = 0 \/ k = 1 \/ k = 2 \/ k = 3) as [-> | [-> | [-> | -> ]]] by lia;
    repeat (match goal with |- context [ ?a <? ?b ] => destruct (Z.ltb_spec a b); try lia end); simpl; lia.
Qed.

Lemma ones_before_miss i j :
  0 <= i < R -> (forall k, 0 <= k < 4 -> cols N i k <> j) ->
  ones_before N i (j + 1) = ones_before N i j.
Proof.
  intros Hi Hc. unfold ones_before.
  pose proof (Hc 0 ltac:(lia)). pose proof (Hc 1 ltac:(lia)).
  pose proof (Hc 2 ltac:(lia)). pose proof (Hc 3 ltac:(lia)).
  repeat (match goal with |- context [ ?a <? ?b ] => destruct (Z.ltb_spec a b); try lia end); reflexivity.
Qed.

Lemma row_loop_BRep i m :
  0 <= i < R -> BRep N (4 * i) m -> frame0 N m ->
  let s := for_range 0 C (new_row_node N (initializeExactCoverProblem N ∅) i)
             (rightOf m (headNode m), None, m) in
  BRep N (4 * (i + 1)) s.2 /\ frame0 N s.2.
Proof.
  intros Hi HB Hfr. cbv zeta. pose proof (C_pos N) as HC.
  set (ECP := initializeExactCoverProblem N ∅).
  cut ((fun j (s : Z * option Z * Memory) =>
          s.1.1 = (if j <? C then hdr j else 1) /\
          s.1.2 = (if ones_before N i j =? 0 then None
                   else Some (nd N i (ones_before N i j - 1))) /\
          BRep N (4 * i + ones_before N i j) s.2 /\ frame0 N s.2) C
       (for_range 0 C (new_row_node N ECP i) (rightOf m (headNode m), None, m))).
  { intros (_ & _ & H & H'). rewrite ones_before_C in H by done.
    replace (4 * (i + 1)) with (4 * i + 4) by lia. done. }
  apply for_range_ind; [lia| |].
  - rewrite ones_before_0 by done. simpl.
    rewrite (brep_head _ _ _ HB). rewrite (hring_first_gen _ _ (brep_hring _ _ _ HB)).
    destruct (Z.ltb_spec 0 C); [|lia]. rewrite Z.add_0_r. done.
  - intros j [[c p] m'] Hj (Hc & Hp & HB' & Hfr'). simpl in Hc, Hp, HB', Hfr'.
    destruct (Z.ltb_spec j C) as [_|]; [|lia]. subst c p.
    destruct (ECP_get ECP i j) eqn:Hget.
    + apply (ECP_get_init N i j Hi) in Hget as (k & Hk & Hcol).
      destruct (ones_before_hit i k j Hi Hk Hcol) as [Hb Hb'].
      rewrite new_row_node_true by (apply (ECP_get_init N i j Hi); eauto).
      subst j. rewrite Hb in *. rewrite Hb'.
      pose proof (link_node_BRep N (4 * i + k) i k m' HB' Hi Hk eq_refl) as HBn.
      simpl. split; [|split; [|split]].
      * apply (hring_right_gen _ _ _ Hj (brep_hring _ _ _ HBn)).
      * rewrite (brep_next _ _ _ HB').
        destruct (Z.eqb_spec (k + 1) 0); [lia|]. f_equal. unfold nd. lia.
      * by rewrite Z.add_assoc.
      * destruct (link_frame N i (hdr (cols N i k))
                    (if k =? 0 then None else Some (nd N i (k - 1))) m')
          as (_ & _ & E1 & E2 & E3).
        unfold frame0. rewrite E1, E2, E3. done.
    + rewrite new_row_node_false by done.
      rewrite ones_before_miss; [|done|].
      2:{ intros k Hk Hcol. apply not_true_iff_false in Hget. apply Hget.
          apply (ECP_get_init N i j Hi). eauto. }
      simpl. split; [|done].
      apply (hring_right_gen _ _ j Hj (brep_hring _ _ _ HB')).
Qed.

Lemma rows_loop_BRep m :
  BRep N 0 m -> frame0 N m ->
  let m' := for_range 0 R (fun i m =>
      let '(_, _, m) :=
        for_range 0 C (new_row_node N (initializeExactCoverProblem N ∅) i)
          (rightOf m (headNode m), None, m) in m) m in
  BRep N (4 * R) m' /\ frame0 N m'.
Proof.
  intros HB Hfr. cbv zeta. pose proof (R_pos N).
  apply (for_range_ind (fun i m => BRep N (4 * i) m /\ frame0 N m)); [lia|done|].
  intros i m0 Hi [HB0 Hfr0].
  pose proof (row_loop_BRep i m0 Hi HB0 Hfr0) as Hrow. cbv zeta in Hrow.
  destruct (for_range 0 C _ _) as [[? ?] ?]. done.
Qed.

Lemma filter_notin_nil (l : list Z) : filter (fun j => j ∉ @nil Z) l = l.
Proof. apply filter_id_Forall. set_solver. Qed.

Lemma BRep_Inv m : BRep N (4 * R) m -> Inv N [] m.
Proof.
  intros HB. unfold Inv.
  assert (Hv : forall j, vlist N (hidden N []) j = colnodes_upto N (4 * R) j).
  { intros j. unfold vlist. rewrite filter_id_Forall; [done|].
    intros. apply (hidden_nil N). }
  assert (Hlen : forall i, 0 <= i < R -> rowlen (4 * R) i = 4).
  { intros i Hi. unfold rowlen. lia. }
  split.
  - apply (brep_head _ _ _ HB).
  - apply (brep_alloc _ _ _ HB).
  - unfold act. rewrite filter_notin_nil. apply (brep_hring _ _ _ HB).
  - intros j Hj. rewrite (hring_right_gen _ _ j Hj (brep_hring _ _ _ HB)).
    destruct (Z.ltb_spec (j + 1) C); [|by left]. right. exists (j + 1).
    split; [lia|]. split; [done|]. unfold before. rewrite decide_False by set_solver.
    set_solver.
  - intros j Hj. rewrite Hv. by apply (brep_vring _ _ _ HB).
  - intros j Hj. rewrite Hv. by apply (brep_size _ _ _ HB).
  - intros i k Hi Hk. rewrite (brep_right _ _ _ HB) by (rewrite ?Hlen; lia).
    by rewrite Hlen.
  - intros i k Hi Hk. rewrite (brep_left _ _ _ HB) by (rewrite ?Hlen; lia).
    rewrite Hlen by done. f_equal. f_equal. lia.
  - intros i k Hi Hk. apply (brep_column _ _ _ HB); rewrite ?Hlen; lia.
  - intros i k Hi Hk. apply (brep_ident _ _ _ HB); rewrite ?Hlen; lia.
Qed.

Theorem built_Inv : Inv N [] (built N) /\ frame0 N (built N).
Proof.
  unfold built, initializeDoublyLinkedList. rewrite new_Node_eq.
  change (next (initial_memory N)) with 1.
  pose proof columns_loop_HRep N as HH.
  destruct (for_range 0 C (fun _ => new_column) _) as [c m1]. simpl in HH.
  pose proof (rows_loop_BRep m1 (HRep_BRep N m1 HH) (hrep_frame _ _ _ HH)) as [HB Hfr].
  split; [by apply BRep_Inv | done].
Qed.

End BuildLoops.

(** ** Covering the columns of a row *)

Lemma suffix_after_app_notin j K1 K2 :
  j ∉ K1 -> suffix_after j (K1 ++ K2) = suffix_after j K2.
Proof.
  induction K1 as [|c K1 IH]; intros H; simpl; [done|].
  rewrite decide_False by set_solver. apply IH. set_solver.
Qed.

Lemma suffix_after_app_in j K1 K2 :
  j ∈ K1 -> suffix_after j (K1 ++ K2) = suffix_after j K1 ++ K2.
Proof.
  induction K1 as [|c K1 IH]; intros H; simpl; [set_solver|].
  case_decide; [done|]. apply IH. set_solver.
Qed.

Lemma before_app_old K1 K2 j : j ∉ K1 -> j ∈ K2 -> before (K1 ++ K2) j = before K2 j.
Proof.
  intros H1 H2. unfold before. rewrite !decide_True by set_solver.
  by apply suffix_after_app_notin.
Qed.

Lemma before_app_new K1 K2 j : j ∈ K1 -> before (K1 ++ K2) j = suffix_after j K1 ++ K2.
Proof.
  intros H1. unfold before. rewrite decide_True by set_solver.
  by apply suffix_after_app_in.
Qed.

Lemma before_app_superset K1 K2 j : j ∉ K2 -> K2 ⊆ before (K1 ++ K2) j.
Proof.
  intros H2. destruct (decide (j ∈ K1)) as [H1|H1].
  - rewrite before_app_new by done. set_solver.
  - rewrite before_active by set_solver. set_solver.
Qed.

Section RowCover.

Context (N : Z) {HN : GoodSize N}.
Let N_pos : 0 < N := size_pos.
Let N_square : Z.sqrt N * Z.sqrt N = N := size_square.

Local Abbreviation C := (COLUMNS N).
Local Abbreviation R := (ROWS N).

Lemma cover_cols_Inv js : forall K m,
  Inv N K m -> NoDup js -> (forall j, j ∈ js -> 0 <= j < C /\ j ∉ K) ->
  Inv N (rev js ++ K) (cover_cols N K js m).
Proof.
  induction js as [|j js IH]; intros K m HI Hnd Hjs; [done|].
  apply NoDup_cons in Hnd as [Hj Hnd].
  destruct (Hjs j ltac:(set_solver)) as [Hjr HjK].
  destruct (coverColumn_Inv N K m j (FUEL N) HI Hjr HjK ltac:(done)) as [_ HI'].
  simpl. rewrite <- app_assoc. simpl. apply IH; try done.
  intros j' Hj'. destruct (Hjs j' ltac:(set_solver)). split; [done|]. set_solver.
Qed.

(** The columns of a row that is linked in an active column. *)
Lemma row_columns_live K a :
  a ∈ allnodes N -> hidden N K a = false -> colOf N a ∉ K ->
  NoDup (row_columns N a) /\ forall j, j ∈ row_columns N a -> 0 <= j < C /\ j ∉ K.
Proof.
  intros Ha Hh Hc. pose proof (rowOf_range N a Ha) as Hi. split.
  - unfold row_columns. apply NoDup_cons. split.
    + intros Hin. apply list_elem_of_fmap in Hin as (y & Hy & Hin).
      apply others_spec in Hin as (k & Hk & Hne & ->).
      rewrite colOf_nd in Hy by done. unfold colOf in Hy.
      symmetry in Hy.
      apply (cols_inj N (rowOf N a) k (kOf N a) Hi Hk (kOf_range N a)) in Hy. congruence.
    + apply NoDup_fmap_2_strong; [|apply NoDup_others].
      intros x y Hx Hy Heq.
      apply others_spec in Hx as (k & Hk & Hne & ->).
      apply others_spec in Hy as (k' & Hk' & Hne' & ->).
      rewrite !colOf_nd in Heq by done.
      apply (cols_inj N (rowOf N a) k k' Hi Hk Hk') in Heq. by subst.
  - intros j Hj. unfold row_columns in Hj. apply elem_of_cons in Hj as [->|Hj].
    + split; [by apply colOf_range|done].
    + apply list_elem_of_fmap in Hj as (y & -> & Hy).
      apply others_spec in Hy as (k & Hk & Hne & ->).
      rewrite colOf_nd by done. split; [by apply cols_range|].
      by apply (live_row N K a k).
Qed.

Lemma rep_column_hdr K m a :
  Inv N K m -> a ∈ allnodes N -> columnOf m a = hdr (colOf N a).
Proof. intros HI Ha. by apply (rep_column_node N K (hidden N K)). Qed.

(** The loop that covers the columns of the other nodes of the row of
    [a]. *)
Lemma cover_others_loop K m a fuel :
  Inv N K m -> a ∈ allnodes N -> NoDup (colOf N <$> others N a) ->
  (forall j, j ∈ colOf N <$> others N a -> 0 <= j < C /\ j ∉ K) ->
  (FUEL N <= fuel)%nat ->
  for_ring rightOf a (fun y m => coverColumn fuel (columnOf m y) m) fuel (rightOf m a) m =
    Some (cover_cols N K (colOf N <$> others N a) m).
Proof.
  intros HI Ha Hnd Hjs Hfuel.
  rewrite (rep_right_node N K _ m a HI Ha), others_first.
  destruct (for_ring_inv
    (fun done m' => m' = cover_cols N K (colOf N <$> done) m /\
                    Inv N (rev (colOf N <$> done) ++ K) m')
    rightOf a (fun y m => coverColumn fuel (columnOf m y) m) (others N a))
    with (fuel := fuel) (m := m) as (m' & Hrun & -> & _).
  - intros done y rest m0 Ho [-> HI0].
    assert (Hy : y ∈ others N a) by (rewrite Ho; set_solver).
    pose proof (others_allnodes N a y Ha Hy) as Hya.
    split; [intros ->; by apply (others_not_self N a)|].
    rewrite (rep_column_hdr _ _ y HI0 Hya).
    rewrite Ho, fmap_app, fmap_cons in Hnd, Hjs.
    destruct (Hjs (colOf N y) ltac:(set_solver)) as [Hyr HyK].
    assert (HyK' : colOf N y ∉ rev (colOf N <$> done) ++ K).
    { apply NoDup_app in Hnd as (_ & Hdisj & _).
      rewrite elem_of_app, elem_of_rev. intros [Hin|Hin]; [|done].
      apply (Hdisj _ Hin). set_solver. }
    destruct (coverColumn_Inv N _ _ (colOf N y) fuel HI0 Hyr HyK' Hfuel) as [Hrun HI1].
    eexists. split; [exact Hrun|]. split; [split|].
    + rewrite fmap_app. simpl. clear. generalize (colOf N <$> done) as js. intros js.
      revert K m. induction js as [|j js IH]; intros K m; simpl; [done|].
      rewrite <- app_assoc. simpl. apply (IH (j :: K)).
    + rewrite fmap_app, rev_app_distr. simpl. done.
    + pose proof (rep_right_node N _ _ _ y HI1 Hya) as Hr. rewrite Hr.
      by apply (others_succ N a done y rest).
  - done.
  - rewrite length_others. unfold FUEL in Hfuel. lia.
  - done.
Qed.

Lemma Inv_set_solution K m g : Inv N K m -> Inv N K (set_SUDOKU_SOLUTION g m).
Proof. intros [? ? ? ? ? ? ? ? ? ?]. split; done. Qed.

Lemma Inv_set_current K m l : Inv N K m -> Inv N K (set_CURRENT_SOLUTION l m).
Proof. intros [? ? ? ? ? ? ? ? ? ?]. split; done. Qed.

End RowCover.

(** ** The preload *)

Lemma updateDoublyLinkedList_unfold N fuel input m :
  updateDoublyLinkedList N fuel input m =
  for_ring rightOf (headNode m) (update_outer N fuel input) fuel
    (rightOf m (headNode m)) m.
Proof. reflexivity. Qed.

Section Update.

Context (N : Z) {HN : GoodSize N}.
Let N_pos : 0 < N := size_pos.
Let N_square : Z.sqrt N * Z.sqrt N = N := size_square.

Local Abbreviation C := (COLUMNS N).
Local Abbreviation R := (ROWS N).

Lemma hidden_before_ext K K' b :
  before K (colOf N b) = before K' (colOf N b) -> hidden N K b = hidden N K' b.
Proof. intros H. unfold hidden. by rewrite H. Qed.

Lemma vlist_before_ext K K' j :
  before K j = before K' j -> vlist N (hidden N K) j = vlist N (hidden N K') j.
Proof.
  intros H. unfold vlist. apply filter_ext_elem. intros b Hb.
  apply elem_of_colnodes in Hb as [Hc _]. rewrite (hidden_before_ext K K' b); [done|].
  by rewrite Hc.
Qed.

Lemma Kof_cons a rws : Kof N (a :: rws) = rev (row_columns N a) ++ Kof N rws.
Proof. done. Qed.

Lemma row_columns_head a : exists js, row_columns N a = colOf N a :: js.
Proof. eexists. reflexivity. Qed.

(** The ring of a column does not change when one of its rows is
    committed. *)
Lemma vlist_commit K a :
  colOf N a ∉ K -> NoDup (row_columns N a) ->
  vlist N (hidden N (rev (row_columns N a) ++ K)) (colOf N a) =
  vlist N (hidden N K) (colOf N a).
Proof.
  intros HK Hnd. apply vlist_before_ext. unfold row_columns in *.
  apply NoDup_cons in Hnd as [Hnotin _].
  change (rev (colOf N a :: (colOf N <$> others N a)))
    with (rev (colOf N <$> others N a) ++ [colOf N a]).
  rewrite <- app_assoc.
  rewrite (before_app_old _ ([colOf N a] ++ K)); [|by rewrite elem_of_rev|set_solver].
  change ([colOf N a] ++ K) with (colOf N a :: K).
  by rewrite before_cons_same, before_active.
Qed.

Lemma rep_ident_node K m a :
  Inv N K m -> a ∈ allnodes N -> identOf m a = idOf N (rowOf N a).
Proof.
  intros HI Ha. rewrite <- (nd_eta N a) at 1.
  apply (rep_ident _ _ _ _ HI); [by apply rowOf_range | apply kOf_range].
Qed.

Lemma commit_row_Inv K m a :
  Inv N K m -> a ∈ allnodes N -> hidden N K a = false -> colOf N a ∉ K ->
  Inv N (rev (row_columns N a) ++ K) (commit_row N K a m).
Proof.
  intros HI Ha Hh Hc. destruct (row_columns_live N K a Ha Hh Hc) as [Hnd Hjs].
  unfold commit_row. apply cover_cols_Inv; try done. by apply Inv_set_solution.
Qed.

(** One column of the preload: [ao] is the node that is matched. *)
Lemma update_column K m j ao fuel input :
  Inv N K m -> 0 <= j < C -> (FUEL N <= fuel)%nat ->
  (forall y, y ∈ vlist N (hidden N K) j -> is_clue N input (rowOf N y) = true -> ao = Some y) ->
  (forall a, ao = Some a ->
     a ∈ vlist N (hidden N K) j /\ is_clue N input (rowOf N a) = true /\ j ∉ K) ->
  update_outer N fuel input (hdr j) m =
    Some (match ao with Some a => commit_row N K a m | None => m end).
Proof.
  intros HI Hj Hfuel Huniq Hao. unfold update_outer.
  pose proof (rep_vring _ _ _ _ HI j Hj) as Hd0.
  rewrite (dlinked_first _ _ _ _ _ Hd0).
  set (l := vlist N (hidden N K) j) in *.
  set (final := fun done : list Z =>
     match ao with
     | Some a => if decide (a ∈ done) then commit_row N K a m else m
     | None => m
     end).
  assert (Hstate : forall done, exists K', Inv N K' (final done) /\
             vlist N (hidden N K') j = l).
  { intros done. unfold final. destruct ao as [a|]; [|by exists K].
    destruct (Hao a eq_refl) as (Hal & _ & HjK).
    case_decide; [|by exists K].
    apply elem_of_vlist in Hal as (Hah & Hac & Haa). subst j.
    exists (rev (row_columns N a) ++ K). split.
    - by apply commit_row_Inv.
    - apply vlist_commit; [done|]. by apply (row_columns_live N K a). }
  destruct (for_ring_prefix (fun done m' => m' = final done)
    lowerOf (hdr j) (update_inner N fuel input (hdr j))
    (fun y m' => if is_clue N input (rowOf N y) then commit_row N K y m' else m') l)
    with (fuel := fuel) (m := m) as [Hrun Hfin].
  - intros done y rest m' Hl ->.
    assert (Hy : y ∈ l) by (rewrite Hl; set_solver).
    pose proof Hy as Hy'. apply elem_of_vlist in Hy' as (Hyh & Hyc & Hya).
    assert (Hnd : NoDup l) by apply NoDup_vlist.
    assert (Hydone : y ∉ done).
    { rewrite Hl in Hnd. apply NoDup_app in Hnd as (_ & Hdisj & _).
      intros Hin. apply (Hdisj y Hin). set_solver. }
    destruct (Hstate done) as (K0 & HI0 & Hv0).
    split; [|split; [|split]].
    + intros ->. pose proof (NoDup_ring N (hidden N K) j Hj) as Hr.
      apply NoDup_cons in Hr as [Hr _]. done.
    + unfold update_inner. cbv zeta. rewrite (rep_ident_node K0 _ y HI0 Hya).
      unfold idOf at 1 2 3. cbn [fst snd].
      fold (is_clue N input (rowOf N y)).
      destruct (is_clue N input (rowOf N y)) eqn:Hclue; [|done].
      pose proof (Huniq y Hy Hclue) as ->.
      destruct (Hao y eq_refl) as (_ & _ & HjK).
      unfold final. rewrite decide_False by done.
      assert (Hval : input (ecp_row N (rowOf N y)) (ecp_column N (rowOf N y)) =
                     ecp_candidate N (rowOf N y)).
      { unfold is_clue in Hclue. apply Z.eqb_eq in Hclue. done. }
      change ((idOf N (rowOf N y)).1.2) with (ecp_row N (rowOf N y)).
      change ((idOf N (rowOf N y)).2) with (ecp_column N (rowOf N y)).
      rewrite Hval.
      fold (write_row N (SUDOKU_SOLUTION m) y).
      set (m1 := set_SUDOKU_SOLUTION (write_row N (SUDOKU_SOLUTION m) y) m).
      assert (HI1 : Inv N K m1) by (by apply Inv_set_solution).
      destruct (coverColumn_Inv N K m1 j fuel HI1 Hj HjK Hfuel) as [Hrun1 HI2].
      rewrite Hrun1.
      destruct (row_columns_live N K y Hya Hyh ltac:(by rewrite Hyc)) as [Hndr Hjs].
      unfold row_columns in Hndr, Hjs. rewrite Hyc in Hndr, Hjs.
      apply NoDup_cons in Hndr as [Hjnot Hndo].
      rewrite (cover_others_loop N (j :: K) _ y fuel HI2 Hya Hndo); [|  |done].
      * unfold commit_row, row_columns. rewrite Hyc. done.
      * intros j' Hj'. destruct (Hjs j' ltac:(set_solver)) as [? ?].
        split; [done|]. set_solver.
    + unfold final. destruct ao as [a|].
      * destruct (is_clue N input (rowOf N y)) eqn:Hclue.
        -- pose proof (Huniq y Hy Hclue) as Heq. inversion Heq; subst a.
           rewrite decide_False by done. rewrite decide_True by set_solver. done.
        -- destruct (Hao a eq_refl) as (_ & Hac & _).
           assert (a <> y) by (intros ->; congruence).
           destruct (decide (a ∈ done)).
           ++ rewrite decide_True by set_solver. done.
           ++ rewrite decide_False by set_solver. done.
      * destruct (is_clue N input (rowOf N y)) eqn:Hclue; [|done].
        by pose proof (Huniq y Hy Hclue).
    + assert (Hnext : (if is_clue N input (rowOf N y)
                       then commit_row N K y (final done) else final done) =
                      final (done ++ [y])).
      { unfold final. destruct ao as [a|].
        * destruct (is_clue N input (rowOf N y)) eqn:Hclue.
          -- pose proof (Huniq y Hy Hclue) as Heq. inversion Heq; subst a.
             rewrite decide_False by done. rewrite decide_True by set_solver. done.
          -- destruct (Hao a eq_refl) as (_ & Hac & _).
             assert (a <> y) by (intros ->; congruence).
             destruct (decide (a ∈ done)).
             ++ rewrite decide_True by set_solver. done.
             ++ rewrite decide_False by set_solver. done.
        * destruct (is_clue N input (rowOf N y)) eqn:Hclue; [|done].
          by pose proof (Huniq y Hy Hclue). }
      rewrite Hnext. destruct (Hstate (done ++ [y])) as (K1 & HI1 & Hv1).
      pose proof (rep_vring _ _ _ _ HI1 j Hj) as Hd1. rewrite Hv1, Hl in Hd1.
      by apply dlinked_next in Hd1.
  - unfold final. destruct ao; [|done]. by rewrite decide_False by set_solver.
  - by apply (FUEL_vlist N).
  - rewrite Hrun. f_equal. rewrite Hfin. unfold final. destruct ao as [a|]; [|done].
    destruct (Hao a eq_refl) as (Hal & _ & _). by rewrite decide_True.
Qed.

End Update.

(** ** The rows that the preload commits *)

Section PreloadRows.

Context (N : Z) {HN : GoodSize N}.
Let N_pos : 0 < N := size_pos.
Let N_square : Z.sqrt N * Z.sqrt N = N := size_square.

Local Abbreviation C := (COLUMNS N).
Local Abbreviation R := (ROWS N).
Local Abbreviation NN := (N * N).

Lemma cell_family i k : 0 <= i < R -> 0 <= k < 4 -> (cols N i k < NN <-> k = 0).
Proof. intros Hi Hk. pose proof (cols_family N i k Hi Hk). nia. Qed.

Lemma cell_kOf a : a ∈ allnodes N -> (colOf N a < NN <-> kOf N a = 0).
Proof.
  intros Ha. unfold colOf. apply cell_family; [by apply rowOf_range|apply kOf_range].
Qed.

Lemma cols_cell i : 0 <= i < R -> cols N i 0 = ecp_row N i * N + ecp_column N i.
Proof. intros. unfold cols. simpl. lia. Qed.

(** Two rows of the same cell with the same value are the same row. *)
Lemma same_cell_row i i' :
  0 <= i < R -> 0 <= i' < R -> cols N i 0 = cols N i' 0 ->
  ecp_row N i = ecp_row N i' /\ ecp_column N i = ecp_column N i'.
Proof.
  intros Hi Hi' Heq. rewrite !cols_cell in Heq by done.
  pose proof (row_range N i Hi). pose proof (row_range N i' Hi').
  pose proof (column_range N i (proj1 Hi)). pose proof (column_range N i' (proj1 Hi')).
  assert (ecp_row N i = ecp_row N i').
  { destruct (Z.lt_trichotomy (ecp_row N i) (ecp_row N i')) as [Hlt|[E|Hgt]]; [|done|]; nia. }
  split; [done|]. nia.
Qed.

Lemma clue_unique input y y' q :
  y ∈ allnodes N -> y' ∈ allnodes N -> q < NN ->
  colOf N y = q -> colOf N y' = q ->
  is_clue N input (rowOf N y) = true -> is_clue N input (rowOf N y') = true -> y = y'.
Proof.
  intros Hy Hy' Hq Hc Hc' Hcl Hcl'.
  pose proof (rowOf_range N y Hy) as Hi. pose proof (rowOf_range N y' Hy') as Hi'.
  assert (Hk : kOf N y = 0) by (apply cell_kOf; [done|lia]).
  assert (Hk' : kOf N y' = 0) by (apply cell_kOf; [done|lia]).
  unfold colOf in Hc, Hc'. rewrite Hk in Hc. rewrite Hk' in Hc'.
  destruct (same_cell_row _ _ Hi Hi' ltac:(congruence)) as [Hr Hcc].
  unfold is_clue in Hcl, Hcl'. apply Z.eqb_eq in Hcl, Hcl'.
  assert (rowOf N y = rowOf N y').
  { rewrite (encode_index N (rowOf N y) Hi), (encode_index N (rowOf N y') Hi').
    rewrite Hcl, Hcl', Hr, Hcc. done. }
  rewrite <- (nd_eta N y), <- (nd_eta N y'). congruence.
Qed.

Lemma clue_node_Some input K q a :
  clue_node N input K q = Some a ->
  a ∈ vlist N (hidden N K) q /\ is_clue N input (rowOf N a) = true.
Proof.
  unfold clue_node. intros H. apply head_Some_elem_of in H.
  apply list_elem_of_filter in H. tauto.
Qed.

Lemma clue_node_None input K q y :
  clue_node N input K q = None -> y ∈ vlist N (hidden N K) q ->
  is_clue N input (rowOf N y) = false.
Proof.
  unfold clue_node. intros H Hy. apply head_None in H.
  destruct (is_clue N input (rowOf N y)) eqn:E; [|done].
  assert (Hin : y ∈ filter (fun a => is_clue N input (rowOf N a) = true)
                   (vlist N (hidden N K) q)) by (by apply list_elem_of_filter).
  rewrite H in Hin. set_solver.
Qed.

Lemma clue_node_cell input K q y :
  q < NN -> y ∈ vlist N (hidden N K) q -> is_clue N input (rowOf N y) = true ->
  clue_node N input K q = Some y.
Proof.
  intros Hq Hy Hcl. destruct (clue_node N input K q) as [a|] eqn:E.
  - apply clue_node_Some in E as [Ha Hacl]. f_equal.
    apply elem_of_vlist in Ha as (_ & Hac & Haa).
    apply elem_of_vlist in Hy as (_ & Hyc & Hya).
    by apply (clue_unique input a y q).
  - by rewrite (clue_node_None input K q y E Hy) in Hcl.
Qed.

Lemma preload_rows_snoc input q :
  0 <= q ->
  preload_rows N input (q + 1) = preload_step N input (preload_rows N input q) q.
Proof.
  intros Hq. unfold preload_rows. rewrite seqZ_snoc by done.
  rewrite foldl_app. simpl. by rewrite Z.add_0_l.
Qed.

Lemma preload_state_snoc input m q :
  0 <= q ->
  preload_state N input m (q + 1) = preload_mem_step N input (preload_state N input m q) q.
Proof.
  intros Hq. unfold preload_state. rewrite seqZ_snoc by done.
  rewrite foldl_app. simpl. by rewrite Z.add_0_l.
Qed.

Lemma preload_state_rows input m q :
  0 <= q -> (preload_state N input m q).1 = preload_rows N input q.
Proof.
  intros Hq. rewrite <- (Z2Nat.id q) by done.
  induction (Z.to_nat q) as [|n IH]; [done|].
  replace (Z.of_nat (S n)) with (Z.of_nat n + 1) by lia.
  rewrite preload_state_snoc, preload_rows_snoc by lia.
  unfold preload_mem_step, preload_step. rewrite IH.
  by destruct (clue_node N input _ _).
Qed.

Lemma row_columns_cell a :
  a ∈ allnodes N -> kOf N a = 0 ->
  row_columns N a = [cols N (rowOf N a) 0; cols N (rowOf N a) 1;
                     cols N (rowOf N a) 2; cols N (rowOf N a) 3].
Proof.
  intros Ha Hk. unfold row_columns, others, colOf. rewrite Hk. simpl.
  change ((0 + 1) `mod` 4) with 1. change ((0 + 2) `mod` 4) with 2.
  change ((0 + 3) `mod` 4) with 3.
  rewrite !rowOf_nd, !kOf_nd by lia. done.
Qed.

Lemma Committed_step input q rws :
  0 <= q < NN -> Committed N input q rws ->
  Committed N input (q + 1) (preload_step N input rws q).
Proof.
  intros Hq [Hnd Hrange Hcells Hrows]. unfold preload_step.
  destruct (clue_node N input (Kof N rws) q) as [a|] eqn:E.
  - apply clue_node_Some in E as [Ha Hcl].
    apply elem_of_vlist in Ha as (Hah & Hac & Haa).
    assert (HqK : colOf N a ∉ Kof N rws) by (rewrite Hac; apply Hcells; lia).
    destruct (row_columns_live N _ a Haa Hah HqK) as [Hndr Hjs].
    assert (Hk0 : kOf N a = 0) by (apply cell_kOf; [done|lia]).
    pose proof (rowOf_range N a Haa) as Hi.
    split.
    + rewrite Kof_cons. apply NoDup_app. split; [by apply NoDup_rev_2|]. split; [|done].
      intros j Hj. rewrite elem_of_rev in Hj. by apply Hjs.
    + intros j. rewrite Kof_cons, elem_of_app, elem_of_rev. intros [Hj|Hj]; [|by apply Hrange].
      by apply Hjs.
    + intros q' Hq'. rewrite Kof_cons, elem_of_app, elem_of_rev. intros [Hj|Hj].
      * rewrite row_columns_cell in Hj by done.
        unfold colOf in Hac. rewrite Hk0 in Hac.
        pose proof (cols_family N (rowOf N a) 1 Hi ltac:(lia)).
        pose proof (cols_family N (rowOf N a) 2 Hi ltac:(lia)).
        pose proof (cols_family N (rowOf N a) 3 Hi ltac:(lia)).
        rewrite !elem_of_cons, elem_of_nil in Hj. nia.
      * apply (Hcells q'); [lia|done].
    + intros a' Ha'. apply elem_of_cons in Ha' as [->|Ha'].
      * repeat split; try done. lia.
      * destruct (Hrows a' Ha') as (? & ? & ? & ?). repeat split; try done. lia.
  - split; try done.
    + intros q' Hq'. apply Hcells. lia.
    + intros a' Ha'. destruct (Hrows a' Ha') as (? & ? & ? & ?). repeat split; try done. lia.
Qed.

Lemma Committed_preload input q :
  0 <= q <= NN -> Committed N input q (preload_rows N input q).
Proof.
  intros Hq. rewrite <- (Z2Nat.id q) in * by lia.
  induction (Z.to_nat q) as [|n IH].
  - split; try done; try set_solver. apply NoDup_nil_2.
  - replace (Z.of_nat (S n)) with (Z.of_nat n + 1) in * by lia.
    rewrite preload_rows_snoc by lia. apply Committed_step; [lia|]. apply IH. lia.
Qed.

(** The committed rows only grow. *)
Lemma preload_rows_mono input q q' :
  0 <= q <= q' -> exists new, preload_rows N input q' = new ++ preload_rows N input q.
Proof.
  intros Hq. replace q' with (q + Z.of_nat (Z.to_nat (q' - q))) by lia.
  induction (Z.to_nat (q' - q)) as [|n IH].
  - exists []. by rewrite Z.add_0_r.
  - destruct IH as (new & IH).
    replace (q + Z.of_nat (S n)) with (q + Z.of_nat n + 1) by lia.
    rewrite preload_rows_snoc by lia. unfold preload_step. rewrite IH.
    destruct (clue_node N input _ _) as [a|]; [exists (a :: new)|exists new]; done.
Qed.

Lemma Kof_app rws1 rws2 : Kof N (rws1 ++ rws2) = Kof N rws1 ++ Kof N rws2.
Proof. unfold Kof. by rewrite fmap_app, concat_app. Qed.

(** After all the cells, no linked node of a column that was active before
    the last cell is a clue: the columns that follow are scanned without
    effect. *)
Lemma no_clue_after input j y :
  NN <= j < C -> j ∉ Kof N (preload_rows N input (NN - 1)) ->
  y ∈ vlist N (hidden N (Kof N (preload_rows N input NN))) j ->
  is_clue N input (rowOf N y) = false.
Proof.
  intros Hj HjK Hy. pose proof N_pos as HNpos.
  assert (HNN : 0 < NN) by nia.
  apply elem_of_vlist in Hy as (Hyh & Hyc & Hya).
  destruct (is_clue N input (rowOf N y)) eqn:Hcl; [exfalso|done].
  pose proof (rowOf_range N y Hya) as Hi. pose proof (kOf_range N y) as Hk.
  set (i := rowOf N y) in *. set (k := kOf N y) in *.
  assert (Hk0 : k <> 0).
  { intros E. apply (cell_kOf y Hya) in E. lia. }
  set (q := cols N i 0).
  assert (Hq : 0 <= q < NN).
  { pose proof (cols_family N i 0 Hi ltac:(lia)). unfold q. lia. }
  set (Kfin := Kof N (preload_rows N input NN)) in *.
  set (Kprev := Kof N (preload_rows N input (NN - 1))) in *.
  destruct (preload_rows_mono input (NN - 1) NN ltac:(lia)) as (new1 & Hnew1).
  assert (HKfin : Kfin = Kof N new1 ++ Kprev) by (unfold Kfin; by rewrite Hnew1, Kof_app).
  rewrite hidden_false in Hyh. fold i k in Hyh. rewrite Hyc in Hyh.
  pose proof (Committed_preload input q ltac:(lia)) as Hcq.
  set (Kq := Kof N (preload_rows N input q)) in *.
  assert (HqKq : q ∉ Kq) by (apply (com_cells _ _ _ _ Hcq); lia).
  destruct (hidden N Kq (nd N i 0)) eqn:Hhq.
  - (* the clue was skipped at its cell *)
    apply hidden_true in Hhq as (k' & Hk' & Hne' & Hin).
    rewrite rowOf_nd, kOf_nd, colOf_nd in * by lia. fold q in Hin.
    rewrite before_active in Hin by done.
    destruct (preload_rows_mono input q (NN - 1) ltac:(lia)) as (new2 & Hnew2).
    assert (HinP : cols N i k' ∈ Kprev).
    { unfold Kprev. rewrite Hnew2, Kof_app. set_solver. }
    destruct (decide (k' = k)) as [->|Hkk].
    + apply HjK. rewrite <- Hyc. done.
    + apply (Hyh k' Hk' Hkk). rewrite HKfin.
      by apply (before_app_superset (Kof N new1) Kprev j HjK).
  - (* the clue was committed at its cell *)
    assert (Hnode : nd N i 0 ∈ vlist N (hidden N Kq) q).
    { apply elem_of_vlist. rewrite colOf_nd by lia. repeat split; try done.
      apply nd_allnodes; [done|lia]. }
    assert (Hclue : clue_node N input Kq q = Some (nd N i 0)).
    { apply clue_node_cell; [lia|done|]. by rewrite rowOf_nd by lia. }
    pose proof (preload_rows_snoc input q ltac:(lia)) as Hsn.
    unfold preload_step in Hsn. fold Kq in Hsn. rewrite Hclue in Hsn.
    destruct (preload_rows_mono input (q + 1) NN ltac:(lia)) as (new3 & Hnew3).
    pose proof (Committed_preload input NN ltac:(lia)) as Hcfin.
    pose proof (com_NoDup _ _ _ _ Hcfin) as Hndfin. fold Kfin in Hndfin.
    assert (HKfin3 : Kfin = Kof N new3 ++ rev (row_columns N (nd N i 0)) ++ Kq).
    { unfold Kfin. rewrite Hnew3, Hsn, Kof_app, Kof_cons. done. }
    rewrite row_columns_cell in HKfin3;
      [|apply nd_allnodes; [done|lia]|by rewrite kOf_nd by lia].
    rewrite rowOf_nd in HKfin3 by lia. simpl in HKfin3. fold q in HKfin3.
    apply (Hyh 0 ltac:(lia) ltac:(lia)). fold q.
    rewrite HKfin3 in Hndfin |- *.
    assert (Hjk : j = cols N i 1 \/ j = cols N i 2 \/ j = cols N i 3).
    { rewrite <- Hyc. unfold colOf. fold i k.
      assert (k = 1 \/ k = 2 \/ k = 3) as [-> | [-> | ->]] by lia; tauto. }
    apply NoDup_app in Hndfin as (_ & Hdisj & Hnd4).
    assert (Hjnew : j ∉ Kof N new3).
    { intros Hin. apply (Hdisj j Hin). destruct Hjk as [-> | [-> | -> ]]; set_solver. }
    rewrite before_app_old; [|done|destruct Hjk as [-> | [-> | -> ]]; set_solver].
    unfold before. rewrite decide_True by (destruct Hjk as [-> | [-> | -> ]]; set_solver).
    pose proof (cols_mono N i 1 2 Hi ltac:(lia) ltac:(lia) ltac:(lia)).
    pose proof (cols_mono N i 2 3 Hi ltac:(lia) ltac:(lia) ltac:(lia)).
    pose proof (cols_mono N i 0 1 Hi ltac:(lia) ltac:(lia) ltac:(lia)).
    destruct Hjk as [-> | [-> | -> ]]; simpl; repeat case_decide; try lia; set_solver.
Qed.

End PreloadRows.

(** ** [updateDoublyLinkedList] *)

Lemma rightOf_foldl_hide T : forall m b,
  rightOf (foldl (fun m a => hide a m) m T) b = rightOf m b.
Proof.
  induction T as [|t T IH]; intros m b; simpl; [done|].
  by rewrite IH, rightOf_hide.
Qed.

Lemma seqZ_cons' m n : 0 < n -> seqZ m n = m :: seqZ (m + 1) (n - 1).
Proof. intros. rewrite seqZ_cons by done. by rewrite Z.add_1_r, Z.sub_1_r. Qed.

Lemma seqZ_split3 n q :
  0 <= q -> q + 1 < n ->
  seqZ 0 n = seqZ 0 q ++ q :: (q + 1) :: seqZ (q + 2) (n - q - 2).
Proof.
  intros Hq Hn. replace n with (q + (n - q)) at 1 by lia.
  rewrite seqZ_app by lia. rewrite Z.add_0_l.
  rewrite (seqZ_cons' q) by lia. rewrite (seqZ_cons' (q + 1)) by lia.
  do 3 f_equal. f_equal; lia.
Qed.

Section UpdateLoop.

Context (N : Z) {HN : GoodSize N}.
Let N_pos : 0 < N := size_pos.
Let N_square : Z.sqrt N * Z.sqrt N = N := size_square.

Local Abbreviation C := (COLUMNS N).
Local Abbreviation R := (ROWS N).
Local Abbreviation NN := (N * N).

Lemma hring_split K hid m j :
  Rep N K hid m -> 0 <= j < C -> j ∉ K ->
  exists l1 l2, act N K = l1 ++ j :: l2 /\
    rightOf m (hdr j) ∈ 1 :: (hdr <$> l2) /\ leftOf m (hdr j) ∈ 1 :: (hdr <$> l1) /\
    rightOf m (hdr j) <> hdr j /\ leftOf m (hdr j) <> hdr j.
Proof.
  intros HR Hj HjK.
  assert (Hin : j ∈ act N K) by (by apply elem_of_act).
  destruct (list_elem_of_split _ _ Hin) as (l1 & l2 & Hsplit).
  pose proof (NoDup_hring N K) as Hnd. rewrite Hsplit, fmap_app, fmap_cons in Hnd.
  pose proof (rep_hring _ _ _ _ HR) as Hd. rewrite Hsplit, fmap_app, fmap_cons in Hd.
  destruct (dlinked_neighbours _ _ _ _ _ _ Hnd Hd) as (Hq & Hp & Hqne & Hpne & _).
  exists l1, l2. done.
Qed.

Lemma rightOf_cover_fun_self K hid m j :
  Rep N K hid m -> 0 <= j < C -> j ∉ K ->
  rightOf (cover_fun N j hid m) (hdr j) = rightOf m (hdr j).
Proof.
  intros HR Hj HjK. unfold cover_fun. rewrite rightOf_foldl_hide, rightOf_unlink.
  destruct (hring_split K hid m j HR Hj HjK) as (l1 & l2 & _ & _ & _ & _ & Hne).
  by rewrite decide_False.
Qed.

Lemma rightOf_cover_fun_other K hid m j j0 :
  Rep N K hid m -> 0 <= j < C -> j ∉ K -> j0 ∈ K -> 0 <= j0 ->
  rightOf (cover_fun N j hid m) (hdr j0) = rightOf m (hdr j0).
Proof.
  intros HR Hj HjK Hj0 Hj0r. unfold cover_fun. rewrite rightOf_foldl_hide, rightOf_unlink.
  destruct (hring_split K hid m j HR Hj HjK) as (l1 & l2 & Hact & _ & Hl & _ & _).
  rewrite decide_False; [done|]. intros E. rewrite <- E in Hl.
  apply elem_of_cons in Hl as [Hl|Hl]; [unfold hdr in Hl; lia|].
  apply list_elem_of_fmap in Hl as (j' & Hj' & Hin). apply hdr_inj in Hj'. subst j'.
  assert (j0 ∈ act N K) by (rewrite Hact; set_solver).
  apply elem_of_act in H as [_ ?]. done.
Qed.

Lemma cover_cols_cons K j js m :
  cover_cols N K (j :: js) m = cover_cols N (j :: K) js (cover_fun N j (hidden N K) m).
Proof. done. Qed.

Lemma rightOf_cover_cols js : forall K m j0,
  Inv N K m -> j0 ∈ K -> 0 <= j0 -> NoDup js ->
  (forall j, j ∈ js -> 0 <= j < C /\ j ∉ K) ->
  rightOf (cover_cols N K js m) (hdr j0) = rightOf m (hdr j0).
Proof.
  induction js as [|j js IH]; intros K m j0 HI Hj0 Hj0r Hnd Hjs; [done|].
  apply NoDup_cons in Hnd as [Hj Hnd].
  destruct (Hjs j ltac:(set_solver)) as [Hjr HjK].
  destruct (coverColumn_Inv N K m j (FUEL N) HI Hjr HjK ltac:(done)) as [_ HI'].
  rewrite cover_cols_cons. rewrite IH; try done.
  - by apply (rightOf_cover_fun_other K).
  - set_solver.
  - intros j' Hj'. destruct (Hjs j' ltac:(set_solver)). split; [done|]. set_solver.
Qed.

Lemma rightOf_commit_row K m a :
  Inv N K m -> a ∈ allnodes N -> hidden N K a = false -> colOf N a ∉ K ->
  rightOf (commit_row N K a m) (hdr (colOf N a)) = rightOf m (hdr (colOf N a)).
Proof.
  intros HI Ha Hh Hc. destruct (row_columns_live N K a Ha Hh Hc) as [Hnd Hjs].
  unfold commit_row, row_columns in *. rewrite cover_cols_cons.
  apply NoDup_cons in Hnd as [Hnot Hnd].
  pose proof (colOf_range N a Ha) as Hr.
  set (m1 := set_SUDOKU_SOLUTION _ m).
  assert (HI1 : Inv N K m1) by (by apply Inv_set_solution).
  destruct (coverColumn_Inv N K m1 (colOf N a) (FUEL N) HI1 Hr Hc ltac:(done)) as [_ HI2].
  rewrite rightOf_cover_cols; try done.
  - by rewrite (rightOf_cover_fun_self K).
  - set_solver.
  - lia.
  - intros j Hj. destruct (Hjs j ltac:(set_solver)). split; [done|]. set_solver.
Qed.

Lemma act_succ K hid m q :
  Rep N K hid m -> 0 <= q -> q + 1 < C -> q ∉ K -> q + 1 ∉ K ->
  rightOf m (hdr q) = hdr (q + 1).
Proof.
  intros HR Hq Hq1 HqK Hq1K.
  pose proof (seqZ_split3 C q Hq Hq1) as Hsplit.
  pose proof (rep_hring _ _ _ _ HR) as Hd. unfold act in Hd.
  rewrite Hsplit, filter_app, filter_cons_True, filter_cons_True in Hd by done.
  rewrite fmap_app, !fmap_cons in Hd. by apply dlinked_next in Hd.
Qed.

Variable input : Z -> Z -> Z.
Variable m0 : Memory.
Hypothesis Hm0 : Inv N [] m0.

Local Abbreviation st := (preload_state N input m0).

Lemma phase1_step q fuel :
  0 <= q < NN -> Inv N (Kof N (st q).1) (st q).2 -> (FUEL N <= fuel)%nat ->
  update_outer N fuel input (hdr q) (st q).2 = Some (st (q + 1)).2 /\
  Inv N (Kof N (st (q + 1)).1) (st (q + 1)).2 /\
  rightOf (st (q + 1)).2 (hdr q) = rightOf (st q).2 (hdr q).
Proof.
  intros Hq HI Hfuel. pose proof (C_eq N) as HC.
  pose proof (Committed_preload N input q ltac:(lia)) as Hcom.
  rewrite <- (preload_state_rows N input m0 q) in Hcom by lia.
  assert (HqK : q ∉ Kof N (st q).1) by (apply (com_cells _ _ _ _ Hcom); lia).
  rewrite preload_state_snoc by lia. unfold preload_mem_step.
  rewrite (update_column N (Kof N (st q).1) (st q).2 q
             (clue_node N input (Kof N (st q).1) q) fuel input HI ltac:(lia) Hfuel).
  - destruct (clue_node N input (Kof N (st q).1) q) as [a|] eqn:E; simpl; [|done].
    apply clue_node_Some in E as [Ha Hcl].
    apply elem_of_vlist in Ha as (Hah & Hac & Haa). subst q.
    split; [done|]. split.
    + rewrite Kof_cons. by apply commit_row_Inv.
    + by apply rightOf_commit_row.
  - intros y Hy Hcl. apply clue_node_cell; try done. lia.
  - intros a E. apply clue_node_Some in E as [Ha Hcl]. done.
Qed.

Lemma preload_state_Inv q :
  0 <= q <= NN -> Inv N (Kof N (st q).1) (st q).2.
Proof.
  intros Hq. rewrite <- (Z2Nat.id q) in * by lia.
  induction (Z.to_nat q) as [|n IH]; [done|].
  replace (Z.of_nat (S n)) with (Z.of_nat n + 1) in * by lia.
  apply (phase1_step (Z.of_nat n) (FUEL N)); [lia| |done]. apply IH. lia.
Qed.

Lemma phase1_run fuel (n : nat) : forall q k,
  (FUEL N <= fuel)%nat -> 0 <= q -> q + Z.of_nat (S n) = NN ->
  for_ring rightOf 1 (update_outer N fuel input) (S n + k) (hdr q) (st q).2 =
  for_ring rightOf 1 (update_outer N fuel input) k
    (rightOf (st NN).2 (hdr (NN - 1))) (st NN).2.
Proof.
  induction n as [|n IH]; intros q k Hfuel Hq Hn.
  - destruct (phase1_step q fuel ltac:(lia) (preload_state_Inv q ltac:(lia)) Hfuel)
      as (Hrun & HI & Hr).
    change (1 + k)%nat with (S k).
    rewrite for_ring_step by (unfold hdr; lia). rewrite Hrun.
    replace (q + 1) with NN by lia. replace q with (NN - 1) at 1 by lia. done.
  - destruct (phase1_step q fuel ltac:(lia) (preload_state_Inv q ltac:(lia)) Hfuel)
      as (Hrun & HI & Hr).
    change (S (S n) + k)%nat with (S (S n + k)).
    rewrite for_ring_step by (unfold hdr; lia). rewrite Hrun, Hr.
    pose proof (Committed_preload N input q ltac:(lia)) as Hcom.
    rewrite <- (preload_state_rows N input m0 q) in Hcom by lia.
    pose proof (C_eq N) as HC.
    rewrite (act_succ _ _ _ q (preload_state_Inv q ltac:(lia))); try lia.
    + apply IH; [done|lia|lia].
    + apply (com_cells _ _ _ _ Hcom); lia.
    + apply (com_cells _ _ _ _ Hcom); lia.
Qed.

Lemma phase2_run fuel (k : nat) : forall j,
  (FUEL N <= fuel)%nat -> NN <= j < C ->
  j ∉ Kof N (preload_rows N input (NN - 1)) -> C - j <= Z.of_nat k ->
  for_ring rightOf 1 (update_outer N fuel input) k (hdr j) (st NN).2 = Some (st NN).2.
Proof.
  pose proof N_pos as HNpos. assert (HNN : 0 < NN) by nia.
  pose proof (preload_state_Inv NN ltac:(lia)) as HI.
  rewrite (preload_state_rows N input m0 NN) in HI by lia.
  destruct (preload_rows_mono N input (NN - 1) NN ltac:(lia)) as (new1 & Hnew1).
  induction k as [|k IH]; intros j Hfuel Hj HjK Hk; [lia|].
  rewrite for_ring_step by (unfold hdr; lia).
  rewrite (update_column N _ _ j None fuel input HI ltac:(lia) Hfuel).
  - destruct (rep_stale _ _ _ _ HI j ltac:(lia)) as [E|(j' & Hj' & E & Hb)].
    + rewrite E. apply for_ring_stop.
    + rewrite E. apply IH; [done|lia| |lia].
      intros Hin. apply Hb. rewrite Hnew1, Kof_app.
      by apply (before_app_superset _ _ j HjK).
  - intros y Hy Hcl. by rewrite (no_clue_after N input j y Hj HjK Hy) in Hcl.
  - done.
Qed.

(** The preload terminates on every grid, and commits exactly the rows of
    [preload_rows]. *)
Theorem updateDoublyLinkedList_spec fuel :
  (FUEL N <= fuel)%nat ->
  updateDoublyLinkedList N fuel input m0 = Some (st NN).2 /\
  Inv N (Kof N (preload_rows N input NN)) (st NN).2.
Proof.
  intros Hfuel. pose proof N_pos as HNpos. assert (HNN : 0 < NN) by nia.
  pose proof (C_eq N) as HC. pose proof (R_pos N) as HR.
  pose proof (preload_state_Inv NN ltac:(lia)) as HI.
  rewrite (preload_state_rows N input m0 NN) in HI by lia.
  split; [|done].
  rewrite updateDoublyLinkedList_unfold. rewrite (rep_head _ _ _ _ Hm0).
  assert (Hfirst : rightOf m0 1 = hdr 0).
  { pose proof (rep_hring _ _ _ _ Hm0) as Hd. apply dlinked_first in Hd.
    rewrite Hd. unfold act. rewrite (filter_notin_nil N), seqZ_cons by lia. done. }
  rewrite Hfirst.
  assert (Hfuel' : exists k, fuel = (S (Z.to_nat (NN - 1)) + k)%nat /\ C <= Z.of_nat k).
  { exists (fuel - S (Z.to_nat (NN - 1)))%nat. unfold FUEL in Hfuel.
    assert (NN <= R) by (rewrite (R_eq N); nia). split; lia. }
  destruct Hfuel' as (k & Hk & HkC). rewrite Hk at 2.
  change (for_ring rightOf 1 (update_outer N fuel input) (S (Z.to_nat (NN - 1)) + k)
            (hdr 0) (st 0).2 = Some (st NN).2).
  rewrite phase1_run; [|done|lia|lia].
  pose proof (Committed_preload N input (NN - 1) ltac:(lia)) as Hcom.
  assert (Hlast : NN - 1 ∉ Kof N (preload_rows N input (NN - 1))).
  { apply (com_cells _ _ _ _ Hcom). lia. }
  destruct (preload_rows_mono N input (NN - 1) NN ltac:(lia)) as (new1 & Hnew1).
  destruct (rep_stale _ _ _ _ HI (NN - 1) ltac:(lia)) as [E|(j' & Hj' & E & Hb)].
  - rewrite E. apply for_ring_stop.
  - rewrite E. apply phase2_run; [done|lia| |lia].
    intros Hin. apply Hb. rewrite Hnew1, Kof_app.
    by apply (before_app_superset _ _ (NN - 1) Hlast).
Qed.

End UpdateLoop.

(** ** The column with the fewest rows *)

Lemma first_min_snoc sz j0 l y :
  first_min sz j0 (l ++ [y]) =
  if sz y <? sz (first_min sz j0 l) then y else first_min sz j0 l.
Proof. unfold first_min. by rewrite foldl_app. Qed.

(** The chosen column splits the list: strictly larger columns before it,
    no smaller column after it. *)
Lemma first_min_split sz j0 l :
  exists l1 l2, j0 :: l = l1 ++ first_min sz j0 l :: l2 /\
    (forall j, j ∈ l1 -> sz (first_min sz j0 l) < sz j) /\
    (forall j, j ∈ l2 -> sz (first_min sz j0 l) <= sz j).
Proof.
  induction l as [|y l IH] using rev_ind.
  - exists [], []. split; [done|]. split; intros j Hj; by apply elem_of_nil in Hj.
  - destruct IH as (l1 & l2 & Hsplit & Hbefore & Hafter).
    rewrite first_min_snoc.
    destruct (Z.ltb_spec (sz y) (sz (first_min sz j0 l))) as [Hlt|Hge].
    + exists (j0 :: l), []. split; [done|]. split.
      * intros j Hj. rewrite Hsplit in Hj.
        apply elem_of_app in Hj as [Hj|Hj]; [specialize (Hbefore j Hj); lia|].
        apply elem_of_cons in Hj as [Hj|Hj]; [subst j; lia|].
        specialize (Hafter j Hj). lia.
      * intros j Hj. by apply elem_of_nil in Hj.
    + exists l1, (l2 ++ [y]). split.
      * rewrite app_comm_cons, Hsplit, <- app_assoc. done.
      * split; [done|]. intros j Hj.
        apply elem_of_app in Hj as [Hj|Hj]; [by apply Hafter|].
        apply list_elem_of_singleton in Hj. subst j. lia.
Qed.

Lemma first_min_elem sz j0 l : first_min sz j0 l ∈ j0 :: l.
Proof.
  destruct (first_min_split sz j0 l) as (l1 & l2 & -> & _). set_solver.
Qed.

Lemma smallestColumn_run m (l : list Z) : forall l1 c fuel,
  headNode m = 1 ->
  dlinked (rightOf m) (leftOf m) 1 (hdr <$> (l1 ++ l)) 1 ->
  (forall j, j ∈ l -> 0 <= j) ->
  (length l <= fuel)%nat ->
  smallestColumn fuel m (hdr c) (hd 1 (hdr <$> l)) =
    Some (hdr (first_min (fun j => sizeOf m (hdr j)) c l)).
Proof.
  induction l as [|x l IH]; intros l1 c fuel Hhead Hd Hpos Hfuel.
  - simpl. destruct fuel; simpl; rewrite Hhead; done.
  - destruct fuel as [|fuel]; [simpl in Hfuel; lia|].
    change (hd 1 (hdr <$> x :: l)) with (hdr x). simpl.
    rewrite Hhead.
    assert (hdr x =? 1 = false) as ->.
    { apply Z.eqb_neq. pose proof (Hpos x ltac:(set_solver)). unfold hdr. lia. }
    rewrite fmap_app, fmap_cons in Hd.
    rewrite (dlinked_next _ _ _ _ _ _ _ Hd).
    replace (if sizeOf m (hdr x) <? sizeOf m (hdr c) then hdr x else hdr c)
      with (hdr (if sizeOf m (hdr x) <? sizeOf m (hdr c) then x else c))
      by (by destruct (sizeOf m (hdr x) <? sizeOf m (hdr c))).
    apply (IH (l1 ++ [x])); [done| |set_solver|simpl in Hfuel; lia].
    rewrite <- app_assoc, fmap_app. done.
Qed.

Section SearchProof.

Context (N : Z) {HN : GoodSize N}.

Let N_pos : 0 < N := size_pos.
Let N_square : Z.sqrt N * Z.sqrt N = N := size_square.

Local Abbreviation C := (COLUMNS N).
Local Abbreviation R := (ROWS N).

(** The heuristic of [search]: the first of the active columns of least
    size. *)
Lemma smallestColumn_Inv K m j0 rest fuel :
  Inv N K m -> act N K = j0 :: rest -> (FUEL N <= fuel)%nat ->
  smallestColumn fuel m (rightOf m (headNode m)) (rightOf m (rightOf m (headNode m))) =
    Some (hdr (first_min (fun j => sizeOf m (hdr j)) j0 rest)).
Proof.
  intros HI Hact Hfuel.
  pose proof (rep_head _ _ _ _ HI) as Hhead.
  pose proof (rep_hring _ _ _ _ HI) as Hd. rewrite Hact in Hd.
  rewrite Hhead. rewrite (dlinked_first _ _ _ _ _ Hd). simpl hd.
  change (hdr <$> j0 :: rest) with (hdr <$> ([] ++ j0 :: rest)) in Hd.
  rewrite fmap_app, fmap_cons in Hd.
  rewrite (dlinked_next _ _ _ _ _ _ _ Hd).
  apply (smallestColumn_run m rest [j0]); [done|done| |].
  - intros j Hj. assert (Hin : j ∈ act N K) by (rewrite Hact; set_solver).
    apply elem_of_act in Hin. lia.
  - pose proof (FUEL_act N K fuel Hfuel) as Hlen. rewrite Hact in Hlen. simpl in Hlen. lia.
Qed.

Lemma same_globals_foldl {A} (f : Memory -> A -> Memory) (l : list A) :
  (forall m a, same_globals m (f m a)) -> forall m, same_globals m (foldl f m l).
Proof.
  intros Hf. induction l as [|a l IH]; intros m; [done|].
  simpl. destruct (IH (f m a)) as (H1 & H2 & H3). destruct (Hf m a) as (G1 & G2 & G3).
  unfold same_globals. rewrite H1, H2, H3. done.
Qed.

Lemma same_globals_cover_fun j hid m : same_globals m (cover_fun N j hid m).
Proof.
  unfold cover_fun.
  destruct (same_globals_foldl (fun m a => hide a m) (targets N hid j)
    ltac:(done) (unlink_column (hdr j) m)) as (H1 & H2 & H3).
  unfold same_globals. rewrite H1, H2, H3. done.
Qed.

Lemma same_globals_cover_cols js : forall K m, same_globals m (cover_cols N K js m).
Proof.
  induction js as [|j js IH]; intros K m; [done|].
  rewrite cover_cols_cons.
  destruct (IH (j :: K) (cover_fun N j (hidden N K) m)) as (H1 & H2 & H3).
  destruct (same_globals_cover_fun j (hidden N K) m) as (G1 & G2 & G3).
  unfold same_globals. rewrite H1, H2, H3. done.
Qed.

(** *** The number of active columns *)

Lemma length_act_cons K j :
  j ∈ act N K -> S (length (act N (j :: K))) = length (act N K).
Proof.
  intros Hj. rewrite (act_cons N).
  apply list_elem_of_split in Hj as (l1 & l2 & Hsplit).
  pose proof (NoDup_act N K) as Hnd. rewrite Hsplit in Hnd. rewrite Hsplit.
  rewrite filter_remove_NoDup by done. rewrite !length_app. simpl. lia.
Qed.

Lemma length_act_app js : forall K,
  NoDup js -> (forall j, j ∈ js -> 0 <= j < C /\ j ∉ K) ->
  (length (act N (rev js ++ K)) + length js = length (act N K))%nat.
Proof.
  induction js as [|j js IH]; intros K Hnd Hjs; [simpl; lia|].
  apply NoDup_cons in Hnd as [Hj Hnd].
  simpl rev. rewrite <- app_assoc. change ([j] ++ K) with (j :: K).
  rewrite <- (length_act_cons K j) by (apply elem_of_act; apply Hjs; set_solver).
  rewrite <- (IH (j :: K)); [simpl; lia|done|].
  intros j' Hj'. split; [apply Hjs; set_solver|].
  intros Hin. apply elem_of_cons in Hin as [->|Hin]; [done|].
  by apply (Hjs j' ltac:(set_solver)).
Qed.

(** *** The rings as lists *)

Lemma ring_nodes_dlinked fld g m stop (l : list Z) : forall a fuel,
  dlinked (fld m) g a l stop -> stop ∉ l -> (length l <= fuel)%nat ->
  ring_nodes fld stop fuel (fld m a) m = l.
Proof.
  induction l as [|x l IH]; intros a fuel Hd Hstop Hfuel.
  - destruct Hd as [-> _]. destruct fuel; simpl; by rewrite Z.eqb_refl.
  - destruct Hd as (Hx & _ & Hd). rewrite Hx.
    destruct fuel as [|fuel]; [simpl in Hfuel; lia|]. simpl.
    assert ((x =? stop) = false) as -> by (apply Z.eqb_neq; set_solver).
    f_equal. apply IH; [done|set_solver|simpl in Hfuel; lia].
Qed.

Lemma active_columns_Inv K m : Inv N K m -> active_columns N m = hdr <$> act N K.
Proof.
  intros HI. unfold active_columns. rewrite (rep_head _ _ _ _ HI).
  apply (ring_nodes_dlinked rightOf (leftOf m)).
  - apply (rep_hring _ _ _ _ HI).
  - pose proof (NoDup_hring N K) as Hnd. by apply NoDup_cons in Hnd as [? _].
  - rewrite length_fmap. by apply FUEL_act.
Qed.

Lemma column_rows_Inv K m j :
  Inv N K m -> 0 <= j < C -> column_rows N m (hdr j) = vlist N (hidden N K) j.
Proof.
  intros HI Hj. unfold column_rows.
  apply (ring_nodes_dlinked lowerOf (upperOf m)).
  - by apply (rep_vring _ _ _ _ HI).
  - pose proof (NoDup_ring N (hidden N K) j Hj) as Hnd. by apply NoDup_cons in Hnd as [? _].
  - by apply FUEL_vlist.
Qed.

Lemma candidate_Inv K m r :
  Inv N K m ->
  candidate N m r = true <-> exists j, 0 <= j < C /\ j ∉ K /\ r ∈ vlist N (hidden N K) j.
Proof.
  intros HI. unfold candidate. rewrite existsb_exists, (active_columns_Inv K m HI). split.
  - intros (c & Hc & Hr). apply list_elem_of_In, list_elem_of_fmap in Hc as (j & -> & Hj).
    apply elem_of_act in Hj as [Hj HjK]. apply bool_decide_eq_true in Hr.
    rewrite (column_rows_Inv K m j HI Hj) in Hr. eauto.
  - intros (j & Hj & HjK & Hr). exists (hdr j). split.
    + apply list_elem_of_In, list_elem_of_fmap_2. by apply elem_of_act.
    + apply bool_decide_eq_true. by rewrite (column_rows_Inv K m j HI Hj).
Qed.

(** *** Undoing the cover of a row *)

Lemma cover_cols_snoc js : forall K j m,
  cover_cols N K (js ++ [j]) m =
  cover_fun N j (hidden N (rev js ++ K)) (cover_cols N K js m).
Proof.
  induction js as [|j0 js IH]; intros K j m; [done|].
  change ((j0 :: js) ++ [j]) with (j0 :: (js ++ [j])).
  rewrite !cover_cols_cons, IH. simpl rev. by rewrite <- app_assoc.
Qed.

(** The loop of [search] over the left links of a row undoes the loop
    over its right links. *)
Lemma uncover_others_loop K m a fuel :
  Inv N K m -> a ∈ allnodes N -> NoDup (colOf N <$> others N a) ->
  (forall j, j ∈ colOf N <$> others N a -> 0 <= j < C /\ j ∉ K) ->
  (FUEL N <= fuel)%nat ->
  let m3 := cover_cols N K (colOf N <$> others N a) m in
  for_ring leftOf a (fun y m => uncoverColumn fuel (columnOf m y) m) fuel (leftOf m3 a) m3 =
    Some m.
Proof.
  intros HI Ha Hnd Hjs Hfuel m3.
  assert (HI3 : Inv N (rev (colOf N <$> others N a) ++ K) m3) by (by apply cover_cols_Inv).
  rewrite (rep_left_node N _ _ m3 a HI3 Ha), others_last.
  destruct (for_ring_inv
    (fun done m' => exists pre, others N a = pre ++ rev done /\
                      m' = cover_cols N K (colOf N <$> pre) m)
    leftOf a (fun y m => uncoverColumn fuel (columnOf m y) m) (rev (others N a)))
    with (fuel := fuel) (m := m3) as (m' & Hrun & pre & Hpre & ->).
  - intros done y rest m0 Ho (pre & Hpre & ->).
    assert (Hy : y ∈ others N a).
    { apply elem_of_rev. rewrite Ho. set_solver. }
    pose proof (others_allnodes N a y Ha Hy) as Hya.
    assert (Hsplit : others N a = rev rest ++ [y] ++ rev done).
    { rewrite <- (rev_involutive (others N a)), Ho, rev_app_distr. simpl.
      by rewrite <- app_assoc. }
    assert (pre = rev rest ++ [y]) as ->.
    { apply (app_inv_tail (rev done)). rewrite <- Hpre, Hsplit, <- app_assoc. done. }
    rewrite Hsplit, !fmap_app in Hnd, Hjs.
    assert (Hnd0 : NoDup (colOf N <$> rev rest)) by (by apply NoDup_app in Hnd as (? & _)).
    assert (Hjs0 : forall j, j ∈ colOf N <$> rev rest -> 0 <= j < C /\ j ∉ K).
    { intros j Hj. apply Hjs. set_solver. }
    pose proof (cover_cols_Inv N _ K m HI Hnd0 Hjs0) as HI0.
    destruct (Hjs (colOf N y) ltac:(set_solver)) as [Hyr HyK].
    assert (HyK' : colOf N y ∉ rev (colOf N <$> rev rest) ++ K).
    { apply NoDup_app in Hnd as (_ & Hdisj & _).
      rewrite elem_of_app, elem_of_rev. intros [Hin|Hin]; [|done].
      apply (Hdisj _ Hin). set_solver. }
    split; [intros ->; by apply (others_not_self N a)|].
    exists (cover_cols N K (colOf N <$> rev rest) m).
    rewrite fmap_app. change (colOf N <$> [y]) with [colOf N y].
    rewrite cover_cols_snoc.
    destruct (coverColumn_Inv N _ _ (colOf N y) fuel HI0 Hyr HyK' Hfuel) as [_ HI1].
    rewrite (rep_column_hdr N _ _ y HI1 Hya).
    split; [by apply uncover_cover_Inv|]. split.
    + exists (rev rest). split; [|done].
      rewrite Hsplit, rev_app_distr. done.
    + rewrite (rep_left_node N _ _ _ y HI0 Hya).
      by apply (others_pred N a done y rest).
  - exists (others N a). by rewrite app_nil_r.
  - rewrite length_rev, length_others. unfold FUEL in Hfuel. lia.
  - rewrite Hrun. f_equal. rewrite rev_involutive in Hpre.
    assert (pre = []) as ->; [|done].
    apply (app_inv_tail (others N a)). by rewrite <- Hpre.
Qed.

(** *** The loop of [search] over the rows of the chosen column *)

Lemma search_rows_stop rec fuel k c m :
  search_rows rec fuel k c c m =
  match uncoverColumn fuel c m with
  | None => None
  | Some m => Some (true, m)
  end.
Proof. destruct k; simpl; by rewrite Z.eqb_refl. Qed.

Lemma search_rows_step rec fuel k c r m :
  r <> c ->
  search_rows rec fuel (S k) c r m =
  let m := set_CURRENT_SOLUTION (CURRENT_SOLUTION m ++ [r]) m in
  match for_ring rightOf r (fun rightLink m => coverColumn fuel (columnOf m rightLink) m)
          fuel (rightOf m r) m with
  | None => None
  | Some m =>
      match rec m with
      | None => None
      | Some (false, m) => Some (false, m)
      | Some (true, m) =>
          let chosenColumn := columnOf m (back (CURRENT_SOLUTION m)) in
          match for_ring leftOf (back (CURRENT_SOLUTION m)) (fun leftLink m =>
                  uncoverColumn fuel (columnOf m leftLink) m)
                  fuel (leftOf m (back (CURRENT_SOLUTION m))) m with
          | None => None
          | Some m =>
              let m := set_CURRENT_SOLUTION (removelast (CURRENT_SOLUTION m)) m in
              search_rows rec fuel k chosenColumn (lowerOf m r) m
          end
      end
  end.
Proof. intros Hne. apply Z.eqb_neq in Hne. simpl. rewrite Hne. done. Qed.

Lemma back_snoc l a : back (l ++ [a]) = a.
Proof. unfold back. apply last_last. Qed.

Lemma set_CURRENT_SOLUTION_undo l m :
  set_CURRENT_SOLUTION (CURRENT_SOLUTION m) (set_CURRENT_SOLUTION l m) = m.
Proof. by destruct m. Qed.

Lemma length_row_columns a : length (row_columns N a) = 4%nat.
Proof. done. Qed.

(** Choosing a row that is linked in an active column. *)
Lemma Chosen_cons rws a :
  Chosen N rws -> a ∈ allnodes N -> hidden N (Kof N rws) a = false ->
  colOf N a ∉ Kof N rws -> Chosen N (a :: rws).
Proof.
  intros [Hnd Hrange Hnodes] Ha Hh Hc.
  destruct (row_columns_live N (Kof N rws) a Ha Hh Hc) as [Hnd' Hlive].
  split.
  - rewrite (Kof_cons N). apply NoDup_app. split; [by apply NoDup_rev_2|]. split; [|done].
    intros j Hj. apply elem_of_rev in Hj. by apply Hlive.
  - intros j. rewrite (Kof_cons N), elem_of_app, elem_of_rev.
    intros [Hj|Hj]; [by apply Hlive|by apply Hrange].
  - intros b Hb. apply elem_of_cons in Hb as [->|Hb]; [done|by apply Hnodes].
Qed.

Section Rows.

Variable rec : Memory -> option (bool * Memory).
Variables (d fuel : nat).
Hypothesis Hfuel : (FUEL N <= fuel)%nat.
Hypothesis Hrec : forall rws m,
  Inv N (Kof N rws) m -> Chosen N rws -> search_post N rws m d (rec m).

Lemma search_rows_spec rws m jc :
  Inv N (Kof N rws) m -> Chosen N rws -> 0 <= jc < C -> jc ∉ Kof N rws ->
  forall rest done k,
    vlist N (hidden N (Kof N rws)) jc = done ++ rest -> (length rest <= k)%nat ->
    search_post N rws m (S d)
      (search_rows rec fuel k (hdr jc) (hd (hdr jc) rest)
         (cover_fun N jc (hidden N (Kof N rws)) m)).
Proof.
  intros HI HC Hjc HjcK.
  set (K := Kof N rws) in *.
  set (m1 := cover_fun N jc (hidden N K) m).
  destruct (coverColumn_Inv N K m jc fuel HI Hjc HjcK Hfuel) as [_ HI1]. fold m1 in HI1.
  assert (Hv1 : vlist N (hidden N (jc :: K)) jc = vlist N (hidden N K) jc).
  { apply (vlist_before_ext N). by rewrite before_cons_same, before_active. }
  pose proof (rep_vring _ _ _ _ HI1 jc Hjc) as Hring. rewrite Hv1 in Hring.
  induction rest as [|a rest IH]; intros done k Hl Hk.
  - simpl hd. rewrite search_rows_stop. unfold m1.
    rewrite (uncover_cover_Inv N K m jc fuel HI Hjc HjcK Hfuel). done.
  - destruct k as [|k]; [simpl in Hk; lia|]. simpl hd.
    assert (Hal : a ∈ vlist N (hidden N K) jc) by (rewrite Hl; set_solver).
    apply elem_of_vlist in Hal as (Hah & Hac & Haa).
    assert (HaK : colOf N a ∉ K) by (by rewrite Hac).
    destruct (row_columns_live N K a Haa Hah HaK) as [Hnd Hlive].
    unfold row_columns in Hnd, Hlive. rewrite Hac in Hnd, Hlive.
    apply NoDup_cons in Hnd as [Hjcs Hnd].
    assert (Hlive' : forall j, j ∈ colOf N <$> others N a -> 0 <= j < C /\ j ∉ jc :: K).
    { intros j Hj. destruct (Hlive j ltac:(set_solver)) as [? ?].
      split; [done|]. intros Hin. apply elem_of_cons in Hin as [->|Hin]; done. }
    rewrite search_rows_step by (intros ->; by apply (hdr_not_node N jc (hdr jc))).
    cbv zeta.
    set (m2 := set_CURRENT_SOLUTION (CURRENT_SOLUTION m1 ++ [a]) m1).
    assert (HI2 : Inv N (jc :: K) m2) by (by apply Inv_set_current).
    rewrite (cover_others_loop N (jc :: K) m2 a fuel HI2 Haa Hnd Hlive' Hfuel).
    set (m3 := cover_cols N (jc :: K) (colOf N <$> others N a) m2).
    assert (HK3 : Kof N (a :: rws) = rev (colOf N <$> others N a) ++ jc :: K).
    { rewrite (Kof_cons N). unfold row_columns. rewrite Hac. reflexivity. }
    assert (HI3 : Inv N (Kof N (a :: rws)) m3).
    { rewrite HK3. by apply cover_cols_Inv. }
    assert (HC3 : Chosen N (a :: rws)) by (by apply Chosen_cons).
    assert (Hg3 : SUDOKU_SOLUTION m3 = SUDOKU_SOLUTION m /\
                  CURRENT_SOLUTION m3 = CURRENT_SOLUTION m ++ [a] /\ stdout m3 = stdout m).
    { destruct (same_globals_cover_cols (colOf N <$> others N a) (jc :: K) m2) as (G1 & G2 & G3).
      destruct (same_globals_cover_fun jc (hidden N K) m) as (F1 & F2 & F3).
      fold m3 in G1, G2, G3. fold m1 in F1, F2, F3.
      rewrite G1, G2, G3. unfold m2. simpl. rewrite F1, F2, F3. done. }
    destruct Hg3 as (Hsol3 & Hcur3 & Hout3).
    pose proof (Hrec (a :: rws) m3 HI3 HC3) as Hpost.
    destruct (rec m3) as [[[|] m4]|]; simpl in Hpost.
    + (* the row does not lead to a solution *)
      subst m4. rewrite Hcur3, back_snoc.
      rewrite (rep_column_hdr N _ _ a HI3 Haa), Hac.
      pose proof (uncover_others_loop (jc :: K) m2 a fuel HI2 Haa Hnd Hlive' Hfuel) as Hun.
      cbv zeta in Hun. fold m3 in Hun. rewrite Hun.
      assert (Hback : set_CURRENT_SOLUTION (removelast (CURRENT_SOLUTION m2)) m2 = m1).
      { unfold m2 at 1. simpl CURRENT_SOLUTION. rewrite removelast_last.
        apply set_CURRENT_SOLUTION_undo. }
      rewrite Hback.
      rewrite Hl in Hring. rewrite (dlinked_next _ _ _ _ _ _ _ Hring).
      apply (IH (done ++ [a])); [by rewrite <- app_assoc|simpl in Hk; lia].
    + (* a solution was found below *)
      destruct Hpost as (new & leaf & -> & [HIl HCl Hcov Hdesc Hcur Hsol Hout]).
      exists (new ++ [a]), leaf. split; [done|].
      split.
      * by rewrite <- app_assoc.
      * by rewrite <- app_assoc.
      * by rewrite <- app_assoc.
      * rewrite rev_app_distr. simpl.
        apply (descends_cons N fuel m a m3); [done| | |done].
        -- apply (candidate_Inv K m a HI). exists jc. split; [done|]. split; [done|].
           by apply elem_of_vlist.
        -- unfold choose_row. rewrite (rep_column_hdr N K m a HI Haa), Hac.
           destruct (coverColumn_Inv N K m jc fuel HI Hjc HjcK Hfuel) as [-> _].
           fold m1. cbv zeta. fold m2.
           by rewrite (cover_others_loop N (jc :: K) m2 a fuel HI2 Haa Hnd Hlive' Hfuel).
      * rewrite Hcur, Hcur3, rev_app_distr, <- app_assoc. done.
      * by rewrite Hsol.
      * by rewrite Hout.
    + (* the recursion was cut off *)
      pose proof (length_act_app (row_columns N a) K) as Hlen.
      rewrite length_row_columns in Hlen. rewrite (Kof_cons N) in Hpost. fold K in Hpost.
      unfold search_post. fold K.
      cut ((length (act N (rev (row_columns N a) ++ K)) + 4)%nat = length (act N K)); [lia|].
      apply Hlen.
      * unfold row_columns. rewrite Hac. by apply NoDup_cons.
      * unfold row_columns. rewrite Hac. done.
Qed.

End Rows.

(** *** [search] *)

Lemma act_nil_ring K m : Inv N K m -> rightOf m 1 = 1 <-> act N K = [].
Proof.
  intros HI. pose proof (rep_hring _ _ _ _ HI) as Hd.
  rewrite (dlinked_first _ _ _ _ _ Hd).
  destruct (act N K) as [|j l] eqn:E; [done|]. simpl. split; [|done].
  assert (Hj : j ∈ act N K) by (rewrite E; set_solver).
  apply elem_of_act in Hj. unfold hdr. lia.
Qed.

Theorem search_spec depth : forall fuel rws m,
  (FUEL N <= fuel)%nat -> Inv N (Kof N rws) m -> Chosen N rws ->
  search_post N rws m depth (search N depth fuel m).
Proof.
  induction depth as [|d IH]; intros fuel rws m Hfuel HI HC.
  - simpl. lia.
  - simpl search. pose proof (rep_head _ _ _ _ HI) as Hhead. rewrite Hhead.
    destruct (Z.eqb_spec (rightOf m 1) 1) as [Hsolved|Hmore].
    + exists [], m. split; [done|]. split; try done.
      * by apply (act_nil_ring _ m).
      * apply descends_nil.
      * simpl. by rewrite app_nil_r.
    + destruct (act N (Kof N rws)) as [|j0 rest] eqn:Hact.
      { exfalso. apply Hmore. by apply (act_nil_ring (Kof N rws)). }
      pose proof (smallestColumn_Inv _ m j0 rest fuel HI Hact Hfuel) as Hsm.
      rewrite Hhead in Hsm. rewrite Hsm.
      set (jc := first_min (fun j => sizeOf m (hdr j)) j0 rest) in *.
      assert (Hjc : jc ∈ act N (Kof N rws)) by (rewrite Hact; apply first_min_elem).
      apply elem_of_act in Hjc as [Hjc HjcK].
      destruct (coverColumn_Inv N _ m jc fuel HI Hjc HjcK Hfuel) as [Hrun HI1].
      rewrite Hrun.
      assert (Hv1 : vlist N (hidden N (jc :: Kof N rws)) jc = vlist N (hidden N (Kof N rws)) jc).
      { apply (vlist_before_ext N). by rewrite before_cons_same, before_active. }
      pose proof (rep_vring _ _ _ _ HI1 jc Hjc) as Hring. rewrite Hv1 in Hring.
      rewrite (dlinked_first _ _ _ _ _ Hring).
      apply (search_rows_spec (search N d fuel) d fuel Hfuel) with (done := []); try done.
      * intros rws' m' HI' HC'. by apply IH.
      * by apply FUEL_vlist.
Qed.

End SearchProof.

(** ** The grid of an exact cover *)

Lemma NoDup_concat_unique {A B} (f : A -> list B) (l : list A) x a a' :
  NoDup (concat (f <$> l)) -> a ∈ l -> a' ∈ l -> x ∈ f a -> x ∈ f a' -> a = a'.
Proof.
  induction l as [|b l IH]; intros Hnd Ha Ha' Hx Hx'; [by apply elem_of_nil in Ha|].
  simpl in Hnd. apply NoDup_app in Hnd as (_ & Hdisj & Hnd).
  assert (Hin : forall c, c ∈ l -> x ∈ f c -> x ∈ concat (f <$> l)).
  { intros c Hc Hxc. apply elem_of_concat. exists (f c). split; [done|].
    by apply list_elem_of_fmap_2. }
  apply elem_of_cons in Ha as [->|Ha]; apply elem_of_cons in Ha' as [->|Ha'].
  - done.
  - exfalso. apply (Hdisj x Hx). by apply (Hin a').
  - exfalso. apply (Hdisj x Hx'). by apply (Hin a).
  - by apply IH.
Qed.

Section GridProof.

Context (N : Z) {HN : GoodSize N}.
Let N_pos : 0 < N := size_pos.
Let N_square : Z.sqrt N * Z.sqrt N = N := size_square.

Local Abbreviation C := (COLUMNS N).
Local Abbreviation R := (ROWS N).
Local Abbreviation NN := (N * N).

Lemma cellidx_eq a :
  cellidx N a = Z.to_nat (ecp_row N (rowOf N a) * N + ecp_column N (rowOf N a)).
Proof. done. Qed.

Lemma length_grid_rows init rws : length (grid_rows N init rws) = length init.
Proof.
  induction rws as [|a rws IH]; [done|]. simpl. unfold write_row.
  by rewrite length_insert.
Qed.

Lemma grid_rows_lookup init rws a :
  a ∈ rws -> (cellidx N a < length init)%nat ->
  (forall a', a' ∈ rws -> cellidx N a' = cellidx N a ->
     ecp_candidate N (rowOf N a') = ecp_candidate N (rowOf N a)) ->
  grid_rows N init rws !! cellidx N a = Some (ecp_candidate N (rowOf N a)).
Proof.
  intros Ha Hlen Hsame. induction rws as [|b rws IH]; [by apply elem_of_nil in Ha|].
  simpl. unfold write_row. fold (cellidx N b).
  destruct (decide (cellidx N b = cellidx N a)) as [E|Hne].
  - rewrite E, list_lookup_insert_eq by (by rewrite length_grid_rows).
    f_equal. apply Hsame; [set_solver|done].
  - rewrite list_lookup_insert_ne by done.
    apply IH.
    + apply elem_of_cons in Ha as [->|Ha]; done.
    + intros a' Ha'. apply Hsame. set_solver.
Qed.

(** The columns of a row. *)
Lemma elem_of_row_columns a j :
  a ∈ allnodes N ->
  j ∈ row_columns N a <-> exists k, 0 <= k < 4 /\ j = cols N (rowOf N a) k.
Proof.
  intros Ha. unfold row_columns. rewrite elem_of_cons, list_elem_of_fmap.
  pose proof (kOf_range N a) as Hk. split.
  - intros [->|(b & -> & Hb)].
    + exists (kOf N a). done.
    + apply others_spec in Hb as (k & Hk' & Hne & ->). exists k.
      by rewrite colOf_nd.
  - intros (k & Hk' & ->). destruct (decide (k = kOf N a)) as [->|Hne]; [by left|].
    right. exists (nd N (rowOf N a) k). rewrite colOf_nd by done. split; [done|].
    apply others_spec. eauto.
Qed.

Lemma elem_of_Kof rws j : j ∈ Kof N rws <-> exists a, a ∈ rws /\ j ∈ row_columns N a.
Proof.
  unfold Kof. rewrite elem_of_concat. split.
  - intros (l & Hj & Hl). apply list_elem_of_fmap in Hl as (a & -> & Ha).
    exists a. by rewrite elem_of_rev in Hj.
  - intros (a & Ha & Hj). exists (rev (row_columns N a)). rewrite elem_of_rev. split; [done|].
    by apply (list_elem_of_fmap_2 (fun a => rev (row_columns N a))).
Qed.

Lemma pair_inj r c r' c' :
  0 <= c < N -> 0 <= c' < N -> r * N + c = r' * N + c' -> r = r' /\ c = c'.
Proof.
  intros Hc Hc' Heq.
  assert (r = r').
  { destruct (Z.lt_trichotomy r r') as [Hlt|[E|Hgt]]; [|done|]; nia. }
  split; [done|]. nia.
Qed.

Lemma cols_1 i : cols N i 1 = NN + ecp_row N i * N + ecp_candidate N i.
Proof. unfold cols, SUDOKU_SIZE_SQUARED. simpl. lia. Qed.

Lemma cols_2 i : cols N i 2 = 2 * NN + ecp_column N i * N + ecp_candidate N i.
Proof. unfold cols, SUDOKU_SIZE_SQUARED. simpl. lia. Qed.

Lemma cols_3 i : cols N i 3 = 3 * NN + ecp_box N i * N + ecp_candidate N i.
Proof. unfold cols, SUDOKU_SIZE_SQUARED. simpl. lia. Qed.

Lemma box_of_eq i : 0 <= i < R -> ecp_box N i = box_of N (ecp_row N i) (ecp_column N i).
Proof. intros Hi. by rewrite (box_eq N). Qed.

Section Cover.

(** The rows of [rws] cover every column exactly once. *)
Variable rws : list Z.
Hypothesis HC : Chosen N rws.
Hypothesis Hact : act N (Kof N rws) = [].

Lemma cover_exists j :
  0 <= j < C -> exists a k, a ∈ rws /\ a ∈ allnodes N /\ 0 <= k < 4 /\ cols N (rowOf N a) k = j.
Proof.
  intros Hj. destruct (decide (j ∈ Kof N rws)) as [Hin|Hout].
  - apply elem_of_Kof in Hin as (a & Ha & Hin).
    pose proof (chosen_nodes _ _ HC a Ha) as Haa.
    apply elem_of_row_columns in Hin as (k & Hk & ->); [|done]. by exists a, k.
  - assert (Hin : j ∈ act N (Kof N rws)) by (by apply elem_of_act).
    rewrite Hact in Hin. by apply elem_of_nil in Hin.
Qed.

Lemma cover_unique a a' k k' :
  a ∈ rws -> a' ∈ rws -> 0 <= k < 4 -> 0 <= k' < 4 ->
  cols N (rowOf N a) k = cols N (rowOf N a') k' -> a = a'.
Proof.
  intros Ha Ha' Hk Hk' Heq.
  pose proof (chosen_nodes _ _ HC a Ha) as Haa.
  pose proof (chosen_nodes _ _ HC a' Ha') as Haa'.
  apply (NoDup_concat_unique (fun a => rev (row_columns N a)) rws (cols N (rowOf N a) k)).
  - apply (chosen_NoDup _ _ HC).
  - done.
  - done.
  - rewrite elem_of_rev. apply elem_of_row_columns; eauto.
  - rewrite elem_of_rev. apply elem_of_row_columns; eauto.
Qed.

Lemma cover_family k j :
  0 <= k < 4 -> k * NN <= j < (k + 1) * NN ->
  exists a, a ∈ rws /\ a ∈ allnodes N /\ cols N (rowOf N a) k = j.
Proof.
  intros Hk Hj. destruct (cover_exists j) as (a & k' & Ha & Haa & Hk' & Heq).
  { rewrite (C_eq N). nia. }
  exists a. split; [done|]. split; [done|].
  pose proof (cols_family N (rowOf N a) k' (rowOf_range N a Haa) Hk') as Hf.
  assert (k' = k) by nia. by subst k'.
Qed.

Variable init : list Z.
Hypothesis Hinit : length init = Z.to_nat NN.

Lemma cell_of_row a :
  a ∈ rws ->
  cell N (grid_rows N init rws) (ecp_row N (rowOf N a)) (ecp_column N (rowOf N a)) =
    Some (ecp_candidate N (rowOf N a)).
Proof.
  intros Ha. pose proof (chosen_nodes _ _ HC a Ha) as Haa.
  pose proof (rowOf_range N a Haa) as Hi.
  pose proof (row_range N _ Hi) as Hr. pose proof (column_range N _ (proj1 Hi)) as Hc.
  unfold cell. rewrite <- cellidx_eq. apply grid_rows_lookup; [done| |].
  - rewrite cellidx_eq, Hinit. apply Z2Nat.inj_lt; nia.
  - intros a' Ha' Hidx. f_equal. f_equal. symmetry.
    pose proof (chosen_nodes _ _ HC a' Ha') as Haa'.
    pose proof (rowOf_range N a' Haa') as Hi'.
    pose proof (row_range N _ Hi') as Hr'. pose proof (column_range N _ (proj1 Hi')) as Hc'.
    apply (cover_unique a a' 0 0); [done|done|lia|lia|].
    rewrite !cols_cell by done. rewrite !cellidx_eq in Hidx.
    apply Z2Nat.inj in Hidx; nia.
Qed.

Lemma row_at r c :
  0 <= r < N -> 0 <= c < N ->
  exists a, a ∈ rws /\ a ∈ allnodes N /\
    ecp_row N (rowOf N a) = r /\ ecp_column N (rowOf N a) = c.
Proof.
  intros Hr Hc. destruct (cover_family 0 (r * N + c)) as (a & Ha & Haa & Heq); [lia|nia|].
  exists a. split; [done|]. split; [done|].
  pose proof (rowOf_range N a Haa) as Hi.
  rewrite cols_cell in Heq by done.
  apply pair_inj in Heq; [done| |done]. apply (column_range N). lia.
Qed.

Lemma cell_value r c v :
  0 <= r < N -> 0 <= c < N -> cell N (grid_rows N init rws) r c = Some v ->
  exists a, a ∈ rws /\ a ∈ allnodes N /\ ecp_row N (rowOf N a) = r /\
    ecp_column N (rowOf N a) = c /\ ecp_candidate N (rowOf N a) = v.
Proof.
  intros Hr Hc Hv. destruct (row_at r c Hr Hc) as (a & Ha & Haa & <- & <-).
  rewrite (cell_of_row a Ha) in Hv. exists a. repeat split; try done. congruence.
Qed.

(** The rows of an exact cover describe a valid grid. *)
Theorem cover_valid_grid : valid_grid N (grid_rows N init rws).
Proof.
  split.
  - by rewrite length_grid_rows.
  - intros r c Hr Hc. destruct (row_at r c Hr Hc) as (a & Ha & Haa & <- & <-).
    exists (ecp_candidate N (rowOf N a)). split; [by apply cell_of_row|].
    apply (candidate_range N). pose proof (rowOf_range N a Haa). lia.
  - intros r v Hr Hv.
    destruct (cover_family 1 (NN + r * N + v)) as (a & Ha & Haa & Heq); [lia|nia|].
    pose proof (rowOf_range N a Haa) as Hi. rewrite cols_1 in Heq.
    pose proof (candidate_range N _ (proj1 Hi)) as Hcand.
    assert (Hrv : ecp_row N (rowOf N a) = r /\ ecp_candidate N (rowOf N a) = v).
    { apply pair_inj; [done|done|lia]. }
    destruct Hrv as [Hra Hva].
    exists (ecp_column N (rowOf N a)). split; [apply (column_range N); lia|]. split.
    + rewrite <- Hra, <- Hva. by apply cell_of_row.
    + intros c' Hc' Hcell.
      destruct (cell_value r c' v Hr Hc' Hcell) as (a' & Ha' & Haa' & Hr' & Hcc' & Hv').
      assert (a = a') as <-; [|done].
      apply (cover_unique a a' 1 1); [done|done|lia|lia|].
      rewrite !cols_1. congruence.
  - intros c v Hc Hv.
    destruct (cover_family 2 (2 * NN + c * N + v)) as (a & Ha & Haa & Heq); [lia|nia|].
    pose proof (rowOf_range N a Haa) as Hi. rewrite cols_2 in Heq.
    pose proof (candidate_range N _ (proj1 Hi)) as Hcand.
    assert (Hcv : ecp_column N (rowOf N a) = c /\ ecp_candidate N (rowOf N a) = v).
    { apply pair_inj; [done|done|lia]. }
    destruct Hcv as [Hca Hva].
    exists (ecp_row N (rowOf N a)). split; [by apply (row_range N)|]. split.
    + rewrite <- Hca, <- Hva. by apply cell_of_row.
    + intros r' Hr' Hcell.
      destruct (cell_value r' c v Hr' Hc Hcell) as (a' & Ha' & Haa' & Hrr' & Hcc' & Hv').
      assert (a = a') as <-; [|done].
      apply (cover_unique a a' 2 2); [done|done|lia|lia|].
      rewrite !cols_2. congruence.
  - intros b v Hb Hv.
    destruct (cover_family 3 (3 * NN + b * N + v)) as (a & Ha & Haa & Heq); [lia|nia|].
    pose proof (rowOf_range N a Haa) as Hi. rewrite cols_3 in Heq.
    pose proof (candidate_range N _ (proj1 Hi)) as Hcand.
    assert (Hbv : ecp_box N (rowOf N a) = b /\ ecp_candidate N (rowOf N a) = v).
    { apply pair_inj; [done|done|lia]. }
    destruct Hbv as [Hba Hva].
    exists (ecp_row N (rowOf N a)), (ecp_column N (rowOf N a)).
    split; [by apply (row_range N)|]. split; [apply (column_range N); lia|].
    split; [by rewrite <- box_of_eq|]. split.
    + rewrite <- Hva. by apply cell_of_row.
    + intros r' c' Hr' Hc' Hbox Hcell.
      destruct (cell_value r' c' v Hr' Hc' Hcell) as (a' & Ha' & Haa' & Hrr' & Hcc' & Hv').
      assert (a = a') as <-; [|done].
      apply (cover_unique a a' 3 3); [done|done|lia|lia|].
      rewrite !cols_3. rewrite (box_of_eq (rowOf N a')) by (by apply rowOf_range).
      rewrite Hrr', Hcc', Hbox. congruence.
Qed.

End Cover.

End GridProof.

(** ** The solver *)

Lemma foldl_rev_foldr {A B} (f : B -> A -> B) (x : B) (l : list A) :
  foldl f x (rev l) = foldr (fun a s => f s a) x l.
Proof.
  induction l as [|a l IH]; [done|]. simpl. by rewrite foldl_app, IH.
Qed.

Lemma foldr_app_foldl {A B} (f : B -> A -> B) (x : B) (l1 l2 : list A) :
  foldl f (foldr (fun a s => f s a) x l2) (rev l1) = foldr (fun a s => f s a) x (l1 ++ l2).
Proof. by rewrite foldl_rev_foldr, foldr_app. Qed.

Lemma foldl_ext_elem {A B} (f g : B -> A -> B) (x : B) (l : list A) :
  (forall s a, a ∈ l -> f s a = g s a) -> foldl f x l = foldl g x l.
Proof.
  revert x. induction l as [|a l IH]; intros x Hfg; [done|].
  simpl. rewrite Hfg by set_solver. apply IH. intros s b Hb. apply Hfg. set_solver.
Qed.

Section SolverProof.

Context (N : Z) {HN : GoodSize N}.
Let N_pos : 0 < N := size_pos.
Let N_square : Z.sqrt N * Z.sqrt N = N := size_square.

Local Abbreviation C := (COLUMNS N).
Local Abbreviation R := (ROWS N).
Local Abbreviation NN := (N * N).

(** *** The globals after the preload *)

Lemma preload_globals input m0 q :
  0 <= q ->
  SUDOKU_SOLUTION (preload_state N input m0 q).2 =
    grid_rows N (SUDOKU_SOLUTION m0) (preload_state N input m0 q).1 /\
  CURRENT_SOLUTION (preload_state N input m0 q).2 = CURRENT_SOLUTION m0 /\
  stdout (preload_state N input m0 q).2 = stdout m0.
Proof.
  intros Hq. rewrite <- (Z2Nat.id q) by done.
  induction (Z.to_nat q) as [|n IH]; [done|].
  replace (Z.of_nat (S n)) with (Z.of_nat n + 1) by lia.
  rewrite (preload_state_snoc N) by lia.
  destruct IH as (IH1 & IH2 & IH3).
  unfold preload_mem_step. destruct (clue_node N input _ _) as [a|]; [|done].
  cbn [fst snd]. unfold commit_row.
  destruct (same_globals_cover_cols N (row_columns N a)
              (Kof N (preload_state N input m0 (Z.of_nat n)).1)
              (set_SUDOKU_SOLUTION
                 (write_row N (SUDOKU_SOLUTION (preload_state N input m0 (Z.of_nat n)).2) a)
                 (preload_state N input m0 (Z.of_nat n)).2)) as (G1 & G2 & G3).
  rewrite G1, G2, G3. simpl. by rewrite IH1.
Qed.

Lemma Committed_Chosen input q rws : Committed N input q rws -> Chosen N rws.
Proof.
  intros [Hnd Hrange _ Hrows]. split; [done|done|].
  intros a Ha. by apply Hrows.
Qed.

Lemma length_initial_solution : length (SUDOKU_SOLUTION (initial_memory N)) = Z.to_nat NN.
Proof.
  simpl. rewrite length_replicate. unfold SUDOKU_SIZE_SQUARED.
  assert (0 < NN) by nia. lia.
Qed.

(** What is known of the memory when [search] starts. *)
Lemma preloaded_spec input fuel :
  (FUEL N <= fuel)%nat ->
  updateDoublyLinkedList N fuel input (built N) = Some (preloaded N input) /\
  Inv N (Kof N (committed N input)) (preloaded N input) /\
  Committed N input NN (committed N input) /\
  SUDOKU_SOLUTION (preloaded N input) =
    grid_rows N (SUDOKU_SOLUTION (initial_memory N)) (committed N input) /\
  CURRENT_SOLUTION (preloaded N input) = [] /\ stdout (preloaded N input) = [].
Proof.
  intros Hfuel. destruct (built_Inv N) as [HI0 (F1 & F2 & F3)].
  destruct (updateDoublyLinkedList_spec N input (built N) HI0 fuel Hfuel) as [Hrun HI].
  assert (Hnn : 0 <= NN) by nia.
  destruct (preload_globals input (built N) NN Hnn) as (G1 & G2 & G3).
  rewrite (preload_state_rows N) in G1 by done.
  unfold preloaded, committed. split; [done|]. split; [done|].
  split; [apply (Committed_preload N); lia|].
  rewrite G1, G2, G3, F1, F2, F3. done.
Qed.

(** *** The solution that [search] records *)

Lemma record_solution_eq K leaf :
  Inv N K leaf -> (forall p, p ∈ CURRENT_SOLUTION leaf -> p ∈ allnodes N) ->
  SUDOKU_SOLUTION (record_solution N leaf) =
    foldl (write_row N) (SUDOKU_SOLUTION leaf) (CURRENT_SOLUTION leaf).
Proof.
  intros HI Hcur. unfold record_solution. simpl.
  apply foldl_ext_elem. intros s p Hp. unfold write_row.
  by rewrite (rep_ident_node N K leaf p HI (Hcur p Hp)).
Qed.

(** *** The number of active columns *)

Lemma length_act_Kof rws :
  Chosen N rws -> (length (act N (Kof N rws)) + 4 * length rws = Z.to_nat C)%nat.
Proof.
  induction rws as [|a rws IH]; intros [Hnd Hrange Hnodes].
  - unfold Kof, act. simpl. rewrite filter_id_Forall.
    + rewrite length_seqZ. lia.
    + intros j _. set_solver.
  - rewrite (Kof_cons N) in Hnd, Hrange |- *.
    apply NoDup_app in Hnd as (Hnd1 & Hdisj & Hnd2).
    pose proof (length_act_app N (row_columns N a) (Kof N rws)) as Hlen.
    rewrite length_row_columns in Hlen.
    assert (HC' : Chosen N rws).
    { split; [done| |]; intros; [apply Hrange|apply Hnodes]; set_solver. }
    specialize (IH HC'). change (length (a :: rws)) with (S (length rws)).
    cut ((length (act N (rev (row_columns N a) ++ Kof N rws)) + 4)%nat =
         length (act N (Kof N rws))); [lia|].
    apply Hlen.
    + rewrite <- (rev_involutive (row_columns N a)). by apply NoDup_rev_2.
    + intros j Hj. split.
      * apply Hrange. rewrite elem_of_app, elem_of_rev. by left.
      * apply Hdisj. by rewrite elem_of_rev.
Qed.

Lemma open_cells_act input :
  Z.of_nat (length (act N (Kof N (committed N input)))) = 4 * open_cells N input.
Proof.
  pose proof (Committed_Chosen input NN _ (Committed_preload N input NN ltac:(nia))) as HC.
  pose proof (length_act_Kof _ HC) as Hlen. fold (committed N input) in Hlen.
  unfold open_cells. pose proof (C_eq N). pose proof (C_pos N). lia.
Qed.

(** *** The outcome of a run *)

Theorem sudokuSolver_spec input depth fuel :
  (FUEL N <= fuel)%nat ->
  match sudokuSolver N depth fuel input with
  | None => Z.of_nat depth <= open_cells N input
  | Some m =>
      m = print PrintNoSolution (preloaded N input) \/
      exists new leaf,
        m = answer N leaf /\
        Solved_from N (committed N input) (preloaded N input) new leaf /\
        SUDOKU_SOLUTION m =
          grid_rows N (SUDOKU_SOLUTION (initial_memory N)) (new ++ committed N input) /\
        stdout m = [PrintGrid (SUDOKU_SOLUTION m)]
  end.
Proof.
  intros Hfuel.
  destruct (preloaded_spec input fuel Hfuel) as (Hrun & HI & HCom & Hsol & Hcur & Hout).
  pose proof (Committed_Chosen _ _ _ HCom) as HC.
  unfold sudokuSolver. cbv zeta. fold (built N). rewrite Hrun.
  pose proof (search_spec N depth fuel _ _ Hfuel HI HC) as Hpost.
  destruct (search N depth fuel (preloaded N input)) as [[[|] m']|]; simpl in Hpost.
  - left. by subst m'.
  - right. destruct Hpost as (new & leaf & -> & HS). exists new, leaf.
    split; [done|]. split; [done|].
    destruct HS as [HIl HCl Hcov Hdesc Hcurl Hsoll Houtl].
    assert (Hrec : SUDOKU_SOLUTION (answer N leaf) =
      grid_rows N (SUDOKU_SOLUTION (initial_memory N)) (new ++ committed N input)).
    { change (SUDOKU_SOLUTION (answer N leaf))
        with (SUDOKU_SOLUTION (record_solution N leaf)).
      rewrite (record_solution_eq _ leaf HIl).
      - rewrite Hcurl, Hcur, Hsoll, Hsol. simpl app.
        unfold grid_rows. apply (foldr_app_foldl (write_row N)).
      - intros p Hp. rewrite Hcurl, Hcur in Hp. simpl in Hp.
        rewrite elem_of_rev in Hp. apply (chosen_nodes _ _ HCl). apply elem_of_app. by left. }
    split; [done|].
    unfold answer at 1, printSolution. simpl stdout.
    rewrite Houtl, Hout. done.
  - pose proof (open_cells_act input) as Hact. lia.
Qed.

End SolverProof.

(** ** The clues that the preload commits *)

Section Clues.

Context (N : Z) {HN : GoodSize N}.
Let N_pos : 0 < N := size_pos.
Let N_square : Z.sqrt N * Z.sqrt N = N := size_square.

Local Abbreviation C := (COLUMNS N).
Local Abbreviation R := (ROWS N).
Local Abbreviation NN := (N * N).

Variable input : Z -> Z -> Z.

(** A committed row is the row of a clue. *)
Lemma committed_clue a :
  a ∈ committed N input ->
  a ∈ allnodes N /\
  is_given input (ecp_row N (rowOf N a)) (ecp_column N (rowOf N a)) = true /\
  input (ecp_row N (rowOf N a)) (ecp_column N (rowOf N a)) = ecp_candidate N (rowOf N a).
Proof.
  intros Ha.
  pose proof (Committed_preload N input NN ltac:(nia)) as HCom.
  destruct (com_rows _ _ _ _ HCom a Ha) as (Haa & Hclue & _).
  unfold is_clue in Hclue. apply Z.eqb_eq in Hclue.
  pose proof (rowOf_range N a Haa) as Hi.
  pose proof (candidate_range N _ (proj1 Hi)) as Hcand.
  split; [done|]. split; [|done].
  unfold is_given. rewrite <- Hclue. apply negb_true_iff, Z.eqb_neq. lia.
Qed.

(** When no two clues conflict, the row of every clue is committed. *)
Lemma consistent_committed r c :
  consistent N input -> 0 <= r < N -> 0 <= c < N -> is_given input r c = true ->
  exists a, a ∈ committed N input /\ ecp_row N (rowOf N a) = r /\
    ecp_column N (rowOf N a) = c /\ ecp_candidate N (rowOf N a) = input r c.
Proof.
  intros [Hvals Hcons] Hr Hc Hgiven.
  unfold is_given in Hgiven. apply negb_true_iff, Z.eqb_neq in Hgiven.
  pose proof (Hvals r c Hr Hc) as Hv.
  assert (Hv' : 0 <= input r c < N) by lia.
  destruct (decode_index N r c (input r c) Hr Hc Hv') as (Hi & Hcand & Hrow & Hcol).
  set (i := input r c + N * c + N * N * r) in *.
  set (q := r * N + c).
  assert (Hq : 0 <= q < NN) by (unfold q; nia).
  set (rws := preload_rows N input q).
  pose proof (Committed_preload N input q ltac:(lia)) as HCom. fold rws in HCom.
  assert (Ha : nd N i 0 ∈ allnodes N) by (apply nd_allnodes; [done|lia]).
  assert (Hcol0 : colOf N (nd N i 0) = q).
  { rewrite colOf_nd by lia. rewrite (cols_cell N) by done. unfold q. congruence. }
  assert (HqK : q ∉ Kof N rws) by (apply (com_cells _ _ _ _ HCom); lia).
  assert (Hlive : nd N i 0 ∈ vlist N (hidden N (Kof N rws)) q).
  { apply elem_of_vlist. split; [|done].
    apply hidden_false. intros k Hk Hne.
    rewrite rowOf_nd, kOf_nd in * by lia. rewrite Hcol0, before_active by done.
    intros Hin. apply elem_of_Kof in Hin as (a' & Ha' & Hin).
    destruct (com_rows _ _ _ _ HCom a' Ha') as (Haa' & Hclue' & Hk' & Hlt').
    apply elem_of_row_columns in Hin as (k' & Hk'r & Heq); [|done].
    pose proof (rowOf_range N a' Haa') as Hi'.
    pose proof (cols_family N i k Hi Hk) as Hf.
    pose proof (cols_family N _ k' Hi' Hk'r) as Hf'.
    assert (k' = k) by nia. subst k'.
    unfold colOf in Hlt'. rewrite Hk', (cols_cell N) in Hlt' by done.
    unfold is_clue in Hclue'. apply Z.eqb_eq in Hclue'.
    pose proof (row_range N _ Hi') as Hr'.
    pose proof (column_range N _ (proj1 Hi')) as Hc'.
    pose proof (candidate_range N _ (proj1 Hi')) as Hcand'.
    pose proof (candidate_range N _ (proj1 Hi)) as Hcandi.
    apply (Hcons r c (ecp_row N (rowOf N a')) (ecp_column N (rowOf N a')) Hr Hc Hr' Hc').
    assert (Hdiff : (r, c) <> (ecp_row N (rowOf N a'), ecp_column N (rowOf N a'))).
    { intros [= E1 E2]. unfold q in Hlt'. rewrite <- E1, <- E2 in Hlt'. lia. }
    assert (Hcases : k = 1 \/ k = 2 \/ k = 3) by lia.
    destruct Hcases as [-> | [-> | ->]].
    - rewrite !(cols_1 N) in Heq.
      assert (E : ecp_row N i = ecp_row N (rowOf N a') /\
                  ecp_candidate N i = ecp_candidate N (rowOf N a')).
      { apply (pair_inj N); [done|done|lia]. }
      destruct E as [E1 E2]. split; [done|]. split; [congruence|]. split; [done|].
      left. congruence.
    - rewrite !(cols_2 N) in Heq.
      assert (E : ecp_column N i = ecp_column N (rowOf N a') /\
                  ecp_candidate N i = ecp_candidate N (rowOf N a')).
      { apply (pair_inj N); [done|done|lia]. }
      destruct E as [E1 E2]. split; [done|]. split; [congruence|]. split; [done|].
      right. left. congruence.
    - rewrite !(cols_3 N) in Heq.
      assert (E : ecp_box N i = ecp_box N (rowOf N a') /\
                  ecp_candidate N i = ecp_candidate N (rowOf N a')).
      { apply (pair_inj N); [done|done|lia]. }
      destruct E as [E1 E2]. split; [done|]. split; [congruence|]. split; [done|].
      right. right. rewrite !(box_of_eq N) in E1 by done. congruence. }
  assert (Hclue : is_clue N input (rowOf N (nd N i 0)) = true).
  { rewrite rowOf_nd by lia. unfold is_clue. apply Z.eqb_eq. congruence. }
  pose proof (clue_node_cell N input (Kof N rws) q _ ltac:(lia) Hlive Hclue) as Hnode.
  assert (Hstep : preload_rows N input (q + 1) = nd N i 0 :: rws).
  { rewrite (preload_rows_snoc N) by lia. unfold preload_step. fold rws. by rewrite Hnode. }
  destruct (preload_rows_mono N input (q + 1) NN ltac:(lia)) as (new & Hnew).
  exists (nd N i 0). rewrite rowOf_nd by lia. split; [|done].
  unfold committed. rewrite Hnew, Hstep. set_solver.
Qed.

End Clues.

(** ** The states that the search reaches *)

Section Reachable.

Context (N : Z) {HN : GoodSize N}.
Let N_pos : 0 < N := size_pos.
Let N_square : Z.sqrt N * Z.sqrt N = N := size_square.

Local Abbreviation C := (COLUMNS N).
Local Abbreviation R := (ROWS N).
Local Abbreviation NN := (N * N).

(** The facts about a row that is linked in an active column. *)
Lemma live_row_columns K j r :
  0 <= j < C -> j ∉ K -> r ∈ vlist N (hidden N K) j ->
  r ∈ allnodes N /\ colOf N r = j /\ hidden N K r = false /\
  NoDup (colOf N <$> others N r) /\
  (forall j', j' ∈ colOf N <$> others N r -> 0 <= j' < C /\ j' ∉ j :: K).
Proof.
  intros Hj HjK Hr. apply elem_of_vlist in Hr as (Hrh & Hrc & Hra).
  assert (HrK : colOf N r ∉ K) by (by rewrite Hrc).
  destruct (row_columns_live N K r Hra Hrh HrK) as [Hnd Hlive].
  unfold row_columns in Hnd, Hlive. rewrite Hrc in Hnd, Hlive.
  apply NoDup_cons in Hnd as [Hjcs Hnd].
  repeat split; try done.
  - apply Hlive. set_solver.
  - apply Hlive. set_solver.
  - intros Hin. apply elem_of_cons in Hin as [->|Hin]; [done|].
    by apply (Hlive j' ltac:(set_solver)).
Qed.

Lemma Kof_cons_live K rws j r :
  K = Kof N rws -> colOf N r = j ->
  Kof N (r :: rws) = rev (colOf N <$> others N r) ++ j :: K.
Proof. intros -> <-. rewrite (Kof_cons N). reflexivity. Qed.

(** [cover(row)] on a candidate row. *)
Lemma cover_row_Inv rws m j r fuel :
  Inv N (Kof N rws) m -> Chosen N rws -> (FUEL N <= fuel)%nat ->
  0 <= j < C -> j ∉ Kof N rws -> r ∈ vlist N (hidden N (Kof N rws)) j ->
  let m1 := cover_fun N j (hidden N (Kof N rws)) m in
  let m3 := cover_cols N (j :: Kof N rws) (colOf N <$> others N r) m1 in
  cover_row fuel r m = Some m3 /\ uncover_row fuel r m3 = Some m /\
  Inv N (Kof N (r :: rws)) m3 /\ Chosen N (r :: rws).
Proof.
  intros HI HC Hfuel Hj HjK Hr m1 m3.
  destruct (live_row_columns _ j r Hj HjK Hr) as (Hra & Hrc & Hrh & Hnd & Hlive).
  destruct (coverColumn_Inv N _ m j fuel HI Hj HjK Hfuel) as [Hrun HI1]. fold m1 in Hrun, HI1.
  assert (HI3 : Inv N (rev (colOf N <$> others N r) ++ j :: Kof N rws) m3).
  { by apply cover_cols_Inv. }
  split; [|split; [|split]].
  - unfold cover_row. rewrite (rep_column_hdr N _ m r HI Hra), Hrc, Hrun.
    by apply cover_others_loop.
  - unfold uncover_row.
    pose proof (uncover_others_loop N (j :: Kof N rws) m1 r fuel HI1 Hra Hnd Hlive Hfuel) as Hun.
    cbv zeta in Hun. fold m3 in Hun. rewrite Hun.
    rewrite (rep_column_hdr N _ m1 r HI1 Hra), Hrc.
    by apply uncover_cover_Inv.
  - by rewrite (Kof_cons_live (Kof N rws) rws j r).
  - apply Chosen_cons; try done. by rewrite Hrc.
Qed.

(** What [search] does with a candidate row. *)
Lemma choose_row_Inv rws m j r fuel :
  Inv N (Kof N rws) m -> Chosen N rws -> (FUEL N <= fuel)%nat ->
  0 <= j < C -> j ∉ Kof N rws -> r ∈ vlist N (hidden N (Kof N rws)) j ->
  exists m3, choose_row fuel r m = Some m3 /\
    Inv N (Kof N (r :: rws)) m3 /\ Chosen N (r :: rws) /\
    CURRENT_SOLUTION m3 = CURRENT_SOLUTION m ++ [r].
Proof.
  intros HI HC Hfuel Hj HjK Hr.
  destruct (live_row_columns _ j r Hj HjK Hr) as (Hra & Hrc & Hrh & Hnd & Hlive).
  destruct (coverColumn_Inv N _ m j fuel HI Hj HjK Hfuel) as [Hrun HI1].
  set (m1 := cover_fun N j (hidden N (Kof N rws)) m) in *.
  set (m2 := set_CURRENT_SOLUTION (CURRENT_SOLUTION m1 ++ [r]) m1).
  assert (HI2 : Inv N (j :: Kof N rws) m2) by (by apply Inv_set_current).
  exists (cover_cols N (j :: Kof N rws) (colOf N <$> others N r) m2).
  split; [|split; [|split]].
  - unfold choose_row. rewrite (rep_column_hdr N _ m r HI Hra), Hrc, Hrun.
    cbv zeta. fold m2. by apply cover_others_loop.
  - rewrite (Kof_cons_live (Kof N rws) rws j r) by done. by apply cover_cols_Inv.
  - apply Chosen_cons; try done. by rewrite Hrc.
  - destruct (same_globals_cover_cols N (colOf N <$> others N r) (j :: Kof N rws) m2)
      as (_ & -> & _).
    unfold m2. simpl. unfold m1.
    by destruct (same_globals_cover_fun N j (hidden N (Kof N rws)) m) as (_ & -> & _).
Qed.

Lemma descends_Inv m l leaf :
  descends N m l leaf -> forall rws,
  Inv N (Kof N rws) m -> Chosen N rws ->
  Inv N (Kof N (rev l ++ rws)) leaf /\ Chosen N (rev l ++ rws) /\
  CURRENT_SOLUTION leaf = CURRENT_SOLUTION m ++ l.
Proof.
  induction 1 as [m|fuel m r m1 l leaf Hfuel Hcand Hrun Hdesc IH]; intros rws HI HC.
  - simpl. by rewrite app_nil_r.
  - apply (candidate_Inv N _ m r HI) in Hcand as (j & Hj & HjK & Hr).
    destruct (choose_row_Inv rws m j r fuel HI HC Hfuel Hj HjK Hr)
      as (m3 & Hrun' & HI3 & HC3 & Hcur3).
    rewrite Hrun in Hrun'. injection Hrun' as <-.
    destruct (IH (r :: rws) HI3 HC3) as (HIl & HCl & Hcurl).
    simpl rev. rewrite <- app_assoc. split; [done|]. split; [done|].
    rewrite Hcurl, Hcur3, <- app_assoc. done.
Qed.

(** Every state of the search represents the structure in which the
    columns of the chosen rows are covered. *)
Theorem reachable_Inv input m :
  reachable N input m ->
  exists rws, Inv N (Kof N rws) m /\ Chosen N rws.
Proof.
  intros (fuel & m0 & l & Hfuel & Hrun & Hdesc).
  destruct (preloaded_spec N input fuel Hfuel) as (Hrun' & HI & HCom & _).
  rewrite Hrun in Hrun'. injection Hrun' as ->.
  pose proof (Committed_Chosen N _ _ _ HCom) as HC.
  destruct (descends_Inv _ _ _ Hdesc _ HI HC) as (HIl & HCl & _).
  eauto.
Qed.

End Reachable.

(** ** The number of rows of a column *)

Lemma divmod_pair s a b : 0 <= b < s -> (a * s + b) `div` s = a /\ (a * s + b) `mod` s = b.
Proof.
  intros Hb. split.
  - symmetry. apply (Z.div_unique_pos _ s a b); lia.
  - symmetry. apply (Z.mod_unique_pos _ s a b); lia.
Qed.

Section CountingProof.

Context (N : Z) {HN : GoodSize N}.
Let N_pos : 0 < N := size_pos.
Let N_square : Z.sqrt N * Z.sqrt N = N := size_square.

Local Abbreviation C := (COLUMNS N).
Local Abbreviation R := (ROWS N).
Local Abbreviation NN := (N * N).
Local Abbreviation s := (Z.sqrt N).

Lemma box_split_range b t :
  0 <= b < N -> 0 <= t < N ->
  0 <= (b `div` s) * s + t `div` s < N /\ 0 <= (b `mod` s) * s + t `mod` s < N.
Proof.
  intros Hb Ht. pose proof (root_pos N) as Hs.
  pose proof (Z.mod_pos_bound b s Hs). pose proof (Z.mod_pos_bound t s Hs).
  assert (0 <= b `div` s < s).
  { split; [apply Z.div_pos; lia|apply Z.div_lt_upper_bound; lia]. }
  assert (0 <= t `div` s < s).
  { split; [apply Z.div_pos; lia|apply Z.div_lt_upper_bound; lia]. }
  nia.
Qed.

(** The box and the place in the box determine the cell, and conversely. *)
Lemma box_split b t :
  0 <= b < N -> 0 <= t < N ->
  let r := (b `div` s) * s + t `div` s in
  let c := (b `mod` s) * s + t `mod` s in
  box_of N r c = b /\ (r `mod` s) * s + c `mod` s = t.
Proof.
  intros Hb Ht r c. pose proof (root_pos N) as Hs.
  pose proof (Z.mod_pos_bound b s Hs). pose proof (Z.mod_pos_bound t s Hs).
  assert (0 <= t `div` s < s).
  { split; [apply Z.div_pos; lia|apply Z.div_lt_upper_bound; lia]. }
  destruct (divmod_pair s (b `div` s) (t `div` s) ltac:(lia)) as [Hr1 Hr2].
  destruct (divmod_pair s (b `mod` s) (t `mod` s) ltac:(lia)) as [Hc1 Hc2].
  unfold box_of. fold r in Hr1, Hr2. fold c in Hc1, Hc2.
  rewrite Hr1, Hr2, Hc1, Hc2.
  pose proof (Z.div_mod b s ltac:(lia)). pose proof (Z.div_mod t s ltac:(lia)). lia.
Qed.

Lemma box_join r c :
  0 <= r < N -> 0 <= c < N ->
  let b := box_of N r c in
  let t := (r `mod` s) * s + c `mod` s in
  0 <= b < N /\ 0 <= t < N /\
  (b `div` s) * s + t `div` s = r /\ (b `mod` s) * s + t `mod` s = c.
Proof.
  intros Hr Hc b t. pose proof (root_pos N) as Hs.
  pose proof (Z.mod_pos_bound r s Hs). pose proof (Z.mod_pos_bound c s Hs).
  assert (0 <= r `div` s < s).
  { split; [apply Z.div_pos; lia|apply Z.div_lt_upper_bound; lia]. }
  assert (0 <= c `div` s < s).
  { split; [apply Z.div_pos; lia|apply Z.div_lt_upper_bound; lia]. }
  destruct (divmod_pair s (r `div` s) (c `div` s) ltac:(lia)) as [Hb1 Hb2].
  destruct (divmod_pair s (r `mod` s) (c `mod` s) ltac:(lia)) as [Ht1 Ht2].
  unfold b, t, box_of in *. rewrite Hb1, Hb2, Ht1, Ht2.
  pose proof (Z.div_mod r s ltac:(lia)). pose proof (Z.div_mod c s ltac:(lia)).
  split; [nia|]. split; [nia|]. lia.
Qed.

Lemma row_of_spec k x y t :
  0 <= k < 4 -> 0 <= x < N -> 0 <= y < N -> 0 <= t < N ->
  let i := row_of N k x y t in
  0 <= i < R /\ cols N i k = k * NN + x * N + y /\ free_of N k i = t.
Proof.
  intros Hk Hx Hy Ht i.
  assert (Hcases : k = 0 \/ k = 1 \/ k = 2 \/ k = 3) by lia.
  destruct Hcases as [-> | [-> | [-> | ->]]]; unfold i, row_of, free_of; simpl.
  - destruct (decode_index N x y t Hx Hy Ht) as (Hi & Hv & Hr & Hc).
    split; [done|]. split; [|done]. rewrite (cols_cell N) by done. lia.
  - destruct (decode_index N x t y Hx Ht Hy) as (Hi & Hv & Hr & Hc).
    split; [done|]. split; [|done]. rewrite (cols_1 N). lia.
  - destruct (decode_index N t x y Ht Hx Hy) as (Hi & Hv & Hr & Hc).
    split; [done|]. split; [|done]. rewrite (cols_2 N). lia.
  - destruct (box_split_range x t Hx Ht) as [Hr' Hc'].
    destruct (box_split x t Hx Ht) as [Hb Hfree].
    destruct (decode_index N _ _ y Hr' Hc' Hy) as (Hi & Hv & Hr & Hc).
    split; [done|]. split.
    + rewrite (cols_3 N), (box_of_eq N) by done. rewrite Hr, Hc, Hv, Hb. lia.
    + rewrite Hr, Hc. done.
Qed.

Lemma free_of_spec k i :
  0 <= k < 4 -> 0 <= i < R ->
  0 <= free_of N k i < N /\
  exists x y, 0 <= x < N /\ 0 <= y < N /\ cols N i k = k * NN + x * N + y /\
    row_of N k x y (free_of N k i) = i.
Proof.
  intros Hk Hi.
  pose proof (row_range N i Hi) as Hr. pose proof (column_range N i (proj1 Hi)) as Hc.
  pose proof (candidate_range N i (proj1 Hi)) as Hv.
  pose proof (encode_index N i Hi) as Henc.
  assert (Hcases : k = 0 \/ k = 1 \/ k = 2 \/ k = 3) by lia.
  destruct Hcases as [-> | [-> | [-> | ->]]]; unfold row_of, free_of; simpl.
  - split; [done|]. exists (ecp_row N i), (ecp_column N i).
    rewrite (cols_cell N) by done. repeat split; lia.
  - split; [done|]. exists (ecp_row N i), (ecp_candidate N i).
    rewrite (cols_1 N). repeat split; lia.
  - split; [done|]. exists (ecp_column N i), (ecp_candidate N i).
    rewrite (cols_2 N). repeat split; lia.
  - destruct (box_join _ _ Hr Hc) as (Hb & Ht & Hjr & Hjc). cbv zeta in *.
    split; [done|]. exists (box_of N (ecp_row N i) (ecp_column N i)), (ecp_candidate N i).
    rewrite (cols_3 N), (box_of_eq N) by done. rewrite Hjr, Hjc.
    repeat split; lia.
Qed.

(** The three coordinates of a column index. *)
Lemma column_coordinates j :
  0 <= j < C ->
  let k := j `div` NN in let x := (j `mod` NN) `div` N in let y := (j `mod` NN) `mod` N in
  0 <= k < 4 /\ 0 <= x < N /\ 0 <= y < N /\ j = k * NN + x * N + y.
Proof.
  intros Hj k x y. rewrite (C_eq N) in Hj. assert (Hnn : 0 < NN) by nia.
  pose proof (Z.div_mod j NN ltac:(lia)) as H1.
  pose proof (Z.mod_pos_bound j NN Hnn) as H2.
  pose proof (Z.div_mod (j `mod` NN) N ltac:(lia)) as H3.
  pose proof (Z.mod_pos_bound (j `mod` NN) N N_pos) as H4.
  assert (0 <= k < 4).
  { unfold k. split; [apply Z.div_pos; lia|apply Z.div_lt_upper_bound; lia]. }
  assert (0 <= x < N).
  { unfold x. split; [apply Z.div_pos; lia|apply Z.div_lt_upper_bound; lia]. }
  unfold k, x, y in *. repeat split; try lia.
Qed.

Lemma coordinates_unique k x y k' x' y' :
  0 <= k -> 0 <= k' -> 0 <= x < N -> 0 <= x' < N -> 0 <= y < N -> 0 <= y' < N ->
  k * NN + x * N + y = k' * NN + x' * N + y' -> k = k' /\ x = x' /\ y = y'.
Proof.
  intros Hk Hk' Hx Hx' Hy Hy' Heq.
  assert (k = k').
  { destruct (Z.lt_trichotomy k k') as [Hlt|[E|Hgt]]; [|done|]; nia. }
  subst k'. assert (Heq' : x * N + y = x' * N + y') by lia.
  apply (pair_inj N) in Heq'; [|done|done]. tauto.
Qed.

Lemma elem_of_column_family j a :
  0 <= j < C -> a ∈ colnodes N j <-> a ∈ column_family N j.
Proof.
  intros Hj. destruct (column_coordinates j Hj) as (Hk & Hx & Hy & Hjeq). cbv zeta in *.
  unfold column_family. rewrite elem_of_colnodes, list_elem_of_fmap.
  set (k := j `div` NN) in *. set (x := (j `mod` NN) `div` N) in *.
  set (y := (j `mod` NN) `mod` N) in *. split.
  - intros [Hcol Ha]. pose proof (rowOf_range N a Ha) as Hi.
    pose proof (kOf_range N a) as Hka.
    destruct (free_of_spec (kOf N a) (rowOf N a) Hka Hi) as (Hfree & x0 & y0 & Hx0 & Hy0 & Hc0 & Hrow).
    unfold colOf in Hcol. rewrite Hc0, Hjeq in Hcol.
    apply coordinates_unique in Hcol as (Ek & Ex & Ey); try lia.
    exists (free_of N k (rowOf N a)). split.
    + rewrite <- Ek, <- Ex, <- Ey, Hrow. by rewrite nd_eta.
    + apply elem_of_seqZ. rewrite <- Ek. lia.
  - intros (t & -> & Ht). apply elem_of_seqZ in Ht.
    destruct (row_of_spec k x y t Hk Hx Hy ltac:(lia)) as (Hi & Hc & _).
    split; [|by apply nd_allnodes].
    rewrite colOf_nd by done. lia.
Qed.

Lemma NoDup_column_family j : 0 <= j < C -> NoDup (column_family N j).
Proof.
  intros Hj. destruct (column_coordinates j Hj) as (Hk & Hx & Hy & Hjeq). cbv zeta in *.
  unfold column_family. apply NoDup_fmap_2_strong; [|apply NoDup_seqZ].
  intros t t' Ht Ht' Heq. apply elem_of_seqZ in Ht, Ht'.
  apply nd_inj in Heq as [Heq _]; [|done|done].
  destruct (row_of_spec _ _ _ t Hk Hx Hy ltac:(lia)) as (_ & _ & Hf).
  destruct (row_of_spec _ _ _ t' Hk Hx Hy ltac:(lia)) as (_ & _ & Hf').
  cbv zeta in *. rewrite Heq in Hf. congruence.
Qed.

(** Every column holds [N] rows. *)
Theorem length_colnodes j : 0 <= j < C -> Z.of_nat (length (colnodes N j)) = N.
Proof.
  intros Hj.
  assert (Hperm : colnodes N j ≡ₚ column_family N j).
  { apply NoDup_Permutation.
    - apply NoDup_colnodes.
    - by apply NoDup_column_family.
    - intros a. by apply elem_of_column_family. }
  rewrite Hperm. unfold column_family. rewrite length_fmap, length_seqZ. lia.
Qed.

End CountingProof.

(** ** The number of committed clues *)

Section CluesCount.

Context (N : Z) {HN : GoodSize N}.
Let N_pos : 0 < N := size_pos.
Let N_square : Z.sqrt N * Z.sqrt N = N := size_square.

Local Abbreviation C := (COLUMNS N).
Local Abbreviation R := (ROWS N).
Local Abbreviation NN := (N * N).

Lemma Chosen_NoDup rws : Chosen N rws -> NoDup rws.
Proof.
  induction rws as [|a rws IH]; intros [Hnd Hrange Hnodes]; [apply NoDup_nil_2|].
  rewrite (Kof_cons N) in Hnd, Hrange.
  apply NoDup_app in Hnd as (_ & Hdisj & Hnd).
  apply NoDup_cons. split.
  - intros Hin. apply (Hdisj (colOf N a)).
    + rewrite elem_of_rev. unfold row_columns. set_solver.
    + apply (elem_of_Kof N). exists a. split; [done|]. unfold row_columns. set_solver.
  - apply IH. split; [done| |]; intros; [apply Hrange|apply Hnodes]; set_solver.
Qed.

Lemma Chosen_unique rws a a' k k' :
  Chosen N rws -> a ∈ rws -> a' ∈ rws -> 0 <= k < 4 -> 0 <= k' < 4 ->
  cols N (rowOf N a) k = cols N (rowOf N a') k' -> a = a'.
Proof.
  intros HC Ha Ha' Hk Hk' Heq.
  pose proof (chosen_nodes _ _ HC a Ha) as Haa.
  pose proof (chosen_nodes _ _ HC a' Ha') as Haa'.
  apply (NoDup_concat_unique (fun a => rev (row_columns N a)) rws (cols N (rowOf N a) k)).
  - apply (chosen_NoDup _ _ HC).
  - done.
  - done.
  - rewrite elem_of_rev. apply (elem_of_row_columns N); eauto.
  - rewrite elem_of_rev. apply (elem_of_row_columns N); eauto.
Qed.

Variable input : Z -> Z -> Z.

Local Abbreviation cells := ((fun a => cols N (rowOf N a) 0) <$> committed N input).
Local Abbreviation given :=
  (filter (fun q => is_given input (q `div` N) (q `mod` N) = true) (seqZ 0 NN)).

Lemma committed_Chosen : Chosen N (committed N input).
Proof. apply (Committed_Chosen N input NN), (Committed_preload N). nia. Qed.

Lemma NoDup_cells : NoDup cells.
Proof.
  pose proof committed_Chosen as HC.
  apply NoDup_fmap_2_strong; [|by apply Chosen_NoDup].
  intros a a' Ha Ha' Heq. apply (Chosen_unique _ a a' 0 0 HC); try done; lia.
Qed.

Lemma cells_given q : q ∈ cells -> q ∈ given.
Proof.
  intros Hq. apply list_elem_of_fmap in Hq as (a & -> & Ha).
  destruct (committed_clue N input a Ha) as (Haa & Hgiven & _).
  pose proof (rowOf_range N a Haa) as Hi.
  pose proof (row_range N _ Hi) as Hr. pose proof (column_range N _ (proj1 Hi)) as Hc.
  rewrite (cols_cell N) by done.
  destruct (divmod_pair N (ecp_row N (rowOf N a)) (ecp_column N (rowOf N a)) Hc) as [Hd Hm].
  apply list_elem_of_filter. rewrite Hd, Hm. split; [done|].
  apply elem_of_seqZ. nia.
Qed.

Lemma given_cells q : consistent N input -> q ∈ given -> q ∈ cells.
Proof.
  intros Hcons Hq. apply list_elem_of_filter in Hq as [Hgiven Hq].
  apply elem_of_seqZ in Hq.
  assert (Hr : 0 <= q `div` N < N).
  { split; [apply Z.div_pos; lia|apply Z.div_lt_upper_bound; lia]. }
  pose proof (Z.mod_pos_bound q N N_pos) as Hc.
  destruct (consistent_committed N input _ _ Hcons Hr Hc Hgiven) as (a & Ha & Hra & Hca & _).
  apply list_elem_of_fmap. exists a. split; [|done].
  pose proof (chosen_nodes _ _ committed_Chosen a Ha) as Haa.
  rewrite (cols_cell N) by (by apply rowOf_range).
  rewrite Hra, Hca. pose proof (Z.div_mod q N ltac:(lia)). lia.
Qed.

(** The preload commits at most one row for each clue, and one for every
    clue when no two clues conflict. *)
Theorem committed_clues :
  Z.of_nat (length (committed N input)) <= clues N input /\
  (consistent N input -> Z.of_nat (length (committed N input)) = clues N input).
Proof.
  unfold clues. split.
  - rewrite <- (length_fmap (fun a => cols N (rowOf N a) 0)).
    apply inj_le, submseteq_length, NoDup_submseteq; [apply NoDup_cells|apply cells_given].
  - intros Hcons. rewrite <- (length_fmap (fun a => cols N (rowOf N a) 0)). f_equal.
    apply Permutation_length, NoDup_Permutation.
    + apply NoDup_cells.
    + apply NoDup_filter, NoDup_seqZ.
    + intros q. split; [apply cells_given|by apply given_cells].
Qed.

Lemma open_cells_bounds :
  N * N - clues N input <= open_cells N input <= N * N /\
  (consistent N input -> open_cells N input = N * N - clues N input).
Proof.
  destruct committed_clues as [Hle Heq]. unfold open_cells. split; [lia|].
  intros Hcons. specialize (Heq Hcons). lia.
Qed.

End CluesCount.

(** * The properties of the solver *)

#[export] Instance GoodSize_4 : GoodSize 4.
Proof. split; [lia|reflexivity]. Qed.

#[export] Instance GoodSize_25 : GoodSize 25.
Proof. split; [lia|reflexivity]. Qed.

Lemma filter_fmap_ext {A B} (f : A -> B) (P : B -> Prop) (Q : A -> Prop)
    `{!forall y, Decision (P y)} `{!forall x, Decision (Q x)} (l : list A) :
  (forall x, x ∈ l -> P (f x) <-> Q x) -> filter P (f <$> l) = f <$> filter Q l.
Proof.
  induction l as [|x l IH]; intros HPQ; [done|].
  rewrite fmap_cons, !filter_cons.
  rewrite IH by (intros; apply HPQ; set_solver).
  destruct (decide (P (f x))) as [HP|HP], (decide (Q x)) as [HQ|HQ]; try done.
  - exfalso. apply HQ, HPQ; [set_solver|done].
  - exfalso. apply HP, HPQ; [set_solver|done].
Qed.

Section Claims.

Context (N : Z) {HN : GoodSize N}.
Let N_pos : 0 < N := size_pos.
Let N_square : Z.sqrt N * Z.sqrt N = N := size_square.

Local Abbreviation C := (COLUMNS N).
Local Abbreviation R := (ROWS N).
Local Abbreviation NN := (N * N).

(** The memory at which [sudokuSolver] calls [search]. *)
Lemma after_preload_eq input : after_preload N input = preloaded N input.
Proof.
  destruct (preloaded_spec N input (FUEL N) ltac:(lia)) as (Hrun & _).
  unfold after_preload. by rewrite Hrun.
Qed.

Lemma reachable_preloaded input : reachable N input (preloaded N input).
Proof.
  exists (FUEL N), (preloaded N input), []. split; [lia|]. split; [|apply descends_nil].
  by destruct (preloaded_spec N input (FUEL N) ltac:(lia)) as (Hrun & _).
Qed.

(** ** The structure that is built *)

Lemma vlist_nil j : vlist N (hidden N []) j = colnodes N j.
Proof.
  unfold vlist. apply filter_id_Forall. intros a _. apply (hidden_nil N).
Qed.

Lemma act_nil : act N [] = seqZ 0 C.
Proof. unfold act. apply filter_id_Forall. intros j _. set_solver. Qed.

Lemma ring_nodes_row K m i fuel :
  Inv N K m -> 0 <= i < R -> (3 <= fuel)%nat ->
  ring_nodes rightOf (nd N i 0) fuel (rightOf m (nd N i 0)) m =
    [nd N i 1; nd N i 2; nd N i 3].
Proof.
  intros HI Hi Hfuel.
  destruct fuel as [|[|[|fuel]]]; try lia.
  assert (Hne : forall k, 0 < k < 4 -> (nd N i k =? nd N i 0) = false).
  { intros k Hk. apply Z.eqb_neq. unfold nd. lia. }
  assert (H1 := rep_right _ _ _ _ HI i 0 Hi ltac:(lia)).
  assert (H2 := rep_right _ _ _ _ HI i 1 Hi ltac:(lia)).
  assert (H3 := rep_right _ _ _ _ HI i 2 Hi ltac:(lia)).
  assert (H4 := rep_right _ _ _ _ HI i 3 Hi ltac:(lia)).
  change ((0 + 1) `mod` 4) with 1 in H1. change ((1 + 1) `mod` 4) with 2 in H2.
  change ((2 + 1) `mod` 4) with 3 in H3. change ((3 + 1) `mod` 4) with 0 in H4.
  rewrite H1. simpl. rewrite H2, H3, H4, !Hne by lia.
  destruct fuel; simpl; by rewrite Z.eqb_refl.
Qed.

Lemma ECP_row_ones i :
  0 <= i < R ->
  filter (fun j => ECP_get (initializeExactCoverProblem N ∅) i j = true) (seqZ 0 C)
    ≡ₚ [cols N i 0; cols N i 1; cols N i 2; cols N i 3].
Proof.
  intros Hi. apply NoDup_Permutation.
  - apply NoDup_filter, NoDup_seqZ.
  - pose proof (cols_mono N i 0 1 Hi ltac:(lia) ltac:(lia) ltac:(lia)).
    pose proof (cols_mono N i 1 2 Hi ltac:(lia) ltac:(lia) ltac:(lia)).
    pose proof (cols_mono N i 2 3 Hi ltac:(lia) ltac:(lia) ltac:(lia)).
    repeat (apply NoDup_cons; split; [set_solver by lia|]). apply NoDup_nil_2.
  - intros j. rewrite list_elem_of_filter, (ECP_get_init N) by done.
    rewrite !elem_of_cons, elem_of_nil, elem_of_seqZ. split.
    + intros [(k & Hk & <-) _].
      assert (Hcases : k = 0 \/ k = 1 \/ k = 2 \/ k = 3) by lia.
      destruct Hcases as [-> | [-> | [-> | ->]]]; tauto.
    + intros Hj.
      assert (Hk : exists k, 0 <= k < 4 /\ cols N i k = j).
      { destruct Hj as [-> | [-> | [-> | [-> | []]]]]; eexists; (split; [|reflexivity]); lia. }
      split; [done|]. destruct Hk as (k & Hk & <-).
      pose proof (cols_range N i k Hi Hk). lia.
Qed.

(** C5: for every perfect square [N], the structure that is built holds
    exactly [4 * N * N] columns, each with size [N] and with [N] row nodes on
    its ring; the rows are the [N * N * N] rows of the exact cover problem,
    each with four ones and with four nodes that are linked in four distinct
    columns; every node of a column belongs to one of these rows. *)
Theorem build_counts :
  let m := built N in
  active_columns N m = hdr <$> seqZ 0 (4 * (N * N)) /\
  length (active_columns N m) = Z.to_nat (4 * (N * N)) /\
  (forall c, c ∈ active_columns N m ->
     sizeOf m c = N /\ Z.of_nat (length (column_rows N m c)) = N /\
     forall a, a ∈ column_rows N m c ->
       exists i k, 0 <= i < N * (N * N) /\ 0 <= k < 4 /\ a = nd N i k) /\
  (forall i, 0 <= i < N * (N * N) ->
     length (filter (fun j => ECP_get (initializeExactCoverProblem N ∅) i j = true)
                    (seqZ 0 (4 * (N * N)))) = 4%nat /\
     row_nodes N m (nd N i 0) = [nd N i 0; nd N i 1; nd N i 2; nd N i 3] /\
     columnOf m <$> row_nodes N m (nd N i 0) =
       hdr <$> [cols N i 0; cols N i 1; cols N i 2; cols N i 3] /\
     NoDup (columnOf m <$> row_nodes N m (nd N i 0)) /\
     forall k, 0 <= k < 4 ->
       columnOf m (nd N i k) ∈ active_columns N m /\
       nd N i k ∈ column_rows N m (columnOf m (nd N i k))).
Proof.
  intros m. destruct (built_Inv N) as [HI _]. fold m in HI.
  pose proof (C_eq N) as HC. pose proof (R_eq N) as HR.
  assert (Hact : active_columns N m = hdr <$> seqZ 0 (4 * NN)).
  { rewrite (active_columns_Inv N [] m HI), act_nil, HC. done. }
  assert (Hrows : forall j, 0 <= j < C -> column_rows N m (hdr j) = colnodes N j).
  { intros j Hj. by rewrite (column_rows_Inv N [] m j HI Hj), vlist_nil. }
  split; [done|]. split; [rewrite Hact, length_fmap, length_seqZ; lia|]. split.
  - intros c Hc. rewrite Hact in Hc. apply list_elem_of_fmap in Hc as (j & -> & Hj).
    apply elem_of_seqZ in Hj. rewrite <- HC in Hj.
    rewrite (rep_size _ _ _ _ HI j Hj), vlist_nil, (Hrows j Hj).
    split; [by apply length_colnodes|]. split; [by apply length_colnodes|].
    intros a Ha. apply elem_of_colnodes in Ha as [_ Ha].
    exists (rowOf N a), (kOf N a). rewrite <- HR.
    split; [by apply rowOf_range|]. split; [apply kOf_range|]. by rewrite nd_eta.
  - intros i Hi. rewrite <- HR in Hi. rewrite <- HC.
    assert (Hnodes : row_nodes N m (nd N i 0) = [nd N i 0; nd N i 1; nd N i 2; nd N i 3]).
    { unfold row_nodes. f_equal. apply (ring_nodes_row [] m i _ HI Hi).
      unfold FUEL. lia. }
    assert (Hcols : columnOf m <$> row_nodes N m (nd N i 0) =
                    hdr <$> [cols N i 0; cols N i 1; cols N i 2; cols N i 3]).
    { rewrite Hnodes. simpl.
      by rewrite !(rep_column _ _ _ _ HI i) by (done || lia). }
    split; [by rewrite (ECP_row_ones i Hi)|]. split; [done|]. split; [done|]. split.
    + rewrite Hcols. apply NoDup_fmap_2; [apply _|].
      pose proof (cols_mono N i 0 1 Hi ltac:(lia) ltac:(lia) ltac:(lia)).
      pose proof (cols_mono N i 1 2 Hi ltac:(lia) ltac:(lia) ltac:(lia)).
      pose proof (cols_mono N i 2 3 Hi ltac:(lia) ltac:(lia) ltac:(lia)).
      repeat (apply NoDup_cons; split; [set_solver by lia|]). apply NoDup_nil_2.
    + intros k Hk. rewrite (rep_column _ _ _ _ HI i k Hi Hk).
      pose proof (cols_range N i k Hi Hk) as Hj. split.
      * rewrite Hact, <- HC. apply list_elem_of_fmap_2, elem_of_seqZ. lia.
      * rewrite (Hrows _ Hj). apply elem_of_colnodes. split.
        -- by apply colOf_nd.
        -- by apply nd_allnodes.
Qed.

(** ** The indexer *)

(** C6: the candidate "cell (r, c) holds v" has the index
    [v + N * c + N * N * r]: the indexer reads [v], [r], [c] and the box
    [(r / sqrt N) * sqrt N + c / sqrt N] back from it, and the row of the
    exact cover problem with that index holds a one in exactly the columns
    [r * N + c], [N * N + r * N + v], [2 * N * N + c * N + v] and
    [3 * N * N + b * N + v]. *)
Theorem indexer_columns r c v :
  0 <= r < N -> 0 <= c < N -> 0 <= v < N ->
  let i := v + N * c + N * N * r in
  let b := (r `div` Z.sqrt N) * Z.sqrt N + c `div` Z.sqrt N in
  0 <= i < N * N * N /\
  ecp_candidate N i = v /\ ecp_row N i = r /\ ecp_column N i = c /\ ecp_box N i = b /\
  forall j,
    ECP_get (initializeExactCoverProblem N ∅) i j = true <->
    j = r * N + c \/ j = N * N + r * N + v \/
    j = 2 * (N * N) + c * N + v \/ j = 3 * (N * N) + b * N + v.
Proof.
  intros Hr Hc Hv i b.
  destruct (decode_index N r c v Hr Hc Hv) as (Hi & Hcand & Hrow & Hcol). fold i in Hi, Hcand, Hrow, Hcol.
  assert (Hbox : ecp_box N i = b).
  { rewrite (box_eq N) by done. by rewrite Hrow, Hcol. }
  pose proof (R_eq N) as HR.
  split; [lia|]. split; [done|]. split; [done|]. split; [done|]. split; [done|].
  intros j. rewrite (ECP_get_init N) by done.
  pose proof (cols_cell N i Hi) as H0. pose proof (cols_1 N i) as H1.
  pose proof (cols_2 N i) as H2. pose proof (cols_3 N i) as H3.
  rewrite Hrow, Hcol in H0. rewrite Hrow, Hcand in H1. rewrite Hcol, Hcand in H2.
  rewrite Hbox, Hcand in H3. split.
  - intros (k & Hk & <-).
    assert (Hcases : k = 0 \/ k = 1 \/ k = 2 \/ k = 3) by lia.
    destruct Hcases as [-> | [-> | [-> | ->]]]; lia.
  - intros [-> | [-> | [-> | ->]]]; [exists 0|exists 1|exists 2|exists 3]; split; lia.
Qed.

(** ** The heuristic *)

(** C9: in every state of the search that has an active column, the column
    that [search] selects is on the ring of active columns; the columns
    before it on the ring are strictly larger and the columns after it are
    not smaller; the size of an active column is the number of rows on its
    ring, and the ring lists the active columns in the order in which the
    columns were created. *)
Theorem smallest_column_first input m fuel :
  reachable N input m -> (FUEL N <= fuel)%nat -> active_columns N m <> [] ->
  exists before c after,
    active_columns N m = before ++ c :: after /\
    smallestColumn fuel m (rightOf m (headNode m)) (rightOf m (rightOf m (headNode m)))
      = Some c /\
    (forall c', c' ∈ before -> sizeOf m c < sizeOf m c') /\
    (forall c', c' ∈ after -> sizeOf m c <= sizeOf m c') /\
    (forall c', c' ∈ active_columns N m ->
       sizeOf m c' = Z.of_nat (length (column_rows N m c'))) /\
    active_columns N m =
      filter (fun c' => c' ∈ active_columns N m) (hdr <$> seqZ 0 (COLUMNS N)).
Proof.
  intros Hreach Hfuel Hne.
  destruct (reachable_Inv N input m Hreach) as (rws & HI & _).
  set (K := Kof N rws) in *.
  pose proof (active_columns_Inv N K m HI) as Hact. rewrite Hact in Hne |- *.
  destruct (act N K) as [|j0 rest] eqn:HactK; [done|].
  pose proof (smallestColumn_Inv N K m j0 rest fuel HI HactK Hfuel) as Hsm.
  destruct (first_min_split (fun j => sizeOf m (hdr j)) j0 rest) as (l1 & l2 & Hsplit & Hl1 & Hl2).
  exists (hdr <$> l1), (hdr (first_min (fun j => sizeOf m (hdr j)) j0 rest)), (hdr <$> l2).
  split; [by rewrite Hsplit, fmap_app|]. split; [done|]. split; [|split; [|split]].
  - intros c' Hc'. apply list_elem_of_fmap in Hc' as (j & -> & Hj). by apply Hl1.
  - intros c' Hc'. apply list_elem_of_fmap in Hc' as (j & -> & Hj). by apply Hl2.
  - intros c' Hc'. apply list_elem_of_fmap in Hc' as (j & -> & Hj).
    rewrite <- HactK in Hj. apply elem_of_act in Hj as [Hj _].
    rewrite (column_rows_Inv N K m j HI Hj). apply (rep_size _ _ _ _ HI j Hj).
  - rewrite <- HactK. unfold act at 1. symmetry. apply filter_fmap_ext.
    intros j Hj. apply elem_of_seqZ in Hj. split.
    + intros Hin. apply list_elem_of_fmap in Hin as (j' & Heq & Hj').
      apply hdr_inj in Heq as <-. by apply elem_of_act in Hj' as [_ ?].
    + intros HjK. apply list_elem_of_fmap_2, elem_of_act. split; [lia|done].
Qed.

(** ** Covering and uncovering *)

(** C2: in every state of the search and for every candidate row of that
    state, [cover(row)] followed by [uncover(row)] gives back the memory as
    it was: the same ring of active columns, the same size in every column
    and the same links in every node. *)
Theorem cover_uncover_row input m r fuel :
  reachable N input m -> candidate N m r = true -> (FUEL N <= fuel)%nat ->
  exists m', cover_row fuel r m = Some m' /\ uncover_row fuel r m' = Some m.
Proof.
  intros Hreach Hcand Hfuel.
  destruct (reachable_Inv N input m Hreach) as (rws & HI & HC).
  apply (candidate_Inv N _ m r HI) in Hcand as (j & Hj & HjK & Hr).
  destruct (cover_row_Inv N rws m j r fuel HI HC Hfuel Hj HjK Hr) as (Hcov & Hunc & _).
  eauto.
Qed.

(** ** The search *)

(** C10: when [search] returns [true] (no solution below), the memory is
    the memory at which it was called: every link and size of the structure
    and [CURRENT_SOLUTION] are as they were. *)
Theorem search_failure_restores input m depth fuel m' :
  reachable N input m -> (FUEL N <= fuel)%nat ->
  search N depth fuel m = Some (true, m') -> m' = m.
Proof.
  intros Hreach Hfuel Hrun.
  destruct (reachable_Inv N input m Hreach) as (rws & HI & HC).
  pose proof (search_spec N depth fuel rws m Hfuel HI HC) as Hpost.
  rewrite Hrun in Hpost. done.
Qed.

Lemma active_columns_same_heap m m' :
  heap m' = heap m -> headNode m' = headNode m -> active_columns N m' = active_columns N m.
Proof.
  intros Hheap Hhead. unfold active_columns. rewrite Hhead.
  assert (Hr : forall a, rightOf m' a = rightOf m a).
  { intros a. unfold rightOf, node. by rewrite Hheap. }
  rewrite Hr. generalize (rightOf m (headNode m)) as p. generalize (FUEL N) as fuel.
  induction fuel as [|fuel IH]; intros p; simpl; [done|].
  destruct (p =? headNode m); [done|]. by rewrite Hr, IH.
Qed.

(** C8: when [search] returns [false] (solved), the memory that it leaves
    is the memory [leaf] of the call that found the ring of active columns
    empty, with the solution recorded and printed: [leaf] is reached from
    the memory at the call by choosing rows only, so no column was uncovered
    after the solution was found, every column is covered, and the rows
    chosen on the way are on [CURRENT_SOLUTION]. *)
Theorem search_solved_keeps_cover input m depth fuel m' :
  reachable N input m -> (FUEL N <= fuel)%nat ->
  search N depth fuel m = Some (false, m') ->
  exists rows leaf,
    descends N m rows leaf /\ reachable N input leaf /\
    active_columns N leaf = [] /\
    m' = answer N leaf /\ heap m' = heap leaf /\
    active_columns N m' = [] /\
    CURRENT_SOLUTION m' = CURRENT_SOLUTION m ++ rows.
Proof.
  intros Hreach Hfuel Hrun.
  destruct (reachable_Inv N input m Hreach) as (rws & HI & HC).
  pose proof (search_spec N depth fuel rws m Hfuel HI HC) as Hpost.
  rewrite Hrun in Hpost. destruct Hpost as (new & leaf & -> & HS).
  destruct HS as [HIl HCl Hcov Hdesc Hcur Hsol Hout].
  assert (Hact : active_columns N leaf = []).
  { by rewrite (active_columns_Inv N _ leaf HIl), Hcov. }
  exists (rev new), leaf. split; [done|]. split; [|split; [done|]].
  - destruct Hreach as (fuel0 & m0 & l0 & Hfuel0 & Hrun0 & Hdesc0).
    exists fuel0, m0, (l0 ++ rev new). split; [done|]. split; [done|].
    clear -Hdesc Hdesc0. induction Hdesc0 as [m|f m r m1 l leaf0 Hf Hc Hr Hd IH]; [done|].
    simpl. eapply descends_cons; eauto.
  - split; [done|]. split; [done|]. split; [|done].
    by rewrite (active_columns_same_heap leaf (answer N leaf)).
Qed.

(** ** The preload *)

(** C7: on every grid the preload runs to its end and prints nothing.  The
    loop over the rows of the column of a cell takes the memory before the
    cell to the memory after it; when the row of the value that the grid
    gives for the cell is not linked in that column (an earlier clue has
    unlinked it, or the cell holds no value of the grid), the memory after
    the cell is the memory before it: no column is covered for the cell and
    the preload goes on. *)
Theorem preload_skips_unmatched input fuel :
  (FUEL N <= fuel)%nat ->
  exists m,
    updateDoublyLinkedList N fuel input (built N) = Some m /\ stdout m = [] /\
    forall r c, 0 <= r < N -> 0 <= c < N ->
      let q := r * N + c in
      let before := (preload_state N input (built N) q).2 in
      let after := (preload_state N input (built N) (q + 1)).2 in
      update_outer N fuel input (hdr q) before = Some after /\
      (nd N (input r c + N * c + N * N * r) 0 ∉ column_rows N before (hdr q) ->
       after = before).
Proof.
  intros Hfuel.
  destruct (preloaded_spec N input fuel Hfuel) as (Hrun & _ & _ & _ & _ & Hout).
  exists (preloaded N input). split; [done|]. split; [done|].
  intros r c Hr Hc q before after.
  assert (Hq : 0 <= q < NN) by (unfold q; nia).
  destruct (built_Inv N) as [HI0 _].
  pose proof (preload_state_Inv N input (built N) HI0 q ltac:(lia)) as HI.
  destruct (phase1_step N input (built N) q fuel Hq HI Hfuel) as (Hstep & _).
  split; [done|]. intros Hdead.
  unfold after. rewrite (preload_state_snoc N) by lia. unfold preload_mem_step.
  destruct (clue_node N input _ q) as [a|] eqn:Hnode; [|done].
  exfalso. apply Hdead.
  apply (clue_node_Some N) in Hnode as [Ha Hclue].
  pose proof (C_eq N) as HC.
  fold before in Ha, HI. rewrite (column_rows_Inv N _ before q HI ltac:(lia)).
  pose proof Ha as Ha'. apply elem_of_vlist in Ha' as (_ & Hcol & Haa).
  pose proof (rowOf_range N a Haa) as Hi.
  assert (Hk : kOf N a = 0) by (apply (cell_kOf N); [done|lia]).
  unfold colOf in Hcol. rewrite Hk, (cols_cell N) in Hcol by done.
  apply (pair_inj N) in Hcol as [Hra Hca]; [|apply (column_range N); lia|done].
  unfold is_clue in Hclue. apply Z.eqb_eq in Hclue. rewrite Hra, Hca in Hclue.
  pose proof (encode_index N _ Hi) as Henc. rewrite Hra, Hca, Hclue in Henc.
  rewrite <- Henc, <- Hk, nd_eta. done.
Qed.

(** ** The outcome of a run *)

Lemma stdout_no_solution input :
  stdout (print PrintNoSolution (preloaded N input)) = [PrintNoSolution].
Proof.
  destruct (preloaded_spec N input (FUEL N) ltac:(lia)) as (_ & _ & _ & _ & _ & Hout).
  simpl. by rewrite Hout.
Qed.

(** The grid that a run prints. *)
Lemma printed_grid input new leaf :
  Solved_from N (committed N input) (preloaded N input) new leaf ->
  let g := grid_rows N (SUDOKU_SOLUTION (initial_memory N)) (new ++ committed N input) in
  valid_grid N g /\
  (forall a, a ∈ committed N input ->
     cell N g (ecp_row N (rowOf N a)) (ecp_column N (rowOf N a)) =
       Some (input (ecp_row N (rowOf N a)) (ecp_column N (rowOf N a)))) /\
  (consistent N input -> preserves N input g).
Proof.
  intros HS g. destruct HS as [HIl HCl Hcov _ _ _ _].
  pose proof (length_initial_solution N) as Hlen.
  assert (Hcom : forall a, a ∈ committed N input ->
     cell N g (ecp_row N (rowOf N a)) (ecp_column N (rowOf N a)) =
       Some (input (ecp_row N (rowOf N a)) (ecp_column N (rowOf N a)))).
  { intros a Ha. destruct (committed_clue N input a Ha) as (_ & _ & ->).
    apply (cell_of_row N _ HCl _ Hlen). apply elem_of_app. by right. }
  split; [by apply (cover_valid_grid N _ HCl Hcov)|]. split; [done|].
  intros Hcons r c Hr Hc Hgiven.
  destruct (consistent_committed N input r c Hcons Hr Hc Hgiven) as (a & Ha & <- & <- & _).
  by apply Hcom.
Qed.

(** When a run prints a grid, the grid is filled with values from [0] to
    [N - 1], every value occurs exactly once in every row, column and box,
    and the grid holds every clue that the preload committed; these are all
    the clues when the input holds values from [-1] to [N - 1] and no two
    clues conflict. *)
Theorem solved_grid_valid input depth fuel m g :
  (FUEL N <= fuel)%nat ->
  sudokuSolver N depth fuel input = Some m -> stdout m = [PrintGrid g] ->
  valid_grid N g /\ SUDOKU_SOLUTION m = g /\
  (forall a, a ∈ committed N input ->
     cell N g (ecp_row N (rowOf N a)) (ecp_column N (rowOf N a)) =
       Some (input (ecp_row N (rowOf N a)) (ecp_column N (rowOf N a)))) /\
  (consistent N input -> preserves N input g).
Proof.
  intros Hfuel Hrun Hprint.
  pose proof (sudokuSolver_spec N input depth fuel Hfuel) as Hspec.
  rewrite Hrun in Hspec. destruct Hspec as [->|(new & leaf & _ & HS & Hsol & Hout)].
  - by rewrite stdout_no_solution in Hprint.
  - rewrite Hout in Hprint. injection Hprint as Hg. rewrite Hsol in Hg. subst g.
    destruct (printed_grid input new leaf HS) as (Hvalid & Hcom & Hcons).
    done.
Qed.

(** A valid grid cannot hold two clues that conflict. *)
Lemma valid_not_preserves input g :
  contradictory N input -> valid_grid N g -> ~ preserves N input g.
Proof.
  intros (r & c & r' & c' & Hr & Hc & Hr' & Hc' & Hne & Heq & Hgiven & Hsame) Hvalid Hpres.
  assert (Hg : is_given input r c = true).
  { unfold is_given. by apply negb_true_iff, Z.eqb_neq. }
  assert (Hg' : is_given input r' c' = true).
  { unfold is_given. apply negb_true_iff, Z.eqb_neq. congruence. }
  pose proof (Hpres r c Hr Hc Hg) as Hcell.
  pose proof (Hpres r' c' Hr' Hc' Hg') as Hcell'. rewrite <- Heq in Hcell'.
  destruct (valid_filled _ _ Hvalid r c Hr Hc) as (v & Hv & Hvr).
  assert (v = input r c) by congruence. subst v.
  apply Hne. destruct Hsame as [<- | [<- | Hbox]].
  - destruct (valid_rows _ _ Hvalid r _ Hr Hvr) as (c0 & _ & _ & Huniq).
    rewrite (Huniq c Hc Hcell), (Huniq c' Hc' Hcell'). done.
  - destruct (valid_columns _ _ Hvalid c _ Hc Hvr) as (r0 & _ & _ & Huniq).
    rewrite (Huniq r Hr Hcell), (Huniq r' Hr' Hcell'). done.
  - pose proof (box_of_range N r c Hr Hc) as Hb. fold (box_of N r c) in Hb.
    destruct (valid_boxes _ _ Hvalid _ _ Hb Hvr) as (r0 & c0 & _ & _ & _ & _ & Huniq).
    destruct (Huniq r c Hr Hc eq_refl Hcell) as [-> ->].
    destruct (Huniq r' c' Hr' Hc' (eq_sym Hbox) Hcell') as [-> ->]. done.
Qed.

(** A run on a grid in which two clues conflict ends.  If it prints a
    grid, the grid is valid and holds the clues that the preload committed,
    and so not every clue of the input. *)
Theorem contradictory_grid_outcome input depth fuel :
  (FUEL N <= fuel)%nat -> N * N < Z.of_nat depth -> contradictory N input ->
  exists m, sudokuSolver N depth fuel input = Some m /\
    (stdout m = [PrintNoSolution] \/
     exists g, stdout m = [PrintGrid g] /\ valid_grid N g /\ ~ preserves N input g /\
       forall a, a ∈ committed N input ->
         cell N g (ecp_row N (rowOf N a)) (ecp_column N (rowOf N a)) =
           Some (input (ecp_row N (rowOf N a)) (ecp_column N (rowOf N a)))).
Proof.
  intros Hfuel Hdepth Hcontra.
  pose proof (sudokuSolver_spec N input depth fuel Hfuel) as Hspec.
  destruct (sudokuSolver N depth fuel input) as [m|].
  - exists m. split; [done|].
    destruct Hspec as [->|(new & leaf & _ & HS & Hsol & Hout)].
    + left. apply stdout_no_solution.
    + right. exists (SUDOKU_SOLUTION m). split; [done|]. rewrite Hsol.
      destruct (printed_grid input new leaf HS) as (Hvalid & Hcom & _).
      split; [done|]. split; [by apply valid_not_preserves|done].
  - destruct (open_cells_bounds N input) as [Hb _]. lia.
Qed.

(** On every grid the search ends, in a solution or with every branch
    exhausted, and it does not nest more calls than there are cells that the
    preload left open, plus the call that finds the structure empty.  The
    open cells are the cells without a committed clue: at least [N * N]
    minus the number of clues, and exactly that many when the input holds
    values from [-1] to [N - 1] and no two clues conflict. *)
Theorem search_terminates input fuel :
  (FUEL N <= fuel)%nat ->
  (exists res,
     search N (S (Z.to_nat (open_cells N input))) fuel (preloaded N input) = Some res) /\
  (exists m,
     sudokuSolver N (S (Z.to_nat (open_cells N input))) fuel input = Some m /\
     (stdout m = [PrintNoSolution] \/ exists g, stdout m = [PrintGrid g])) /\
  N * N - clues N input <= open_cells N input <= N * N /\
  (consistent N input -> open_cells N input = N * N - clues N input).
Proof.
  intros Hfuel.
  destruct (open_cells_bounds N input) as [Hb Hcons].
  destruct (preloaded_spec N input fuel Hfuel) as (Hrun & HI & HCom & _).
  pose proof (Committed_Chosen N _ _ _ HCom) as HC.
  assert (Hopen : 0 <= open_cells N input).
  { pose proof (open_cells_act N input). lia. }
  split; [|split; [|done]].
  - pose proof (search_spec N (S (Z.to_nat (open_cells N input))) fuel _ _ Hfuel HI HC) as Hpost.
    destruct (search N _ fuel (preloaded N input)) as [res|]; [eauto|].
    simpl in Hpost. pose proof (open_cells_act N input). lia.
  - pose proof (sudokuSolver_spec N input (S (Z.to_nat (open_cells N input))) fuel Hfuel)
      as Hspec.
    destruct (sudokuSolver N _ fuel input) as [m|]; [|lia].
    exists m. split; [done|].
    destruct Hspec as [->|(new & leaf & _ & _ & _ & Hout)].
    + left. apply stdout_no_solution.
    + right. eauto.
Qed.

End Claims.

(** * Runs on grids of side 4, and the program's side 25 *)

(** The preload of the program reaches the memory [after_preload]. *)
Lemma reachable_two_clues : reachable 4 grid_two_clues (after_preload 4 grid_two_clues).
Proof.
  exists (FUEL 4), (after_preload 4 grid_two_clues), [].
  split; [lia|]. split; [vm_compute; reflexivity|apply descends_nil].
Defined.

Lemma reachable_stuck : reachable 4 grid_stuck (after_preload 4 grid_stuck).
Proof.
  exists (FUEL 4), (after_preload 4 grid_stuck), [].
  split; [lia|]. split; [vm_compute; reflexivity|apply descends_nil].
Defined.

Lemma contradictory_two_zeros : contradictory 4 grid_two_zeros.
Proof.
  exists 0, 0, 0, 1. repeat split; try lia; discriminate.
Defined.

(** The grid with the value 0 twice in its first row is solved, and the
    second 0 is replaced by 1. *)
Lemma two_zeros_run :
  sudokuSolver 4 17 (FUEL 4) grid_two_zeros = Some (run 4 17 grid_two_zeros) /\
  stdout (run 4 17 grid_two_zeros) =
    [PrintGrid [0; 1; 2; 3; 2; 3; 0; 1; 1; 0; 3; 2; 3; 2; 1; 0]].
Proof. split; vm_compute; reflexivity. Qed.

(** C1: a grid that is printed is to hold every clue of the input.  The
    program does not do this on [grid_two_zeros], whose first row gives 0
    in its first two cells: the run prints a grid, and the grid holds 1
    in the second cell of the first row; it does not hold every clue of
    the input. *)
Lemma two_zeros_clue_lost :
  sudokuSolver 4 17 (FUEL 4) grid_two_zeros = Some (run 4 17 grid_two_zeros) /\
  stdout (run 4 17 grid_two_zeros) =
    [PrintGrid [0; 1; 2; 3; 2; 3; 0; 1; 1; 0; 3; 2; 3; 2; 1; 0]] /\
  is_given grid_two_zeros 0 1 = true /\ grid_two_zeros 0 1 = 0 /\
  cell 4 [0; 1; 2; 3; 2; 3; 0; 1; 1; 0; 3; 2; 3; 2; 1; 0] 0 1 = Some 1 /\
  ~ preserves 4 grid_two_zeros [0; 1; 2; 3; 2; 3; 0; 1; 1; 0; 3; 2; 3; 2; 1; 0].
Proof.
  destruct two_zeros_run as [Hrun Hout].
  split; [exact Hrun|]. split; [exact Hout|].
  split; [reflexivity|]. split; [reflexivity|]. split; [reflexivity|].
  intros Hpres. specialize (Hpres 0 1 ltac:(lia) ltac:(lia) eq_refl). discriminate Hpres.
Qed.

(** C3: on a grid in which two clues conflict the program is to print
    that there is no solution, and no grid.  It does not do this on
    [grid_two_zeros], whose first row gives 0 twice: the run ends and
    prints a grid. *)
Lemma two_zeros_solved :
  contradictory 4 grid_two_zeros /\
  sudokuSolver 4 17 (FUEL 4) grid_two_zeros = Some (run 4 17 grid_two_zeros) /\
  stdout (run 4 17 grid_two_zeros) =
    [PrintGrid [0; 1; 2; 3; 2; 3; 0; 1; 1; 0; 3; 2; 3; 2; 1; 0]] /\
  stdout (run 4 17 grid_two_zeros) <> [PrintNoSolution].
Proof.
  destruct two_zeros_run as [Hrun Hout].
  split; [apply contradictory_two_zeros|]. split; [exact Hrun|]. split; [exact Hout|].
  intros Hno. rewrite Hout in Hno. discriminate Hno.
Qed.

(** On [grid_two_zeros], whose two clues conflict, the preload skips the
    second clue and leaves its cell open: the search does not end within
    [4 * 4 - 2] calls that choose a row and the call that finds the
    structure empty; it ends with one call more. *)
Lemma two_zeros_depth :
  clues 4 grid_two_zeros = 2 /\
  search 4 (S (Z.to_nat (4 * 4 - clues 4 grid_two_zeros))) (FUEL 4)
    (after_preload 4 grid_two_zeros) = None /\
  search 4 (S (S (Z.to_nat (4 * 4 - clues 4 grid_two_zeros)))) (FUEL 4)
    (after_preload 4 grid_two_zeros) = Some (false, run 4 17 grid_two_zeros).
Proof. split; [|split]; vm_compute; reflexivity. Qed.

(** ** The theorems at concrete inputs *)

Lemma solved_grid_valid_two_clues :
  (FUEL 4 <= FUEL 4)%nat /\
  sudokuSolver 4 17 (FUEL 4) grid_two_clues = Some (run 4 17 grid_two_clues) /\
  stdout (run 4 17 grid_two_clues) =
    [PrintGrid [0; 1; 2; 3; 2; 3; 0; 1; 1; 0; 3; 2; 3; 2; 1; 0]] /\
  valid_grid 4 [0; 1; 2; 3; 2; 3; 0; 1; 1; 0; 3; 2; 3; 2; 1; 0] /\
  (consistent 4 grid_two_clues ->
   preserves 4 grid_two_clues [0; 1; 2; 3; 2; 3; 0; 1; 1; 0; 3; 2; 3; 2; 1; 0]).
Proof.
  assert (H1 : (FUEL 4 <= FUEL 4)%nat) by lia.
  assert (H2 : sudokuSolver 4 17 (FUEL 4) grid_two_clues = Some (run 4 17 grid_two_clues))
    by (vm_compute; reflexivity).
  assert (H3 : stdout (run 4 17 grid_two_clues) =
    [PrintGrid [0; 1; 2; 3; 2; 3; 0; 1; 1; 0; 3; 2; 3; 2; 1; 0]])
    by (vm_compute; reflexivity).
  destruct (solved_grid_valid 4 grid_two_clues 17 (FUEL 4) _ _ H1 H2 H3)
    as (Hvalid & _ & _ & Hpres).
  split; [exact H1|]. split; [exact H2|]. split; [exact H3|]. split; [exact Hvalid|exact Hpres].
Defined.

Lemma cover_uncover_row_two_clues :
  reachable 4 grid_two_clues (after_preload 4 grid_two_clues) /\
  candidate 4 (after_preload 4 grid_two_clues) 106 = true /\
  (FUEL 4 <= FUEL 4)%nat /\
  exists m', cover_row (FUEL 4) 106 (after_preload 4 grid_two_clues) = Some m' /\
    uncover_row (FUEL 4) 106 m' = Some (after_preload 4 grid_two_clues).
Proof.
  assert (H1 : candidate 4 (after_preload 4 grid_two_clues) 106 = true)
    by (vm_compute; reflexivity).
  assert (H2 : (FUEL 4 <= FUEL 4)%nat) by lia.
  exact (conj reachable_two_clues (conj H1 (conj H2
    (cover_uncover_row 4 grid_two_clues _ 106 (FUEL 4) reachable_two_clues H1 H2)))).
Defined.

Lemma contradictory_grid_outcome_two_zeros :
  (FUEL 4 <= FUEL 4)%nat /\ 4 * 4 < Z.of_nat 17 /\ contradictory 4 grid_two_zeros /\
  exists m, sudokuSolver 4 17 (FUEL 4) grid_two_zeros = Some m /\
    (stdout m = [PrintNoSolution] \/
     exists g, stdout m = [PrintGrid g] /\ valid_grid 4 g /\
       ~ preserves 4 grid_two_zeros g /\
       forall a, a ∈ committed 4 grid_two_zeros ->
         cell 4 g (ecp_row 4 (rowOf 4 a)) (ecp_column 4 (rowOf 4 a)) =
           Some (grid_two_zeros (ecp_row 4 (rowOf 4 a)) (ecp_column 4 (rowOf 4 a)))).
Proof.
  assert (H1 : (FUEL 4 <= FUEL 4)%nat) by lia.
  assert (H2 : 4 * 4 < Z.of_nat 17) by lia.
  exact (conj H1 (conj H2 (conj contradictory_two_zeros
    (contradictory_grid_outcome 4 grid_two_zeros 17 (FUEL 4) H1 H2 contradictory_two_zeros)))).
Defined.

Lemma search_terminates_two_zeros :
  (FUEL 4 <= FUEL 4)%nat /\
  (exists res,
     search 4 (S (Z.to_nat (open_cells 4 grid_two_zeros))) (FUEL 4)
       (preloaded 4 grid_two_zeros) = Some res) /\
  4 * 4 - clues 4 grid_two_zeros <= open_cells 4 grid_two_zeros <= 4 * 4.
Proof.
  assert (H1 : (FUEL 4 <= FUEL 4)%nat) by lia.
  pose proof (search_terminates 4 grid_two_zeros (FUEL 4) H1) as (Hres & _ & Hb & _).
  exact (conj H1 (conj Hres Hb)).
Defined.

Lemma build_counts_25 :
  GoodSize 25 /\
  active_columns 25 (built 25) = hdr <$> seqZ 0 (4 * (25 * 25)) /\
  length (active_columns 25 (built 25)) = Z.to_nat (4 * (25 * 25)) /\
  forall c, c ∈ active_columns 25 (built 25) ->
    sizeOf (built 25) c = 25 /\ Z.of_nat (length (column_rows 25 (built 25) c)) = 25.
Proof.
  pose proof (@build_counts 25 GoodSize_25) as H. cbv zeta in H.
  destruct H as (H1 & H2 & H3 & _).
  split; [exact GoodSize_25|]. split; [exact H1|]. split; [exact H2|].
  intros c Hc. destruct (H3 c Hc) as (Hs & Hl & _). exact (conj Hs Hl).
Defined.

Lemma indexer_columns_25 :
  0 <= 1 < 25 /\ 0 <= 2 < 25 /\ 0 <= 3 < 25 /\
  ecp_candidate 25 (3 + 25 * 2 + 25 * 25 * 1) = 3 /\
  ecp_row 25 (3 + 25 * 2 + 25 * 25 * 1) = 1 /\
  ecp_column 25 (3 + 25 * 2 + 25 * 25 * 1) = 2 /\
  ecp_box 25 (3 + 25 * 2 + 25 * 25 * 1) = 1 `div` Z.sqrt 25 * Z.sqrt 25 + 2 `div` Z.sqrt 25.
Proof.
  assert (H1 : 0 <= 1 < 25) by lia. assert (H2 : 0 <= 2 < 25) by lia.
  assert (H3 : 0 <= 3 < 25) by lia.
  pose proof (@indexer_columns 25 GoodSize_25 1 2 3 H1 H2 H3) as H. cbv zeta in H.
  destruct H as (_ & Hv & Hr & Hc & Hb & _).
  exact (conj H1 (conj H2 (conj H3 (conj Hv (conj Hr (conj Hc Hb)))))).
Defined.

Lemma preload_skips_unmatched_two_zeros :
  (FUEL 4 <= FUEL 4)%nat /\
  exists m,
    updateDoublyLinkedList 4 (FUEL 4) grid_two_zeros (built 4) = Some m /\ stdout m = [].
Proof.
  assert (H1 : (FUEL 4 <= FUEL 4)%nat) by lia.
  destruct (preload_skips_unmatched 4 grid_two_zeros (FUEL 4) H1) as (m & Hrun & Hout & _).
  exact (conj H1 (ex_intro _ m (conj Hrun Hout))).
Defined.

Lemma search_solved_keeps_cover_two_clues :
  reachable 4 grid_two_clues (after_preload 4 grid_two_clues) /\
  (FUEL 4 <= FUEL 4)%nat /\
  search 4 17 (FUEL 4) (after_preload 4 grid_two_clues) =
    Some (false, run 4 17 grid_two_clues) /\
  exists rows leaf,
    descends 4 (after_preload 4 grid_two_clues) rows leaf /\
    active_columns 4 leaf = [] /\ run 4 17 grid_two_clues = answer 4 leaf.
Proof.
  assert (H1 : (FUEL 4 <= FUEL 4)%nat) by lia.
  assert (H2 : search 4 17 (FUEL 4) (after_preload 4 grid_two_clues) =
                 Some (false, run 4 17 grid_two_clues)) by (vm_compute; reflexivity).
  destruct (search_solved_keeps_cover 4 grid_two_clues _ 17 (FUEL 4) _
              reachable_two_clues H1 H2) as (rows & leaf & Hd & _ & Ha & Hm & _).
  exact (conj reachable_two_clues (conj H1 (conj H2
    (ex_intro _ rows (ex_intro _ leaf (conj Hd (conj Ha Hm))))))).
Defined.

Lemma smallest_column_first_two_clues :
  reachable 4 grid_two_clues (after_preload 4 grid_two_clues) /\
  (FUEL 4 <= FUEL 4)%nat /\
  active_columns 4 (after_preload 4 grid_two_clues) <> [] /\
  exists before c after,
    active_columns 4 (after_preload 4 grid_two_clues) = before ++ c :: after /\
    smallestColumn (FUEL 4) (after_preload 4 grid_two_clues)
      (rightOf (after_preload 4 grid_two_clues) (headNode (after_preload 4 grid_two_clues)))
      (rightOf (after_preload 4 grid_two_clues)
         (rightOf (after_preload 4 grid_two_clues)
            (headNode (after_preload 4 grid_two_clues)))) = Some c.
Proof.
  assert (H1 : (FUEL 4 <= FUEL 4)%nat) by lia.
  assert (H2 : active_columns 4 (after_preload 4 grid_two_clues) <> []).
  { intros H. vm_compute in H. discriminate H. }
  destruct (smallest_column_first 4 grid_two_clues _ (FUEL 4) reachable_two_clues H1 H2)
    as (before & c & after & Hs & Hc & _).
  exact (conj reachable_two_clues (conj H1 (conj H2
    (ex_intro _ before (ex_intro _ c (ex_intro _ after (conj Hs Hc))))))).
Defined.

Lemma search_failure_restores_stuck :
  reachable 4 grid_stuck (after_preload 4 grid_stuck) /\
  (FUEL 4 <= FUEL 4)%nat /\
  search 4 17 (FUEL 4) (after_preload 4 grid_stuck) =
    Some (true, (default (false, initial_memory 4)
                   (search 4 17 (FUEL 4) (after_preload 4 grid_stuck))).2) /\
  (default (false, initial_memory 4)
     (search 4 17 (FUEL 4) (after_preload 4 grid_stuck))).2 = after_preload 4 grid_stuck.
Proof.
  assert (H1 : (FUEL 4 <= FUEL 4)%nat) by lia.
  assert (H2 : search 4 17 (FUEL 4) (after_preload 4 grid_stuck) =
    Some (true, (default (false, initial_memory 4)
                   (search 4 17 (FUEL 4) (after_preload 4 grid_stuck))).2))
    by (vm_compute; reflexivity).
  exact (conj reachable_stuck (conj H1 (conj H2
    (search_failure_restores 4 grid_stuck _ 17 (FUEL 4) _ reachable_stuck H1 H2)))).
Defined.

(** * The search is exhaustive *)

Section ExhaustiveProof.

Context (N : Z) {HN : GoodSize N}.
Let N_pos : 0 < N := size_pos.
Let N_square : Z.sqrt N * Z.sqrt N = N := size_square.

Local Abbreviation C := (COLUMNS N).
Local Abbreviation R := (ROWS N).
Local Abbreviation NN := (N * N).

(** The covered columns of a list of rows, up to their order. *)
Lemma Kof_Permutation rws rws' : rws ≡ₚ rws' -> Kof N rws ≡ₚ Kof N rws'.
Proof. intros Hp. unfold Kof. by rewrite Hp. Qed.

Lemma act_ext K K' : (forall j, j ∈ K <-> j ∈ K') -> act N K = act N K'.
Proof.
  intros HK. unfold act. apply list_filter_iff. intros j. by rewrite HK.
Qed.

Lemma NoDup_row_columns a : a ∈ allnodes N -> NoDup (row_columns N a).
Proof.
  intros Ha. apply (row_columns_live N [] a Ha); [apply (hidden_nil N)|set_solver].
Qed.

(** Two nodes of the same row cover the same columns. *)
Lemma row_columns_same_row a b :
  a ∈ allnodes N -> b ∈ allnodes N -> rowOf N a = rowOf N b ->
  row_columns N a ≡ₚ row_columns N b.
Proof.
  intros Ha Hb Hrow. apply NoDup_Permutation.
  - by apply NoDup_row_columns.
  - by apply NoDup_row_columns.
  - intros j. rewrite !(elem_of_row_columns N) by done. by rewrite Hrow.
Qed.

Lemma Chosen_Permutation rws rws' :
  rws ≡ₚ rws' -> Chosen N rws -> Chosen N rws'.
Proof.
  intros Hp [Hnd Hrange Hnodes]. pose proof (Kof_Permutation _ _ Hp) as HK. split.
  - by rewrite <- HK.
  - intros j Hj. apply Hrange. by rewrite HK.
  - intros a Ha. apply Hnodes. by rewrite Hp.
Qed.

Lemma completes_Permutation rws more l :
  more ++ rws ≡ₚ l -> completes N rws more -> Chosen N l /\ act N (Kof N l) = [].
Proof.
  intros Hp [HC Hact]. split; [by apply (Chosen_Permutation _ _ Hp)|].
  rewrite <- Hact. apply act_ext. intros j.
  by rewrite (Kof_Permutation _ _ Hp).
Qed.

(** Replacing a row of a cover by another node of the same row. *)
Lemma completes_swap rws S1 S2 a b :
  a ∈ allnodes N -> rowOf N a = rowOf N b ->
  completes N rws (S1 ++ b :: S2) -> completes N (a :: rws) (S1 ++ S2).
Proof.
  intros Ha Hrow [[Hnd Hrange Hnodes] Hact].
  assert (Hb : b ∈ allnodes N) by (apply Hnodes; set_solver).
  pose proof (row_columns_same_row a b Ha Hb Hrow) as Hp.
  assert (HK : Kof N ((S1 ++ S2) ++ a :: rws) ≡ₚ Kof N ((S1 ++ b :: S2) ++ rws)).
  { repeat (rewrite (Kof_app N) || rewrite (Kof_cons N)).
    rewrite <- !app_assoc. apply Permutation_app_head.
    rewrite (app_assoc (rev (row_columns N b))).
    rewrite (Permutation_app_comm (rev (row_columns N b)) (Kof N S2)), <- app_assoc.
    apply Permutation_app_head, Permutation_app_tail.
    by rewrite <- !Permutation_rev. }
  split; [split|].
  - by rewrite HK.
  - intros j Hj. apply Hrange. by rewrite <- HK.
  - intros x Hx. rewrite !elem_of_app, elem_of_cons in Hx.
    destruct Hx as [[Hx|Hx]|[->|Hx]]; [| |done|]; apply Hnodes; set_solver.
  - rewrite <- Hact. apply act_ext. intros j. by rewrite HK.
Qed.

(** A cover that completes the chosen rows holds a row for every active
    column, and the node of that row is linked in the column. *)
Lemma completes_live rws more jc :
  completes N rws more -> 0 <= jc < C -> jc ∉ Kof N rws ->
  exists S1 b S2 a, more = S1 ++ b :: S2 /\ rowOf N a = rowOf N b /\
    a ∈ vlist N (hidden N (Kof N rws)) jc.
Proof.
  intros [[Hnd Hrange Hnodes] Hact] Hjc HjcK.
  assert (Hin : jc ∈ Kof N (more ++ rws)).
  { destruct (decide (jc ∈ Kof N (more ++ rws))) as [|Hout]; [done|].
    assert (Hj : jc ∈ act N (Kof N (more ++ rws))) by (by apply elem_of_act).
    rewrite Hact in Hj. by apply elem_of_nil in Hj. }
  rewrite (Kof_app N), elem_of_app in Hin. destruct Hin as [Hin|Hin]; [|done].
  apply (elem_of_Kof N) in Hin as (b & Hb & Hin).
  assert (Hba : b ∈ allnodes N) by (apply Hnodes; set_solver).
  apply (elem_of_row_columns N) in Hin as (k & Hk & Hjk); [|done].
  apply list_elem_of_split in Hb as (S1 & S2 & ->).
  pose proof (rowOf_range N b Hba) as Hi.
  exists S1, b, S2, (nd N (rowOf N b) k). split; [done|].
  rewrite rowOf_nd by done. split; [done|].
  apply elem_of_vlist. split; [|split].
  - apply hidden_false. intros k' Hk' Hne.
    rewrite rowOf_nd, kOf_nd, colOf_nd in * by done.
    rewrite <- Hjk, before_active by done. intros Hin'.
    rewrite (Kof_app N) in Hnd. apply NoDup_app in Hnd as (_ & Hdisj & _).
    apply (Hdisj (cols N (rowOf N b) k')); [|done].
    apply (elem_of_Kof N). exists b. split; [set_solver|].
    apply (elem_of_row_columns N); eauto.
  - by rewrite colOf_nd.
  - by apply nd_allnodes.
Qed.

Section RowsFailed.

Variable rec : Memory -> option (bool * Memory).
Variables (d fuel : nat).
Hypothesis Hfuel : (FUEL N <= fuel)%nat.
Hypothesis Hrec : forall rws m,
  Inv N (Kof N rws) m -> Chosen N rws -> search_post N rws m d (rec m).

(** When the loop over the rows of the chosen column ends without a
    solution, the recursive call has failed for every row of the column. *)
Lemma search_rows_failed rws m jc m' :
  Inv N (Kof N rws) m -> Chosen N rws -> 0 <= jc < C -> jc ∉ Kof N rws ->
  forall rest done k,
    vlist N (hidden N (Kof N rws)) jc = done ++ rest -> (length rest <= k)%nat ->
    search_rows rec fuel k (hdr jc) (hd (hdr jc) rest)
      (cover_fun N jc (hidden N (Kof N rws)) m) = Some (true, m') ->
    forall a, a ∈ rest ->
      exists m3 m4, Inv N (Kof N (a :: rws)) m3 /\ Chosen N (a :: rws) /\
        rec m3 = Some (true, m4).
Proof.
  intros HI HC Hjc HjcK.
  set (K := Kof N rws) in *.
  set (m1 := cover_fun N jc (hidden N K) m).
  destruct (coverColumn_Inv N K m jc fuel HI Hjc HjcK Hfuel) as [_ HI1]. fold m1 in HI1.
  assert (Hv1 : vlist N (hidden N (jc :: K)) jc = vlist N (hidden N K) jc).
  { apply (vlist_before_ext N). by rewrite before_cons_same, before_active. }
  pose proof (rep_vring _ _ _ _ HI1 jc Hjc) as Hring. rewrite Hv1 in Hring.
  induction rest as [|a rest IH]; intros done k Hl Hk Hrun b Hb;
    [by apply elem_of_nil in Hb|].
  destruct k as [|k]; [simpl in Hk; lia|]. simpl hd in Hrun.
  assert (Hal : a ∈ vlist N (hidden N K) jc) by (rewrite Hl; set_solver).
  destruct (live_row_columns N K jc a Hjc HjcK Hal) as (Haa & Hac & Hah & Hnd & Hlive').
  rewrite search_rows_step in Hrun by (intros ->; by apply (hdr_not_node N jc (hdr jc))).
  cbv zeta in Hrun.
  set (m2 := set_CURRENT_SOLUTION (CURRENT_SOLUTION m1 ++ [a]) m1) in *.
  assert (HI2 : Inv N (jc :: K) m2) by (by apply Inv_set_current).
  rewrite (cover_others_loop N (jc :: K) m2 a fuel HI2 Haa Hnd Hlive' Hfuel) in Hrun.
  set (m3 := cover_cols N (jc :: K) (colOf N <$> others N a) m2) in *.
  assert (HI3 : Inv N (Kof N (a :: rws)) m3).
  { rewrite (Kof_cons_live N K rws jc a) by done. by apply cover_cols_Inv. }
  assert (HC3 : Chosen N (a :: rws)).
  { apply Chosen_cons; try done. by rewrite Hac. }
  assert (Hcur3 : CURRENT_SOLUTION m3 = CURRENT_SOLUTION m1 ++ [a]).
  { destruct (same_globals_cover_cols N (colOf N <$> others N a) (jc :: K) m2)
      as (_ & G & _). fold m3 in G. by rewrite G. }
  pose proof (Hrec (a :: rws) m3 HI3 HC3) as Hpost.
  destruct (rec m3) as [[[|] m4]|] eqn:Hrec3; simpl in Hpost; [|done|done].
  apply elem_of_cons in Hb as [->|Hb]; [by exists m3, m4|].
  subst m4. rewrite Hcur3, back_snoc in Hrun.
  rewrite (rep_column_hdr N _ _ a HI3 Haa), Hac in Hrun.
  pose proof (uncover_others_loop N (jc :: K) m2 a fuel HI2 Haa Hnd Hlive' Hfuel) as Hun.
  cbv zeta in Hun. fold m3 in Hun. rewrite Hun in Hrun.
  assert (Hback : set_CURRENT_SOLUTION (removelast (CURRENT_SOLUTION m2)) m2 = m1).
  { unfold m2 at 1. simpl CURRENT_SOLUTION. rewrite removelast_last.
    apply set_CURRENT_SOLUTION_undo. }
  rewrite Hback in Hrun.
  rewrite Hl in Hring. rewrite (dlinked_next _ _ _ _ _ _ _ Hring) in Hrun.
  apply (IH (done ++ [a]) k); [by rewrite <- app_assoc|simpl in Hk; lia|done|done].
Qed.

End RowsFailed.

(** When [search] returns [true], no choice of further rows completes the
    chosen rows to an exact cover. *)
Theorem search_exhaustive depth : forall fuel rws m m',
  (FUEL N <= fuel)%nat -> Inv N (Kof N rws) m -> Chosen N rws ->
  search N depth fuel m = Some (true, m') ->
  forall more, ~ completes N rws more.
Proof.
  induction depth as [|d IH]; intros fuel rws m m' Hfuel HI HC Hrun more Hmore; [done|].
  simpl search in Hrun. pose proof (rep_head _ _ _ _ HI) as Hhead. rewrite Hhead in Hrun.
  destruct (Z.eqb_spec (rightOf m 1) 1) as [Hsolved|Hopen]; [done|].
  destruct (act N (Kof N rws)) as [|j0 rest] eqn:Hact.
  { apply Hopen. by apply (act_nil_ring N (Kof N rws)). }
  pose proof (smallestColumn_Inv N _ m j0 rest fuel HI Hact Hfuel) as Hsm.
  rewrite Hhead in Hsm. rewrite Hsm in Hrun.
  set (jc := first_min (fun j => sizeOf m (hdr j)) j0 rest) in *.
  assert (Hjc : jc ∈ act N (Kof N rws)) by (rewrite Hact; apply first_min_elem).
  apply elem_of_act in Hjc as [Hjc HjcK].
  destruct (coverColumn_Inv N _ m jc fuel HI Hjc HjcK Hfuel) as [Hcov HI1].
  rewrite Hcov in Hrun.
  assert (Hv1 : vlist N (hidden N (jc :: Kof N rws)) jc = vlist N (hidden N (Kof N rws)) jc).
  { apply (vlist_before_ext N). by rewrite before_cons_same, before_active. }
  pose proof (rep_vring _ _ _ _ HI1 jc Hjc) as Hring. rewrite Hv1 in Hring.
  rewrite (dlinked_first _ _ _ _ _ Hring) in Hrun.
  destruct (completes_live rws more jc Hmore Hjc HjcK) as (S1 & b & S2 & a & -> & Hrow & Ha).
  destruct (search_rows_failed (search N d fuel) d fuel Hfuel
              (fun rws' m0 HI' HC' => search_spec N d fuel rws' m0 Hfuel HI' HC')
              rws m jc m' HI HC Hjc HjcK _ [] fuel eq_refl
              (FUEL_vlist N _ jc fuel Hfuel) Hrun a Ha)
    as (m3 & m4 & HI3 & HC3 & Hrun3).
  apply (IH fuel (a :: rws) m3 m4 Hfuel HI3 HC3 Hrun3 (S1 ++ S2)).
  apply (completes_swap rws S1 S2 a b); [|done|done].
  by apply elem_of_vlist in Ha as (_ & _ & ?).
Qed.

(** ** From a valid grid to an exact cover *)

Lemma length_Kof rws : length (Kof N rws) = (4 * length rws)%nat.
Proof.
  induction rws as [|a rws IH]; [done|].
  rewrite (Kof_cons N), length_app, length_rev, length_row_columns, IH. simpl. lia.
Qed.

Section GridCover.

Variable g : list Z.
Hypothesis Hvalid : valid_grid N g.

Lemma cell_index q :
  0 <= q < NN ->
  0 <= q `div` N < N /\ 0 <= q `mod` N < N /\ q `div` N * N + q `mod` N = q.
Proof.
  intros Hq. pose proof (Z.div_mod q N ltac:(lia)). pose proof (Z.mod_pos_bound q N N_pos).
  split; [split; [apply Z.div_pos; lia|apply Z.div_lt_upper_bound; lia]|]. split; lia.
Qed.

(** The row of the candidate that the grid holds in a cell. *)
Lemma grid_node_spec r c v :
  0 <= r < N -> 0 <= c < N -> cell N g r c = Some v ->
  grid_node N g (r * N + c) = nd N (v + N * c + N * N * r) 0 /\
  0 <= v < N /\ grid_node N g (r * N + c) ∈ rows_of_grid N g.
Proof.
  intros Hr Hc Hcell. destruct (valid_filled _ _ Hvalid r c Hr Hc) as (v' & Hv' & Hrange).
  assert (v' = v) by congruence. subst v'.
  destruct (divmod_pair N r c Hc) as [Hd Hm].
  split; [|split; [done|]].
  - unfold grid_node. unfold cell in Hcell. rewrite Hcell, Hd, Hm. done.
  - unfold rows_of_grid. apply list_elem_of_fmap_2, elem_of_seqZ. nia.
Qed.

Lemma rows_of_grid_nodes a : a ∈ rows_of_grid N g -> a ∈ allnodes N.
Proof.
  intros Ha. apply list_elem_of_fmap in Ha as (q & -> & Hq). apply elem_of_seqZ in Hq.
  destruct (cell_index q ltac:(lia)) as (Hr & Hc & Heq).
  destruct (valid_filled _ _ Hvalid _ _ Hr Hc) as (v & Hv & Hrange).
  destruct (grid_node_spec _ _ v Hr Hc Hv) as (Hnode & _). rewrite Heq in Hnode.
  rewrite Hnode. apply nd_allnodes; [|lia].
  by destruct (decode_index N _ _ v Hr Hc Hrange) as (? & _).
Qed.

(** Every column is covered by the row of some cell. *)
Lemma rows_of_grid_cover j : 0 <= j < C -> j ∈ Kof N (rows_of_grid N g).
Proof.
  intros Hj. destruct (column_coordinates N j Hj) as (Hk & Hx & Hy & Hjeq).
  cbv zeta in Hjeq. set (k := j `div` NN) in *. set (x := (j `mod` NN) `div` N) in *.
  set (y := (j `mod` NN) `mod` N) in *. apply (elem_of_Kof N).
  assert (Hgen : forall r c v, 0 <= r < N -> 0 <= c < N -> cell N g r c = Some v ->
            cols N (v + N * c + N * N * r) k = j -> exists a, a ∈ rows_of_grid N g /\
              j ∈ row_columns N a).
  { intros r c v Hr Hc Hcell Hcol.
    destruct (grid_node_spec r c v Hr Hc Hcell) as (Hnode & Hv & Hin).
    destruct (decode_index N r c v Hr Hc Hv) as (Hi & _).
    exists (grid_node N g (r * N + c)). split; [done|].
    apply (elem_of_row_columns N); [by apply rows_of_grid_nodes|].
    exists k. split; [done|]. rewrite Hnode, rowOf_nd by lia. done. }
  assert (Hcases : k = 0 \/ k = 1 \/ k = 2 \/ k = 3) by lia.
  destruct Hcases as [Hk0 | [Hk1 | [Hk2 | Hk3]]].
  - destruct (valid_filled _ _ Hvalid x y Hx Hy) as (v & Hv & Hrange).
    destruct (decode_index N x y v Hx Hy Hrange) as (Hi & Hcand & Hrow & Hcol).
    apply (Hgen x y v Hx Hy Hv). rewrite Hk0, (cols_cell N) by done. lia.
  - destruct (valid_rows _ _ Hvalid x y Hx Hy) as (c & Hc & Hv & _).
    destruct (decode_index N x c y Hx Hc Hy) as (Hi & Hcand & Hrow & Hcol).
    apply (Hgen x c y Hx Hc Hv). rewrite Hk1, (cols_1 N). lia.
  - destruct (valid_columns _ _ Hvalid x y Hx Hy) as (r & Hr & Hv & _).
    destruct (decode_index N r x y Hr Hx Hy) as (Hi & Hcand & Hrow & Hcol).
    apply (Hgen r x y Hr Hx Hv). rewrite Hk2, (cols_2 N). lia.
  - destruct (valid_boxes _ _ Hvalid x y Hx Hy) as (r & c & Hr & Hc & Hbox & Hv & _).
    destruct (decode_index N r c y Hr Hc Hy) as (Hi & Hcand & Hrow & Hcol).
    apply (Hgen r c y Hr Hc Hv). rewrite Hk3, (cols_3 N), (box_of_eq N) by done.
    rewrite Hrow, Hcol, Hbox. lia.
Qed.

Lemma Kof_range rws j : (forall a, a ∈ rws -> a ∈ allnodes N) -> j ∈ Kof N rws -> 0 <= j < C.
Proof.
  intros Hnodes Hj. apply (elem_of_Kof N) in Hj as (a & Ha & Hj).
  apply (elem_of_row_columns N) in Hj as (k & Hk & ->); [|by apply Hnodes].
  apply (cols_range N); [apply (rowOf_range N); by apply Hnodes|done].
Qed.

(** The rows of the candidates of a valid grid are an exact cover. *)
Theorem valid_grid_cover :
  Chosen N (rows_of_grid N g) /\ act N (Kof N (rows_of_grid N g)) = [].
Proof.
  assert (Hperm : seqZ 0 C ≡ₚ Kof N (rows_of_grid N g)).
  { apply submseteq_length_Permutation.
    - apply NoDup_submseteq; [apply NoDup_seqZ|].
      intros j Hj. apply elem_of_seqZ in Hj. apply rows_of_grid_cover. lia.
    - rewrite length_Kof. unfold rows_of_grid. rewrite length_fmap, !length_seqZ.
      rewrite (C_eq N). nia. }
  split; [split|].
  - rewrite <- Hperm. apply NoDup_seqZ.
  - intros j Hj. by apply (Kof_range (rows_of_grid N g) j rows_of_grid_nodes).
  - apply rows_of_grid_nodes.
  - destruct (act N (Kof N (rows_of_grid N g))) as [|j l] eqn:E; [done|].
    assert (Hj : j ∈ act N (Kof N (rows_of_grid N g))) by (rewrite E; set_solver).
    apply elem_of_act in Hj as [Hj Hout]. exfalso. apply Hout.
    by apply rows_of_grid_cover.
Qed.

End GridCover.

(** A valid grid that holds the committed clues completes them. *)
Lemma valid_grid_completes input g :
  valid_grid N g -> keeps_committed N input g ->
  exists more, completes N (committed N input) more.
Proof.
  intros Hvalid Hkeep.
  destruct (valid_grid_cover g Hvalid) as [HC Hact].
  pose proof (Committed_preload N input NN ltac:(nia)) as HCom.
  fold (committed N input) in HCom.
  assert (Hsub : forall a, a ∈ committed N input -> a ∈ rows_of_grid N g).
  { intros a Ha. destruct (com_rows _ _ _ _ HCom a Ha) as (Haa & Hclue & Hk & _).
    pose proof (rowOf_range N a Haa) as Hi.
    pose proof (row_range N _ Hi) as Hr. pose proof (column_range N _ (proj1 Hi)) as Hc.
    unfold is_clue in Hclue. apply Z.eqb_eq in Hclue.
    pose proof (Hkeep a Ha) as Hcell. rewrite <- Hclue in Hcell.
    destruct (grid_node_spec g Hvalid _ _ _ Hr Hc Hcell) as (Hnode & _ & Hin).
    rewrite <- (encode_index N _ Hi), <- Hk, nd_eta in Hnode. by rewrite <- Hnode. }
  exists (filter (fun a => a ∉ committed N input) (rows_of_grid N g)).
  assert (Hperm : filter (fun a => a ∉ committed N input) (rows_of_grid N g)
                    ++ committed N input ≡ₚ rows_of_grid N g).
  { apply NoDup_Permutation.
    - apply NoDup_app. split; [apply NoDup_filter; by apply (Chosen_NoDup N)|]. split.
      + intros a Ha. by apply list_elem_of_filter in Ha as [? _].
      + apply (Chosen_NoDup N), (Committed_Chosen N input NN), HCom.
    - by apply (Chosen_NoDup N).
    - intros a. rewrite elem_of_app, list_elem_of_filter. split.
      + intros [[_ Ha]|Ha]; [done|by apply Hsub].
      + intros Ha. destruct (decide (a ∈ committed N input)); [by right|by left]. }
  split.
  - apply (Chosen_Permutation (rows_of_grid N g)); [by symmetry|done].
  - rewrite <- Hact. apply act_ext. intros j. by rewrite (Kof_Permutation _ _ Hperm).
Qed.

Lemma preserves_keeps_committed input g :
  preserves N input g -> keeps_committed N input g.
Proof.
  intros Hpres a Ha. destruct (committed_clue N input a Ha) as (Haa & Hgiven & _).
  pose proof (rowOf_range N a Haa) as Hi.
  apply Hpres; [by apply (row_range N)|apply (column_range N); lia|done].
Qed.

(** X1: when a run prints that there is no solution, there is none: no valid
    grid holds the clues that the preload committed, and so no valid grid
    holds all the clues of the input. *)
Theorem no_solution_sound input depth fuel m :
  (FUEL N <= fuel)%nat ->
  sudokuSolver N depth fuel input = Some m -> stdout m = [PrintNoSolution] ->
  (~ exists g, valid_grid N g /\ keeps_committed N input g) /\
  (~ exists g, valid_grid N g /\ preserves N input g).
Proof.
  intros Hfuel Hrun Hprint.
  assert (Hno : ~ exists g, valid_grid N g /\ keeps_committed N input g).
  { intros (g & Hvalid & Hkeep).
    destruct (valid_grid_completes input g Hvalid Hkeep) as (more & Hmore).
    destruct (preloaded_spec N input fuel Hfuel) as (Hpre & HI & HCom & _ & _ & Hout).
    pose proof (Committed_Chosen N _ _ _ HCom) as HC.
    unfold sudokuSolver in Hrun. cbv zeta in Hrun. fold (built N) in Hrun.
    rewrite Hpre in Hrun.
    pose proof (search_spec N depth fuel _ _ Hfuel HI HC) as Hpost.
    destruct (search N depth fuel (preloaded N input)) as [[[|] m']|] eqn:Hsearch;
      [|simpl in Hpost|done].
    - by apply (search_exhaustive depth fuel _ _ m' Hfuel HI HC Hsearch more).
    - destruct Hpost as (new & leaf & -> & HS). injection Hrun as <-.
      destruct HS as [_ _ _ _ _ _ Houtl].
      unfold answer, printSolution in Hprint. simpl in Hprint.
      rewrite Houtl, Hout in Hprint. discriminate Hprint. }
  split; [done|]. intros (g & Hvalid & Hpres).
  apply Hno. exists g. split; [done|]. by apply preserves_keeps_committed.
Qed.

End ExhaustiveProof.

(** * The structure in the states of the search *)

(** In a ring every node is the successor of its predecessor and the
    predecessor of its successor. *)
Lemma dlinked_inverse f g (h : Z) (l : list Z) x :
  NoDup (h :: l) -> dlinked f g h l h -> x ∈ h :: l -> g (f x) = x /\ f (g x) = x.
Proof.
  intros Hnd Hd Hx. apply elem_of_cons in Hx as [->|Hx].
  - split.
    + destruct l as [|y l]; simpl in Hd.
      * destruct Hd as [Hf Hg]. by rewrite Hf, Hg.
      * destruct Hd as (Hf & Hg & _). by rewrite Hf, Hg.
    + destruct l as [|y l _] using rev_ind.
      * simpl in Hd. destruct Hd as [Hf Hg]. by rewrite Hg, Hf.
      * apply dlinked_app in Hd as [_ Hd]. simpl in Hd. destruct Hd as [Hf Hg].
        by rewrite Hg, Hf.
  - apply list_elem_of_split in Hx as (l1 & l2 & ->).
    destruct (dlinked_neighbours f g h l1 x l2 Hnd Hd) as (_ & _ & _ & _ & H1 & H2). done.
Qed.

Section States.

Context (N : Z) {HN : GoodSize N}.
Let N_pos : 0 < N := size_pos.
Let N_square : Z.sqrt N * Z.sqrt N = N := size_square.

Local Abbreviation C := (COLUMNS N).
Local Abbreviation R := (ROWS N).
Local Abbreviation NN := (N * N).

Lemma active_columns_elem K m c :
  Inv N K m -> c ∈ active_columns N m -> exists j, c = hdr j /\ 0 <= j < C /\ j ∉ K.
Proof.
  intros HI Hc. rewrite (active_columns_Inv N K m HI) in Hc.
  apply list_elem_of_fmap in Hc as (j & -> & Hj). apply elem_of_act in Hj. eauto.
Qed.

(** X2: [coverColumn] on an active column takes the column off the ring of
    active columns and keeps the order of the others; the rows of the
    column stay on its own ring; the sizes are the lengths of the rings; and
    [uncoverColumn] on the same column gives the memory back. *)
Theorem coverColumn_uncoverColumn input m c fuel :
  reachable N input m -> c ∈ active_columns N m -> (FUEL N <= fuel)%nat ->
  exists m',
    coverColumn fuel c m = Some m' /\ uncoverColumn fuel c m' = Some m /\
    active_columns N m' = filter (fun c' => c' <> c) (active_columns N m) /\
    column_rows N m' c = column_rows N m c /\
    forall c', c' ∈ active_columns N m' ->
      sizeOf m' c' = Z.of_nat (length (column_rows N m' c')).
Proof.
  intros Hreach Hc Hfuel.
  destruct (reachable_Inv N input m Hreach) as (rws & HI & _).
  set (K := Kof N rws) in *.
  destruct (active_columns_elem K m c HI Hc) as (j & -> & Hj & HjK).
  destruct (coverColumn_Inv N K m j fuel HI Hj HjK Hfuel) as [Hcov HI1].
  exists (cover_fun N j (hidden N K) m). split; [done|]. split; [by apply uncover_cover_Inv|].
  split; [|split].
  - rewrite (active_columns_Inv N _ _ HI1), (active_columns_Inv N _ _ HI), (act_cons N).
    symmetry. apply filter_fmap_ext. intros j' _. split; [congruence|].
    intros Hne Heq. by apply hdr_inj in Heq.
  - rewrite (column_rows_Inv N _ _ j HI1 Hj), (column_rows_Inv N _ _ j HI Hj).
    apply (vlist_before_ext N). by rewrite before_cons_same, before_active.
  - intros c' Hc'. destruct (active_columns_elem _ _ c' HI1 Hc') as (j' & -> & Hj' & _).
    rewrite (column_rows_Inv N _ _ j' HI1 Hj'). apply (rep_size _ _ _ _ HI1 j' Hj').
Qed.

(** X3: in every state of the search the links are consistent: on the ring of
    active columns and on the ring of every active column each node is the
    successor of its predecessor and the predecessor of its successor; the
    nodes on the ring of a column point to the column; the size of a column
    is the number of nodes on its ring; and no column is on the ring
    twice. *)
Theorem links_consistent input m :
  reachable N input m ->
  NoDup (headNode m :: active_columns N m) /\
  (forall c, c ∈ headNode m :: active_columns N m ->
     leftOf m (rightOf m c) = c /\ rightOf m (leftOf m c) = c) /\
  forall c, c ∈ active_columns N m ->
    sizeOf m c = Z.of_nat (length (column_rows N m c)) /\
    NoDup (c :: column_rows N m c) /\
    (forall a, a ∈ c :: column_rows N m c ->
       upperOf m (lowerOf m a) = a /\ lowerOf m (upperOf m a) = a) /\
    (forall a, a ∈ column_rows N m c -> columnOf m a = c).
Proof.
  intros Hreach. destruct (reachable_Inv N input m Hreach) as (rws & HI & _).
  set (K := Kof N rws) in *.
  pose proof (rep_head _ _ _ _ HI) as Hhead.
  pose proof (active_columns_Inv N K m HI) as Hact.
  rewrite Hhead, Hact. split; [apply (NoDup_hring N)|]. split.
  - intros c Hc. apply (dlinked_inverse _ _ 1 (hdr <$> act N K));
      [apply (NoDup_hring N)|apply (rep_hring _ _ _ _ HI)|done].
  - intros c Hc. apply list_elem_of_fmap in Hc as (j & -> & Hj).
    apply elem_of_act in Hj as [Hj HjK].
    rewrite (column_rows_Inv N K m j HI Hj).
    split; [apply (rep_size _ _ _ _ HI j Hj)|]. split; [by apply (NoDup_ring N)|]. split.
    + intros a Ha. apply (dlinked_inverse _ _ (hdr j) (vlist N (hidden N K) j));
        [by apply (NoDup_ring N)|by apply (rep_vring _ _ _ _ HI)|done].
    + intros a Ha. apply elem_of_vlist in Ha as (_ & <- & Haa).
      by apply (rep_column_hdr N K).
Qed.

(** ** The solution array *)

Lemma choose_row_globals rws m j r fuel m3 :
  Inv N (Kof N rws) m -> (FUEL N <= fuel)%nat ->
  0 <= j < C -> j ∉ Kof N rws -> r ∈ vlist N (hidden N (Kof N rws)) j ->
  choose_row fuel r m = Some m3 ->
  SUDOKU_SOLUTION m3 = SUDOKU_SOLUTION m /\ stdout m3 = stdout m.
Proof.
  intros HI Hfuel Hj HjK Hr Hrun.
  destruct (live_row_columns N _ j r Hj HjK Hr) as (Hra & Hrc & Hrh & Hnd & Hlive).
  destruct (coverColumn_Inv N _ m j fuel HI Hj HjK Hfuel) as [Hcov HI1].
  unfold choose_row in Hrun. rewrite (rep_column_hdr N _ m r HI Hra), Hrc, Hcov in Hrun.
  cbv zeta in Hrun.
  set (m1 := cover_fun N j (hidden N (Kof N rws)) m) in *.
  set (m2 := set_CURRENT_SOLUTION (CURRENT_SOLUTION m1 ++ [r]) m1) in *.
  assert (HI2 : Inv N (j :: Kof N rws) m2) by (by apply Inv_set_current).
  rewrite (cover_others_loop N _ m2 r fuel HI2 Hra Hnd Hlive Hfuel) in Hrun.
  assert (Hm3 : m3 = cover_cols N (j :: Kof N rws) (colOf N <$> others N r) m2)
    by congruence.
  rewrite Hm3.
  destruct (same_globals_cover_cols N (colOf N <$> others N r) (j :: Kof N rws) m2)
    as (G1 & _ & G3).
  destruct (same_globals_cover_fun N j (hidden N (Kof N rws)) m) as (F1 & _ & F3).
  fold m1 in F1, F3. rewrite G1, G3. unfold m2. simpl. by rewrite F1, F3.
Qed.

Lemma descends_globals m l leaf :
  descends N m l leaf -> forall rws,
  Inv N (Kof N rws) m -> Chosen N rws ->
  SUDOKU_SOLUTION leaf = SUDOKU_SOLUTION m /\ stdout leaf = stdout m.
Proof.
  induction 1 as [m|fuel m r m1 l leaf Hfuel Hcand Hrun Hdesc IH]; intros rws HI HC; [done|].
  apply (candidate_Inv N _ m r HI) in Hcand as (j & Hj & HjK & Hr).
  destruct (choose_row_globals rws m j r fuel m1 HI Hfuel Hj HjK Hr Hrun) as [G1 G2].
  destruct (choose_row_Inv N rws m j r fuel HI HC Hfuel Hj HjK Hr) as (m3 & Hrun' & HI3 & HC3 & _).
  rewrite Hrun in Hrun'. injection Hrun' as <-.
  destruct (IH (r :: rws) HI3 HC3) as [H1 H2]. by rewrite H1, H2, G1, G2.
Qed.

Lemma writes_inside_node K m a :
  Inv N K m -> a ∈ allnodes N -> length (SUDOKU_SOLUTION m) = Z.to_nat NN ->
  writes_inside N m a.
Proof.
  intros HI Haa Hlen. unfold writes_inside.
  pose proof (rowOf_range N a Haa) as Hi.
  rewrite (rep_ident_node N _ m a HI Haa). unfold idOf, solution_index. cbn [fst snd].
  pose proof (row_range N _ Hi) as Hr. pose proof (column_range N _ (proj1 Hi)) as Hcc.
  pose proof (candidate_range N _ (proj1 Hi)) as Hv.
  split; [done|]. split; [done|]. split; [done|]. split.
  - rewrite Hlen. apply Z2Nat.inj_lt; nia.
  - symmetry. by apply (encode_index N).
Qed.

Lemma writes_inside_column K m c a :
  Inv N K m -> length (SUDOKU_SOLUTION m) = Z.to_nat NN ->
  c ∈ active_columns N m -> a ∈ column_rows N m c -> writes_inside N m a.
Proof.
  intros HI Hlen Hc Ha.
  destruct (active_columns_elem _ m c HI Hc) as (j & -> & Hj & HjK).
  rewrite (column_rows_Inv N _ m j HI Hj) in Ha.
  apply elem_of_vlist in Ha as (_ & _ & Haa). by apply (writes_inside_node K).
Qed.

(** X4: the writes to [SUDOKU_SOLUTION] stay inside the array.
    [updateDoublyLinkedList] writes for a row node that it finds on the
    ring of an active column, in the memory that it has reached before a
    cell or after the last cell; [search] writes where it finds no active
    column, for the nodes of [CURRENT_SOLUTION], and a run that prints a
    grid has written in such a memory.  In the memories before each cell,
    after the last cell and at every call of [search], the array has
    [N * N] entries, and the identifier of every row node on the ring of an
    active column and of every node of [CURRENT_SOLUTION] holds a value, a
    row and a column of the grid, so that the index [row * N + column] is
    less than [N * N]; the identifier is the decoding of the index of the
    row in the exact cover problem. *)
Theorem solution_index_in_bounds input :
  (forall q c a, 0 <= q <= N * N ->
     c ∈ active_columns N (preload_state N input (built N) q).2 ->
     a ∈ column_rows N (preload_state N input (built N) q).2 c ->
     length (SUDOKU_SOLUTION (preload_state N input (built N) q).2) = Z.to_nat (N * N) /\
     writes_inside N (preload_state N input (built N) q).2 a) /\
  (forall m, reachable N input m ->
     length (SUDOKU_SOLUTION m) = Z.to_nat (N * N) /\
     (forall c a, c ∈ active_columns N m -> a ∈ column_rows N m c -> writes_inside N m a) /\
     (forall p, p ∈ CURRENT_SOLUTION m -> writes_inside N m p)) /\
  (forall depth fuel m g, (FUEL N <= fuel)%nat ->
     sudokuSolver N depth fuel input = Some m -> stdout m = [PrintGrid g] ->
     exists leaf, reachable N input leaf /\ active_columns N leaf = [] /\
       m = print (PrintGrid (SUDOKU_SOLUTION (record_solution N leaf)))
             (record_solution N leaf)).
Proof.
  split; [|split].
  - intros q c a Hq Hc Ha.
    destruct (built_Inv N) as [HI0 (F1 & _ & _)].
    pose proof (preload_state_Inv N input (built N) HI0 q Hq) as HI.
    destruct (preload_globals N input (built N) q ltac:(lia)) as (G1 & _ & _).
    assert (Hlen : length (SUDOKU_SOLUTION (preload_state N input (built N) q).2)
                   = Z.to_nat NN).
    { rewrite G1, (length_grid_rows N), F1. apply (length_initial_solution N). }
    split; [done|]. by apply (writes_inside_column _ _ c a HI).
  - intros m Hreach.
    pose proof Hreach as (fuel & m0 & l & Hfuel & Hrun & Hdesc).
    destruct (preloaded_spec N input fuel Hfuel) as (Hrun' & HI0 & HCom & Hsol & Hcur0 & _).
    rewrite Hrun in Hrun'. injection Hrun' as ->.
    pose proof (Committed_Chosen N _ _ _ HCom) as HC0.
    destruct (descends_globals _ _ _ Hdesc _ HI0 HC0) as [Hsolm _].
    destruct (descends_Inv N _ _ _ Hdesc _ HI0 HC0) as (HI & HCl & Hcur).
    assert (Hlen : length (SUDOKU_SOLUTION m) = Z.to_nat NN).
    { rewrite Hsolm, Hsol, (length_grid_rows N). apply (length_initial_solution N). }
    split; [done|]. split.
    + intros c a Hc Ha. by apply (writes_inside_column _ _ c a HI).
    + intros p Hp. rewrite Hcur, Hcur0 in Hp. simpl in Hp.
      apply (writes_inside_node _ _ _ HI); [|done].
      apply (chosen_nodes _ _ HCl). apply elem_of_app. left. by apply elem_of_rev.
  - intros depth fuel m g Hfuel Hrun Hprint.
    pose proof (sudokuSolver_spec N input depth fuel Hfuel) as Hspec.
    rewrite Hrun in Hspec. destruct Hspec as [->|(new & leaf & -> & HS & _)].
    { by rewrite stdout_no_solution in Hprint. }
    destruct HS as [HIl _ Hcov Hdesc _ _ _].
    destruct (preloaded_spec N input fuel Hfuel) as (Hrun' & _).
    exists leaf. split; [by exists fuel, (preloaded N input), (rev new)|]. split; [|done].
    by rewrite (active_columns_Inv N _ _ HIl), Hcov.
Qed.


End States.

(** * The depth of the search on well-formed grids *)

Section Depth.

Context (N : Z) {HN : GoodSize N}.
Let N_pos : 0 < N := size_pos.
Let N_square : Z.sqrt N * Z.sqrt N = N := size_square.

Local Abbreviation C := (COLUMNS N).
Local Abbreviation NN := (N * N).

(** C4: on every well-formed grid (values from [-1] to [N - 1], no two
    clues in conflict) the preload and the recursive search run to their
    end.  The search does not nest more calls that choose a row than
    [N * N] minus the number of clues, one for every empty cell; the call
    below them finds no column left, or no row in its column, and chooses
    nothing.  It ends with every branch exhausted, the memory as it was at
    the call and no valid grid with the clues of the input, or in a
    solution: a valid grid with the clues of the input is printed, and one
    row has been chosen for every empty cell. *)
Theorem search_depth_bound input fuel :
  (FUEL N <= fuel)%nat -> consistent N input ->
  updateDoublyLinkedList N fuel input (built N) = Some (preloaded N input) /\
  exists b m,
    search N (S (Z.to_nat (N * N - clues N input))) fuel (preloaded N input) = Some (b, m) /\
    if b then
      m = preloaded N input /\ ~ exists g, valid_grid N g /\ preserves N input g
    else
      exists g, stdout m = [PrintGrid g] /\ valid_grid N g /\ preserves N input g /\
        Z.of_nat (length (CURRENT_SOLUTION m)) = N * N - clues N input.
Proof.
  intros Hfuel Hcons.
  destruct (open_cells_bounds N input) as [_ Hopen]. specialize (Hopen Hcons).
  destruct (preloaded_spec N input fuel Hfuel) as (Hrun & HI & HCom & Hsol & Hcur & Hout).
  pose proof (Committed_Chosen N _ _ _ HCom) as HC.
  split; [done|].
  pose proof (search_spec N (S (Z.to_nat (NN - clues N input))) fuel _ _ Hfuel HI HC)
    as Hpost.
  destruct (search N (S (Z.to_nat (NN - clues N input))) fuel (preloaded N input))
    as [[[|] m']|] eqn:Hsearch; simpl in Hpost.
  - exists true, m'. split; [done|]. split; [done|].
    intros (g & Hvalid & Hpres).
    pose proof (preserves_keeps_committed N input g Hpres) as Hkeep.
    destruct (valid_grid_completes N input g Hvalid Hkeep) as (more & Hmore).
    by apply (search_exhaustive N _ fuel _ _ m' Hfuel HI HC Hsearch more).
  - exists false, m'. split; [done|].
    destruct Hpost as (new & leaf & -> & HS).
    destruct (printed_grid N input new leaf HS) as (Hvalid & _ & Hpres).
    destruct HS as [HIl HCl Hcov Hdesc Hcurl Hsoll Houtl].
    exists (grid_rows N (SUDOKU_SOLUTION (initial_memory N)) (new ++ committed N input)).
    assert (Hrec : SUDOKU_SOLUTION (record_solution N leaf) =
      grid_rows N (SUDOKU_SOLUTION (initial_memory N)) (new ++ committed N input)).
    { rewrite (record_solution_eq N _ leaf HIl).
      - rewrite Hcurl, Hcur, Hsoll, Hsol. simpl app.
        unfold grid_rows. apply (foldr_app_foldl (write_row N)).
      - intros p Hp. rewrite Hcurl, Hcur in Hp. simpl in Hp.
        rewrite elem_of_rev in Hp. apply (chosen_nodes _ _ HCl). apply elem_of_app. by left. }
    split.
    { change (stdout (answer N leaf))
        with (stdout leaf ++ [PrintGrid (SUDOKU_SOLUTION (record_solution N leaf))]).
      by rewrite Houtl, Hout, Hrec. }
    split; [done|]. split; [by apply Hpres|].
    change (CURRENT_SOLUTION (answer N leaf)) with (CURRENT_SOLUTION leaf).
    rewrite Hcurl, Hcur. simpl. rewrite length_rev.
    pose proof (length_act_Kof N _ HCl) as Hlen. rewrite Hcov in Hlen.
    rewrite length_app in Hlen. simpl in Hlen. pose proof (C_eq N) as HCeq.
    unfold open_cells in Hopen. lia.
  - pose proof (open_cells_act N input) as Hact. lia.
Qed.

End Depth.

(** ** The bound on a grid of side 4 *)

(** The two clues of [grid_two_clues] do not conflict. *)
Lemma consistent_two_clues : consistent 4 grid_two_clues.
Proof.
  split.
  - intros r c Hr Hc.
    assert (r = 0 \/ r = 1 \/ r = 2 \/ r = 3) as [-> | [-> | [-> | -> ]]] by lia;
    assert (c = 0 \/ c = 1 \/ c = 2 \/ c = 3) as [-> | [-> | [-> | -> ]]] by lia;
    vm_compute; (split; [discriminate|reflexivity]).
  - intros r c r' c' Hr Hc Hr' Hc' (Hne & Heq & Hgiven & _).
    assert (r = 0 \/ r = 1 \/ r = 2 \/ r = 3) as [-> | [-> | [-> | -> ]]] by lia;
    assert (c = 0 \/ c = 1 \/ c = 2 \/ c = 3) as [-> | [-> | [-> | -> ]]] by lia;
    try (by apply Hgiven);
    assert (r' = 0 \/ r' = 1 \/ r' = 2 \/ r' = 3) as [-> | [-> | [-> | -> ]]] by lia;
    assert (c' = 0 \/ c' = 1 \/ c' = 2 \/ c' = 3) as [-> | [-> | [-> | -> ]]] by lia;
    try (by apply Hne); discriminate Heq.
Qed.

Lemma search_depth_bound_two_clues :
  (FUEL 4 <= FUEL 4)%nat /\ consistent 4 grid_two_clues /\
  clues 4 grid_two_clues = 2 /\
  updateDoublyLinkedList 4 (FUEL 4) grid_two_clues (built 4)
    = Some (preloaded 4 grid_two_clues) /\
  exists b m,
    search 4 (S (Z.to_nat (4 * 4 - clues 4 grid_two_clues))) (FUEL 4)
      (preloaded 4 grid_two_clues) = Some (b, m) /\
    if b then
      m = preloaded 4 grid_two_clues /\
      ~ exists g, valid_grid 4 g /\ preserves 4 grid_two_clues g
    else
      exists g, stdout m = [PrintGrid g] /\ valid_grid 4 g /\
        preserves 4 grid_two_clues g /\
        Z.of_nat (length (CURRENT_SOLUTION m)) = 4 * 4 - clues 4 grid_two_clues.
Proof.
  assert (H1 : (FUEL 4 <= FUEL 4)%nat) by lia.
  assert (H2 : clues 4 grid_two_clues = 2) by (vm_compute; reflexivity).
  exact (conj H1 (conj consistent_two_clues (conj H2
    (@search_depth_bound 4 GoodSize_4 grid_two_clues (FUEL 4) H1 consistent_two_clues)))).
Defined.

(** ** Vectors: reading, erasing and inserting by position *)

Section Vectors.

Import AlgorithmX.

Context {A : Type}.
Implicit Types (v : list A) (d : A).

Lemma size_nonneg v : 0 <= size v.
Proof. unfold size. lia. Qed.

Lemma at_lookup d v i : 0 <= i < size v -> v !! Z.to_nat i = Some (at_ d v i).
Proof.
  unfold size, at_. intros Hi.
  destruct (lookup_lt_is_Some_2 v (Z.to_nat i)) as [x Hx]; [lia|]. by rewrite Hx.
Qed.

Lemma at_Some d v i x : v !! Z.to_nat i = Some x -> at_ d v i = x.
Proof. unfold at_. by intros ->. Qed.

Lemma at_nat d v (i : nat) x : v !! i = Some x -> at_ d v (Z.of_nat i) = x.
Proof. unfold at_. rewrite Nat2Z.id. by intros ->. Qed.

Lemma at_elem d v i : 0 <= i < size v -> at_ d v i ∈ v.
Proof. intros Hi. eapply list_elem_of_lookup_2. by apply at_lookup. Qed.

Lemma at_insert_eq d v i x : 0 <= i < size v -> at_ d (<[Z.to_nat i := x]> v) i = x.
Proof.
  unfold size. intros Hi. apply at_Some. apply list_lookup_insert_eq. lia.
Qed.

Lemma at_insert_ne d v i j x :
  0 <= i -> 0 <= j -> i <> j -> at_ d (<[Z.to_nat i := x]> v) j = at_ d v j.
Proof.
  intros Hi Hj Hij. unfold at_. rewrite list_lookup_insert_ne; [done|lia].
Qed.

Lemma size_insert v (i : nat) x : size (<[i := x]> v) = size v.
Proof. unfold size. by rewrite length_insert. Qed.

Lemma size_app v w : size (v ++ w) = size v + size w.
Proof. unfold size. rewrite length_app. lia. Qed.

Lemma pick_app d v l1 l2 : pick d v (l1 ++ l2) = pick d v l1 ++ pick d v l2.
Proof. unfold pick. by rewrite fmap_app. Qed.

Lemma size_pick d v l : size (pick d v l) = size l.
Proof. unfold pick, size. by rewrite length_fmap. Qed.

Lemma pick_all d v : pick d v (seqZ 0 (size v)) = v.
Proof.
  unfold pick, size. apply list_eq. intros i. rewrite list_lookup_fmap.
  destruct (decide (i < length v)%nat) as [Hi|Hi].
  - rewrite lookup_seqZ_lt by lia. simpl.
    destruct (lookup_lt_is_Some_2 v i Hi) as [x Hx]. rewrite Hx.
    f_equal. rewrite Z.add_0_l. by apply at_nat.
  - rewrite lookup_seqZ_ge by lia. simpl. symmetry. apply lookup_ge_None. lia.
Qed.

Lemma pick_ext d v w l :
  (forall i, i ∈ l -> at_ d v i = at_ d w i) -> pick d v l = pick d w l.
Proof.
  intros H. unfold pick. apply list_fmap_ext. intros i x Hx. apply H.
  by eapply list_elem_of_lookup_2.
Qed.

End Vectors.

(** ** Increasing lists of positions *)

Lemma seqZ_split m n x :
  m <= x < m + n -> seqZ m n = seqZ m (x - m) ++ x :: seqZ (x + 1) (m + n - x - 1).
Proof.
  intros Hx. replace n with ((x - m) + (m + n - x)) at 1 by lia.
  rewrite seqZ_app by lia. f_equal.
  replace (m + (x - m)) with x by lia.
  rewrite (seqZ_cons' x) by lia. done.
Qed.

Lemma filter_seqZ_all (P : Z -> Prop) `{!forall x, Decision (P x)} m n :
  (forall x, m <= x < m + n -> P x) -> filter P (seqZ m n) = seqZ m n.
Proof.
  intros Hall. apply filter_id_Forall. intros x Hx. apply Hall.
  apply elem_of_seqZ in Hx. lia.
Qed.

Lemma filter_seqZ_split (P : Z -> Prop) `{!forall x, Decision (P x)} n l1 x l2 :
  filter P (seqZ 0 n) = l1 ++ x :: l2 ->
  0 <= x < n /\ P x /\
  l1 = filter P (seqZ 0 x) /\ l2 = filter P (seqZ (x + 1) (n - x - 1)).
Proof.
  intros Heq.
  assert (Hx : x ∈ filter P (seqZ 0 n)) by (rewrite Heq; set_solver).
  apply list_elem_of_filter in Hx. destruct Hx as [HP Hx].
  apply elem_of_seqZ in Hx.
  assert (Hnd : NoDup (l1 ++ x :: l2)).
  { rewrite <- Heq. apply NoDup_filter, NoDup_seqZ. }
  apply NoDup_app in Hnd. destruct Hnd as (_ & Hd1 & Hd2).
  apply NoDup_cons in Hd2. destruct Hd2 as [Hd2 _].
  rewrite (seqZ_split 0 n x) in Heq by lia.
  rewrite filter_app, filter_cons_True in Heq by done.
  rewrite Z.sub_0_r in Heq. replace (0 + n - x - 1) with (n - x - 1) in Heq by lia.
  apply not_elem_of_app_cons_inv_l in Heq.
  - destruct Heq as (-> & _ & ->). done.
  - intros Hin. apply (Hd1 x); set_solver.
  - intros Hin. apply list_elem_of_filter in Hin. destruct Hin as [_ Hin].
    apply elem_of_seqZ in Hin. lia.
Qed.

Lemma length_filter_not_elem (ys : list Z) x :
  0 <= x -> NoDup ys -> (forall y, y ∈ ys -> 0 <= y < x) ->
  Z.of_nat (length (filter (fun i => i ∉ ys) (seqZ 0 x))) = x - Z.of_nat (length ys).
Proof.
  intros Hx Hnd Hys.
  pose proof (filter_app_complement (fun i => i ∉ ys) (seqZ 0 x)) as Hp.
  apply Permutation_length in Hp. rewrite length_app, length_seqZ in Hp.
  assert (Hq : filter (fun i : Z => ~ (i ∉ ys)) (seqZ 0 x) ≡ₚ ys).
  { apply NoDup_Permutation; [apply NoDup_filter, NoDup_seqZ|done|].
    intros i. rewrite list_elem_of_filter, elem_of_seqZ. split.
    - intros [Hi _]. by destruct (decide (i ∈ ys)).
    - intros Hi. split; [tauto|]. specialize (Hys i Hi). lia. }
  apply Permutation_length in Hq. lia.
Qed.

Section Steps.

Import AlgorithmX.

Context {A : Type}.
Implicit Types (v : list A) (d : A).

(** Erasing position [x] from a vector from which the smaller positions
    [ys] have been erased. *)
Lemma pick_erase_step d v ys x :
  NoDup ys -> (forall y, y ∈ ys -> 0 <= y < x) -> 0 <= x < size v ->
  at_ d (pick d v (filter (fun i => i ∉ ys) (seqZ 0 (size v)))) (x - size ys) = at_ d v x /\
  erase (x - size ys) (pick d v (filter (fun i => i ∉ ys) (seqZ 0 (size v)))) =
    pick d v (filter (fun i => i ∉ ys ++ [x]) (seqZ 0 (size v))).
Proof.
  intros Hnd Hys Hx.
  pose proof (length_filter_not_elem ys x (proj1 Hx) Hnd Hys) as Hlen.
  rewrite (seqZ_split 0 (size v) x) by lia.
  rewrite Z.sub_0_r, !filter_app.
  rewrite filter_cons_True by (intros Hin; specialize (Hys x Hin); lia).
  rewrite (filter_cons_False (fun i => i ∉ ys ++ [x])) by set_solver.
  rewrite !pick_app. unfold pick. rewrite fmap_cons.
  assert (Hpos : Z.to_nat (x - size ys)
                 = length (at_ d v <$> filter (fun i => i ∉ ys) (seqZ 0 x))).
  { rewrite length_fmap. unfold size. lia. }
  split.
  - apply at_Some. by apply list_lookup_middle.
  - unfold erase. rewrite Hpos, delete_middle.
    f_equal; f_equal; apply filter_ext_elem; intros i Hi; apply elem_of_seqZ in Hi;
      rewrite not_elem_of_app; set_solver by lia.
Qed.

(** Inserting position [x] again where the larger positions [zs] are
    still missing. *)
Lemma pick_insert_step d v zs x :
  (forall z, z ∈ zs -> x < z) -> 0 <= x < size v ->
  insert_at x (at_ d v x) (pick d v (filter (fun i => i ∉ x :: zs) (seqZ 0 (size v)))) =
    pick d v (filter (fun i => i ∉ zs) (seqZ 0 (size v))).
Proof.
  intros Hzs Hx.
  rewrite (seqZ_split 0 (size v) x) by lia.
  rewrite Z.sub_0_r, !filter_app.
  rewrite (filter_cons_False (fun i => i ∉ x :: zs)) by set_solver.
  rewrite (filter_cons_True (fun i => i ∉ zs))
    by (intros Hin; specialize (Hzs x Hin); lia).
  assert (H1 : filter (fun i => i ∉ x :: zs) (seqZ 0 x) = seqZ 0 x).
  { apply filter_seqZ_all. intros i Hi Hin. apply elem_of_cons in Hin.
    destruct Hin as [->|Hin]; [lia|]. specialize (Hzs i Hin). lia. }
  assert (H2 : filter (fun i => i ∉ zs) (seqZ 0 x) = seqZ 0 x).
  { apply filter_seqZ_all. intros i Hi Hin. specialize (Hzs i Hin). lia. }
  rewrite H1, H2, !pick_app.
  assert (Hpos : Z.to_nat x = length (pick d v (seqZ 0 x))).
  { unfold pick. rewrite length_fmap, length_seqZ. done. }
  unfold insert_at. rewrite Hpos, take_app_length, drop_app_length.
  unfold pick. rewrite fmap_cons. do 3 f_equal.
  apply filter_ext_elem. intros i Hi. apply elem_of_seqZ in Hi.
  rewrite not_elem_of_cons. split; [tauto|]. intros. split; [lia|done].
Qed.

(** A loop that rewrites every element of a vector in turn. *)
Lemma for_range_update d (g : Z -> A -> A) v :
  for_range 0 (size v) (fun j w => <[Z.to_nat j := g j (at_ d w j)]> w) v =
    imap (fun j a => g (Z.of_nat j) a) v.
Proof.
  assert (H : forall (n : Z), 0 <= n <= size v ->
    for_range 0 n (fun j w => <[Z.to_nat j := g j (at_ d w j)]> w) v =
      imap (fun j a => g (Z.of_nat j) a) (take (Z.to_nat n) v) ++ drop (Z.to_nat n) v).
  { intros n Hn.
    apply (for_range_ind (fun n w => 0 <= n <= size v ->
      w = imap (fun j a => g (Z.of_nat j) a) (take (Z.to_nat n) v) ++ drop (Z.to_nat n) v));
      [lia| |..|done].
    - intros _. simpl. by rewrite drop_0.
    - intros j w Hj IH Hj'. rewrite IH by lia. clear IH.
      destruct (lookup_lt_is_Some_2 v (Z.to_nat j)) as [x Hx]; [unfold size in *; lia|].
      assert (Hlen : length (imap (fun j a => g (Z.of_nat j) a) (take (Z.to_nat j) v))
                     = Z.to_nat j).
      { rewrite length_imap, length_take. unfold size in *. lia. }
      replace (Z.to_nat (j + 1)) with (S (Z.to_nat j)) by lia.
      rewrite (take_S_r _ _ _ Hx), (drop_S _ _ _ Hx), imap_app. simpl.
      rewrite <- app_assoc. simpl.
      rewrite insert_app_r_alt by lia. rewrite Hlen, Nat.sub_diag. simpl.
      do 3 f_equal. rewrite length_take.
      replace (Z.of_nat (Z.to_nat j `min` length v + 0)) with j
        by (unfold size in *; lia).
      f_equal. apply at_Some. rewrite lookup_app_r by lia.
      by rewrite Hlen, Nat.sub_diag. }
  rewrite H by (pose proof (size_nonneg v); lia).
  unfold size. rewrite Nat2Z.id, firstn_all, drop_all. apply app_nil_r.
Qed.

(** A loop that collects the positions that satisfy a test. *)
Lemma for_range_select (p : Z -> bool) n :
  for_range 0 n (fun i l => if p i then l ++ [i] else l) [] =
    filter (fun i => p i = true) (seqZ 0 n).
Proof.
  destruct (decide (0 <= n)) as [Hn|Hn].
  2:{ unfold for_range. rewrite !seqZ_nil by lia. done. }
  apply (for_range_ind (fun n l => l = filter (fun i => p i = true) (seqZ 0 n)));
    [done|done|].
  intros j l Hj ->. rewrite seqZ_snoc by lia. rewrite filter_app. simpl.
  rewrite Z.add_0_l. destruct (p j) eqn:Hp.
  - rewrite filter_cons_True by done. done.
  - rewrite filter_cons_False by (rewrite Hp; done). by rewrite app_nil_r.
Qed.

End Steps.

(** ** The ordered set of rows to delete *)

Section Sets.

Import AlgorithmX.

Lemma set_insert_above x l1 l2 :
  (forall y, y ∈ l1 -> y < x) -> set_insert x (l1 ++ l2) = l1 ++ set_insert x l2.
Proof.
  induction l1 as [|y l1 IH]; intros H; [done|]. simpl.
  assert (y < x) by (apply H; set_solver).
  destruct (x <? y) eqn:E1; [lia|]. destruct (x =? y) eqn:E2; [lia|].
  f_equal. apply IH. intros z Hz. apply H. set_solver.
Qed.

Lemma set_insert_below x l : (forall y, y ∈ l -> x < y) -> set_insert x l = x :: l.
Proof.
  destruct l as [|y l]; intros H; [done|]. simpl.
  assert (x < y) by (apply H; set_solver).
  destruct (x <? y) eqn:E1; [done|lia].
Qed.

Lemma set_insert_filter (q : Z -> bool) n x :
  0 <= x < n ->
  set_insert x (filter (fun i => q i = true) (seqZ 0 n)) =
    filter (fun i => q i || (i =? x) = true) (seqZ 0 n).
Proof.
  intros Hx. rewrite (seqZ_split 0 n x) by lia. rewrite !filter_app.
  rewrite set_insert_above.
  2:{ intros y Hy. apply list_elem_of_filter in Hy. destruct Hy as [_ Hy].
      apply elem_of_seqZ in Hy. lia. }
  f_equal.
  { apply filter_ext_elem. intros i Hi. apply elem_of_seqZ in Hi.
    destruct (i =? x) eqn:E; [lia|]. by rewrite orb_false_r. }
  rewrite (filter_cons_True (fun i => q i || (i =? x) = true))
    by (rewrite Z.eqb_refl, orb_true_r; done).
  assert (Hext : filter (fun i => q i || (i =? x) = true) (seqZ (x + 1) (0 + n - x - 1))
                 = filter (fun i => q i = true) (seqZ (x + 1) (0 + n - x - 1))).
  { apply filter_ext_elem. intros i Hi. apply elem_of_seqZ in Hi.
    destruct (i =? x) eqn:E; [lia|]. by rewrite orb_false_r. }
  rewrite Hext.
  assert (Habove : forall y,
    y ∈ filter (fun i => q i = true) (seqZ (x + 1) (0 + n - x - 1)) -> x < y).
  { intros y Hy. apply list_elem_of_filter in Hy. destruct Hy as [_ Hy].
    apply elem_of_seqZ in Hy. lia. }
  destruct (q x) eqn:Hq.
  - rewrite filter_cons_True by done. simpl.
    destruct (x <? x) eqn:E1; [lia|]. by rewrite Z.eqb_refl.
  - rewrite filter_cons_False by (rewrite Hq; done).
    by apply set_insert_below.
Qed.

End Sets.

(** ** Removing the rows and columns of a row *)

Section Remove.

Import AlgorithmX.

Implicit Types (M : list sequenceAlgorithmX) (r : sequenceAlgorithmX).

Lemma size_fmap {A B} (f : A -> B) (v : list A) : size (f <$> v) = size v.
Proof. unfold size. by rewrite length_fmap. Qed.

Lemma at_fmap {A B} (f : A -> B) (d : A) (e : B) (v : list A) i :
  0 <= i < size v -> at_ e (f <$> v) i = f (at_ d v i).
Proof.
  intros Hi. apply at_Some. rewrite list_lookup_fmap.
  by rewrite (at_lookup d v i Hi).
Qed.

Lemma bit_fmap (f : sequenceAlgorithmX -> sequenceAlgorithmX) M j c :
  0 <= j < size M ->
  bit (f <$> M) j c = at_ false (sequence (f (at_ new_sequence M j))) c.
Proof.
  intros Hj. unfold bit. by rewrite (at_fmap f new_sequence new_sequence).
Qed.

(** The loop over the rows for one column. *)
Lemma delete_bit_loop (q : Z -> bool) p num M :
  for_range 0 (size M) (delete_bit p)
    (filter (fun j => q j = true) (seqZ 0 (size M)),
     mkSequence (replicate (length M) false) num, M) =
  (filter (fun j => q j || bit M j p = true) (seqZ 0 (size M)),
   mkSequence ((fun j => bit M j p) <$> seqZ 0 (size M)) num,
   (fun r => set_sequence (erase p (sequence r)) r) <$> M).
Proof.
  set (er := fun r => set_sequence (erase p (sequence r)) r).
  set (n := size M).
  assert (Hn : 0 <= n) by apply size_nonneg.
  assert (H : forall k, 0 <= k <= n ->
    for_range 0 k (delete_bit p)
      (filter (fun j => q j = true) (seqZ 0 n),
       mkSequence (replicate (length M) false) num, M) =
    (filter (fun j => q j || ((j <? k) && bit M j p) = true) (seqZ 0 n),
     mkSequence (((fun j => bit M j p) <$> seqZ 0 k)
                 ++ replicate (Z.to_nat (n - k)) false) num,
     (er <$> take (Z.to_nat k) M) ++ drop (Z.to_nat k) M)).
  { intros k Hk.
    pose (P := fun (k : Z) (s : list Z * sequenceAlgorithmX * list sequenceAlgorithmX) =>
      0 <= k <= n -> s =
      (filter (fun j => q j || ((j <? k) && bit M j p) = true) (seqZ 0 n),
       mkSequence (((fun j => bit M j p) <$> seqZ 0 k)
                   ++ replicate (Z.to_nat (n - k)) false) num,
       (er <$> take (Z.to_nat k) M) ++ drop (Z.to_nat k) M)).
    apply (for_range_ind P); unfold P; [lia| | |done].
    - intros _. simpl. rewrite drop_0. f_equal; [f_equal|..].
      + apply filter_ext_elem. intros j Hj. apply elem_of_seqZ in Hj.
        destruct (j <? 0) eqn:E; [lia|]. simpl. by rewrite orb_false_r.
      + f_equal. f_equal. unfold n, size. lia.
    - intros j s Hj IH Hj'. rewrite IH by lia. clear IH.
      destruct (lookup_lt_is_Some_2 M (Z.to_nat j)) as [x Hx];
        [unfold n, size in *; lia|].
      assert (Hlen : length (er <$> take (Z.to_nat j) M) = Z.to_nat j).
      { rewrite length_fmap, length_take. unfold n, size in *. lia. }
      assert (Hat : at_ new_sequence ((er <$> take (Z.to_nat j) M) ++ drop (Z.to_nat j) M) j
                    = at_ new_sequence M j).
      { rewrite (at_Some _ M j x Hx). apply at_Some.
        rewrite lookup_app_r by lia. rewrite Hlen, Nat.sub_diag, lookup_drop.
        by rewrite Nat.add_0_r. }
      assert (Hbit : bit ((er <$> take (Z.to_nat j) M) ++ drop (Z.to_nat j) M) j p
                     = bit M j p).
      { unfold bit. by rewrite Hat. }
      unfold delete_bit. rewrite Hbit, Hat. f_equal; [f_equal|].
      + destruct (bit M j p) eqn:Hb.
        * rewrite set_insert_filter by lia. apply filter_ext_elem.
          intros i Hi. apply elem_of_seqZ in Hi.
          destruct (decide (i = j)) as [->|Hij].
          { rewrite Z.eqb_refl, Hb. destruct (j <? j + 1) eqn:E; [|lia].
            simpl. by rewrite !orb_true_r. }
          destruct (i =? j) eqn:E1; [lia|]. rewrite orb_false_r.
          destruct (i <? j) eqn:E2, (i <? j + 1) eqn:E3; try lia; done.
        * apply filter_ext_elem. intros i Hi. apply elem_of_seqZ in Hi.
          destruct (decide (i = j)) as [->|Hij].
          { rewrite Hb. by rewrite !andb_false_r. }
          destruct (i <? j) eqn:E2, (i <? j + 1) eqn:E3; try lia; done.
      + unfold set_sequence. simpl. f_equal.
        rewrite seqZ_snoc by lia. rewrite fmap_app. simpl. rewrite Z.add_0_l.
        rewrite <- app_assoc. simpl.
        rewrite insert_app_r_alt by (rewrite length_fmap, length_seqZ; lia).
        rewrite length_fmap, length_seqZ, Nat.sub_diag.
        replace (Z.to_nat (n - j)) with (S (Z.to_nat (n - (j + 1)))) by lia.
        done.
      + replace (Z.to_nat (j + 1)) with (S (Z.to_nat j)) by lia.
        rewrite (take_S_r _ _ _ Hx), (drop_S _ _ _ Hx), fmap_app. simpl.
        rewrite <- app_assoc. simpl.
        rewrite insert_app_r_alt by lia. rewrite Hlen, Nat.sub_diag. simpl.
        rewrite (at_Some _ M j x Hx). done. }
  rewrite (H n) by lia. f_equal; [f_equal|].
  - apply filter_ext_elem. intros j Hj. apply elem_of_seqZ in Hj.
    destruct (j <? n) eqn:E; [|lia]. done.
  - f_equal. rewrite Z.sub_diag. simpl. apply app_nil_r.
  - unfold n, size. rewrite Nat2Z.id, firstn_all, drop_all. apply app_nil_r.
Qed.

Lemma without_columns_step W ys c r :
  size (sequence r) = W -> NoDup ys -> (forall y, y ∈ ys -> 0 <= y < c) -> 0 <= c < W ->
  at_ false (sequence (without_columns ys r)) (c - size ys) = at_ false (sequence r) c /\
  set_sequence (erase (c - size ys) (sequence (without_columns ys r))) (without_columns ys r)
    = without_columns (ys ++ [c]) r.
Proof.
  intros HW Hnd Hys Hc. unfold without_columns, set_sequence, without. simpl.
  destruct (pick_erase_step false (sequence r) ys c Hnd Hys) as [H1 H2]; [lia|].
  split; [done|]. by rewrite H2.
Qed.

(** The loop that deletes the rows. *)
Lemma delete_row_loop (q : Z -> Prop) `{!forall x, Decision (q x)} M2 drs0 :
  length drs0 = length (filter q (seqZ 0 (size M2))) ->
  exists d,
  foldl delete_row (0, drs0, M2) (filter q (seqZ 0 (size M2))) =
  (d, (fun j => mkHelper (at_ new_sequence M2 j) j) <$> filter q (seqZ 0 (size M2)),
   without new_sequence (filter q (seqZ 0 (size M2))) M2).
Proof.
  intros Hlen0. set (rs := filter q (seqZ 0 (size M2))) in *.
  assert (Hgen : forall l1 l2, rs = l1 ++ l2 -> exists drs,
    foldl delete_row (0, drs0, M2) l1 = (size l1, drs, without new_sequence l1 M2) /\
    length drs = length rs /\
    take (length l1) drs = (fun j => mkHelper (at_ new_sequence M2 j) j) <$> l1).
  { induction l1 as [|x l1 IH] using rev_ind; intros l2 Hsplit.
    - exists drs0. simpl. split; [|done]. do 2 f_equal.
      unfold without. rewrite (filter_seqZ_all _) by (intros; apply not_elem_of_nil).
      by rewrite pick_all.
    - rewrite <- app_assoc in Hsplit. simpl in Hsplit.
      destruct (IH _ Hsplit) as (drs & Hrun & Hlen & Htake).
      pose proof Hsplit as Hrs. unfold rs in Hsplit.
      apply filter_seqZ_split in Hsplit. destruct Hsplit as (Hx & _ & H1 & _).
      assert (Hnd : NoDup l1) by (rewrite H1; apply NoDup_filter, NoDup_seqZ).
      assert (Hlt : forall y, y ∈ l1 -> 0 <= y < x).
      { intros y Hy. rewrite H1 in Hy. apply list_elem_of_filter in Hy.
        destruct Hy as [_ Hy]. apply elem_of_seqZ in Hy. lia. }
      destruct (pick_erase_step new_sequence M2 l1 x Hnd Hlt Hx) as [Hat Her].
      change (pick new_sequence M2 (filter (fun i => i ∉ l1) (seqZ 0 (size M2))))
        with (without new_sequence l1 M2) in Hat, Her.
      change (pick new_sequence M2 (filter (fun i => i ∉ l1 ++ [x]) (seqZ 0 (size M2))))
        with (without new_sequence (l1 ++ [x]) M2) in Her.
      rewrite foldl_app, Hrun. simpl. rewrite Hat, Her.
      eexists. split; [|split].
      + rewrite size_app. unfold size at 3. simpl. reflexivity.
      + by rewrite length_insert.
      + assert (Hl1 : (length l1 < length drs)%nat).
        { rewrite Hlen, Hrs, length_app. simpl. lia. }
        unfold size. rewrite Nat2Z.id, length_app. simpl.
        replace (length l1 + 1)%nat with (S (length l1)) by lia.
        rewrite (take_S_r _ _ (mkHelper (at_ new_sequence M2 x) x))
          by (by apply list_lookup_insert_eq).
        rewrite take_insert. destruct (decide _) as [?|_]; [lia|].
        by rewrite Htake, fmap_app. }
  destruct (Hgen rs [] (eq_sym (app_nil_r rs))) as (drs & Hrun & Hlen & Htake).
  exists (size rs). rewrite Hrun. rewrite <- Hlen, firstn_all in Htake. by rewrite Htake.
Qed.

Section Effect.

Variables (M : list sequenceAlgorithmX) (W row : Z).
Hypothesis Hrect : rectangular W M.
Hypothesis Hrow : 0 <= row < size M.

Lemma row_width : size (sequence (at_ new_sequence M row)) = W.
Proof. apply Hrect. by apply at_elem. Qed.

Lemma width_at j : 0 <= j < size M -> size (sequence (at_ new_sequence M j)) = W.
Proof. intros Hj. apply Hrect. by apply at_elem. Qed.

Lemma elem_of_ones c : c ∈ ones M row <-> 0 <= c < W /\ bit M row c = true.
Proof.
  unfold ones. rewrite row_width, list_elem_of_filter, elem_of_seqZ. split.
  - intros [H1 H2]. split; [lia|done].
  - intros [H1 H2]. split; [done|lia].
Qed.

Lemma NoDup_ones : NoDup (ones M row).
Proof. apply NoDup_filter, NoDup_seqZ. Qed.

Lemma select_columns_ones : select_columns row M = ones M row.
Proof. unfold select_columns, ones. apply for_range_select. Qed.

Lemma ones_prefix (k : nat) c :
  ones M row !! k = Some c ->
  0 <= c < W /\ NoDup (take k (ones M row)) /\
  (forall y, y ∈ take k (ones M row) -> 0 <= y < c) /\
  (forall z, z ∈ drop (S k) (ones M row) -> c < z) /\
  size (take k (ones M row)) = Z.of_nat k.
Proof.
  intros Hk. pose proof (take_drop_middle _ _ _ Hk) as Hsplit.
  symmetry in Hsplit. unfold ones at 1 in Hsplit. rewrite row_width in Hsplit.
  apply filter_seqZ_split in Hsplit. destruct Hsplit as (Hc & _ & H1 & H2).
  split; [done|]. split; [|split; [|split]].
  - rewrite H1. apply NoDup_filter, NoDup_seqZ.
  - intros y Hy. rewrite H1 in Hy. apply list_elem_of_filter in Hy.
    destruct Hy as [_ Hy]. apply elem_of_seqZ in Hy. lia.
  - intros z Hz. rewrite H2 in Hz. apply list_elem_of_filter in Hz.
    destruct Hz as [_ Hz]. apply elem_of_seqZ in Hz. lia.
  - unfold size. rewrite length_take. apply lookup_lt_Some in Hk. lia.
Qed.

Lemma filter_none {A} (P : A -> Prop) `{!forall x, Decision (P x)} (l : list A) :
  (forall x, x ∈ l -> ~ P x) -> filter P l = [].
Proof.
  induction l as [|x l IH]; intros Hall; [done|].
  rewrite filter_cons_False by (apply Hall; set_solver).
  apply IH. intros y Hy. apply Hall. set_solver.
Qed.

(** The loop over the columns to delete. *)
Lemma delete_column_loop dcs0 :
  length dcs0 = length (ones M row) ->
  exists ctd,
  for_range 0 (size (ones M row)) delete_column (ones M row, [], dcs0, M) =
  (ctd, clashing M row, saved_column M <$> ones M row,
   without_columns (ones M row) <$> M).
Proof.
  intros Hdcs0. set (cs := ones M row). set (n := size M).
  pose (P := fun (k : Z)
      (s : list Z * list Z * list sequenceAlgorithmX * list sequenceAlgorithmX) =>
    0 <= k <= size cs ->
    (length s.1.1.1 = length cs /\
     forall i, (Z.to_nat k <= i)%nat -> s.1.1.1 !! i = cs !! i) /\
    s.1.1.2 = filter (fun j => existsb (bit M j) (take (Z.to_nat k) cs) = true) (seqZ 0 n) /\
    length s.1.2 = length cs /\
    take (Z.to_nat k) s.1.2 = saved_column M <$> take (Z.to_nat k) cs /\
    s.2 = without_columns (take (Z.to_nat k) cs) <$> M).
  assert (HP : P (size cs) (for_range 0 (size cs) delete_column (cs, [], dcs0, M))).
  { apply (for_range_ind P); unfold P; [apply size_nonneg| |].
    - intros _. simpl. split; [done|]. split; [|split; [done|split; [done|]]].
      + symmetry. apply filter_none. intros x _. done.
      + transitivity (id <$> M); [by rewrite list_fmap_id|]. apply list_fmap_ext.
        intros i r Hr. symmetry. unfold without_columns, without, set_sequence. simpl.
        rewrite (filter_seqZ_all _) by (intros; apply not_elem_of_nil).
        rewrite pick_all. by destruct r.
    - intros k [[[ctd rs] dcs] mat] Hk IH Hk'. simpl in IH.
      destruct IH as ((Hlen & Hctd) & -> & Hdlen & Hdcs & ->); [lia|].
      destruct (lookup_lt_is_Some_2 cs (Z.to_nat k)) as [c Hc];
        [unfold size in *; lia|].
      destruct (ones_prefix _ _ Hc) as (Hcr & Hnd & Hlt & _ & Hsz).
      fold cs in Hnd, Hlt, Hsz. rewrite Z2Nat.id in Hsz by lia.
      assert (Hck : at_ 0 ctd k = c).
      { apply at_Some. rewrite Hctd by lia. done. }
      unfold delete_column. rewrite Hck.
      rewrite at_insert_eq by (unfold size in *; lia).
      unfold set_number, set_sequence, new_sequence. simpl.
      rewrite resize_nil, length_fmap.
      pose proof (delete_bit_loop
        (fun j => existsb (bit M j) (take (Z.to_nat k) cs)) (c - k) c
        (without_columns (take (Z.to_nat k) cs) <$> M)) as Hloop.
      rewrite !size_fmap, !length_fmap in Hloop. fold n in Hloop. cbv beta in Hloop.
      rewrite size_fmap. fold n.
      rewrite Hloop. clear Hloop.
      simpl.
      assert (Hbit : forall j, 0 <= j < n ->
        bit (without_columns (take (Z.to_nat k) cs) <$> M) j (c - k) = bit M j c).
      { intros j Hj. rewrite bit_fmap by done.
        destruct (without_columns_step W (take (Z.to_nat k) cs) c (at_ new_sequence M j))
          as [H1 _]; [by apply width_at|done|done|done|].
        rewrite Hsz in H1. done. }
      replace (Z.to_nat (k + 1)) with (S (Z.to_nat k)) by lia.
      rewrite (take_S_r _ _ _ Hc).
      split; [split|split; [|split; [|split]]].
      + by rewrite length_insert.
      + intros i Hi. rewrite list_lookup_insert_ne by lia. apply Hctd. lia.
      + apply filter_ext_elem. intros j Hj. apply elem_of_seqZ in Hj.
        rewrite existsb_app. simpl. rewrite orb_false_r.
        rewrite Hbit by lia. done.
      + by rewrite length_insert.
      + assert (Hi : (Z.to_nat k < length dcs)%nat) by (unfold size in *; lia).
        rewrite (take_S_r _ _ (mkSequence ((fun j => bit (without_columns
                   (take (Z.to_nat k) cs) <$> M) j (c - k)) <$> seqZ 0 n) c))
          by (by apply list_lookup_insert_eq).
        rewrite take_insert. destruct (decide _) as [?|_]; [lia|].
        rewrite Hdcs, fmap_app. simpl. do 2 f_equal.
        unfold saved_column. f_equal. apply list_fmap_ext. intros i j Hj.
        apply list_elem_of_lookup_2, elem_of_seqZ in Hj. apply Hbit. fold n. lia.
      + rewrite <- list_fmap_compose. apply list_fmap_ext. intros i r Hr. simpl.
        destruct (without_columns_step W (take (Z.to_nat k) cs) c r) as [_ H2];
          [apply Hrect; by eapply list_elem_of_lookup_2|done|done|done|].
        rewrite Hsz in H2. done. }
  revert HP. generalize (for_range 0 (size cs) delete_column (cs, [], dcs0, M)).
  intros [[[ctd rs] dcs] mat] HP. unfold P in HP. simpl in HP.
  destruct HP as (_ & -> & H3 & H4 & ->); [pose proof (size_nonneg cs); lia|].
  exists ctd. unfold size in H4 |- *. rewrite Nat2Z.id in H4 |- *.
  rewrite firstn_all in H4 |- *. rewrite <- H3, firstn_all in H4. by rewrite H4.
Qed.

Lemma remove_closed_form dc dr :
  removeRowsAndColumnsForGivenRow row dc dr M =
    (reduced M row, saved_column M <$> ones M row, saved_row M row <$> clashing M row).
Proof.
  unfold removeRowsAndColumnsForGivenRow. rewrite select_columns_ones.
  destruct (delete_column_loop (resize (length (ones M row)) new_sequence dc)) as [ctd Hl];
    [apply length_resize|].
  rewrite Hl.
  pose proof (delete_row_loop (fun j => existsb (bit M j) (ones M row) = true)
    (without_columns (ones M row) <$> M)
    (resize (length (clashing M row)) new_helper dr)) as Hrows.
  rewrite !size_fmap in Hrows. fold (clashing M row) in Hrows.
  destruct Hrows as [d Hrows]; [apply length_resize|].
  rewrite Hrows. f_equal. apply list_fmap_ext. intros i j Hj.
  apply list_elem_of_lookup_2, list_elem_of_filter in Hj. destruct Hj as [_ Hj].
  apply elem_of_seqZ in Hj. unfold saved_row.
  by rewrite (at_fmap _ new_sequence new_sequence) by lia.
Qed.

End Effect.

End Remove.

(** ** Restoring the rows and columns of a row *)

Section Restore.

Import AlgorithmX.

Variables (M : list sequenceAlgorithmX) (W row : Z).
Hypothesis Hrect : rectangular W M.
Hypothesis Hrow : 0 <= row < size M.

Lemma ones_suffix (k : nat) c :
  ones M row !! k = Some c ->
  0 <= c < W /\ forall z, z ∈ drop (S k) (ones M row) -> c < z.
Proof.
  intros Hk. destruct (ones_prefix M W row Hrect Hrow k c Hk) as (H1 & _ & _ & H2 & _).
  done.
Qed.

Lemma clashing_suffix (k : nat) x :
  clashing M row !! k = Some x ->
  0 <= x < size M /\ forall z, z ∈ drop (S k) (clashing M row) -> x < z.
Proof.
  intros Hk. pose proof (take_drop_middle _ _ _ Hk) as Hsplit.
  symmetry in Hsplit. unfold clashing at 1 in Hsplit.
  apply filter_seqZ_split in Hsplit. destruct Hsplit as (Hc & _ & _ & H2).
  split; [done|].
  intros z Hz. rewrite H2 in Hz. apply list_elem_of_filter in Hz.
  destruct Hz as [_ Hz]. apply elem_of_seqZ in Hz. lia.
Qed.

Lemma without_nil {A} (d : A) (v : list A) : without d [] v = v.
Proof.
  unfold without. rewrite (filter_seqZ_all _) by (intros; apply not_elem_of_nil).
  apply pick_all.
Qed.

Lemma without_columns_nil r : without_columns [] r = r.
Proof. unfold without_columns, set_sequence. rewrite without_nil. by destruct r. Qed.

(** The loop that puts the rows back. *)
Lemma restore_rows_loop :
  for_range 0 (size (saved_row M row <$> clashing M row)) (fun i mat =>
    insert_at (rowNumberInOriginalSequence
                 (at_ new_helper (saved_row M row <$> clashing M row) i))
              (rowSequence (at_ new_helper (saved_row M row <$> clashing M row) i)) mat)
    (reduced M row) = without_columns (ones M row) <$> M.
Proof.
  set (rs := clashing M row). set (M2 := without_columns (ones M row) <$> M).
  rewrite size_fmap.
  pose (P := fun (k : Z) (mat : list sequenceAlgorithmX) =>
    0 <= k <= size rs -> mat = without new_sequence (drop (Z.to_nat k) rs) M2).
  assert (HP : P (size rs) (for_range 0 (size rs) (fun i mat =>
    insert_at (rowNumberInOriginalSequence (at_ new_helper (saved_row M row <$> rs) i))
              (rowSequence (at_ new_helper (saved_row M row <$> rs) i)) mat)
    (reduced M row))).
  { apply (for_range_ind P); unfold P; [apply size_nonneg|done|].
    intros k mat Hk IH _. rewrite IH by lia. clear IH.
    destruct (lookup_lt_is_Some_2 rs (Z.to_nat k)) as [x Hx]; [unfold size in *; lia|].
    destruct (clashing_suffix _ _ Hx) as [Hxr Hgt]. fold rs in Hgt.
    rewrite (at_fmap _ 0 new_helper) by lia.
    rewrite (at_Some 0 rs k x Hx). unfold saved_row. simpl.
    rewrite (drop_S _ _ _ Hx).
    replace (Z.to_nat (k + 1)) with (S (Z.to_nat k)) by lia.
    assert (Hsz : size M2 = size M) by apply size_fmap.
    pose proof (pick_insert_step new_sequence M2 (drop (S (Z.to_nat k)) rs) x Hgt) as Hins.
    rewrite Hsz in Hins. specialize (Hins Hxr).
    unfold M2 at 1 in Hins. rewrite (at_fmap _ new_sequence new_sequence) in Hins by lia.
    unfold without. rewrite Hsz. exact Hins. }
  unfold P in HP. rewrite HP by (pose proof (size_nonneg rs); lia).
  unfold size. rewrite Nat2Z.id, drop_all. apply without_nil.
Qed.

(** The loop that puts the columns back. *)
Lemma restore_columns_loop :
  for_range 0 (size (saved_column M <$> ones M row)) (fun i mat =>
    for_range 0 (size mat) (fun j mat =>
      <[Z.to_nat j :=
          set_sequence
            (insert_at (numberInOriginalSequence
                          (at_ new_sequence (saved_column M <$> ones M row) i))
               (at_ false (sequence (at_ new_sequence (saved_column M <$> ones M row) i)) j)
               (sequence (at_ new_sequence mat j)))
            (at_ new_sequence mat j)]> mat) mat)
    (without_columns (ones M row) <$> M) = M.
Proof.
  set (cs := ones M row). rewrite size_fmap.
  pose (P := fun (k : Z) (mat : list sequenceAlgorithmX) =>
    0 <= k <= size cs -> mat = without_columns (drop (Z.to_nat k) cs) <$> M).
  assert (HP : P (size cs) (for_range 0 (size cs) (fun i mat =>
    for_range 0 (size mat) (fun j mat =>
      <[Z.to_nat j :=
          set_sequence
            (insert_at (numberInOriginalSequence
                          (at_ new_sequence (saved_column M <$> cs) i))
               (at_ false (sequence (at_ new_sequence (saved_column M <$> cs) i)) j)
               (sequence (at_ new_sequence mat j)))
            (at_ new_sequence mat j)]> mat) mat)
    (without_columns cs <$> M))).
  { apply (for_range_ind P); unfold P; [apply size_nonneg|done|].
    intros k mat Hk IH _. rewrite IH by lia. clear IH.
    destruct (lookup_lt_is_Some_2 cs (Z.to_nat k)) as [c Hc]; [unfold size in *; lia|].
    destruct (ones_suffix _ _ Hc) as [Hcr Hgt]. fold cs in Hgt.
    rewrite (at_fmap _ 0 new_sequence) by lia.
    rewrite (at_Some 0 cs k c Hc). unfold saved_column. simpl.
    rewrite (for_range_update new_sequence (fun j r =>
      set_sequence (insert_at c (at_ false ((fun j0 => bit M j0 c) <$> seqZ 0 (size M)) j)
                      (sequence r)) r)).
    rewrite imap_fmap.
    replace (Z.to_nat (k + 1)) with (S (Z.to_nat k)) by lia.
    rewrite (drop_S _ _ _ Hc).
    rewrite <- (imap_const (without_columns (drop (S (Z.to_nat k)) cs)) M).
    apply imap_ext. intros j r Hr. simpl.
    assert (Hj : 0 <= Z.of_nat j < size M).
    { apply lookup_lt_Some in Hr. unfold size. lia. }
    rewrite (at_fmap _ 0 false) by (unfold size; rewrite length_seqZ; unfold size in Hj; lia).
    assert (Hseq : at_ 0 (seqZ 0 (size M)) (Z.of_nat j) = Z.of_nat j).
    { apply at_Some. rewrite Nat2Z.id. rewrite lookup_seqZ_lt by lia. done. }
    rewrite Hseq. unfold bit. rewrite (at_nat _ _ _ _ Hr).
    assert (HW : size (sequence r) = W).
    { apply Hrect. by eapply list_elem_of_lookup_2. }
    pose proof (pick_insert_step false (sequence r) (drop (S (Z.to_nat k)) cs) c Hgt) as Hins.
    rewrite HW in Hins. specialize (Hins Hcr).
    unfold without_columns, set_sequence, without. simpl. rewrite HW, Hins. done. }
  unfold P in HP. rewrite HP by (pose proof (size_nonneg cs); lia).
  unfold size. rewrite Nat2Z.id, drop_all.
  transitivity (id <$> M); [|by rewrite list_fmap_id].
  apply list_fmap_ext. intros i r _. apply without_columns_nil.
Qed.

Lemma restore_removed dc dr :
  let '(removed, deletedColumns, deletedRows) :=
    removeRowsAndColumnsForGivenRow row dc dr M in
  restoreRowsAndColumnsForGivenRowAlgorithmX deletedColumns deletedRows removed = M.
Proof.
  rewrite (remove_closed_form M W row Hrect Hrow).
  unfold restoreRowsAndColumnsForGivenRowAlgorithmX.
  rewrite restore_rows_loop. apply restore_columns_loop.
Qed.

End Restore.

(** ** The matrix stays proper *)

Section Proper.

Import AlgorithmX.

Lemma elem_of_pick {A} (d : A) (v : list A) l x :
  x ∈ pick d v l <-> exists i, i ∈ l /\ x = at_ d v i.
Proof. unfold pick. rewrite list_elem_of_fmap. naive_solver. Qed.

Lemma size_without {A} (d : A) (ys : list Z) (v : list A) :
  NoDup ys -> (forall y, y ∈ ys -> 0 <= y < size v) ->
  size (without d ys v) = size v - size ys.
Proof.
  intros Hnd Hys. unfold without. rewrite size_pick. unfold size at 1.
  apply length_filter_not_elem; [apply size_nonneg|done|done].
Qed.

Lemma NoDup_clashing M row : NoDup (clashing M row).
Proof. apply NoDup_filter, NoDup_seqZ. Qed.

Lemma elem_of_clashing M row j :
  j ∈ clashing M row <->
  0 <= j < size M /\ exists c, c ∈ ones M row /\ bit M j c = true.
Proof.
  unfold clashing. rewrite list_elem_of_filter, elem_of_seqZ, existsb_exists.
  split.
  - intros [(c & Hc & Hb) Hj]. split; [lia|]. exists c. split; [|done].
    by apply list_elem_of_In.
  - intros [Hj (c & Hc & Hb)]. split; [|lia]. exists c. split; [|done].
    by apply list_elem_of_In.
Qed.

Section Reduced.

Variables (M : list sequenceAlgorithmX) (W row : Z).
Hypothesis Hrect : rectangular W M.
Hypothesis Hrow : 0 <= row < size M.

Lemma elem_of_reduced r :
  r ∈ reduced M row <->
  exists j, 0 <= j < size M /\ j ∉ clashing M row /\
            r = without_columns (ones M row) (at_ new_sequence M j).
Proof.
  unfold reduced, without. rewrite elem_of_pick, size_fmap. split.
  - intros (j & Hj & ->). apply list_elem_of_filter in Hj. destruct Hj as [Hj Hr].
    apply elem_of_seqZ in Hr. exists j. split; [lia|split; [done|]].
    by rewrite (at_fmap _ new_sequence new_sequence) by lia.
  - intros (j & Hj & Hn & ->). exists j. split.
    + apply list_elem_of_filter. split; [done|]. apply elem_of_seqZ. lia.
    + by rewrite (at_fmap _ new_sequence new_sequence) by lia.
Qed.

Lemma reduced_rectangular : rectangular (W - size (ones M row)) (reduced M row).
Proof.
  intros r Hr. apply elem_of_reduced in Hr. destruct Hr as (j & Hj & _ & ->).
  unfold without_columns, set_sequence. simpl.
  rewrite size_without.
  - by rewrite (width_at M W Hrect j Hj).
  - apply NoDup_ones.
  - intros c Hc. rewrite (width_at M W Hrect j Hj).
    by apply (elem_of_ones M W row Hrect Hrow) in Hc as [Hc _].
Qed.

Lemma size_reduced : size (reduced M row) = size M - size (clashing M row).
Proof.
  unfold reduced. rewrite size_without, size_fmap; [done|apply NoDup_clashing|].
  intros j Hj. rewrite size_fmap. by apply elem_of_clashing in Hj as [Hj _].
Qed.

Lemma reduced_ones :
  (forall r, r ∈ M -> true ∈ sequence r) ->
  forall r, r ∈ reduced M row -> true ∈ sequence r.
Proof.
  intros Hones r Hr. apply elem_of_reduced in Hr. destruct Hr as (j & Hj & Hn & ->).
  pose proof (Hones (at_ new_sequence M j) (at_elem _ _ _ Hj)) as Hin.
  apply list_elem_of_lookup in Hin. destruct Hin as [c Hc].
  assert (Hcr : 0 <= Z.of_nat c < W).
  { apply lookup_lt_Some in Hc. rewrite <- (width_at M W Hrect j Hj). unfold size. lia. }
  assert (Hb : bit M j (Z.of_nat c) = true) by (unfold bit; by apply at_nat).
  unfold without_columns, set_sequence, without. simpl.
  apply elem_of_pick. exists (Z.of_nat c). split; [|by symmetry].
  apply list_elem_of_filter. split.
  - intros Hin. apply Hn. apply elem_of_clashing. split; [done|]. by exists (Z.of_nat c).
  - apply elem_of_seqZ. rewrite (width_at M W Hrect j Hj). lia.
Qed.

(** Row [row] clashes with itself when it has a one. *)
Lemma row_clashing : true ∈ sequence (at_ new_sequence M row) -> row ∈ clashing M row.
Proof.
  intros Hin. apply list_elem_of_lookup in Hin. destruct Hin as [c Hc].
  assert (Hcr : 0 <= Z.of_nat c < W).
  { apply lookup_lt_Some in Hc. rewrite <- (row_width M W row Hrect Hrow). unfold size. lia. }
  assert (Hb : bit M row (Z.of_nat c) = true) by (unfold bit; by apply at_nat).
  apply elem_of_clashing. split; [done|]. exists (Z.of_nat c). split; [|done].
  by apply (elem_of_ones M W row Hrect Hrow).
Qed.

End Reduced.

Lemma proper_reduced M row :
  proper M -> 0 <= row < size M ->
  proper (reduced M row) /\ size (reduced M row) < size M.
Proof.
  intros [[W HW] Hones Hsize] Hrow.
  assert (Hlt : size (reduced M row) < size M).
  { rewrite (size_reduced M row).
    pose proof (row_clashing M W row HW Hrow (Hones _ (at_elem _ _ _ Hrow))) as Hin.
    destruct (clashing M row) as [|x l]; [by apply elem_of_nil in Hin|].
    unfold size. simpl. lia. }
  split; [|done]. split.
  - eexists. by apply reduced_rectangular.
  - by apply (reduced_ones M W row).
  - lia.
Qed.

End Proper.

(** ** The column with the fewest ones *)

Section Choose.

Import AlgorithmX.

Lemma count_ones_filter M col :
  count_ones M col = size (filter (fun j => bit M j col = true) (seqZ 0 (size M))).
Proof.
  unfold count_ones.
  pose (P := fun (k : Z) (acc : Z) =>
    acc = size (filter (fun j => bit M j col = true) (seqZ 0 k))).
  apply (for_range_ind P); unfold P; [apply size_nonneg|done|].
  intros j acc Hj ->. rewrite seqZ_snoc by lia. rewrite filter_app, size_app, Z.add_0_l.
  destruct (bit M j col) eqn:Hb.
  - rewrite filter_cons_True by done. done.
  - rewrite filter_cons_False by (rewrite Hb; done). unfold size at 3. simpl. lia.
Qed.

Lemma count_ones_bounds M col : 0 <= count_ones M col <= size M.
Proof.
  rewrite count_ones_filter. split; [apply size_nonneg|].
  unfold size. pose proof (length_filter (fun j => bit M j col = true)
                             (seqZ 0 (Z.of_nat (length M)))) as Hle.
  rewrite length_seqZ in Hle. lia.
Qed.

Lemma proper_width_pos M W :
  proper M -> rectangular W M -> M <> [] -> 0 < W.
Proof.
  intros [_ Hones _] HW Hne. destruct M as [|r M']; [done|].
  assert (Hr : r ∈ r :: M') by set_solver.
  specialize (Hones r Hr). rewrite <- (HW r Hr).
  destruct (sequence r); [by apply elem_of_nil in Hones|]. unfold size. simpl. lia.
Qed.

Lemma chooseProperColumn_spec garbage M W :
  proper M -> rectangular W M -> M <> [] ->
  0 <= chooseProperColumnAlgorithmX garbage M < W /\
  (forall c, 0 <= c < W ->
     count_ones M (chooseProperColumnAlgorithmX garbage M) <= count_ones M c) /\
  (forall c, 0 <= c < chooseProperColumnAlgorithmX garbage M ->
     count_ones M (chooseProperColumnAlgorithmX garbage M) < count_ones M c).
Proof.
  intros Hp HW Hne. pose proof (proper_width_pos M W Hp HW Hne) as HWpos.
  unfold chooseProperColumnAlgorithmX.
  assert (Hw0 : size (sequence (at_ new_sequence M 0)) = W).
  { apply HW. apply at_elem. destruct M; [done|]. unfold size. simpl. lia. }
  rewrite Hw0.
  pose (P := fun (k : Z) (s : Z * Z) =>
    (k = 0 /\ s = (garbage, INT_MAX)) \/
    (0 < k /\ s.2 = count_ones M s.1 /\ 0 <= s.1 < k /\
     (forall c, 0 <= c < k -> count_ones M s.1 <= count_ones M c) /\
     (forall c, 0 <= c < s.1 -> count_ones M s.1 < count_ones M c))).
  assert (HP : P W (for_range 0 W (fun col '(columnNumber, minNumberOfOnes) =>
       let currNumberOfOnes := count_ones M col in
       if currNumberOfOnes <? minNumberOfOnes then (col, currNumberOfOnes)
       else (columnNumber, minNumberOfOnes)) (garbage, INT_MAX))).
  { apply (for_range_ind P); unfold P; [lia|by left|].
    intros k [c m] Hk IH. right. simpl in IH.
    destruct IH as [[-> [= -> ->]]|(Hk0 & -> & Hc & Hmin & Hfirst)].
    - pose proof (count_ones_bounds M 0) as Hb. destruct Hp as [_ _ Hsz].
      destruct (count_ones M 0 <? INT_MAX) eqn:E; [|lia]. simpl.
      split; [lia|]. split; [done|]. split; [lia|]. split.
      + intros c Hc. replace c with 0 by lia. lia.
      + intros c Hc. lia.
    - simpl. destruct (count_ones M k <? count_ones M c) eqn:E; simpl.
      + split; [lia|]. split; [done|]. split; [lia|]. split.
        * intros c' Hc'. destruct (decide (c' = k)) as [->|Hne']; [lia|].
          specialize (Hmin c'). lia.
        * intros c' Hc'. specialize (Hmin c'). lia.
      + split; [lia|]. split; [done|]. split; [lia|]. split.
        * intros c' Hc'. destruct (decide (c' = k)) as [->|Hne']; [lia|].
          apply Hmin. lia.
        * done. }
  unfold P in HP. destruct HP as [[-> _]|(_ & _ & H1 & H2 & H3)]; [lia|]. done.
Qed.

End Choose.

(** ** The search of the matrix program *)

Section SearchX.

Import AlgorithmX.

Lemma restore_closed_form M W row :
  rectangular W M -> 0 <= row < size M ->
  restoreRowsAndColumnsForGivenRowAlgorithmX
    (saved_column M <$> ones M row) (saved_row M row <$> clashing M row) (reduced M row) = M.
Proof.
  intros HW Hrow. pose proof (restore_removed M W row HW Hrow [] []) as H.
  by rewrite (remove_closed_form M W row HW Hrow) in H.
Qed.

Lemma search_rows_failure rec fuel row col st st' :
  (forall s s', proper (exactCoverProblem s) ->
     size (exactCoverProblem s) < size (exactCoverProblem st) ->
     rec s = Some (true, s') -> s' = s) ->
  proper (exactCoverProblem st) -> 0 <= row ->
  search_rows rec fuel row col st = Some (true, st') -> st' = st.
Proof.
  intros Hrec Hp. revert row. induction fuel as [|fuel IH]; intros row Hrow; [done|]. simpl.
  destruct (row <? size (exactCoverProblem st)) eqn:Hlt; [|congruence].
  destruct (bit (exactCoverProblem st) row col); [|apply IH; lia].
  destruct (proper_width _ Hp) as [W HW].
  rewrite (remove_closed_form _ W row HW) by lia.
  destruct (proper_reduced _ row Hp) as [Hp' Hsz]; [lia|].
  destruct (rec _) as [[[] s3]|] eqn:Hr; [|done..].
  apply Hrec in Hr; [|done..]. subst s3. simpl.
  rewrite (restore_closed_form _ W row HW) by lia.
  rewrite removelast_last. destruct st. simpl. apply IH. lia.
Qed.

Variable N : Z.

Lemma search_failure depth fuel garbage st st' :
  proper (exactCoverProblem st) ->
  search N depth fuel garbage st = Some (true, st') -> st' = st.
Proof.
  revert st st'. induction depth as [|depth IH]; intros st st' Hp; [done|]. simpl.
  destruct (decide (exactCoverProblem st = [])); [done|].
  apply search_rows_failure; [|done|lia].
  intros s s' Hs _. by apply IH.
Qed.

Lemma search_rows_total rec fuel row col st :
  (forall s, proper (exactCoverProblem s) ->
     size (exactCoverProblem s) < size (exactCoverProblem st) -> is_Some (rec s)) ->
  (forall s s', proper (exactCoverProblem s) ->
     size (exactCoverProblem s) < size (exactCoverProblem st) ->
     rec s = Some (true, s') -> s' = s) ->
  proper (exactCoverProblem st) -> 0 <= row <= size (exactCoverProblem st) ->
  size (exactCoverProblem st) - row < Z.of_nat fuel ->
  is_Some (search_rows rec fuel row col st).
Proof.
  intros Htot Hrec Hp. revert row.
  induction fuel as [|fuel IH]; intros row Hrow Hfuel; [lia|].
  simpl. destruct (row <? size (exactCoverProblem st)) eqn:Hlt; [|done].
  destruct (bit (exactCoverProblem st) row col); [|apply IH; lia].
  destruct (proper_width _ Hp) as [W HW].
  rewrite (remove_closed_form _ W row HW) by lia.
  destruct (proper_reduced _ row Hp) as [Hp' Hsz]; [lia|].
  destruct (Htot (mkState (reduced (exactCoverProblem st) row)
    (currSolution st ++
       [numberInOriginalSequence (at_ new_sequence (exactCoverProblem st) row)])
    (sudokuSolution st) (printed st))) as [[b s3] Hr]; [done..|].
  rewrite Hr. destruct b; [|done].
  apply Hrec in Hr; [|done..]. subst s3. simpl.
  rewrite (restore_closed_form _ W row HW) by lia.
  rewrite removelast_last. destruct st. simpl. apply IH; simpl in *; lia.
Qed.

Lemma search_total depth fuel garbage st :
  proper (exactCoverProblem st) ->
  size (exactCoverProblem st) < Z.of_nat depth ->
  size (exactCoverProblem st) < Z.of_nat fuel ->
  is_Some (search N depth fuel garbage st).
Proof.
  revert st. induction depth as [|depth IH]; intros st Hp Hd Hf.
  { pose proof (size_nonneg (exactCoverProblem st)). lia. }
  simpl. destruct (decide (exactCoverProblem st = [])); [done|].
  apply search_rows_total; [| |done|pose proof (size_nonneg (exactCoverProblem st)); lia|lia].
  - intros s Hs Hlt. apply IH; [done|lia|lia].
  - intros s s' Hs _. by apply search_failure.
Qed.

End SearchX.

(** ** The matrix that [initializeMatrix] builds *)

Lemma lookup_insert_true (l : list bool) (p j : nat) b :
  l !! j = Some b -> <[p := true]> l !! j = Some (b || bool_decide (p = j)).
Proof.
  intros Hj. destruct (decide (p = j)) as [->|Hne].
  - rewrite bool_decide_eq_true_2 by done. rewrite orb_true_r.
    apply list_lookup_insert_eq. by eapply lookup_lt_Some.
  - rewrite bool_decide_eq_false_2 by done. rewrite orb_false_r.
    by rewrite list_lookup_insert_ne.
Qed.

Section Init.

Import AlgorithmX.

Context (N : Z) {HN : GoodSize N}.
Let N_pos : 0 < N := size_pos.
Let N_square : Z.sqrt N * Z.sqrt N = N := size_square.

Local Abbreviation C := (COLUMNS N).
Local Abbreviation R := (ROWS N).

Lemma init_row i :
  0 <= i < R ->
  <[Z.to_nat (cols N i 3) := true]>
    (<[Z.to_nat (cols N i 2) := true]>
       (<[Z.to_nat (cols N i 1) := true]>
          (<[Z.to_nat (cols N i 0) := true]> (replicate (Z.to_nat C) false)))) =
  (fun j => ECP_get (initializeExactCoverProblem N ∅) i j) <$> seqZ 0 C.
Proof.
  intros Hi. apply list_eq. intros j. rewrite list_lookup_fmap.
  destruct (decide (Z.of_nat j < C)) as [Hj|Hj].
  - rewrite lookup_seqZ_lt by done. simpl.
    assert (Hb : replicate (Z.to_nat C) false !! j = Some false)
      by (apply lookup_replicate_2; lia).
    apply (lookup_insert_true _ (Z.to_nat (cols N i 0))) in Hb.
    apply (lookup_insert_true _ (Z.to_nat (cols N i 1))) in Hb.
    apply (lookup_insert_true _ (Z.to_nat (cols N i 2))) in Hb.
    apply (lookup_insert_true _ (Z.to_nat (cols N i 3))) in Hb.
    rewrite Hb. f_equal. rewrite Z.add_0_l. simpl.
    pose proof (cols_range N i 0 Hi) as H0. pose proof (cols_range N i 1 Hi) as H1.
    pose proof (cols_range N i 2 Hi) as H2. pose proof (cols_range N i 3 Hi) as H3.
    destruct (ECP_get (initializeExactCoverProblem N ∅) i (Z.of_nat j)) eqn:Hget.
    + apply (ECP_get_init N i _ Hi) in Hget. destruct Hget as (k & Hk & Hcol).
      assert (k = 0 \/ k = 1 \/ k = 2 \/ k = 3) as [-> | [-> | [-> | -> ]]] by lia.
      * rewrite (bool_decide_eq_true_2 (Z.to_nat (cols N i 0) = j)) by lia. done.
      * rewrite (bool_decide_eq_true_2 (Z.to_nat (cols N i 1) = j)) by lia.
        by rewrite !orb_true_r.
      * rewrite (bool_decide_eq_true_2 (Z.to_nat (cols N i 2) = j)) by lia.
        by rewrite !orb_true_r.
      * rewrite (bool_decide_eq_true_2 (Z.to_nat (cols N i 3) = j)) by lia.
        by rewrite !orb_true_r.
    + apply not_true_iff_false. intros Htrue. apply not_true_iff_false in Hget.
      apply Hget. apply (ECP_get_init N i _ Hi).
      apply orb_prop in Htrue. destruct Htrue as [Htrue|Htrue];
        [|exists 3; apply bool_decide_eq_true_1 in Htrue; lia].
      apply orb_prop in Htrue. destruct Htrue as [Htrue|Htrue];
        [|exists 2; apply bool_decide_eq_true_1 in Htrue; lia].
      apply orb_prop in Htrue. destruct Htrue as [Htrue|Htrue];
        [|exists 1; apply bool_decide_eq_true_1 in Htrue; lia].
      exists 0. apply bool_decide_eq_true_1 in Htrue. lia.
  - rewrite lookup_seqZ_ge by lia. simpl. apply lookup_ge_None.
    rewrite !length_insert, length_replicate. lia.
Qed.

Lemma initializeMatrix_table : initializeMatrix N [] = table N.
Proof.
  unfold initializeMatrix, table. rewrite resize_nil.
  assert (HR : 0 <= R) by (unfold ROWS; nia).
  pose (P := fun (k : Z) (m : list sequenceAlgorithmX) =>
    0 <= k <= R ->
    m = (table_row N <$> seqZ 0 k) ++ replicate (Z.to_nat (R - k)) new_sequence).
  match goal with |- ?lhs = _ => assert (HP : P R lhs) end.
  { apply (for_range_ind P); unfold P; [done| |].
    - intros _. simpl. by rewrite Z.sub_0_r.
    - intros k m Hk IH _. rewrite IH by lia. clear IH.
      assert (Hlen : length (table_row N <$> seqZ 0 k) = Z.to_nat k).
      { by rewrite length_fmap, length_seqZ. }
      assert (Hat : at_ new_sequence
                ((table_row N <$> seqZ 0 k) ++ replicate (Z.to_nat (R - k)) new_sequence) k
              = new_sequence).
      { apply at_Some. rewrite lookup_app_r by lia. rewrite Hlen, Nat.sub_diag.
        apply lookup_replicate_2. lia. }
      rewrite Hat. unfold set_sequence, set_number, new_sequence. simpl.
      rewrite resize_nil.
      pose proof (init_row k Hk) as Hrow. unfold cols in Hrow. simpl in Hrow.
      unfold ecp_box, ecp_row, ecp_column, ecp_candidate in Hrow.
      rewrite Z.add_0_l in Hrow. rewrite Z.mul_1_l in Hrow.
      rewrite Hrow.
      rewrite insert_app_r_alt by lia. rewrite Hlen, Nat.sub_diag.
      replace (Z.to_nat (R - k)) with (S (Z.to_nat (R - (k + 1)))) by lia.
      simpl. rewrite seqZ_snoc by lia. rewrite fmap_app, <- app_assoc. simpl.
      by rewrite Z.add_0_l. }
  unfold P in HP. rewrite HP by lia. rewrite Z.sub_diag. simpl. apply app_nil_r.
Qed.

End Init.

(** ** Loading the clues into the matrix *)

Section Convert.

Import AlgorithmX.

Lemma existsb_snoc {A} (f : A -> bool) l x : existsb f (l ++ [x]) = existsb f l || f x.
Proof. rewrite existsb_app. simpl. by rewrite orb_false_r. Qed.

Lemma existsb_at (l : list bool) :
  existsb (fun j => at_ false l j) (seqZ 0 (size l)) = bool_decide (true ∈ l).
Proof.
  destruct (bool_decide (true ∈ l)) eqn:Hd.
  - apply bool_decide_eq_true_1 in Hd. apply list_elem_of_lookup in Hd.
    destruct Hd as [j Hj]. apply existsb_exists. exists (Z.of_nat j). split.
    + apply list_elem_of_In, elem_of_seqZ. apply lookup_lt_Some in Hj. unfold size. lia.
    + by apply at_nat.
  - apply bool_decide_eq_false_1 in Hd. apply not_true_iff_false. intros Hex.
    apply existsb_exists in Hex. destruct Hex as (j & Hj & Hb).
    apply list_elem_of_In, elem_of_seqZ in Hj. apply Hd.
    rewrite <- Hb. apply at_elem. lia.
Qed.

Variable N : Z.

Lemma existsb_ext_elem {A} (f g : A -> bool) l :
  (forall x, x ∈ l -> f x = g x) -> existsb f l = existsb g l.
Proof.
  induction l as [|x l IH]; intros H; [done|]. simpl.
  rewrite (H x) by set_solver. rewrite IH; [done|]. intros y Hy. apply H. set_solver.
Qed.

Lemma existsb_and_const {A} (f : A -> bool) (t : bool) l :
  existsb (fun x => f x && t) l = existsb f l && t.
Proof.
  induction l as [|x l IH]; [done|]. simpl. rewrite IH.
  destruct (f x), t, (existsb f l); done.
Qed.

(** The loop over [j] once [ifContinue] is false: its condition reads row
    [i] and then stops the loop. *)
Lemma convert_entries_stopped fuel inputR inputC v Candidate Row Column i j M sol :
  convert_entries N fuel inputR inputC v Candidate Row Column i j (false, M, sol) =
  if size M <=? i then OutOfBounds else Returns (false, M, sol).
Proof.
  destruct fuel; simpl; destruct (size M <=? i); try done; by rewrite andb_false_r.
Qed.

Lemma convert_rows_stopped fuel k inputR inputC v i M sol :
  convert_rows N fuel k inputR inputC v i (false, M, sol) = Returns (false, M, sol).
Proof. destruct k; simpl; by rewrite andb_false_r. Qed.

Lemma seqZ_head (m n : Z) : 0 < n -> seqZ m n = m :: seqZ (m + 1) (n - 1).
Proof.
  intros Hn. replace n with (Z.succ (n - 1)) at 1 by lia. rewrite seqZ_cons by lia.
  f_equal. f_equal; lia.
Qed.

Lemma seqZ_none (m n : Z) : n <= 0 -> seqZ m n = [].
Proof. intros Hn. apply seqZ_nil. lia. Qed.

(** The loop over [j] when it starts with [ifContinue] true: it acts at
    the first entry that passes the test, and then reads row [i] of the
    matrix that is left. *)
Lemma convert_entries_spec fuel inputR inputC v Candidate Row Column i j M W sol :
  rectangular W M -> 0 <= i < size M -> W - j <= Z.of_nat fuel ->
  convert_entries N fuel inputR inputC v Candidate Row Column i j (true, M, sol) =
  if existsb (fun j' => bit M i j' && (Candidate =? v) && (Row =? inputR)
                        && (Column =? inputC)) (seqZ j (W - j))
  then if size (reduced M i) <=? i then OutOfBounds
       else Returns (false, reduced M i, <[Z.to_nat (Row * N + Column) := v]> sol)
  else Returns (true, M, sol).
Proof.
  intros HW Hi. revert j. induction fuel as [|fuel IH]; intros j Hfuel.
  - simpl. destruct (size M <=? i) eqn:Hle; [lia|].
    rewrite (width_at M W HW i) by lia.
    destruct (j <? W) eqn:Hj; [lia|]. simpl. rewrite seqZ_none by lia. done.
  - simpl. destruct (size M <=? i) eqn:Hle; [lia|].
    rewrite (width_at M W HW i) by lia.
    destruct (j <? W) eqn:Hj; simpl; [|rewrite seqZ_none by lia; done].
    rewrite (seqZ_head j (W - j)) by lia. simpl.
    destruct (bit M i j && (Candidate =? v) && (Row =? inputR) && (Column =? inputC)).
    + rewrite (remove_closed_form M W i HW) by lia. simpl.
      apply convert_entries_stopped.
    + simpl. replace (W - j - 1) with (W - (j + 1)) by lia. apply IH. lia.
Qed.

(** For one clue, the loops look for the first row that holds a one and
    stands for the clue; they remove its rows and columns, and then read
    the row at its position in the matrix that is left. *)
Lemma convert_rows_spec fuel k inputR inputC v i M W sol :
  rectangular W M -> 0 <= i -> W <= Z.of_nat fuel -> size M - i <= Z.of_nat k ->
  convert_rows N fuel k inputR inputC v i (true, M, sol) =
  match head (filter (fun p => clue_row N inputR inputC v (at_ new_sequence M p) = true)
                     (seqZ i (size M - i))) with
  | Some p =>
      if size (reduced M p) <=? p then OutOfBounds
      else Returns (false, reduced M p, <[Z.to_nat (inputR * N + inputC) := v]> sol)
  | None => Returns (true, M, sol)
  end.
Proof.
  intros HW Hi Hfuel. revert i Hi. induction k as [|k IH]; intros i Hi Hk.
  - simpl. destruct (i <? size M) eqn:Hlt; [lia|]. simpl. rewrite seqZ_none by lia. done.
  - simpl. destruct (i <? size M) eqn:Hlt; simpl; [|rewrite seqZ_none by lia; done].
    set (r := at_ new_sequence M i).
    rewrite (convert_entries_spec fuel _ _ _ _ _ _ i 0 M W sol HW) by lia.
    rewrite Z.sub_0_r.
    assert (Hex : existsb (fun j =>
        bit M i j && (numberInOriginalSequence r `rem` N =? v)
        && (numberInOriginalSequence r `quot` SUDOKU_SIZE_SQUARED N =? inputR)
        && ((numberInOriginalSequence r `quot` N) `rem` N =? inputC))
        (seqZ 0 W) = clue_row N inputR inputC v r).
    { rewrite !existsb_and_const. unfold bit. fold r.
      rewrite <- (width_at M W HW i) by lia. fold r. rewrite existsb_at. done. }
    rewrite Hex. rewrite (seqZ_head i (size M - i)) by lia.
    destruct (clue_row N inputR inputC v r) eqn:Hclue.
    + rewrite filter_cons_True by done. simpl.
      unfold clue_row in Hclue. apply andb_prop in Hclue as [Hclue H3].
      apply andb_prop in Hclue as [Hclue H2]. apply Z.eqb_eq in H2, H3.
      rewrite H2, H3. destruct (size (reduced M i) <=? i); [done|]. simpl.
      apply convert_rows_stopped.
    + rewrite filter_cons_False by (fold r; rewrite Hclue; done). simpl.
      replace (size M - i - 1) with (size M - (i + 1)) by lia. apply IH; lia.
Qed.

Lemma convert_cell_spec fuel inputR inputC v M W sol :
  rectangular W M -> W <= Z.of_nat fuel -> size M <= Z.of_nat fuel ->
  convert_cell N fuel inputR inputC v (M, sol) =
  match find_row N inputR inputC v M with
  | Some i =>
      if size (reduced M i) <=? i then OutOfBounds
      else Returns (reduced M i, <[Z.to_nat (inputR * N + inputC) := v]> sol)
  | None => Returns (M, sol)
  end.
Proof.
  intros HW Hfuel Hk. unfold convert_cell, find_row.
  rewrite (convert_rows_spec fuel fuel inputR inputC v 0 M W sol HW) by lia.
  rewrite Z.sub_0_r.
  destruct (head _) as [p|]; [|done]. by destruct (size (reduced M p) <=? p).
Qed.

End Convert.

(** ** The solver of the matrix program *)

Section SolverX.

Import AlgorithmX.

Lemma find_row_range N inputR inputC v M i :
  find_row N inputR inputC v M = Some i -> 0 <= i < size M.
Proof.
  unfold find_row. intros Hh. apply head_Some_elem_of in Hh.
  apply list_elem_of_filter in Hh. destruct Hh as [_ Hh]. apply elem_of_seqZ in Hh. lia.
Qed.

(** A property of the matrix and [sudokuSolution] that the loops for one
    clue keep holds when [convertSudokuGridToAlgorithmX] returns; with the
    budget of the property the loops do not use up their budget. *)
Lemma convert_inv (Q : list sequenceAlgorithmX * list Z -> Prop) N fuel input st :
  0 <= N -> Q (exactCoverProblem st, sudokuSolution st) ->
  (forall inputR inputC s, Q s ->
     ends_with Q (convert_cell N fuel inputR inputC (input inputR inputC) s)) ->
  ends_with (fun st' =>
      Q (exactCoverProblem st', sudokuSolution st') /\
      currSolution st' = currSolution st /\ printed st' = printed st)
    (convertSudokuGridToAlgorithmX N fuel input st).
Proof.
  intros HN H0 Hstep. unfold convertSudokuGridToAlgorithmX.
  match goal with |- context [for_range 0 N ?body ?init] =>
    assert (HQ : ends_with Q (for_range 0 N body init)) end.
  { apply (for_range_ind (fun _ => ends_with Q)); [done|done|].
    intros inputR r _ Hr.
    apply (for_range_ind (fun _ => ends_with Q)); [done|done|].
    intros inputC [s| |] _ Hs; simpl; [|done|done]. simpl in Hs.
    destruct (input inputR inputC =? -1); [done|]. by apply Hstep. }
  destruct (for_range 0 N _ _) as [[M sol]| |]; simpl; done.
Qed.

Lemma convert_cell_proper N fuel inputR inputC v M W sol :
  proper M -> rectangular W M -> W <= Z.of_nat fuel -> size M <= Z.of_nat fuel ->
  ends_with (fun s => proper s.1 /\ size s.1 <= size M /\
                      exists W', rectangular W' s.1 /\ W' <= W)
    (convert_cell N fuel inputR inputC v (M, sol)).
Proof.
  intros Hp HW Hfuel Hk.
  rewrite (convert_cell_spec N fuel inputR inputC v M W sol HW Hfuel Hk).
  destruct (find_row N inputR inputC v M) as [i|] eqn:Hf; simpl;
    [|split; [done|split; [lia|by exists W]]].
  apply find_row_range in Hf. destruct (proper_reduced M i Hp Hf).
  destruct (size (reduced M i) <=? i); simpl; [done|].
  split; [done|]. split; [lia|]. exists (W - size (ones M i)).
  split; [by apply reduced_rectangular|]. pose proof (size_nonneg (ones M i)). lia.
Qed.

Lemma convert_proper N fuel input st W :
  0 <= N -> proper (exactCoverProblem st) -> rectangular W (exactCoverProblem st) ->
  W <= Z.of_nat fuel -> size (exactCoverProblem st) <= Z.of_nat fuel ->
  ends_with (fun st' =>
      proper (exactCoverProblem st') /\
      size (exactCoverProblem st') <= size (exactCoverProblem st) /\
      currSolution st' = currSolution st /\ printed st' = printed st)
    (convertSudokuGridToAlgorithmX N fuel input st).
Proof.
  intros HN Hp HW Hfuel Hk.
  pose (Q := fun (s : list sequenceAlgorithmX * list Z) =>
    proper s.1 /\ size s.1 <= size (exactCoverProblem st) /\
    exists W', rectangular W' s.1 /\ W' <= W).
  assert (Hinv : ends_with (fun st' =>
      Q (exactCoverProblem st', sudokuSolution st') /\
      currSolution st' = currSolution st /\ printed st' = printed st)
    (convertSudokuGridToAlgorithmX N fuel input st)).
  { apply convert_inv; [done| |].
    - split; [done|]. split; [simpl; lia|by exists W].
    - intros inputR inputC [M sol] (HM & Hsz & W' & HW' & Hle). simpl in HM, Hsz, HW'.
      assert (H1 : W' <= Z.of_nat fuel) by lia.
      assert (H2 : size M <= Z.of_nat fuel) by lia.
      pose proof (convert_cell_proper N fuel inputR inputC (input inputR inputC) M W' sol
                    HM HW' H1 H2) as Hc.
      destruct (convert_cell _ _ _ _ _ _) as [[M' sol']| |]; simpl in *; [|done|done].
      destruct Hc as (Hc1 & Hc2 & W2 & Hc3 & Hc4).
      split; [exact Hc1|]. split; [simpl; lia|]. exists W2. split; [exact Hc3|lia]. }
  destruct (convertSudokuGridToAlgorithmX N fuel input st) as [st'| |]; simpl in *;
    [|done|done].
  destruct Hinv as ((H1 & H2 & _) & H3 & H4). done.
Qed.

Variable N : Z.

Lemma search_rows_solved rec fuel row col st st' :
  (forall s s', proper (exactCoverProblem s) ->
     size (exactCoverProblem s) < size (exactCoverProblem st) ->
     rec s = Some (true, s') -> s' = s) ->
  (forall s s', proper (exactCoverProblem s) ->
     size (exactCoverProblem s) < size (exactCoverProblem st) ->
     rec s = Some (false, s') ->
     printed s' = printed s ++ [PrintGrid (sudokuSolution s')]) ->
  proper (exactCoverProblem st) -> 0 <= row ->
  search_rows rec fuel row col st = Some (false, st') ->
  printed st' = printed st ++ [PrintGrid (sudokuSolution st')].
Proof.
  intros Hrec Hsol Hp. revert row. induction fuel as [|fuel IH]; intros row Hrow; [done|].
  simpl. destruct (row <? size (exactCoverProblem st)) eqn:Hlt; [|done].
  destruct (bit (exactCoverProblem st) row col); [|apply IH; lia].
  destruct (proper_width _ Hp) as [W HW].
  rewrite (remove_closed_form _ W row HW) by lia.
  destruct (proper_reduced _ row Hp) as [Hp' Hsz]; [lia|].
  destruct (rec _) as [[[] s3]|] eqn:Hr; [| |done].
  - apply Hrec in Hr; [|done..]. subst s3. simpl.
    rewrite (restore_closed_form _ W row HW) by lia.
    rewrite removelast_last. destruct st. simpl. apply IH. lia.
  - intros [= <-]. apply Hsol in Hr; done.
Qed.

Lemma search_solved depth fuel garbage st st' :
  proper (exactCoverProblem st) ->
  search N depth fuel garbage st = Some (false, st') ->
  printed st' = printed st ++ [PrintGrid (sudokuSolution st')].
Proof.
  revert st st'. induction depth as [|depth IH]; intros st st' Hp; [done|]. simpl.
  destruct (decide (exactCoverProblem st = [])); [by intros [= <-]|].
  apply search_rows_solved; [| |done|lia].
  - intros s s' Hs _. by apply search_failure.
  - intros s s' Hs _. by apply IH.
Qed.

Context {HN : GoodSize N}.
Let N_pos : 0 < N := size_pos.
Let N_square : Z.sqrt N * Z.sqrt N = N := size_square.

Lemma size_table : size (table N) = ROWS N.
Proof.
  unfold table, size. rewrite length_fmap, length_seqZ. unfold ROWS. nia.
Qed.

Lemma proper_table : ROWS N < INT_MAX -> proper (table N).
Proof.
  intros Hmax. split.
  - exists (COLUMNS N). intros r Hr. unfold table in Hr.
    apply list_elem_of_fmap in Hr. destruct Hr as (i & -> & _). unfold table_row, size. simpl.
    rewrite length_fmap, length_seqZ. unfold COLUMNS. nia.
  - intros r Hr. unfold table in Hr.
    apply list_elem_of_fmap in Hr. destruct Hr as (i & -> & Hi).
    apply elem_of_seqZ in Hi. unfold table_row. simpl.
    apply list_elem_of_fmap. exists (cols N i 0). split.
    + symmetry. apply (ECP_get_init N i); [lia|]. exists 0. split; [lia|done].
    + apply elem_of_seqZ. pose proof (cols_range N i 0). lia.
  - by rewrite size_table.
Qed.

End SolverX.

(** * The matrix program: what its functions do *)

Section Matrix.

Import AlgorithmX.

(** A check that computes: the rows have the width [W] and a one each, and
    there are fewer than [INT_MAX] of them. *)
Lemma proper_check W M :
  forallb (fun r => (size (sequence r) =? W) && existsb id (sequence r)) M = true ->
  (size M <? INT_MAX) = true ->
  rectangular W M /\ proper M.
Proof.
  intros Hall Hsz. rewrite forallb_forall in Hall.
  assert (HW : rectangular W M).
  { intros r Hr. apply list_elem_of_In, Hall, andb_prop in Hr. lia. }
  split; [done|]. split; [by exists W| |lia].
  intros r Hr. apply list_elem_of_In, Hall, andb_prop in Hr. destruct Hr as [_ Hr].
  apply existsb_exists in Hr. destruct Hr as (b & Hb & Hid).
  destruct b; [|done]. by apply list_elem_of_In.
Qed.

(** X6: on a matrix whose rows have one width and for a row of the
    matrix, [removeRowsAndColumnsForGivenRow] leaves the matrix without the
    columns in which the row has a one and without the rows that have a one
    in any of these columns; the other rows and columns keep their order
    and their entries.  [deletedColumns] holds these columns in increasing
    order, each whole and with its position; [deletedRows] holds these rows
    in increasing order, each without the deleted columns and with its
    position.  What [deletedColumns] and [deletedRows] held before does not
    matter. *)
Theorem removeRowsAndColumns_effect M W row dc dr :
  rectangular W M -> 0 <= row < size M ->
  removeRowsAndColumnsForGivenRow row dc dr M =
    (reduced M row, saved_column M <$> ones M row, saved_row M row <$> clashing M row).
Proof. intros HW Hrow. by apply (remove_closed_form M W). Qed.

(** X7: [restoreRowsAndColumnsForGivenRowAlgorithmX], called with what
    [removeRowsAndColumnsForGivenRow] returned, gives back the matrix as it
    was before the removal. *)
Theorem remove_then_restore M W row dc dr :
  rectangular W M -> 0 <= row < size M ->
  restoreRowsAndColumnsForGivenRowAlgorithmX
    (removeRowsAndColumnsForGivenRow row dc dr M).1.2
    (removeRowsAndColumnsForGivenRow row dc dr M).2
    (removeRowsAndColumnsForGivenRow row dc dr M).1.1 = M.
Proof.
  intros HW Hrow. pose proof (restore_removed M W row HW Hrow dc dr) as H.
  by destruct (removeRowsAndColumnsForGivenRow row dc dr M) as [[? ?] ?].
Qed.

(** X8: the removal keeps the matrix proper and makes it smaller: after
    it the rows still have one width, which is the old width less the
    number of ones of the row, every remaining row still holds a one, and
    there are fewer rows than before. *)
Theorem remove_keeps_proper M W row dc dr :
  proper M -> rectangular W M -> 0 <= row < size M ->
  proper (removeRowsAndColumnsForGivenRow row dc dr M).1.1 /\
  rectangular (W - size (ones M row)) (removeRowsAndColumnsForGivenRow row dc dr M).1.1 /\
  size (removeRowsAndColumnsForGivenRow row dc dr M).1.1 < size M.
Proof.
  intros Hp HW Hrow. rewrite (remove_closed_form M W row HW Hrow). simpl.
  destruct (proper_reduced M row Hp Hrow) as [H1 H2].
  split; [done|]. split; [|done]. by apply reduced_rectangular.
Qed.

(** X9: on a proper matrix that has a row, [chooseProperColumnAlgorithmX]
    returns a column of the matrix with the fewest ones, and the leftmost
    of these; the value that its variable [columnNumber] held before the
    loop does not show in the result.  The count of a column is the number
    of rows with a one in it. *)
Theorem chooseProperColumn_leftmost_minimum garbage M W :
  proper M -> rectangular W M -> M <> [] ->
  0 <= chooseProperColumnAlgorithmX garbage M < W /\
  (forall c, 0 <= c < W ->
     count_ones M (chooseProperColumnAlgorithmX garbage M) <= count_ones M c) /\
  (forall c, 0 <= c < chooseProperColumnAlgorithmX garbage M ->
     count_ones M (chooseProperColumnAlgorithmX garbage M) < count_ones M c) /\
  (forall c, count_ones M c =
     size (filter (fun j => bit M j c = true) (seqZ 0 (size M)))) /\
  forall garbage', chooseProperColumnAlgorithmX garbage' M = chooseProperColumnAlgorithmX garbage M.
Proof.
  intros Hp HW Hne.
  destruct (chooseProperColumn_spec garbage M W Hp HW Hne) as (H1 & H2 & H3).
  split; [done|]. split; [done|]. split; [done|]. split; [apply count_ones_filter|].
  intros g'. destruct (chooseProperColumn_spec g' M W Hp HW Hne) as (H1' & H2' & H3').
  destruct (Z.lt_trichotomy (chooseProperColumnAlgorithmX g' M)
              (chooseProperColumnAlgorithmX garbage M)) as [Hlt|[Heq|Hgt]]; [|done|].
  - specialize (H3 _ (conj (proj1 H1') Hlt)). specialize (H2' _ H1). lia.
  - specialize (H3' _ (conj (proj1 H1) Hgt)). specialize (H2 _ H1'). lia.
Qed.

(** X10: when the [search] of the matrix program returns [true] (no
    solution below), the matrix, [currSolution], [sudokuSolution] and the
    output are as they were at the call. *)
Theorem matrix_search_failure_restores N depth fuel garbage st st' :
  proper (exactCoverProblem st) ->
  search N depth fuel garbage st = Some (true, st') -> st' = st.
Proof. apply search_failure. Qed.

(** X11: for one clue, [convertSudokuGridToAlgorithmX] looks for the
    first row of the matrix that holds a one and whose number stands for
    the cell and the value of the clue.  If there is none, the matrix and
    [sudokuSolution] stay as they are.  If there is one, at position [i],
    the rows and columns of that row are removed and the value is written
    to the cell of [sudokuSolution]; the rows after it are not looked at.
    The condition of the loop over the entries then reads row [i] once
    more, in the matrix that is left: when that matrix has no more than [i]
    rows, the read is out of the bounds of the vector.  Budgets of the
    width and of the number of rows of the matrix are enough for the two
    loops. *)
Theorem convert_cell_first_match N fuel inputR inputC v M W sol :
  rectangular W M -> W <= Z.of_nat fuel -> size M <= Z.of_nat fuel ->
  convert_cell N fuel inputR inputC v (M, sol) =
  match find_row N inputR inputC v M with
  | Some i =>
      if size (reduced M i) <=? i then OutOfBounds
      else Returns (reduced M i, <[Z.to_nat (inputR * N + inputC) := v]> sol)
  | None => Returns (M, sol)
  end.
Proof. apply convert_cell_spec. Qed.

Section Size.

Context (N : Z) {HN : GoodSize N}.
Let N_pos : 0 < N := size_pos.
Let N_square : Z.sqrt N * Z.sqrt N = N := size_square.

(** X12: called on the empty vector, [initializeMatrix] builds the matrix
    of [initializeExactCoverProblem]: [N * N * N] rows of [4 * N * N]
    entries, row [i] with the number [i] and with the entries of row [i] of
    [EXACT_COVER_PROBLEM]. *)
Theorem initializeMatrix_builds_table :
  initializeMatrix N [] = table N /\
  size (table N) = ROWS N /\ rectangular (COLUMNS N) (table N) /\
  forall i j, 0 <= i < ROWS N -> 0 <= j < COLUMNS N ->
    bit (table N) i j = ECP_get (initializeExactCoverProblem N ∅) i j /\
    numberInOriginalSequence (at_ new_sequence (table N) i) = i.
Proof.
  split; [apply (initializeMatrix_table N)|]. split; [apply (size_table N)|].
  assert (Hrow : forall i, 0 <= i < ROWS N -> at_ new_sequence (table N) i = table_row N i).
  { intros i Hi. unfold table. rewrite (at_fmap _ 0 new_sequence).
    - f_equal. apply at_Some. rewrite lookup_seqZ_lt by lia. f_equal. lia.
    - unfold size. rewrite length_seqZ. lia. }
  split.
  - intros r Hr. unfold table in Hr. apply list_elem_of_fmap in Hr.
    destruct Hr as (i & -> & _). unfold table_row, size. simpl.
    rewrite length_fmap, length_seqZ. unfold COLUMNS. nia.
  - intros i j Hi Hj. unfold bit. rewrite (Hrow i Hi). unfold table_row. simpl.
    split; [|done]. rewrite (at_fmap _ 0 false).
    + f_equal. apply at_Some. rewrite lookup_seqZ_lt by lia. f_equal. lia.
    + unfold size. rewrite length_seqZ. lia.
Qed.

(** X13: with a recursion depth and a loop budget above the number of
    rows of the matrix, and a loop budget of at least its number of
    columns, a run of the solver of the matrix program does not use up its
    budget on any grid.  Either a clue makes
    [convertSudokuGridToAlgorithmX] read a row out of the bounds of the
    matrix, or the solver returns; it has then printed either one grid,
    which is [sudokuSolution], or that there is no solution, and in the
    second case [currSolution] is empty again. *)
Theorem matrix_solver_ends depth fuel garbage input :
  ROWS N < INT_MAX -> ROWS N < Z.of_nat depth -> ROWS N < Z.of_nat fuel ->
  COLUMNS N <= Z.of_nat fuel ->
  sudokuSolver N depth fuel garbage input = OutOfBounds \/
  exists st, sudokuSolver N depth fuel garbage input = Returns st /\
    (printed st = [PrintGrid (sudokuSolution st)] \/
     printed st = [PrintNoSolution] /\ currSolution st = []).
Proof.
  intros Hmax Hdepth Hfuel Hwidth. unfold sudokuSolver. cbv zeta.
  unfold initial_state at 1 2 3 4. simpl.
  rewrite (initializeMatrix_table N).
  set (st1 := mkState (table N) [] _ []).
  assert (Hp1 : proper (exactCoverProblem st1)) by (by apply (proper_table N)).
  assert (HW1 : rectangular (COLUMNS N) (exactCoverProblem st1)).
  { intros r Hr. simpl in Hr. unfold table in Hr. apply list_elem_of_fmap in Hr.
    destruct Hr as (i & -> & _). unfold table_row, size. simpl.
    rewrite length_fmap, length_seqZ. unfold COLUMNS. nia. }
  pose proof (convert_proper N fuel input st1 (COLUMNS N) ltac:(lia) Hp1 HW1 Hwidth) as Hc.
  simpl in Hc. rewrite (size_table N) in Hc. specialize (Hc ltac:(lia)).
  destruct (convertSudokuGridToAlgorithmX N fuel input st1) as [st2| |];
    simpl in *; [|by left|done].
  right. destruct Hc as (Hp & Hsz & Hcur & Hprint).
  destruct (search_total N depth fuel garbage st2) as [[b st3] Hrun]; [done|lia|lia|].
  rewrite Hrun. destruct b.
  - apply search_failure in Hrun; [|done]. subst st3. eexists. split; [done|]. right.
    simpl. by rewrite Hprint, Hcur.
  - apply search_solved in Hrun; [|done]. exists st3. split; [done|]. left.
    by rewrite Hrun, Hprint.
Qed.

End Size.

End Matrix.

(** * Runs of the two programs on grids of side 4 *)

Lemma no_solution_sound_stuck :
  (FUEL 4 <= FUEL 4)%nat /\
  sudokuSolver 4 17 (FUEL 4) grid_stuck = Some (run 4 17 grid_stuck) /\
  stdout (run 4 17 grid_stuck) = [PrintNoSolution] /\
  (~ exists g, valid_grid 4 g /\ keeps_committed 4 grid_stuck g) /\
  (~ exists g, valid_grid 4 g /\ preserves 4 grid_stuck g).
Proof.
  assert (H1 : (FUEL 4 <= FUEL 4)%nat) by lia.
  assert (H2 : sudokuSolver 4 17 (FUEL 4) grid_stuck = Some (run 4 17 grid_stuck))
    by (vm_compute; reflexivity).
  assert (H3 : stdout (run 4 17 grid_stuck) = [PrintNoSolution])
    by (vm_compute; reflexivity).
  exact (conj H1 (conj H2 (conj H3
    (no_solution_sound 4 grid_stuck 17 (FUEL 4) _ H1 H2 H3)))).
Defined.

Lemma coverColumn_uncoverColumn_two_clues :
  reachable 4 grid_two_clues (after_preload 4 grid_two_clues) /\
  4 ∈ active_columns 4 (after_preload 4 grid_two_clues) /\
  (FUEL 4 <= FUEL 4)%nat /\
  exists m',
    coverColumn (FUEL 4) 4 (after_preload 4 grid_two_clues) = Some m' /\
    uncoverColumn (FUEL 4) 4 m' = Some (after_preload 4 grid_two_clues) /\
    active_columns 4 m' =
      filter (fun c' => c' <> 4) (active_columns 4 (after_preload 4 grid_two_clues)) /\
    column_rows 4 m' 4 = column_rows 4 (after_preload 4 grid_two_clues) 4 /\
    forall c', c' ∈ active_columns 4 m' ->
      sizeOf m' c' = Z.of_nat (length (column_rows 4 m' c')).
Proof.
  assert (H1 : 4 ∈ active_columns 4 (after_preload 4 grid_two_clues)).
  { assert (E : hd 0 (active_columns 4 (after_preload 4 grid_two_clues)) = 4)
      by (vm_compute; reflexivity).
    destruct (active_columns 4 (after_preload 4 grid_two_clues)) as [|c l];
      [discriminate E|]. simpl in E. rewrite E. apply list_elem_of_here. }
  assert (H2 : (FUEL 4 <= FUEL 4)%nat) by lia.
  exact (conj reachable_two_clues (conj H1 (conj H2
    (coverColumn_uncoverColumn 4 grid_two_clues _ 4 (FUEL 4) reachable_two_clues H1 H2)))).
Defined.

Lemma links_consistent_two_clues :
  reachable 4 grid_two_clues (after_preload 4 grid_two_clues) /\
  NoDup (headNode (after_preload 4 grid_two_clues)
         :: active_columns 4 (after_preload 4 grid_two_clues)).
Proof.
  exact (conj reachable_two_clues
    (proj1 (links_consistent 4 grid_two_clues _ reachable_two_clues))).
Defined.

(** The write of the preload for the first clue of [grid_two_clues], and
    the writes of [search] in the run on that grid. *)
Lemma solution_index_in_bounds_two_clues :
  GoodSize 4 /\
  0 <= 0 <= 4 * 4 /\
  2 ∈ active_columns 4 (preload_state 4 grid_two_clues (built 4) 0).2 /\
  66 ∈ column_rows 4 (preload_state 4 grid_two_clues (built 4) 0).2 2 /\
  writes_inside 4 (preload_state 4 grid_two_clues (built 4) 0).2 66 /\
  (FUEL 4 <= FUEL 4)%nat /\
  sudokuSolver 4 17 (FUEL 4) grid_two_clues = Some (run 4 17 grid_two_clues) /\
  stdout (run 4 17 grid_two_clues) =
    [PrintGrid [0; 1; 2; 3; 2; 3; 0; 1; 1; 0; 3; 2; 3; 2; 1; 0]] /\
  exists leaf,
    reachable 4 grid_two_clues leaf /\ active_columns 4 leaf = [] /\
    run 4 17 grid_two_clues =
      print (PrintGrid (SUDOKU_SOLUTION (record_solution 4 leaf))) (record_solution 4 leaf) /\
    length (SUDOKU_SOLUTION leaf) = Z.to_nat (4 * 4) /\
    forall p, p ∈ CURRENT_SOLUTION leaf -> writes_inside 4 leaf p.
Proof.
  assert (H0 : 0 <= 0 <= 4 * 4) by lia.
  assert (H1 : 2 ∈ active_columns 4 (preload_state 4 grid_two_clues (built 4) 0).2).
  { assert (E : hd 0 (active_columns 4 (preload_state 4 grid_two_clues (built 4) 0).2) = 2)
      by (vm_compute; reflexivity).
    destruct (active_columns 4 (preload_state 4 grid_two_clues (built 4) 0).2) as [|c l];
      [discriminate E|]. simpl in E. rewrite E. apply list_elem_of_here. }
  assert (H2 : 66 ∈ column_rows 4 (preload_state 4 grid_two_clues (built 4) 0).2 2).
  { assert (E : column_rows 4 (preload_state 4 grid_two_clues (built 4) 0).2 2
                = [66; 70; 74; 78]) by (vm_compute; reflexivity).
    rewrite E. apply list_elem_of_here. }
  assert (H3 : (FUEL 4 <= FUEL 4)%nat) by lia.
  assert (H4 : sudokuSolver 4 17 (FUEL 4) grid_two_clues = Some (run 4 17 grid_two_clues))
    by (vm_compute; reflexivity).
  assert (H5 : stdout (run 4 17 grid_two_clues) =
    [PrintGrid [0; 1; 2; 3; 2; 3; 0; 1; 1; 0; 3; 2; 3; 2; 1; 0]])
    by (vm_compute; reflexivity).
  destruct (@solution_index_in_bounds 4 GoodSize_4 grid_two_clues) as (Hpre & Hsearch & Hrun).
  split; [exact GoodSize_4|]. split; [exact H0|]. split; [exact H1|]. split; [exact H2|].
  split; [exact (proj2 (Hpre 0 2 66 H0 H1 H2))|].
  split; [exact H3|]. split; [exact H4|]. split; [exact H5|].
  destruct (Hrun 17%nat (FUEL 4) _ _ H3 H4 H5) as (leaf & Hreach & Hact & Hm).
  exists leaf. split; [exact Hreach|]. split; [exact Hact|]. split; [exact Hm|].
  destruct (Hsearch leaf Hreach) as (Hlen & _ & Hcur). split; [exact Hlen|exact Hcur].
Defined.


Section MatrixRuns.

Import AlgorithmX.

(** The matrix of side 4 is proper. *)
Lemma proper_matrix_4 :
  rectangular 64 (initializeMatrix 4 []) /\ proper (initializeMatrix 4 []).
Proof. apply proper_check; vm_compute; reflexivity. Defined.

Lemma range_matrix_4 : 0 <= 0 < size (initializeMatrix 4 []).
Proof. vm_compute. split; [discriminate|reflexivity]. Defined.

Lemma removeRowsAndColumns_effect_4 :
  rectangular 64 (initializeMatrix 4 []) /\ 0 <= 0 < size (initializeMatrix 4 []) /\
  removeRowsAndColumnsForGivenRow 0 [] [] (initializeMatrix 4 []) =
    (reduced (initializeMatrix 4 []) 0,
     saved_column (initializeMatrix 4 []) <$> ones (initializeMatrix 4 []) 0,
     saved_row (initializeMatrix 4 []) 0 <$> clashing (initializeMatrix 4 []) 0).
Proof.
  exact (conj (proj1 proper_matrix_4) (conj range_matrix_4
    (removeRowsAndColumns_effect _ 64 0 [] [] (proj1 proper_matrix_4) range_matrix_4))).
Defined.

Lemma remove_then_restore_4 :
  rectangular 64 (initializeMatrix 4 []) /\ 0 <= 0 < size (initializeMatrix 4 []) /\
  restoreRowsAndColumnsForGivenRowAlgorithmX
    (removeRowsAndColumnsForGivenRow 0 [] [] (initializeMatrix 4 [])).1.2
    (removeRowsAndColumnsForGivenRow 0 [] [] (initializeMatrix 4 [])).2
    (removeRowsAndColumnsForGivenRow 0 [] [] (initializeMatrix 4 [])).1.1 =
  initializeMatrix 4 [].
Proof.
  exact (conj (proj1 proper_matrix_4) (conj range_matrix_4
    (remove_then_restore _ 64 0 [] [] (proj1 proper_matrix_4) range_matrix_4))).
Defined.

Lemma remove_keeps_proper_4 :
  proper (initializeMatrix 4 []) /\ rectangular 64 (initializeMatrix 4 []) /\
  0 <= 0 < size (initializeMatrix 4 []) /\
  proper (removeRowsAndColumnsForGivenRow 0 [] [] (initializeMatrix 4 [])).1.1 /\
  rectangular (64 - size (ones (initializeMatrix 4 []) 0))
    (removeRowsAndColumnsForGivenRow 0 [] [] (initializeMatrix 4 [])).1.1 /\
  size (removeRowsAndColumnsForGivenRow 0 [] [] (initializeMatrix 4 [])).1.1
    < size (initializeMatrix 4 []).
Proof.
  exact (conj (proj2 proper_matrix_4) (conj (proj1 proper_matrix_4) (conj range_matrix_4
    (remove_keeps_proper _ 64 0 [] [] (proj2 proper_matrix_4) (proj1 proper_matrix_4)
       range_matrix_4)))).
Defined.

Lemma chooseProperColumn_leftmost_minimum_4 :
  proper (initializeMatrix 4 []) /\ rectangular 64 (initializeMatrix 4 []) /\
  initializeMatrix 4 [] <> [] /\
  0 <= chooseProperColumnAlgorithmX 7 (initializeMatrix 4 []) < 64.
Proof.
  assert (H3 : initializeMatrix 4 [] <> []) by (vm_compute; discriminate).
  exact (conj (proj2 proper_matrix_4) (conj (proj1 proper_matrix_4) (conj H3
    (proj1 (chooseProperColumn_leftmost_minimum 7 _ 64
       (proj2 proper_matrix_4) (proj1 proper_matrix_4) H3))))).
Defined.

(** The search after the clues of [grid_blocked] are loaded. *)
Lemma matrix_search_failure_restores_blocked :
  proper (exactCoverProblem (loaded 4 grid_blocked)) /\
  search 4 65 65 7 (loaded 4 grid_blocked) =
    Some (true, (default (false, loaded 4 grid_blocked)
                   (search 4 65 65 7 (loaded 4 grid_blocked))).2) /\
  (default (false, loaded 4 grid_blocked)
     (search 4 65 65 7 (loaded 4 grid_blocked))).2 = loaded 4 grid_blocked.
Proof.
  assert (H1 : proper (exactCoverProblem (loaded 4 grid_blocked))).
  { apply (proper_check 48); vm_compute; reflexivity. }
  assert (H2 : search 4 65 65 7 (loaded 4 grid_blocked) =
    Some (true, (default (false, loaded 4 grid_blocked)
                   (search 4 65 65 7 (loaded 4 grid_blocked))).2))
    by (vm_compute; reflexivity).
  exact (conj H1 (conj H2
    (matrix_search_failure_restores 4 65 65 7 (loaded 4 grid_blocked) _ H1 H2))).
Defined.

Lemma convert_cell_first_match_4 :
  rectangular 64 (initializeMatrix 4 []) /\ 64 <= Z.of_nat 65 /\
  size (initializeMatrix 4 []) <= Z.of_nat 65 /\
  convert_cell 4 65 0 1 2 (initializeMatrix 4 [], replicate 16 0) =
  match find_row 4 0 1 2 (initializeMatrix 4 []) with
  | Some i =>
      if size (reduced (initializeMatrix 4 []) i) <=? i then OutOfBounds
      else Returns (reduced (initializeMatrix 4 []) i,
                    <[Z.to_nat (0 * 4 + 1) := 2]> (replicate 16 0))
  | None => Returns (initializeMatrix 4 [], replicate 16 0)
  end.
Proof.
  assert (H2 : 64 <= Z.of_nat 65) by lia.
  assert (H3 : size (initializeMatrix 4 []) <= Z.of_nat 65) by (vm_compute; discriminate).
  exact (conj (proj1 proper_matrix_4) (conj H2 (conj H3
    (convert_cell_first_match 4 65 0 1 2 _ 64 (replicate 16 0) (proj1 proper_matrix_4)
       H2 H3)))).
Defined.

(** The clue 3 in the last cell of a grid of side 4 that is otherwise empty:
    its row is the last of the 64 rows, 53 rows are left when it has been
    removed, and the condition of the loop reads row 63. *)
Lemma convert_cell_last_cell_4 :
  find_row 4 3 3 3 (initializeMatrix 4 []) = Some 63 /\
  size (reduced (initializeMatrix 4 []) 63) = 53 /\
  convert_cell 4 65 3 3 3 (initializeMatrix 4 [], replicate 16 0) = OutOfBounds.
Proof. split; [|split]; vm_compute; reflexivity. Qed.

Lemma initializeMatrix_builds_table_4 :
  GoodSize 4 /\ initializeMatrix 4 [] = table 4.
Proof.
  exact (conj GoodSize_4 (proj1 (@initializeMatrix_builds_table 4 GoodSize_4))).
Defined.

Lemma matrix_solver_ends_4 :
  GoodSize 4 /\ ROWS 4 < INT_MAX /\ ROWS 4 < Z.of_nat 65 /\ ROWS 4 < Z.of_nat 65 /\
  COLUMNS 4 <= Z.of_nat 65 /\
  (sudokuSolver 4 65 65 7 grid_two_clues = OutOfBounds \/
   exists st, sudokuSolver 4 65 65 7 grid_two_clues = Returns st /\
     (printed st = [PrintGrid (sudokuSolution st)] \/
      printed st = [PrintNoSolution] /\ currSolution st = [])).
Proof.
  assert (H1 : ROWS 4 < INT_MAX) by (vm_compute; reflexivity).
  assert (H2 : ROWS 4 < Z.of_nat 65) by (vm_compute; reflexivity).
  assert (H3 : COLUMNS 4 <= Z.of_nat 65) by (vm_compute; discriminate).
  exact (conj GoodSize_4 (conj H1 (conj H2 (conj H2 (conj H3
    (@matrix_solver_ends 4 GoodSize_4 65 65 7 grid_two_clues H1 H2 H2 H3)))))).
Defined.

(** The run on [grid_two_clues] returns and prints a grid; the run on
    [grid_stuck] reads out of bounds at its last clue, which leaves no row
    in the matrix. *)
Lemma matrix_runs_4 :
  sudokuSolver 4 65 65 7 grid_two_clues = Returns (run_matrix 4 65 65 7 grid_two_clues) /\
  printed (run_matrix 4 65 65 7 grid_two_clues) =
    [PrintGrid [0; 1; 2; 3; 2; 3; 0; 1; 1; 0; 3; 2; 3; 2; 1; 0]] /\
  sudokuSolver 4 65 65 7 grid_stuck = OutOfBounds.
Proof. split; [|split]; vm_compute; reflexivity. Qed.

End MatrixRuns.

(** * The matrix program: the matrix and the chosen rows *)

Section Positions.

Import AlgorithmX.

Lemma at_app_l {A} (d : A) (v w : list A) i :
  0 <= i < size v -> at_ d (v ++ w) i = at_ d v i.
Proof.
  intros Hi. unfold at_. rewrite lookup_app_l; [done|]. unfold size in Hi. lia.
Qed.

Lemma at_app_length {A} (d : A) (v : list A) x w : at_ d (v ++ x :: w) (size v) = x.
Proof. apply at_Some. unfold size. rewrite Nat2Z.id. by apply list_lookup_middle. Qed.

(** Taking away the positions whose elements pass a test. *)
Lemma without_fmap_filter {A} (d : A) (f : Z -> A) (l ys : list Z)
    (Q : Z -> Prop) `{!forall x, Decision (Q x)} :
  (forall q, 0 <= q < size l -> (q ∈ ys <-> Q (at_ 0 l q))) ->
  without d ys (f <$> l) = f <$> filter (fun x => ~ Q x) l.
Proof.
  induction l as [|x l IH] using rev_ind; intros Hys; [done|].
  unfold without. rewrite size_fmap, size_app. change (size [x]) with 1.
  rewrite seqZ_snoc by apply size_nonneg.
  rewrite Z.add_0_l, (filter_app _ (seqZ 0 (size l))), pick_app.
  rewrite (filter_app _ l [x]), (fmap_app f (filter _ l)).
  f_equal.
  - transitivity (without d ys (f <$> l)).
    + unfold without. rewrite size_fmap. apply pick_ext. intros i Hi.
      apply list_elem_of_filter in Hi. destruct Hi as [_ Hi]. apply elem_of_seqZ in Hi.
      rewrite fmap_app. apply at_app_l. rewrite size_fmap. lia.
    + apply IH. intros q Hq. rewrite <- (at_app_l 0 l [x] q Hq). apply Hys.
      rewrite size_app. change (size [x]) with 1. lia.
  - assert (Hx : size l ∈ ys <-> Q x).
    { rewrite <- (at_app_length 0 l x []). apply Hys.
      rewrite size_app. change (size [x]) with 1. pose proof (size_nonneg l). lia. }
    destruct (decide (Q x)) as [HQ|HQ].
    + rewrite filter_cons_False by tauto. rewrite filter_cons_False by tauto. done.
    + rewrite filter_cons_True by tauto. rewrite filter_cons_True by tauto. simpl.
      unfold pick. simpl. f_equal. rewrite fmap_app. simpl.
      rewrite <- (size_fmap f l). apply at_app_length.
Qed.

End Positions.

Section MatrixOf.

Import AlgorithmX.

Context (N : Z) {HN : GoodSize N}.
Let N_pos : 0 < N := size_pos.
Let N_square : Z.sqrt N * Z.sqrt N = N := size_square.

Local Abbreviation C := (COLUMNS N).
Local Abbreviation R := (ROWS N).
Local Abbreviation T := (ECP_get (initializeExactCoverProblem N ∅)).

Lemma elem_of_live_rows K i :
  i ∈ live_rows N K <-> 0 <= i < R /\ forall k, 0 <= k < 4 -> cols N i k ∉ K.
Proof.
  unfold live_rows. rewrite list_elem_of_filter, elem_of_seqZ, Forall_forall. split.
  - intros [Hall Hi]. split; [lia|]. intros k Hk. apply Hall.
    assert (k = 0 \/ k = 1 \/ k = 2 \/ k = 3) as [-> | [-> | [-> | -> ]]] by lia; set_solver.
  - intros [Hi Hall]. split; [|lia]. intros k Hk. apply Hall. set_solver by lia.
Qed.

Lemma table_matrix_of : table N = matrix_of N [].
Proof.
  unfold table, matrix_of, live_rows. rewrite (filter_seqZ_all _).
  - apply list_fmap_ext. intros _ i _. unfold table_row, matrix_row.
    f_equal. f_equal. symmetry. apply (act_nil N).
  - intros i _. apply Forall_forall. intros k _. apply not_elem_of_nil.
Qed.

Lemma T_true i j : 0 <= i < R -> T i j = true <-> exists k, 0 <= k < 4 /\ cols N i k = j.
Proof. apply (ECP_get_init N). Qed.

Lemma row_node_columns i j :
  0 <= i < R -> j ∈ row_columns N (row_node N i) <-> T i j = true.
Proof.
  intros Hi. unfold row_node.
  rewrite (elem_of_row_columns N) by (apply nd_allnodes; [done|lia]).
  rewrite rowOf_nd by lia. rewrite (T_true i j Hi). naive_solver.
Qed.

Lemma size_matrix_of K : size (matrix_of N K) = size (live_rows N K).
Proof. apply size_fmap. Qed.

Lemma at_matrix_of K p :
  0 <= p < size (live_rows N K) ->
  at_ new_sequence (matrix_of N K) p = matrix_row N K (at_ 0 (live_rows N K) p).
Proof. intros Hp. unfold matrix_of. by rewrite (at_fmap _ 0 new_sequence). Qed.

Lemma bit_matrix_row K i q :
  0 <= q < size (act N K) ->
  at_ false (sequence (matrix_row N K i)) q = T i (at_ 0 (act N K) q).
Proof. intros Hq. unfold matrix_row. simpl. by rewrite (at_fmap _ 0 false). Qed.

Lemma rectangular_matrix_of K : rectangular (size (act N K)) (matrix_of N K).
Proof.
  intros r Hr. unfold matrix_of in Hr. apply list_elem_of_fmap in Hr.
  destruct Hr as (i & -> & _). unfold matrix_row. simpl. apply size_fmap.
Qed.

Section Choose.

Variables (K : list Z) (p : Z).
Hypothesis Hp : 0 <= p < size (live_rows N K).

Let i := at_ 0 (live_rows N K) p.
Let K' := rev (row_columns N (row_node N i)) ++ K.

Lemma chosen_live : 0 <= i < R /\ forall k, 0 <= k < 4 -> cols N i k ∉ K.
Proof. apply elem_of_live_rows. unfold i. by apply at_elem. Qed.

Lemma elem_of_ones_matrix q :
  q ∈ ones (matrix_of N K) p <-> 0 <= q < size (act N K) /\ T i (at_ 0 (act N K) q) = true.
Proof.
  rewrite (elem_of_ones _ _ p (rectangular_matrix_of K)) by (by rewrite size_matrix_of).
  unfold bit. rewrite at_matrix_of by done. fold i. split.
  - intros [Hq Hb]. split; [done|]. by rewrite <- bit_matrix_row.
  - intros [Hq Hb]. split; [done|]. by rewrite bit_matrix_row.
Qed.

Lemma elem_of_K' j : j ∈ K' <-> T i j = true \/ j ∈ K.
Proof.
  unfold K'. rewrite elem_of_app, elem_of_rev.
  by rewrite (row_node_columns i j (proj1 chosen_live)).
Qed.

Lemma act_K' : filter (fun x => ~ (T i x = true)) (act N K) = act N K'.
Proof.
  unfold act. rewrite list_filter_filter. apply list_filter_iff. intros j.
  rewrite elem_of_K'. tauto.
Qed.

Lemma without_columns_matrix_row i' :
  without_columns (ones (matrix_of N K) p) (matrix_row N K i') = matrix_row N K' i'.
Proof.
  unfold without_columns, set_sequence, matrix_row. simpl. f_equal.
  rewrite <- act_K'. apply without_fmap_filter. intros q Hq.
  rewrite elem_of_ones_matrix. tauto.
Qed.

Lemma elem_of_clashing_matrix j :
  j ∈ clashing (matrix_of N K) p <->
  0 <= j < size (live_rows N K) /\
  Exists (fun k => T i (cols N (at_ 0 (live_rows N K) j) k) = true) [0; 1; 2; 3].
Proof.
  rewrite elem_of_clashing, size_matrix_of.
  cut (0 <= j < size (live_rows N K) ->
       (exists c, c ∈ ones (matrix_of N K) p /\ bit (matrix_of N K) j c = true) <->
       Exists (fun k => T i (cols N (at_ 0 (live_rows N K) j) k) = true) [0; 1; 2; 3]).
  { intros Hiff. split; intros [Hj H]; (split; [done|]); by apply Hiff. }
  intros Hj.
  assert (Hi' : at_ 0 (live_rows N K) j ∈ live_rows N K) by (by apply at_elem).
  apply elem_of_live_rows in Hi'. destruct Hi' as [Hi' Hlive'].
  unfold bit. rewrite at_matrix_of by done. rewrite Exists_exists. split.
  - intros (q & Hq & Hb). apply elem_of_ones_matrix in Hq. destruct Hq as [Hq Hone].
    rewrite bit_matrix_row in Hb by done.
    apply (T_true _ _ Hi') in Hb. destruct Hb as (k & Hk & Hcol).
    exists k. split; [|by rewrite Hcol].
    assert (k = 0 \/ k = 1 \/ k = 2 \/ k = 3) as [-> | [-> | [-> | -> ]]] by lia; set_solver.
  - intros (k & Hk & Hone).
    assert (Hk4 : 0 <= k < 4) by set_solver by lia.
    assert (Hin : cols N (at_ 0 (live_rows N K) j) k ∈ act N K).
    { apply (elem_of_act N). split; [by apply (cols_range N)|by apply Hlive']. }
    apply list_elem_of_lookup in Hin. destruct Hin as [q Hq].
    assert (Hqr : 0 <= Z.of_nat q < size (act N K)).
    { apply lookup_lt_Some in Hq. unfold size. lia. }
    exists (Z.of_nat q). split.
    + apply elem_of_ones_matrix. split; [done|]. by rewrite (at_nat _ _ _ _ Hq).
    + rewrite bit_matrix_row by done. rewrite (at_nat _ _ _ _ Hq).
      apply (T_true _ _ Hi'). by exists k.
Qed.

Lemma live_rows_K' :
  filter (fun i' => ~ Exists (fun k => T i (cols N i' k) = true) [0; 1; 2; 3])
         (live_rows N K) = live_rows N K'.
Proof.
  unfold live_rows. rewrite list_filter_filter. apply list_filter_iff. intros i'.
  rewrite <- Forall_Exists_neg, <- Forall_and. apply Forall_iff. intros k.
  rewrite elem_of_K'. tauto.
Qed.

Lemma reduced_matrix_of : reduced (matrix_of N K) p = matrix_of N K'.
Proof.
  unfold reduced.
  assert (Hcols : without_columns (ones (matrix_of N K) p) <$> matrix_of N K
                  = matrix_row N K' <$> live_rows N K).
  { unfold matrix_of. rewrite <- list_fmap_compose. apply list_fmap_ext.
    intros ? i' _. apply without_columns_matrix_row. }
  rewrite Hcols. unfold matrix_of at 2. rewrite <- live_rows_K'.
  apply without_fmap_filter. intros q Hq. rewrite elem_of_clashing_matrix. tauto.
Qed.

End Choose.

End MatrixOf.

(** * The matrix program: what its search finds *)

Section SearchCover.

Import AlgorithmX.

Context (N : Z) {HN : GoodSize N}.
Let N_pos : 0 < N := size_pos.
Let N_square : Z.sqrt N * Z.sqrt N = N := size_square.

Local Abbreviation C := (COLUMNS N).
Local Abbreviation R := (ROWS N).
Local Abbreviation T := (ECP_get (initializeExactCoverProblem N ∅)).

Lemma rowOf_row_node i : rowOf N (row_node N i) = i.
Proof. unfold row_node. apply rowOf_nd. lia. Qed.

Lemma row_node_allnodes i : 0 <= i < R -> row_node N i ∈ allnodes N.
Proof. intros Hi. apply nd_allnodes; [done|lia]. Qed.

Lemma size_live_rows K : size (live_rows N K) <= R.
Proof.
  unfold live_rows, size.
  pose proof (length_filter (fun i => Forall (fun k => cols N i k ∉ K) [0; 1; 2; 3])
                (seqZ 0 R)) as Hle.
  rewrite length_seqZ in Hle. assert (0 <= R) by (unfold ROWS; nia). lia.
Qed.

Lemma proper_matrix_of K : R < INT_MAX -> proper (matrix_of N K).
Proof.
  intros Hmax. split.
  - eexists. apply (rectangular_matrix_of N).
  - intros r Hr. unfold matrix_of in Hr. apply list_elem_of_fmap in Hr.
    destruct Hr as (i & -> & Hi). apply (elem_of_live_rows N) in Hi. destruct Hi as [Hi Hlive].
    unfold matrix_row. simpl. apply list_elem_of_fmap. exists (cols N i 0). split.
    + symmetry. apply (T_true N i _ Hi). exists 0. split; [lia|done].
    + apply (elem_of_act N). split; [apply (cols_range N); [done|lia]|apply Hlive; lia].
  - rewrite (size_matrix_of N). pose proof (size_live_rows K). lia.
Qed.

Lemma matrix_of_nil K : matrix_of N K = [] <-> live_rows N K = [].
Proof.
  unfold matrix_of. split; [apply fmap_nil_inv|by intros ->].
Qed.

(** Choosing a row that is left. *)
Lemma Chosen_row_node rws i :
  Chosen N rws -> i ∈ live_rows N (Kof N rws) -> Chosen N (row_node N i :: rws).
Proof.
  intros [Hnd Hrange Hnodes] Hi. apply (elem_of_live_rows N) in Hi. destruct Hi as [Hi Hlive].
  pose proof (row_node_allnodes i Hi) as Ha.
  assert (Hcols : forall j, j ∈ row_columns N (row_node N i) ->
            exists k, 0 <= k < 4 /\ j = cols N i k).
  { intros j Hj. apply (elem_of_row_columns N) in Hj; [|done].
    by rewrite rowOf_row_node in Hj. }
  split.
  - rewrite (Kof_cons N). apply NoDup_app. split; [|split; [|done]].
    + apply NoDup_rev_2. by apply (NoDup_row_columns N).
    + intros j Hj. rewrite elem_of_rev in Hj. destruct (Hcols j Hj) as (k & Hk & ->).
      by apply Hlive.
  - intros j. rewrite (Kof_cons N), elem_of_app, elem_of_rev. intros [Hj|Hj]; [|by apply Hrange].
    destruct (Hcols j Hj) as (k & Hk & ->). by apply (cols_range N).
  - intros a. rewrite elem_of_cons. intros [->|Hin]; [done|by apply Hnodes].
Qed.

(** A cover that completes the chosen rows holds, for every column that
    is left, a row that is left and has a one in the column. *)
Lemma completes_live_row rws more j :
  completes N rws more -> 0 <= j < C -> j ∉ Kof N rws ->
  exists S1 b S2, more = S1 ++ b :: S2 /\ b ∈ allnodes N /\
    rowOf N b ∈ live_rows N (Kof N rws) /\ T (rowOf N b) j = true.
Proof.
  intros [[Hnd Hrange Hnodes] Hact] Hj HjK.
  assert (Hin : j ∈ Kof N (more ++ rws)).
  { destruct (decide (j ∈ Kof N (more ++ rws))) as [|Hout]; [done|].
    assert (Hja : j ∈ act N (Kof N (more ++ rws))) by (by apply (elem_of_act N)).
    rewrite Hact in Hja. by apply elem_of_nil in Hja. }
  rewrite (Kof_app N), elem_of_app in Hin. destruct Hin as [Hin|Hin]; [|done].
  apply (elem_of_Kof N) in Hin. destruct Hin as (b & Hb & Hin).
  assert (Hba : b ∈ allnodes N) by (apply Hnodes; set_solver).
  pose proof (rowOf_range N b Hba) as Hi.
  apply (elem_of_row_columns N) in Hin; [|done]. destruct Hin as (k & Hk & Hjk).
  apply list_elem_of_split in Hb. destruct Hb as (S1 & S2 & ->).
  exists S1, b, S2. split; [done|]. split; [done|]. split.
  - apply (elem_of_live_rows N). split; [done|]. intros k' Hk' Hin'.
    rewrite (Kof_app N) in Hnd. apply NoDup_app in Hnd. destruct Hnd as (_ & Hdisj & _).
    apply (Hdisj (cols N (rowOf N b) k')); [|done].
    apply (elem_of_Kof N). exists b. split; [set_solver|].
    apply (elem_of_row_columns N); [done|]. by exists k'.
  - apply (T_true N _ _ Hi). by exists k.
Qed.

Lemma leaf_state_nil st : exactCoverProblem st = [] -> leaf_state st [] = st.
Proof. destruct st. unfold leaf_state. simpl. intros ->. by rewrite app_nil_r. Qed.

Section Rows.

Variable rec : State -> option (bool * State).
Hypothesis Hrec : forall rws st,
  Chosen N rws -> exactCoverProblem st = matrix_of N (Kof N rws) ->
  search_outcome N rws st (rec st).

(** The loop over the rows of the matrix. *)
Lemma search_rows_outcome fuel col rws st :
  Chosen N rws -> exactCoverProblem st = matrix_of N (Kof N rws) ->
  forall row, 0 <= row ->
  match search_rows rec fuel row col st with
  | None => True
  | Some (true, st') =>
      st' = st /\
      forall p, row <= p < size (live_rows N (Kof N rws)) ->
        bit (exactCoverProblem st) p col = true ->
        forall more,
          ~ completes N (row_node N (at_ 0 (live_rows N (Kof N rws)) p) :: rws) more
  | Some (false, st') =>
      exists new, Chosen N (new ++ rws) /\ live_rows N (Kof N (new ++ rws)) = [] /\
        st' = record_solution N (leaf_state st (rowOf N <$> rev new))
  end.
Proof.
  intros HC Hrep. set (K := Kof N rws) in *.
  induction fuel as [|fuel IH]; intros row Hrow; [done|]. simpl.
  assert (Hsize : size (exactCoverProblem st) = size (live_rows N K))
    by (rewrite Hrep; apply size_matrix_of).
  destruct (row <? size (exactCoverProblem st)) eqn:Hlt.
  2:{ split; [done|]. intros p Hp. lia. }
  assert (Hp : 0 <= row < size (live_rows N K)) by lia.
  destruct (bit (exactCoverProblem st) row col) eqn:Hbit.
  2:{ specialize (IH (row + 1) ltac:(lia)).
      destruct (search_rows rec fuel (row + 1) col st) as [[[] st']|]; [|done..].
      destruct IH as [-> IH]. split; [done|]. intros p Hpr Hb.
      destruct (decide (p = row)) as [->|Hne]; [congruence|]. apply IH; [lia|done]. }
  rewrite (remove_closed_form _ _ row (eq_ind_r (rectangular _) (rectangular_matrix_of N K) Hrep))
    by lia.
  set (i := at_ 0 (live_rows N K) row).
  assert (Hi : i ∈ live_rows N K) by (by apply at_elem).
  assert (Hnum : numberInOriginalSequence (at_ new_sequence (exactCoverProblem st) row) = i).
  { rewrite Hrep, (at_matrix_of N) by done. done. }
  assert (Hred : reduced (exactCoverProblem st) row = matrix_of N (Kof N (row_node N i :: rws))).
  { rewrite Hrep, (reduced_matrix_of N K row Hp). by rewrite (Kof_cons N). }
  rewrite Hnum, Hred.
  pose proof (Chosen_row_node rws i HC Hi) as HC'.
  pose proof (Hrec (row_node N i :: rws)
    (mkState (matrix_of N (Kof N (row_node N i :: rws))) (currSolution st ++ [i])
       (sudokuSolution st) (printed st)) HC' eq_refl) as Hpost.
  destruct (rec _) as [[[] s3]|] eqn:Hr; [| |done].
  - destruct Hpost as [-> Hno]. simpl.
    rewrite <- Hred.
    rewrite (restore_closed_form _ _ row
               (eq_ind_r (rectangular _) (rectangular_matrix_of N K) Hrep)) by lia.
    rewrite removelast_last.
    assert (Hst : mkState (exactCoverProblem st) (currSolution st) (sudokuSolution st)
                    (printed st) = st) by (by destruct st).
    rewrite Hst. specialize (IH (row + 1) ltac:(lia)).
    destruct (search_rows rec fuel (row + 1) col st) as [[[] st']|]; [|done..].
    destruct IH as [-> IH]. split; [done|]. intros p Hpr Hb.
    destruct (decide (p = row)) as [->|Hne]; [done|]. apply IH; [lia|done].
  - destruct Hpost as (new & HCn & Hlive & ->).
    exists (new ++ [row_node N i]). rewrite <- app_assoc. simpl.
    split; [done|]. split; [done|]. f_equal. unfold leaf_state. simpl.
    rewrite rev_app_distr. simpl. rewrite rowOf_row_node, <- app_assoc. done.
Qed.

End Rows.

Lemma search_outcome_spec depth fuel garbage :
  R < INT_MAX ->
  forall rws st, Chosen N rws -> exactCoverProblem st = matrix_of N (Kof N rws) ->
  search_outcome N rws st (search N depth fuel garbage st).
Proof.
  intros Hmax. induction depth as [|depth IH]; intros rws st HC Hrep; [done|]. simpl.
  destruct (decide (exactCoverProblem st = [])) as [Hnil|Hne].
  { exists []. simpl. split; [done|]. split.
    - apply matrix_of_nil. by rewrite <- Hrep.
    - by rewrite leaf_state_nil. }
  set (K := Kof N rws) in *.
  pose proof (proper_matrix_of K Hmax) as Hp. rewrite <- Hrep in Hp.
  pose proof (rectangular_matrix_of N K) as HW. rewrite <- Hrep in HW.
  destruct (chooseProperColumn_spec garbage _ _ Hp HW Hne) as (Hcol & _ & _).
  set (col := chooseProperColumnAlgorithmX garbage (exactCoverProblem st)) in *.
  pose proof (search_rows_outcome _ IH fuel col rws st HC Hrep 0 ltac:(lia)) as Hpost.
  destruct (search_rows _ fuel 0 col st) as [[[] st']|]; [|done..].
  destruct Hpost as [-> Hno]. split; [done|]. intros more Hmore.
  set (j := at_ 0 (act N K) col).
  assert (Hj : j ∈ act N K) by (by apply at_elem).
  apply (elem_of_act N) in Hj. destruct Hj as [Hj HjK].
  destruct (completes_live_row rws more j Hmore Hj HjK) as (S1 & b & S2 & -> & Hb & Hlive & Hone).
  apply list_elem_of_lookup in Hlive. destruct Hlive as [p Hlook].
  assert (Hpr : 0 <= Z.of_nat p < size (live_rows N K)).
  { apply lookup_lt_Some in Hlook. unfold size, K. lia. }
  apply (Hno (Z.of_nat p)) with (more := S1 ++ S2); [exact Hpr| |].
  - unfold bit. rewrite Hrep, (at_matrix_of N) by done.
    rewrite (bit_matrix_row N) by done. by rewrite (at_nat _ _ _ _ Hlook).
  - rewrite (at_nat _ _ _ _ Hlook).
    apply (completes_swap N rws S1 S2 (row_node N (rowOf N b)) b); [|by rewrite rowOf_row_node|done].
    apply row_node_allnodes. by apply (rowOf_range N).
Qed.

End SearchCover.

(** * The matrix program: the clues and the printed grid *)

Section Loops.

Import AlgorithmX.

(** A loop over the elements of a vector. *)
Lemma for_range_at_foldl {A S} (d : A) (f : A -> S -> S) (l : list A) (s0 : S) :
  for_range 0 (size l) (fun k s => f (at_ d l k) s) s0 = foldl (fun s x => f x s) s0 l.
Proof.
  induction l as [|x l IH] using rev_ind; [done|].
  rewrite size_app. change (size [x]) with 1. unfold for_range in *.
  rewrite Z.sub_0_r in *. rewrite seqZ_snoc by apply size_nonneg.
  rewrite !foldl_app. simpl. rewrite Z.add_0_l, at_app_length. f_equal.
  rewrite <- IH. apply foldl_ext_elem. intros s k Hk. apply elem_of_seqZ in Hk.
  rewrite at_app_l by lia. done.
Qed.

End Loops.

Section Clues.

Import AlgorithmX.

Context (N : Z) {HN : GoodSize N}.
Let N_pos : 0 < N := size_pos.
Let N_square : Z.sqrt N * Z.sqrt N = N := size_square.

Local Abbreviation C := (COLUMNS N).
Local Abbreviation R := (ROWS N).
Local Abbreviation NN := (N * N).

Lemma Chosen_nil : Chosen N [].
Proof.
  split; [apply NoDup_nil_2|intros j Hj; by apply elem_of_nil in Hj|
          intros a Ha; by apply elem_of_nil in Ha].
Qed.

(** Writing the value of row [i] as the matrix program does. *)
Lemma write_row_node sol i :
  <[Z.to_nat (i `quot` SUDOKU_SIZE_SQUARED N * N + (i `quot` N) `rem` N) := i `rem` N]> sol
  = write_row N sol (row_node N i).
Proof. unfold write_row. by rewrite (rowOf_row_node N). Qed.

Lemma write_row_rowOf sol a : write_row N sol (row_node N (rowOf N a)) = write_row N sol a.
Proof. unfold write_row. by rewrite (rowOf_row_node N). Qed.

Lemma size_act K : size (act N K) <= C.
Proof.
  unfold act, size.
  pose proof (length_filter (fun j => j ∉ K) (seqZ 0 C)) as Hle.
  rewrite length_seqZ in Hle. assert (0 <= C) by (unfold COLUMNS; nia). lia.
Qed.

Lemma convert_cell_loaded fuel input sol0 inputR inputC rws s :
  R <= Z.of_nat fuel -> C <= Z.of_nat fuel ->
  loaded_by N input sol0 rws s ->
  ends_with (fun s' => exists rws', loaded_by N input sol0 rws' s')
    (convert_cell N fuel inputR inputC (input inputR inputC) s).
Proof.
  intros HfR HfC. destruct s as [M sol]. intros (HC & HM & Hsol & Hclue). simpl in HM, Hsol.
  rewrite (convert_cell_spec N fuel inputR inputC _ M _ sol
             (eq_ind_r (rectangular _) (rectangular_matrix_of N (Kof N rws)) HM)).
  2:{ pose proof (size_act (Kof N rws)). lia. }
  2:{ rewrite HM, (size_matrix_of N). pose proof (size_live_rows N (Kof N rws)). lia. }
  destruct (find_row N inputR inputC (input inputR inputC) M) as [p|] eqn:Hf;
    [|by exists rws].
  destruct (size (reduced M p) <=? p); [done|]. simpl.
  unfold find_row in Hf. apply head_Some_elem_of, list_elem_of_filter in Hf.
  destruct Hf as [Htest Hp]. apply elem_of_seqZ in Hp.
  rewrite HM, (size_matrix_of N) in Hp. rewrite HM, (at_matrix_of N) in Htest by lia.
  set (i := at_ 0 (live_rows N (Kof N rws)) p) in *.
  assert (Hi : i ∈ live_rows N (Kof N rws)) by (apply at_elem; lia).
  unfold clue_row in Htest. simpl in Htest.
  apply andb_prop in Htest as [Htest H3]. apply andb_prop in Htest as [Htest H2].
  apply andb_prop in Htest as [_ H1]. apply Z.eqb_eq in H1, H2, H3.
  exists (row_node N i :: rws). split; [by apply (Chosen_row_node N)|]. split; [|split].
  - simpl. rewrite HM, (reduced_matrix_of N _ p) by lia. by rewrite (Kof_cons N).
  - simpl. rewrite Hsol, <- write_row_node. by rewrite H1, H2, H3.
  - intros a. rewrite elem_of_cons. intros [->|Ha]; [|by apply Hclue].
    rewrite (rowOf_row_node N). split; [done|]. unfold ecp_row, ecp_column, ecp_candidate.
    by rewrite H1, H2, H3.
Qed.

Lemma convert_loaded fuel input st :
  R <= Z.of_nat fuel -> C <= Z.of_nat fuel ->
  exactCoverProblem st = table N ->
  ends_with (fun st' =>
      (exists rws, loaded_by N input (sudokuSolution st) rws
                     (exactCoverProblem st', sudokuSolution st')) /\
      currSolution st' = currSolution st /\ printed st' = printed st)
    (convertSudokuGridToAlgorithmX N fuel input st).
Proof.
  intros HfR HfC Htable.
  apply (convert_inv (fun s => exists rws, loaded_by N input (sudokuSolution st) rws s));
    [lia| |].
  - exists []. split; [apply Chosen_nil|]. split; [|split; [done|]].
    + simpl. rewrite Htable. apply (table_matrix_of N).
    + intros a Ha. by apply elem_of_nil in Ha.
  - intros inputR inputC s [rws Hl].
    by apply (convert_cell_loaded fuel input _ inputR inputC rws).
Qed.

(** A valid grid that holds the values of the chosen rows completes
    them. *)
Lemma completes_of_grid rws g :
  valid_grid N g -> Chosen N rws ->
  (forall a, a ∈ rws -> a = row_node N (rowOf N a) /\
     cell N g (ecp_row N (rowOf N a)) (ecp_column N (rowOf N a)) =
       Some (ecp_candidate N (rowOf N a))) ->
  exists more, completes N rws more.
Proof.
  intros Hvalid HCr Hcells.
  destruct (valid_grid_cover N g Hvalid) as [HC Hact].
  assert (Hsub : forall a, a ∈ rws -> a ∈ rows_of_grid N g).
  { intros a Ha. destruct (Hcells a Ha) as [Hnode Hcell].
    pose proof (chosen_nodes _ _ HCr a Ha) as Haa.
    pose proof (rowOf_range N a Haa) as Hi.
    pose proof (row_range N _ Hi) as Hr. pose proof (column_range N _ (proj1 Hi)) as Hc.
    destruct (grid_node_spec N g Hvalid _ _ _ Hr Hc Hcell) as (Hgn & _ & Hin).
    rewrite <- (encode_index N _ Hi) in Hgn. fold (row_node N (rowOf N a)) in Hgn.
    rewrite <- Hnode in Hgn. by rewrite <- Hgn. }
  exists (filter (fun a => a ∉ rws) (rows_of_grid N g)).
  assert (Hperm : filter (fun a => a ∉ rws) (rows_of_grid N g) ++ rws ≡ₚ rows_of_grid N g).
  { apply NoDup_Permutation.
    - apply NoDup_app. split; [apply NoDup_filter; by apply (Chosen_NoDup N)|]. split.
      + intros a Ha. by apply list_elem_of_filter in Ha as [? _].
      + by apply (Chosen_NoDup N).
    - by apply (Chosen_NoDup N).
    - intros a. rewrite elem_of_app, list_elem_of_filter. split.
      + intros [[_ Ha]|Ha]; [done|by apply Hsub].
      + intros Ha. destruct (decide (a ∈ rws)); [by right|by left]. }
  split.
  - apply (Chosen_Permutation N (rows_of_grid N g)); [by symmetry|done].
  - rewrite <- Hact. apply (act_ext N). intros j. by rewrite (Kof_Permutation N _ _ Hperm).
Qed.


End Clues.

(** * The matrix program: what a run prints *)

Section Runs.

Import AlgorithmX.

Context (N : Z) {HN : GoodSize N}.
Let N_pos : 0 < N := size_pos.
Let N_square : Z.sqrt N * Z.sqrt N = N := size_square.

Local Abbreviation C := (COLUMNS N).
Local Abbreviation R := (ROWS N).
Local Abbreviation NN := (N * N).

(** The run of [sudokuSolver] when it returns: the clues choose the rows
    [rws0]; then [search] fails, or it chooses the rows [new] and prints the
    grid of all the chosen rows. *)
Lemma solver_run depth fuel garbage input st :
  R < INT_MAX -> R <= Z.of_nat fuel -> C <= Z.of_nat fuel ->
  sudokuSolver N depth fuel garbage input = Returns st ->
  exists rws0,
    Chosen N rws0 /\
    (forall a, a ∈ rws0 ->
       a = row_node N (rowOf N a) /\
       input (ecp_row N (rowOf N a)) (ecp_column N (rowOf N a))
         = ecp_candidate N (rowOf N a)) /\
    ((printed st = [PrintNoSolution] /\ forall more, ~ completes N rws0 more) \/
     (exists new, Chosen N (new ++ rws0) /\ live_rows N (Kof N (new ++ rws0)) = [] /\
        printed st = [PrintGrid (grid_rows N (replicate (Z.to_nat NN) 0) (new ++ rws0))])).
Proof.
  intros Hmax HfR HfC Hrun. unfold sudokuSolver in Hrun. cbv zeta in Hrun.
  assert (Htable : exactCoverProblem
            (mkState (initializeMatrix N (exactCoverProblem (initial_state N)))
               (currSolution (initial_state N)) (sudokuSolution (initial_state N))
               (printed (initial_state N))) = table N).
  { simpl. apply (initializeMatrix_table N). }
  pose proof (convert_loaded N fuel input _ HfR HfC Htable) as Hl.
  destruct (convertSudokuGridToAlgorithmX N fuel input _) as [st0| |];
    simpl in Hl, Hrun; [|done|done].
  destruct Hl as ((rws0 & Hl) & Hcur & Hprint).
  exists rws0.
  destruct Hl as (HC & HM & Hsol & Hclue). simpl in HM, Hsol.
  split; [done|]. split; [done|].
  pose proof (search_outcome_spec N depth fuel garbage Hmax rws0 st0 HC HM)
    as Hpost.
  destruct (search N depth fuel garbage st0) as [[[] st']|]; [| |done].
  - destruct Hpost as [-> Hno]. injection Hrun as <-. left. simpl.
    by rewrite Hprint.
  - destruct Hpost as (new & HCn & Hlive & ->). injection Hrun as <-. right.
    exists new. split; [done|]. split; [done|]. unfold record_solution, leaf_state. simpl.
    rewrite Hprint, Hcur. simpl. do 2 f_equal.
    rewrite (for_range_at_foldl 0
      (fun i sol => <[Z.to_nat (i `quot` SUDOKU_SIZE_SQUARED N * N + (i `quot` N) `rem` N)
                      := i `rem` N]> sol)).
    rewrite Hsol, foldl_fmap.
    rewrite (foldl_ext_elem _ (write_row N)).
    2:{ intros s a _. by rewrite (write_row_node N), (write_row_rowOf N). }
    rewrite foldl_rev_foldr. unfold grid_rows. by rewrite foldr_app.
Qed.

(** X14: when a run of the matrix program returns and has printed that
    there is no solution, there is none: no valid grid holds all the clues
    of the input.  The run is one in which no clue makes
    [convertSudokuGridToAlgorithmX] read out of bounds, and its loop budget
    is at least the numbers of rows and of columns of the matrix. *)
Theorem matrix_no_solution_sound depth fuel garbage input st :
  R < INT_MAX -> R <= Z.of_nat fuel -> C <= Z.of_nat fuel ->
  sudokuSolver N depth fuel garbage input = Returns st ->
  printed st = [PrintNoSolution] ->
  ~ exists g, valid_grid N g /\ preserves N input g.
Proof.
  intros Hmax HfR HfC Hrun Hprint (g & Hvalid & Hpres).
  destruct (solver_run depth fuel garbage input st Hmax HfR HfC Hrun)
    as (rws0 & HC & Hclue & Hcase).
  destruct Hcase as [[_ Hno]|(new & _ & _ & Hp)]; [|congruence].
  destruct (completes_of_grid N rws0 g Hvalid HC) as [more Hmore]; [|by apply (Hno more)].
  intros a Ha. destruct (Hclue a Ha) as [Hnode Hin]. split; [done|].
  pose proof (chosen_nodes _ _ HC a Ha) as Haa.
  pose proof (rowOf_range N a Haa) as Hi.
  pose proof (candidate_range N _ (proj1 Hi)) as Hv.
  rewrite <- Hin. apply Hpres; [by apply (row_range N)|apply (column_range N); lia|].
  unfold is_given. rewrite Hin. apply negb_true_iff, Z.eqb_neq. lia.
Qed.


End Runs.

(** * Runs of the matrix program that print *)

Section PrintedRuns.

Import AlgorithmX.

Lemma matrix_no_solution_sound_blocked :
  GoodSize 4 /\ ROWS 4 < INT_MAX /\ ROWS 4 <= Z.of_nat 65 /\ COLUMNS 4 <= Z.of_nat 65 /\
  sudokuSolver 4 65 65 7 grid_blocked = Returns (run_matrix 4 65 65 7 grid_blocked) /\
  printed (run_matrix 4 65 65 7 grid_blocked) = [PrintNoSolution] /\
  ~ exists g, valid_grid 4 g /\ preserves 4 grid_blocked g.
Proof.
  assert (H1 : ROWS 4 < INT_MAX) by (vm_compute; reflexivity).
  assert (HR : ROWS 4 <= Z.of_nat 65) by (vm_compute; discriminate).
  assert (HC : COLUMNS 4 <= Z.of_nat 65) by (vm_compute; discriminate).
  assert (H2 : sudokuSolver 4 65 65 7 grid_blocked = Returns (run_matrix 4 65 65 7 grid_blocked))
    by (vm_compute; reflexivity).
  assert (H3 : printed (run_matrix 4 65 65 7 grid_blocked) = [PrintNoSolution])
    by (vm_compute; reflexivity).
  exact (conj GoodSize_4 (conj H1 (conj HR (conj HC (conj H2 (conj H3
    (@matrix_no_solution_sound 4 GoodSize_4 65 65 7 grid_blocked _ H1 HR HC H2 H3))))))).
Defined.


End PrintedRuns.

(** * The printed grid *)

Module PrintingProofs.

Import Stdlib.Strings.String Stdlib.Strings.Ascii.
Import Printing.

Lemma length_append (s t : string) :
  String.length (s ++ t) = (String.length s + String.length t)%nat.
Proof. induction s as [|a s IH]; [done|]. simpl. by rewrite IH. Qed.

Lemma append_assoc (s t u : string) : ((s ++ t) ++ u = s ++ (t ++ u))%string.
Proof.
  induction s as [|a s IH]; [done|].
  change (String a ((s ++ t) ++ u) = String a (s ++ (t ++ u)))%string. by rewrite IH.
Qed.

Lemma append_nil_r (s : string) : (s ++ EmptyString)%string = s.
Proof.
  induction s as [|a s IH]; [done|].
  change (String a (s ++ EmptyString) = String a s)%string. by rewrite IH.
Qed.

Lemma length_dashes n : String.length (dashes n) = Z.to_nat n.
Proof.
  unfold dashes. generalize (Z.to_nat n). intros k.
  induction k as [|k IH]; [done|]. simpl. by rewrite IH.
Qed.

Lemma unlines_snoc ls l : unlines (ls ++ [l]) = (unlines ls ++ (l ++ newline))%string.
Proof.
  induction ls as [|x ls IH]; simpl.
  - by rewrite append_nil_r.
  - rewrite IH. by rewrite !append_assoc.
Qed.

(** The width of a value: a value from 0 to 9 is one digit, and the other
    values from -9 to 99 are two characters. *)
Lemma length_show v :
  -9 <= v <= 99 ->
  String.length (show v) = if (0 <=? v) && (v <=? 9) then 1%nat else 2%nat.
Proof.
  intros Hv.
  assert (Hall : forallb (fun v =>
      Nat.eqb (String.length (show v)) (if (0 <=? v) && (v <=? 9) then 1%nat else 2%nat))
      (seqZ (-9) 109) = true) by (vm_compute; reflexivity).
  rewrite forallb_forall in Hall. specialize (Hall v).
  apply Nat.eqb_eq, Hall, list_elem_of_In, elem_of_seqZ. lia.
Qed.

(** A loop whose body appends to the stream. *)
Lemma foldl_append (g : Z -> string) (l : list Z) (out : string) :
  foldl (fun o j => (o ++ g j)%string) out l
  = (out ++ foldl (fun o j => (o ++ g j)%string) EmptyString l)%string.
Proof.
  revert out. induction l as [|x l IH]; intros out; simpl.
  - by rewrite append_nil_r.
  - rewrite (IH (out ++ g x)%string), (IH (EmptyString ++ g x)%string).
    simpl. by rewrite append_assoc.
Qed.

Section Width.

Context (N : Z) {HN : GoodSize N}.
Let N_pos : 0 < N := size_pos.
Let N_square : Z.sqrt N * Z.sqrt N = N := size_square.

Local Abbreviation s := (Z.sqrt N).

Variable solution : list Z.

Lemma sqrt_pos : 0 < s.
Proof. pose proof (Z.sqrt_nonneg N). nia. Qed.

(** A cell is appended to the stream. *)
Lemma print_cell_append i j out :
  print_cell N solution i j out = (out ++ print_cell N solution i j EmptyString)%string.
Proof.
  unfold print_cell.
  destruct (j `rem` SUDOKU_SIZE_SQUARE_ROOT N =? 0);
    destruct ((0 <=? AlgorithmX.at_ 0 solution (i * N + j))
              && (AlgorithmX.at_ 0 solution (i * N + j) <=? 9));
    simpl; by rewrite ?append_assoc.
Qed.

Lemma print_row_append i out :
  for_range 0 N (print_cell N solution i) out
  = (out ++ for_range 0 N (print_cell N solution i) EmptyString)%string.
Proof.
  unfold for_range.
  rewrite (foldl_ext_elem _ (fun o j => (o ++ print_cell N solution i j EmptyString)%string))
    by (intros o j _; apply print_cell_append).
  rewrite foldl_append. f_equal. apply foldl_ext_elem. intros o j _.
  symmetry. apply print_cell_append.
Qed.

Lemma print_cell_text i j out :
  -9 <= AlgorithmX.at_ 0 solution (i * N + j) <= 99 ->
  exists t, print_cell N solution i j out = (out ++ t)%string /\
    String.length t = if j `rem` s =? 0 then 7%nat else 4%nat.
Proof.
  intros Hv. unfold print_cell, SUDOKU_SIZE_SQUARE_ROOT.
  pose proof (length_show (AlgorithmX.at_ 0 solution (i * N + j)) Hv) as Hlen.
  destruct (j `rem` s =? 0);
    destruct ((0 <=? AlgorithmX.at_ 0 solution (i * N + j))
              && (AlgorithmX.at_ 0 solution (i * N + j) <=? 9));
    eexists; (split; [rewrite !append_assoc; reflexivity|]);
    rewrite ?length_append, Hlen; reflexivity.
Qed.

(** The text of one row of the grid, before the closing bar. *)
Lemma print_row_text i out :
  0 <= i < N ->
  (forall j, 0 <= j < N -> -9 <= AlgorithmX.at_ 0 solution (i * N + j) <= 99) ->
  exists t, for_range 0 N (print_cell N solution i) out = (out ++ t)%string /\
    Z.of_nat (String.length t) = 4 * N + 3 * s.
Proof.
  intros Hi Hrange. pose proof sqrt_pos as Hs.
  pose (P := fun (j : Z) (o : string) =>
    exists t c, o = (out ++ t)%string /\ Z.of_nat (String.length t) = 4 * j + 3 * c /\
      (c - 1) * s < j <= c * s /\ 0 <= c).
  assert (HP : P N (for_range 0 N (print_cell N solution i) out)).
  { apply (for_range_ind P); unfold P; [lia| |].
    - exists EmptyString, 0. rewrite append_nil_r. simpl. repeat split; lia.
    - intros j o Hj (t & c & -> & Hlen & Hc & Hc0).
      destruct (print_cell_text i j (out ++ t) (Hrange j Hj)) as (t' & -> & Hlen').
      rewrite Z.rem_mod_nonneg in Hlen' by lia.
      destruct (Z.eqb_spec (j `mod` s) 0) as [Hmod|Hmod].
      + exists (t ++ t')%string, (c + 1). rewrite append_assoc, length_append.
        split; [done|]. split; [lia|].
        pose proof (Z.div_mod j s ltac:(lia)) as Hdiv. rewrite Hmod in Hdiv.
        assert (j `div` s = c) by nia. nia.
      + exists (t ++ t')%string, c. rewrite append_assoc, length_append.
        split; [done|]. split; [lia|]. split; [|done].
        pose proof (Z.div_mod j s ltac:(lia)) as Hdiv.
        pose proof (Z.mod_pos_bound j s Hs) as Hb.
        assert (j `div` s = c - 1) by nia. nia. }
  destruct HP as (t & c & -> & Hlen & Hc & Hc0). exists t. split; [done|].
  assert (c = s) by nia. subst c. lia.
Qed.

(** The width of a row when its values are between -9 and 99. *)
Lemma length_row_line i :
  0 <= i < N ->
  (forall k, 0 <= k < N * N -> -9 <= AlgorithmX.at_ 0 solution k <= 99) ->
  Z.of_nat (String.length (row_line N solution i)) = 4 * N + 3 * s + 1.
Proof.
  intros Hi Hrange. unfold row_line.
  destruct (print_row_text i EmptyString Hi) as (t & -> & Ht).
  { intros j Hj. apply Hrange.
    assert (0 <= i * N) by nia. assert (i * N <= (N - 1) * N) by nia. lia. }
  change (EmptyString ++ t)%string with t. rewrite length_append.
  change (String.length "|") with 1%nat. lia.
Qed.

(** The place of row [k] among the lines, and the place of the line of
    dashes after it. *)
Lemma row_position k :
  0 <= k ->
  (k + k `div` s) `mod` (s + 1) <> s /\
  k + k `div` s - (k + k `div` s) `div` (s + 1) = k.
Proof.
  intros Hk. pose proof sqrt_pos as Hs.
  pose proof (Z.div_mod k s ltac:(lia)) as Hdiv.
  pose proof (Z.mod_pos_bound k s Hs) as Hb.
  assert (Hp : k + k `div` s = (s + 1) * (k `div` s) + k `mod` s) by lia.
  assert (Hr : 0 <= k `mod` s < s + 1) by lia.
  rewrite <- (Z.mod_unique_pos _ _ _ _ Hr Hp).
  rewrite <- (Z.div_unique_pos _ _ _ _ Hr Hp). lia.
Qed.

Lemma dashes_position k :
  0 <= k -> (k + 1) `mod` s = 0 ->
  (k + k `div` s + 1) `mod` (s + 1) = s /\ (k + 1) `div` s = k `div` s + 1.
Proof.
  intros Hk Hmod. pose proof sqrt_pos as Hs.
  pose proof (Z.div_mod k s ltac:(lia)) as Hdiv.
  pose proof (Z.mod_pos_bound k s Hs) as Hb.
  pose proof (Z.div_mod (k + 1) s ltac:(lia)) as Hdiv1. rewrite Hmod in Hdiv1.
  assert (Hq : (k + 1) `div` s = k `div` s + 1) by nia.
  split; [|done].
  assert (Hp : k + k `div` s + 1 = (s + 1) * (k `div` s) + s) by nia.
  assert (Hr : 0 <= s < s + 1) by lia.
  symmetry. exact (Z.mod_unique_pos _ _ _ _ Hr Hp).
Qed.

Lemma same_quotient k :
  0 <= k -> (k + 1) `mod` s <> 0 -> (k + 1) `div` s = k `div` s.
Proof.
  intros Hk Hmod. pose proof sqrt_pos as Hs.
  pose proof (Z.div_mod k s ltac:(lia)) as Hdiv.
  pose proof (Z.mod_pos_bound k s Hs) as Hb.
  pose proof (Z.div_mod (k + 1) s ltac:(lia)) as Hdiv1.
  pose proof (Z.mod_pos_bound (k + 1) s Hs) as Hb1. nia.
Qed.

(** X16: [printSolution] appends [N + sqrt N - 1] lines to the stream and
    nothing else.  Counted from 0, the lines at the places [p] with
    [p mod (sqrt N + 1) = sqrt N] are lines of [4 * N + 3 * sqrt N + 1]
    dashes, so that a line of dashes follows every [sqrt N] rows but the
    last; the line at any other place [p] is row [p - p / (sqrt N + 1)] of
    the grid, closed by a bar.  When every value of the grid is between -9
    and 99, every line is [4 * N + 3 * sqrt N + 1] characters wide: the
    rows are as wide as the lines of dashes. *)
Theorem printSolution_aligned out :
  exists ls, printSolution N solution out = (out ++ unlines ls)%string /\
    Z.of_nat (List.length ls) = N + s - 1 /\
    (forall p, 0 <= p < N + s - 1 ->
       ls !! Z.to_nat p =
         Some (if p `mod` (s + 1) =? s then dashes (4 * N + 3 * s + 1)
               else row_line N solution (p - p `div` (s + 1)))) /\
    ((forall k, 0 <= k < N * N -> -9 <= AlgorithmX.at_ 0 solution k <= 99) ->
     forall l, l ∈ ls -> Z.of_nat (String.length l) = 4 * N + 3 * s + 1).
Proof.
  pose proof sqrt_pos as Hs. unfold printSolution, SUDOKU_SIZE_SQUARE_ROOT.
  pose (line := fun p : Z =>
    if p `mod` (s + 1) =? s then dashes (4 * N + 3 * s + 1)
    else row_line N solution (p - p `div` (s + 1))).
  pose (P := fun (i : Z) (o : string) =>
    exists ls, o = (out ++ unlines ls)%string /\
      Z.of_nat (List.length ls) = (if i =? N then i + s - 1 else i + i `div` s) /\
      forall p, 0 <= p < Z.of_nat (List.length ls) -> ls !! Z.to_nat p = Some (line p)).
  match goal with |- context [for_range 0 N ?body out] =>
    assert (HP : P N (for_range 0 N body out)) end.
  { apply (for_range_ind P); unfold P; [lia| |].
    - exists []. split; [simpl; by rewrite append_nil_r|]. split.
      + destruct (Z.eqb_spec 0 N); [lia|]. rewrite Z.div_0_l by lia. simpl. lia.
      + intros p Hp. simpl in Hp. lia.
    - intros i o Hi (ls & -> & Hlen & Hline).
      destruct (Z.eqb_spec i N) as [|_]; [lia|].
      rewrite print_row_append.
      destruct (row_position i ltac:(lia)) as [Hrow1 Hrow2].
      assert (Hrow : line (i + i `div` s) = row_line N solution i).
      { unfold line. destruct (Z.eqb_spec ((i + i `div` s) `mod` (s + 1)) s); [done|].
        by rewrite Hrow2. }
      assert (Hls : forall p x rest, 0 <= p < Z.of_nat (List.length ls) ->
                (ls ++ x :: rest) !! Z.to_nat p = Some (line p)).
      { intros p x rest Hp. rewrite lookup_app_l by lia. by apply Hline. }
      assert (Hnew : forall x rest,
                (ls ++ x :: rest) !! Z.to_nat (i + i `div` s) = Some x).
      { intros x rest. rewrite lookup_app_r by lia.
        replace (Z.to_nat (i + i `div` s) - List.length ls)%nat with 0%nat by lia. done. }
      rewrite Z.rem_mod_nonneg by lia.
      destruct (Z.eqb_spec ((i + 1) `mod` s) 0) as [Hmod|Hmod];
        [destruct (Z.eqb_spec (i + 1) N) as [Hlast|Hlast]|]; simpl.
      + exists (ls ++ [row_line N solution i]).
        split; [rewrite unlines_snoc; unfold row_line; by rewrite !append_assoc|].
        rewrite length_app. simpl.
        destruct (dashes_position i ltac:(lia) Hmod) as [_ Hq].
        assert (i `div` s = s - 1).
        { rewrite Hlast in Hq. replace N with (s * s) in Hq at 1 by lia.
          rewrite Z.div_mul in Hq by lia. lia. }
        split; [lia|]. intros p Hp.
        destruct (decide (p < Z.of_nat (List.length ls))) as [Hlt|Hge];
          [apply Hls; lia|].
        replace p with (i + i `div` s) by lia. by rewrite Hnew, Hrow.
      + exists ((ls ++ [row_line N solution i]) ++ [dashes (N * 4 + 3 * s + 1)]).
        split; [rewrite !unlines_snoc; unfold row_line; by rewrite !append_assoc|].
        rewrite <- app_assoc. simpl. rewrite length_app. simpl.
        destruct (dashes_position i ltac:(lia) Hmod) as [Hd Hq].
        destruct (Z.eqb_spec (i + 1) N) as [|_]; [lia|].
        split; [lia|]. intros p Hp.
        destruct (decide (p < Z.of_nat (List.length ls))) as [Hlt|Hge];
          [apply Hls; lia|].
        destruct (decide (p = i + i `div` s)) as [->|Hne]; [by rewrite Hnew, Hrow|].
        replace p with (i + i `div` s + 1) by lia.
        rewrite lookup_app_r by lia.
        replace (Z.to_nat (i + i `div` s + 1) - List.length ls)%nat with 1%nat by lia.
        simpl. unfold line. rewrite Hd, Z.eqb_refl. do 2 f_equal. lia.
      + exists (ls ++ [row_line N solution i]).
        split; [rewrite unlines_snoc; unfold row_line; by rewrite !append_assoc|].
        rewrite length_app. simpl.
        assert (i + 1 <> N).
        { intros E. apply Hmod. replace (i + 1) with (s * s) by lia. apply Z.mod_mul. lia. }
        destruct (Z.eqb_spec (i + 1) N) as [|_]; [lia|].
        rewrite (same_quotient i) by (done || lia).
        split; [lia|]. intros p Hp.
        destruct (decide (p < Z.of_nat (List.length ls))) as [Hlt|Hge];
          [apply Hls; lia|].
        replace p with (i + i `div` s) by lia. by rewrite Hnew, Hrow. }
  destruct HP as (ls & -> & Hlen & Hline). rewrite Z.eqb_refl in Hlen.
  exists ls. split; [done|]. split; [done|]. split.
  - intros p Hp. apply Hline. lia.
  - intros Hrange l Hl. apply list_elem_of_lookup in Hl as [n Hn].
    pose proof (lookup_lt_Some _ _ _ Hn) as Hlt.
    rewrite <- (Nat2Z.id n) in Hn. rewrite Hline in Hn by lia.
    injection Hn as <-. unfold line.
    destruct (Z.eqb_spec (Z.of_nat n `mod` (s + 1)) s) as [Hd|Hd].
    + rewrite length_dashes. lia.
    + apply length_row_line; [|done].
      pose proof (Z.div_mod (Z.of_nat n) (s + 1) ltac:(lia)) as Hdiv.
      pose proof (Z.mod_pos_bound (Z.of_nat n) (s + 1) ltac:(lia)) as Hb.
      nia.
Qed.

End Width.

(** A check of the values that computes. *)
Lemma range_check N solution :
  forallb (fun k => (-9 <=? AlgorithmX.at_ 0 solution k)
                    && (AlgorithmX.at_ 0 solution k <=? 99)) (seqZ 0 (N * N)) = true ->
  forall k, 0 <= k < N * N -> -9 <= AlgorithmX.at_ 0 solution k <= 99.
Proof.
  intros Hall k Hk. rewrite forallb_forall in Hall. specialize (Hall k).
  assert (Hin : k ∈ seqZ 0 (N * N)) by (apply elem_of_seqZ; lia).
  apply list_elem_of_In, Hall, andb_prop in Hin. lia.
Qed.

Lemma printSolution_aligned_4 :
  GoodSize 4 /\
  exists ls,
    printSolution 4 [0; 1; 2; 3; 2; 3; 0; 1; 1; 0; 3; 2; 3; 2; 1; 0] EmptyString
      = (EmptyString ++ unlines ls)%string /\
    Z.of_nat (List.length ls) = 4 + Z.sqrt 4 - 1 /\
    (forall p, 0 <= p < 4 + Z.sqrt 4 - 1 ->
       ls !! Z.to_nat p =
         Some (if p `mod` (Z.sqrt 4 + 1) =? Z.sqrt 4
               then dashes (4 * 4 + 3 * Z.sqrt 4 + 1)
               else row_line 4 [0; 1; 2; 3; 2; 3; 0; 1; 1; 0; 3; 2; 3; 2; 1; 0]
                      (p - p `div` (Z.sqrt 4 + 1)))) /\
    forall l, l ∈ ls -> Z.of_nat (String.length l) = 4 * 4 + 3 * Z.sqrt 4 + 1.
Proof.
  assert (H1 : forall k, 0 <= k < 4 * 4 ->
     -9 <= AlgorithmX.at_ 0 [0; 1; 2; 3; 2; 3; 0; 1; 1; 0; 3; 2; 3; 2; 1; 0] k <= 99).
  { apply range_check. vm_compute. reflexivity. }
  destruct (@printSolution_aligned 4 GoodSize_4
              [0; 1; 2; 3; 2; 3; 0; 1; 1; 0; 3; 2; 3; 2; 1; 0] EmptyString)
    as (ls & Hout & Hlen & Hline & Hwidth).
  split; [exact GoodSize_4|]. exists ls.
  split; [exact Hout|]. split; [exact Hlen|]. split; [exact Hline|exact (Hwidth H1)].
Defined.

End PrintingProofs.
